(** * Xiv2Pub (tex2epub): a shallow embedding of the LaTeX preprocessor and
      the EPUB post-processor, with the properties of its specification.

    Text is a list of 8-bit characters (code points below 256); Python
    integers are [Z]; code that can raise returns a [res]. *)

From Stdlib Require Import Ascii String ZArith Lia Bool Arith Sorted List
  Permutation.
Import ListNotations.

Set Implicit Arguments.

(* ================================================================== *)
(** ** Python strings *)
(* ================================================================== *)

Module Py.

Definition str := list ascii.

Definition txt (s : string) : str := list_ascii_of_string s.

Definition dq : ascii := "034"%char.   (* the double quote *)
Definition nl : ascii := "010"%char.   (* the newline *)
Definition bsl : ascii := "092"%char.  (* the backslash *)

Definition len (s : str) : Z := Z.of_nat (length s).

(** Exceptions the modelled code can raise. [TemplateError] is what the
    replacement-template compiler of [re.sub] raises ([re.error], or
    [IndexError] for an unknown group name); [StructError] is
    [struct.error]. *)
Inductive exn : Type :=
| ValueError | IndexError | UnboundLocalError | OSError | TemplateError
| StructError.

(** Result of a computation: a value, an exception, or a loop that was
    still running when the fuel ran out. *)
Inductive res (A : Type) : Type :=
| Ok (a : A)
| Raise (e : exn)
| OutOfFuel.
Arguments Raise {A} e.
Arguments OutOfFuel {A}.

Definition bind {A B : Type} (x : res A) (f : A -> res B) : res B :=
  match x with
  | Ok a => f a
  | Raise e => Raise e
  | OutOfFuel => OutOfFuel
  end.

Definition str_eqb (a b : str) : bool :=
  if list_eq_dec ascii_dec a b then true else false.

Definition char_in (c : ascii) (cs : str) : bool := existsb (Ascii.eqb c) cs.

Definition code (c : ascii) : nat := nat_of_ascii c.

Definition between (lo hi : nat) (c : ascii) : bool :=
  (lo <=? code c)%nat && (code c <=? hi)%nat.

(** [a-zA-Z] *)
Definition is_alpha (c : ascii) : bool := between 97 122 c || between 65 90 c.

(** [0-9]; the only decimal digits below code point 256 *)
Definition is_digit (c : ascii) : bool := between 48 57 c.

(** [str.isspace] / [\s] below code point 256 *)
Definition is_space (c : ascii) : bool :=
  between 9 13 c || between 28 32 c
  || (code c =? 133)%nat || (code c =? 160)%nat.

(** [\w] below code point 256: alphanumeric or underscore *)
Definition is_word (c : ascii) : bool :=
  is_alpha c || is_digit c || (code c =? 95)%nat
  || (code c =? 170)%nat || (code c =? 178)%nat || (code c =? 179)%nat
  || (code c =? 181)%nat || (code c =? 185)%nat || (code c =? 186)%nat
  || between 188 190 c || between 192 214 c || between 216 246 c
  || between 248 255 c.

(** [s] begins with [p] *)
Fixpoint starts_with (p s : str) : bool :=
  match p, s with
  | [], _ => true
  | _ :: _, [] => false
  | a :: p', b :: s' => Ascii.eqb a b && starts_with p' s'
  end.

Local Open Scope Z_scope.

(** The lowest index [>= i] at which [sub] occurs, [s] being the text
    from index [i] on; [-1] when there is none. *)
Fixpoint find_at (sub s : str) (i : Z) : Z :=
  if starts_with sub s then i
  else match s with
       | [] => -1
       | _ :: s' => find_at sub s' (i + 1)
       end.

(** [s.find(sub, start)] *)
Definition find (s sub : str) (start : Z) : Z :=
  let n := len s in
  let start := if start <? 0 then Z.max 0 (start + n) else start in
  if n <? start then -1
  else find_at sub (skipn (Z.to_nat start) s) start.

(** [s.index(sub, start)] *)
Definition index (s sub : str) (start : Z) : res Z :=
  let i := find s sub start in
  if i =? -1 then Raise ValueError else Ok i.

(** [sub in s] *)
Definition contains (sub s : str) : bool := negb (find s sub 0 =? -1).

(** A slice bound, as Python clips it. *)
Definition clip (n i : Z) : Z :=
  if i <? 0 then Z.max 0 (i + n) else Z.min i n.

(** [s[a:b]] *)
Definition slice (s : str) (a b : Z) : str :=
  let a' := clip (len s) a in
  let b' := clip (len s) b in
  firstn (Z.to_nat (b' - a')) (skipn (Z.to_nat a') s).

(** [s[a:]] *)
Definition slice_from (s : str) (a : Z) : str :=
  skipn (Z.to_nat (clip (len s) a)) s.

Local Close Scope Z_scope.

(** [s.replace(old, new)]: every non-overlapping occurrence, left to
    right. [skip] counts the characters of an occurrence still to drop. *)
Fixpoint replace_go (old new s : str) (skip : nat) : str :=
  match s with
  | [] => match old, skip with
          | [], 0 => new
          | _, _ => []
          end
  | c :: s' =>
      match skip with
      | S k => replace_go old new s' k
      | 0 =>
          if starts_with old s then
            match old with
            | [] => new ++ c :: replace_go old new s' 0
            | _ :: old' => new ++ replace_go old new s' (length old')
            end
          else c :: replace_go old new s' 0
      end
  end.

Definition replace (s old new : str) : str := replace_go old new s 0.

(** [s.endswith(suffix)] *)
Definition endswith (s suffix : str) : bool :=
  starts_with (rev suffix) (rev s).

Fixpoint lstrip (s : str) : str :=
  match s with
  | c :: s' => if is_space c then lstrip s' else s
  | [] => []
  end.

(** [s.strip()] *)
Definition strip (s : str) : str := rev (lstrip (rev (lstrip s))).

(** [s.split()]: the maximal runs of non-space characters. [cur] is the
    run being read, reversed. *)
Fixpoint split_go (s cur : str) : list str :=
  match s with
  | [] => match cur with [] => [] | _ => [rev cur] end
  | c :: s' =>
      if is_space c then
        match cur with
        | [] => split_go s' []
        | _ => rev cur :: split_go s' []
        end
      else split_go s' (c :: cur)
  end.

Definition split (s : str) : list str := split_go s [].

(** [sep.join(parts)] *)
Fixpoint join (sep : str) (parts : list str) : str :=
  match parts with
  | [] => []
  | [p] => p
  | p :: ps => p ++ sep ++ join sep ps
  end.

(** [s.count(sub)] for a non-empty [sub] that cannot overlap itself. *)
Fixpoint count (sub s : str) : nat :=
  match s with
  | [] => 0
  | _ :: s' => (if starts_with sub s then 1 else 0) + count sub s'
  end.

End Py.

Import Py.

Declare Scope res_scope.
Notation "x <- c1 ;; c2" := (bind c1 (fun x => c2))
  (at level 61, c1 at next level, right associativity) : res_scope.
Open Scope res_scope.

(* ================================================================== *)
(** ** The regular expressions of Python's [re], as far as the code
       uses them: a backtracking matcher in continuation-passing style *)
(* ================================================================== *)

Module Re.

Inductive regex : Type :=
| Eps                                  (* the empty pattern *)
| Lit (s : str)                        (* literal text *)
| Cls (p : ascii -> bool)              (* one character of a class *)
| Seq (a b : regex)                    (* ab *)
| Alt (a b : regex)                    (* a|b *)
| Star (greedy : bool) (a : regex)     (* a* and a*? *)
| Grp (n : nat) (a : regex)            (* capturing group number n *)
| NotAhead (a : regex)                 (* (?!a) *)
| Bol                                  (* ^ under re.MULTILINE *)
| Eol                                  (* $ under re.MULTILINE *)
| WordB.                               (* \b *)

Definition Plus (greedy : bool) (a : regex) : regex := Seq a (Star greedy a).
Definition Opt (a : regex) : regex := Alt a Eps.                (* a? *)
Definition Any : regex := Cls (fun _ => true).                  (* . under re.DOTALL *)
Definition Dot : regex := Cls (fun c => negb (Ascii.eqb c nl)). (* . *)
Definition Not (cs : string) : regex := Cls (fun c => negb (char_in c (txt cs))).
Definition Space : regex := Cls is_space.                       (* \s *)
Definition Alpha : regex := Cls is_alpha.                       (* [a-zA-Z] *)
Definition Digit : regex := Cls is_digit.                       (* \d *)
Definition L (s : string) : regex := Lit (txt s).

Fixpoint seqs (rs : list regex) : regex :=
  match rs with
  | [] => Eps
  | [r] => r
  | r :: rs' => Seq r (seqs rs')
  end.

(** The matcher's position: the text already passed (nearest character
    first), the text ahead, and the groups captured so far (latest
    first). *)
Record mstate : Type := MState {
  seen : str;
  rest : str;
  caps : list (nat * str)
}.

Definition consumed (from : str) (st : mstate) : nat :=
  length from - length (rest st).

Definition at_bol (st : mstate) : bool :=
  match seen st with
  | [] => true
  | c :: _ => Ascii.eqb c nl
  end.

Definition at_eol (st : mstate) : bool :=
  match rest st with
  | [] => true
  | c :: _ => Ascii.eqb c nl
  end.

Definition at_wordb (st : mstate) : bool :=
  let before := match seen st with [] => false | c :: _ => is_word c end in
  let after := match rest st with [] => false | c :: _ => is_word c end in
  xorb before after.

(** The repetition of a step: [greedy] repeats before it tries to go on,
    lazy goes on before it repeats. An iteration only counts when it has
    consumed text, so the length of the text ahead bounds the number of
    iterations and is the [fuel]. *)
Fixpoint star_loop (greedy : bool)
  (step : mstate -> (mstate -> option mstate) -> option mstate)
  (k : mstate -> option mstate) (fuel : nat) (st : mstate) {struct fuel}
  : option mstate :=
  match fuel with
  | 0 => k st
  | S fuel' =>
      let again (st' : mstate) :=
        if length (rest st') <? length (rest st)
        then star_loop greedy step k fuel' st' else None in
      if greedy then
        match step st again with
        | Some out => Some out
        | None => k st
        end
      else
        match k st with
        | Some out => Some out
        | None => step st again
        end
  end.

(** [run r st k]: match [r] at [st] and hand the position reached to
    [k]; when [k] refuses, try the next way of matching [r]. *)
Fixpoint run (r : regex) (st : mstate) (k : mstate -> option mstate)
  {struct r} : option mstate :=
  match r with
  | Eps => k st
  | Lit s =>
      if starts_with s (rest st)
      then k (MState (rev s ++ seen st) (skipn (length s) (rest st)) (caps st))
      else None
  | Cls p =>
      match rest st with
      | c :: tl => if p c then k (MState (c :: seen st) tl (caps st)) else None
      | [] => None
      end
  | Seq a b => run a st (fun st' => run b st' k)
  | Alt a b =>
      match run a st k with
      | Some out => Some out
      | None => run b st k
      end
  | Star greedy a => star_loop greedy (run a) k (length (rest st)) st
  | Grp n a =>
      run a st (fun st' =>
        k (MState (seen st') (rest st')
                  ((n, firstn (consumed (rest st) st') (rest st)) :: caps st')))
  | NotAhead a =>
      match run a st (fun st' => Some st') with
      | Some _ => None
      | None => k st
      end
  | Bol => if at_bol st then k st else None
  | Eol => if at_eol st then k st else None
  | WordB => if at_wordb st then k st else None
  end.

(** A match object. *)
Record rmatch : Type := RMatch {
  m_text : str;                  (* m.group(0) *)
  m_caps : list (nat * str)
}.

Fixpoint assoc (n : nat) (l : list (nat * str)) : option str :=
  match l with
  | [] => None
  | (m, s) :: l' => if Nat.eqb n m then Some s else assoc n l'
  end.

(** [m.group(n)]; [None] for a group that took no part in the match. *)
Definition group (m : rmatch) (n : nat) : option str :=
  match n with
  | 0 => Some (m_text m)
  | _ => assoc n (m_caps m)
  end.

(** [m.group(n)], or the empty text for a group without a value *)
Definition group_or_empty (m : rmatch) (n : nat) : str :=
  match group m n with
  | Some s => s
  | None => []
  end.

(** One match attempt at a position; [advance] refuses the empty match. *)
Definition match_here (r : regex) (advance : bool) (before after : str)
  : option (rmatch * nat) :=
  match run r (MState before after [])
          (fun st => if advance && (length (rest st) =? length after)
                     then None else Some st) with
  | Some st =>
      let n := consumed after st in
      Some (RMatch (firstn n after) (caps st), n)
  | None => None
  end.

(** The matches that start at a position, and how far the last of them
    reaches: after an empty match the same position is tried once more
    for a match that is not empty. *)
Definition hits_at (r : regex) (before after : str) : list rmatch * nat :=
  match match_here r false before after with
  | None => ([], 0)
  | Some (m1, S n) => ([m1], S n)
  | Some (m1, 0) =>
      match match_here r true before after with
      | Some (m2, n) => ([m1; m2], n)
      | None => ([m1], 0)
      end
  end.

(** A text cut into its matches and the characters between them: the
    left-to-right scan of non-overlapping matches that [re.sub],
    [re.finditer], [re.findall], [re.split] and [re.search] share. *)
Inductive piece : Type :=
| Txt (c : ascii)
| Hit (m : rmatch).

Fixpoint scan_go (r : regex) (before after : str) (skip : nat) : list piece :=
  match skip with
  | S k =>
      match after with
      | c :: tl => scan_go r (c :: before) tl k
      | [] => []
      end
  | 0 =>
      let '(hits, n) := hits_at r before after in
      map Hit hits ++
      match after with
      | [] => []
      | c :: tl =>
          match n with
          | 0 => Txt c :: scan_go r (c :: before) tl 0
          | S k => scan_go r (c :: before) tl k
          end
      end
  end.

Definition scan (r : regex) (s : str) : list piece := scan_go r [] s 0.

(** [re.finditer(r, s)] *)
Fixpoint hits (ps : list piece) : list rmatch :=
  match ps with
  | [] => []
  | Txt _ :: ps' => hits ps'
  | Hit m :: ps' => m :: hits ps'
  end.

Definition finditer (r : regex) (s : str) : list rmatch := hits (scan r s).

(** [re.search(r, s)] *)
Definition search (r : regex) (s : str) : option rmatch :=
  match finditer r s with
  | [] => None
  | m :: _ => Some m
  end.

(** [re.findall(r, s)] for a pattern with one group *)
Definition findall1 (r : regex) (s : str) : list str :=
  map (fun m => group_or_empty m 1) (finditer r s).

(** [re.sub(r, f, s)] with a function [f] *)
Fixpoint sub_pieces (f : rmatch -> str) (ps : list piece) : str :=
  match ps with
  | [] => []
  | Txt c :: ps' => c :: sub_pieces f ps'
  | Hit m :: ps' => f m ++ sub_pieces f ps'
  end.

Definition sub_fun (r : regex) (f : rmatch -> str) (s : str) : str :=
  sub_pieces f (scan r s).

(** [re.sub(r, f, s)] with a function [f] that can raise *)
Fixpoint sub_pieces_res (f : rmatch -> res str) (ps : list piece) : res str :=
  match ps with
  | [] => Ok []
  | Txt c :: ps' => out <- sub_pieces_res f ps' ;; Ok (c :: out)
  | Hit m :: ps' =>
      new <- f m ;; out <- sub_pieces_res f ps' ;; Ok (new ++ out)
  end.

Definition sub_res (r : regex) (f : rmatch -> res str) (s : str) : res str :=
  sub_pieces_res f (scan r s).

(** [re.split(r, s)] for a pattern without groups *)
Fixpoint split_pieces (ps : list piece) (cur : str) : list str :=
  match ps with
  | [] => [rev cur]
  | Txt c :: ps' => split_pieces ps' (c :: cur)
  | Hit _ :: ps' => rev cur :: split_pieces ps' []
  end.

Definition split (r : regex) (s : str) : list str := split_pieces (scan r s) [].

(** *** Replacement templates *)

Inductive titem : Type :=
| TLit (c : ascii)
| TGrp (n : nat).

Definition digit_val (c : ascii) : nat := code c - 48.
Definition is_octal (c : ascii) : bool := between 48 55 c.

Fixpoint digits_val (ds : str) (acc : nat) : nat :=
  match ds with
  | [] => acc
  | d :: ds' => digits_val ds' (10 * acc + digit_val d)
  end.

Fixpoint span (p : ascii -> bool) (s : str) : str * str :=
  match s with
  | c :: s' => if p c then let '(a, b) := span p s' in (c :: a, b) else ([], s)
  | [] => ([], [])
  end.

(** What an escape of the template stands for, when it is one of the
    known ones. *)
Definition escape_char (c : ascii) : option ascii :=
  if Ascii.eqb c "a" then Some "007"%char
  else if Ascii.eqb c "b" then Some "008"%char
  else if Ascii.eqb c "f" then Some "012"%char
  else if Ascii.eqb c "n" then Some "010"%char
  else if Ascii.eqb c "r" then Some "013"%char
  else if Ascii.eqb c "t" then Some "009"%char
  else if Ascii.eqb c "v" then Some "011"%char
  else if Ascii.eqb c bsl then Some bsl
  else None.

Definition tgroup (groups n : nat) (k : res (list titem)) : res (list titem) :=
  if groups <? n then Raise TemplateError
  else items <- k ;; Ok (TGrp n :: items).

(** The template compiler: [groups] is the number of groups of the
    pattern. [fuel] bounds the number of items and is the length of the
    template. A group is named by its number in ASCII digits, as the
    compiler reads it from Python 3.12 on; earlier versions also took a
    number written with blanks, a sign or underscores. *)
Fixpoint parse_template (fuel groups : nat) (t : str) : res (list titem) :=
  match fuel with
  | 0 => Ok []
  | S fuel' =>
      let continue (t' : str) := parse_template fuel' groups t' in
      match t with
      | [] => Ok []
      | c :: t1 =>
          if negb (Ascii.eqb c bsl)
          then items <- continue t1 ;; Ok (TLit c :: items)
          else
            match t1 with
            | [] => Raise TemplateError              (* a lone backslash *)
            | e :: t2 =>
                if Ascii.eqb e "g" then
                  match t2 with
                  | "<"%char :: t3 =>
                      let '(ds, t4) := span is_digit t3 in
                      match ds, t4 with
                      | _ :: _, ">"%char :: t5 =>
                          tgroup groups (digits_val ds 0) (continue t5)
                      | _, _ => Raise TemplateError
                      end
                  | _ => Raise TemplateError
                  end
                else if Ascii.eqb e "0" then
                  match t2 with
                  | o1 :: t3 =>
                      if is_octal o1 then
                        match t3 with
                        | o2 :: t4 =>
                            if is_octal o2 then
                              items <- continue t4 ;;
                              Ok (TLit (ascii_of_nat
                                    (8 * digit_val o1 + digit_val o2)) :: items)
                            else
                              items <- continue t3 ;;
                              Ok (TLit (ascii_of_nat (digit_val o1)) :: items)
                        | [] =>
                            Ok [TLit (ascii_of_nat (digit_val o1))]
                        end
                      else items <- continue t2 ;; Ok (TLit zero :: items)
                  | [] => Ok [TLit zero]
                  end
                else if is_digit e then
                  match t2 with
                  | d2 :: t3 =>
                      if is_digit d2 then
                        match t3 with
                        | d3 :: t4 =>
                            if is_octal e && is_octal d2 && is_octal d3 then
                              let v := 64 * digit_val e + 8 * digit_val d2
                                       + digit_val d3 in
                              if 255 <? v then Raise TemplateError
                              else items <- continue t4 ;;
                                   Ok (TLit (ascii_of_nat v) :: items)
                            else
                              tgroup groups (10 * digit_val e + digit_val d2)
                                     (continue t3)
                        | [] =>
                            tgroup groups (10 * digit_val e + digit_val d2)
                                   (Ok [])
                        end
                      else tgroup groups (digit_val e) (continue t2)
                  | [] => tgroup groups (digit_val e) (Ok [])
                  end
                else
                  match escape_char e with
                  | Some x => items <- continue t2 ;; Ok (TLit x :: items)
                  | None =>
                      if is_alpha e then Raise TemplateError   (* bad escape *)
                      else items <- continue t2 ;;
                           Ok (TLit bsl :: TLit e :: items)
                  end
            end
      end
  end.

Definition expand_item (m : rmatch) (i : titem) : str :=
  match i with
  | TLit c => [c]
  | TGrp n => group_or_empty m n
  end.

Definition expand (items : list titem) (m : rmatch) : str :=
  concat (map (expand_item m) items).

(** [re.sub(r, repl, s)] with a string [repl], for a pattern [r] with
    [groups] groups: a template without a backslash is literal text; any
    other is compiled before the text is searched, so that a template in
    error raises whether or not the pattern matches. *)
Definition sub (groups : nat) (r : regex) (repl : str) (s : str) : res str :=
  if negb (char_in bsl repl) then Ok (sub_fun r (fun _ => repl) s)
  else items <- parse_template (length repl) groups repl ;;
       Ok (sub_fun r (expand items) s).

(** [re.sub] with the empty replacement: the matches are deleted *)
Definition remove (r : regex) (s : str) : str := sub_fun r (fun _ => []) s.

End Re.

(* ================================================================== *)
(** ** tex2epub/preprocessor.py *)
(* ================================================================== *)

Module Preprocessor.

Import Re.

Record PaperMetadata : Type := Meta {
  title : str;
  authors : list str;
  abstract : str;
  date : str
}.

Fixpoint map_res {A B : Type} (f : A -> res B) (l : list A) : res (list B) :=
  match l with
  | [] => Ok []
  | a :: l' => b <- f a ;; bs <- map_res f l' ;; Ok (b :: bs)
  end.

(** *** [_clean_tex] *)

Definition one_arg (name : regex) : regex :=
  seqs [name; L "{"; Grp 1 (Star true (Not "}")); L "}"].

Definition _clean_tex (text : str) : res str :=
  text <- sub 1 (one_arg (L "\textbf")) (txt "\1") text ;;
  text <- sub 1 (one_arg (L "\textit")) (txt "\1") text ;;
  text <- sub 1 (one_arg (L "\emph")) (txt "\1") text ;;
  text <- sub 1 (one_arg (Seq (L "\") (Plus true Alpha))) (txt "\1") text ;;
  text <- sub 0 (Cls (fun c => char_in c (txt "{}"))) [] text ;;
  text <- sub 0 (Plus true Space) (txt " ") text ;;
  Ok (strip text).

(** *** [_extract_metadata] *)

(** The title patterns, in the order the loop tries them (re.DOTALL). *)
Definition icmltitle_re : regex :=
  seqs [L "\icmltitle{"; Grp 1 (Plus false Any); L "}"].
Definition neurips_title_re : regex :=
  seqs [L "\neurips"; Star false Any; L "title{"; Grp 1 (Plus false Any); L "}"].
Definition title_re : regex :=
  seqs [L "\title{"; Grp 1 (Plus false Any); L "}"].

Definition title_patterns : list regex :=
  [icmltitle_re; neurips_title_re; title_re].

(** The [for pattern in ...: m = re.search(...); if m: ...; break] loop:
    the title found, or [None] when no pattern matches. *)
Fixpoint first_title (patterns : list regex) (content : str) : res (option str) :=
  match patterns with
  | [] => Ok None
  | pattern :: patterns' =>
      match search pattern content with
      | Some m => t <- _clean_tex (group_or_empty m 1) ;; Ok (Some t)
      | None => first_title patterns' content
      end
  end.

Definition icmlauthor_re : regex :=
  seqs [L "\icmlauthor{"; Grp 1 (Plus true (Not "}")); L "}"].
Definition author_re : regex :=
  seqs [L "\author{"; Grp 1 (Plus false Any); L "}"].
Definition and_re : regex := Seq (L "\and") WordB.
Definition abstract_re : regex :=
  seqs [L "\begin{abstract}"; Grp 1 (Plus false Any); L "\end{abstract}"].

Definition nonempty (s : str) : bool :=
  match s with [] => false | _ => true end.

Definition _extract_metadata (content : str) : res PaperMetadata :=
  t <- first_title title_patterns content ;;
  let meta_title := match t with Some t => t | None => [] end in
  let icml_authors := findall1 icmlauthor_re content in
  meta_authors <-
    (match icml_authors with
     | _ :: _ => map_res _clean_tex icml_authors
     | [] =>
         match search author_re content with
         | Some m =>
             let parts := split and_re (group_or_empty m 1) in
             cleaned <- map_res _clean_tex parts ;;
             Ok (filter nonempty cleaned)
         | None => Ok []
         end
     end) ;;
  let meta_abstract :=
    match search abstract_re content with
    | Some m => strip (group_or_empty m 1)
    | None => []
    end in
  Ok (Meta meta_title meta_authors meta_abstract []).

(** *** [_strip_conference_commands] *)

Definition tail_ws : regex := Seq (Star true Space) (Opt (Lit [nl])).  (* \s*\n? *)
Definition braces : regex := seqs [L "{"; Star true (Not "}"); L "}"]. (* \{[^}]*\} *)

Definition twocolumn_open_re : regex := L "\twocolumn[".
Definition lone_bracket_re : regex := seqs [Bol; L "]"; Star true Space; Eol].

(** The two-column wrapper step: the opening token, then the closing
    bracket lines. *)
Definition strip_twocolumn (content : str) : str :=
  let content := remove twocolumn_open_re content in
  remove lone_bracket_re content.

Definition _strip_conference_commands (content : str) (meta : PaperMetadata) : str :=
  let content := remove (seqs [L "\icmltitlerunning"; braces; tail_ws]) content in
  let content := remove (seqs [L "\icmlsetsymbol"; braces; braces; tail_ws]) content in
  let content := remove (seqs [L "\icmlkeywords"; braces; tail_ws]) content in
  let content := remove (seqs [L "\icmlaffiliation"; braces; braces; tail_ws]) content in
  let content :=
    remove (seqs [L "\icmlcorrespondingauthor"; braces; braces; tail_ws]) content in
  let content :=
    remove (seqs [L "\printAffiliationsAndNotice"; Opt (Grp 1 braces); tail_ws])
           content in
  let content := remove (seqs [L "\icmltitle"; braces; Star true Space]) content in
  let content :=
    remove (seqs [L "\begin{icmlauthorlist}"; Star false Any;
                  L "\end{icmlauthorlist}"; Star true Space]) content in
  let content := strip_twocolumn content in
  remove (seqs [L "\neurips"; Star false Dot; braces; tail_ws]) content.

(** *** [_expand_simple_macros] *)

(** The replacement text of a definition: text free of braces, then any
    number of brace groups without inner braces, each followed by text
    free of braces. *)
Definition macro_body : regex :=
  Seq (Star true (Not "{}"))
      (Star true (seqs [L "{"; Star true (Not "{}"); L "}"; Star true (Not "{}")])).

Definition macro_name : regex := Seq (L "\") (Plus true Alpha).
Definition new_or_renew : regex := seqs [L "\"; Alt (L "new") (L "renew"); L "command"].

Definition macro_def_re : regex :=
  seqs [new_or_renew; L "{"; Grp 1 macro_name; L "}"; L "{"; Grp 2 macro_body; L "}"].

Definition macro_del_re : regex :=
  seqs [new_or_renew; L "{"; macro_name; L "}";
        Opt (seqs [L "["; Plus true Digit; L "]"]);
        L "{"; macro_body; L "}"; tail_ws].

(** [macros[cmd] = replacement] on a dict, which keeps insertion order:
    a key already present keeps its place. *)
Fixpoint dict_set (d : list (str * str)) (k v : str) : list (str * str) :=
  match d with
  | [] => [(k, v)]
  | (k', v') :: d' =>
      if str_eqb k k' then (k, v) :: d' else (k', v') :: dict_set d' k v
  end.

Definition collect_macros (content : str) : list (str * str) :=
  fold_left
    (fun macros m =>
       let cmd := group_or_empty m 1 in
       let replacement := group_or_empty m 2 in
       if negb (char_in "#" replacement) then dict_set macros cmd replacement
       else macros)
    (finditer macro_def_re content) [].

(** [re.escape(cmd) + r"(?![a-zA-Z])"]: [cmd] is a backslash and
    letters, so the escaped pattern matches it literally. *)
Definition macro_use_re (cmd : str) : regex := Seq (Lit cmd) (NotAhead Alpha).

Fixpoint expand_macros (macros : list (str * str)) (content : str) : res str :=
  match macros with
  | [] => Ok content
  | (cmd, replacement) :: macros' =>
      content <- sub 0 (macro_use_re cmd) replacement content ;;
      expand_macros macros' content
  end.

Definition annotators : regex :=
  seqs [L "\";
        Alt (L "todo") (Alt (L "davide") (Alt (L "sasha") (Alt (L "joel")
          (Alt (L "logan") (Alt (L "wil") (L "vezhnick"))))))].

Definition _expand_simple_macros (content : str) : res str :=
  let macros := collect_macros content in
  let content := remove macro_del_re content in
  content <- expand_macros macros content ;;
  let content := remove (Seq annotators braces) content in
  let content :=
    remove (seqs [annotators; L "["; Star true (Not "]"); L "]"; braces]) content in
  Ok content.

(** *** [_rebuild_document] *)

Definition begin_document : str := txt "\begin{document}".
Definition end_document : str := txt "\end{document}".

Definition document_re : regex :=
  seqs [Lit begin_document; Grp 1 (Star false Any); Lit end_document].

Definition preamble0 : str :=
  txt "\documentclass{article}" ++ [nl] ++
  txt "\usepackage{amsmath}" ++ [nl] ++
  txt "\usepackage{amssymb}" ++ [nl] ++
  txt "\usepackage{graphicx}" ++ [nl] ++
  txt "\usepackage{hyperref}" ++ [nl] ++
  txt "\usepackage{booktabs}" ++ [nl].

(** The text the rebuilder keeps as the body. *)
Definition document_body (content : str) : str :=
  match search document_re content with
  | Some m => group_or_empty m 1
  | None => content
  end.

Definition _rebuild_document (content : str) (meta : PaperMetadata) : str :=
  let body := document_body content in
  let preamble := preamble0 in
  let preamble :=
    if nonempty (title meta)
    then preamble ++ txt "\title{" ++ title meta ++ txt "}" ++ [nl]
    else preamble in
  let preamble :=
    match authors meta with
    | _ :: _ =>
        let author_str := join (txt " \and ") (authors meta) in
        preamble ++ txt "\author{" ++ author_str ++ txt "}" ++ [nl]
    | [] => preamble
    end in
  let doc := preamble ++ [nl] ++ begin_document ++ [nl] in
  let doc := if nonempty (title meta) then doc ++ txt "\maketitle" ++ [nl] else doc in
  let doc := doc ++ body in
  doc ++ [nl] ++ end_document ++ [nl].

(** *** The stages that read the file system

    [pathlib] is taken as given: a type of paths with the operations the
    code calls on it. *)
Section FileSystem.

Variable path : Type.
Variable joinpath : path -> str -> path.      (* work_dir / filename *)
Variable parent : path -> path.               (* path.parent *)
Variable name : path -> str.                  (* path.name *)
Variable exists_ : path -> option bool.       (* path.exists(); None: an OSError,
                                                 as for a name that is too long *)
Variable read_text : path -> option str.      (* path.read_text(errors=...); None: an OSError *)
Variable glob_bib : path -> list path.        (* list(work_dir.glob("*.bib")) *)

Definition input_re : regex :=
  seqs [L "\input{"; Grp 1 (Plus true (Not "}")); L "}"].
Definition include_re : regex :=
  seqs [L "\include{"; Grp 1 (Plus true (Not "}")); L "}"].

(** [_resolve_includes]; [fuel] bounds the depth of the recursion. *)
Fixpoint _resolve_includes (fuel : nat) (content : str) (work_dir : path)
  (depth : Z) : res str :=
  if (depth >? 10)%Z then Ok content
  else
    match fuel with
    | 0 => OutOfFuel
    | S fuel' =>
        let _replace_input (m : rmatch) : res str :=
          let filename := group_or_empty m 1 in
          let filename :=
            if negb (endswith filename (txt ".tex"))
            then filename ++ txt ".tex" else filename in
          let path := joinpath work_dir filename in
          match exists_ path with
          | Some true =>
              match read_text path with
              | Some sub => _resolve_includes fuel' sub (parent path) (depth + 1)
              | None => Raise OSError     (* the path is a directory, say *)
              end
          | Some false => Ok (m_text m)
          | None => Raise OSError
          end in
        content <- sub_res input_re _replace_input content ;;
        sub_res include_re _replace_input content
    end.

Definition bibliography_re : regex :=
  seqs [L "\bibliography{"; Grp 1 (Plus true (Not "}")); L "}"].
Definition bibliographystyle_re : regex :=
  seqs [L "\bibliographystyle"; braces; tail_ws].

(** The name of the bibliography file the stage settles on; the code
    computes it and then drops it. *)
Definition bib_lookup (content : str) (work_dir : path) : res (option str) :=
  match search bibliography_re content with
  | Some m =>
      let bib_name := group_or_empty m 1 in
      let bib_name :=
        if negb (endswith bib_name (txt ".bib"))
        then bib_name ++ txt ".bib" else bib_name in
      match exists_ (joinpath work_dir bib_name) with
      | Some false =>
          match glob_bib work_dir with
          | f :: _ => Ok (Some (name f))
          | [] => Ok (Some bib_name)
          end
      | Some true => Ok (Some bib_name)
      | None => Raise OSError
      end
  | None => Ok None
  end.

Definition _prepare_bibliography (content : str) (work_dir : path) : res str :=
  bib_name <- bib_lookup content work_dir ;;
  let content := remove bibliographystyle_re content in
  Ok content.

End FileSystem.

End Preprocessor.

(* ================================================================== *)
(** ** tex2epub/postprocessor.py *)
(* ================================================================== *)

Module Postprocessor.

Import Re.

Definition FONT_FILES : list str :=
  [ txt "lmroman10-regular.otf";
    txt "lmroman10-bold.otf";
    txt "lmroman10-italic.otf";
    txt "lmroman10-bolditalic.otf";
    txt "lmsans10-regular.otf";
    txt "lmsans10-bold.otf";
    txt "lmmono10-regular.otf" ].

(** *** [_update_manifest] *)

Definition item_id (font_name : str) : str :=
  replace (replace font_name (txt ".") (txt "-")) (txt "-otf") [].

Definition font_item (font_name : str) : str :=
  txt "    <item id=" ++ [dq] ++ item_id font_name ++ [dq] ++
  txt " href=" ++ [dq] ++ txt "fonts/" ++ font_name ++ [dq] ++
  txt " media-type=" ++ [dq] ++ txt "font/otf" ++ [dq] ++ txt "/>" ++ [nl].

Definition font_items : str :=
  fold_left (fun acc font_name => acc ++ font_item font_name) FONT_FILES [].

Definition marker_font : str := txt "lmroman10-regular.otf".
Definition manifest_close : str := txt "</manifest>".

(** What the call leaves in the manifest file, given what it read. *)
Definition patch_manifest (content : str) : str :=
  if contains marker_font content then content
  else replace content manifest_close (font_items ++ txt "  </manifest>").

(** [opf_files] are the files [rglob] finds, each with its text; the
    result is their text after the call. *)
Definition _update_manifest {P : Type} (opf_files : list (P * str))
  : list (P * str) :=
  match opf_files with
  | [] => []
  | (opf_path, content) :: others => (opf_path, patch_manifest content) :: others
  end.

(** *** [_link_citations] *)

(** The files are opened in text mode. [xf.read_text()] hands every line
    end of the file over as a newline, a carriage return alone or before
    a newline as well as a newline; [xf.write_text(content)] writes every
    newline as the line separator of the platform, [os.linesep]. The text
    of a file is the text its bytes decode to. *)
Definition cr : ascii := "013"%char.

Fixpoint read_text (raw : str) : str :=
  match raw with
  | [] => []
  | c :: raw' =>
      if Ascii.eqb c cr then
        nl :: match raw' with
              | d :: raw'' =>
                  if Ascii.eqb d nl then read_text raw'' else read_text raw'
              | [] => []
              end
      else c :: read_text raw'
  end.

Definition write_text (linesep content : str) : str :=
  flat_map (fun c => if Ascii.eqb c nl then linesep else [c]) content.

Definition marker : str :=
  txt "<span class=" ++ [dq] ++ txt "citation" ++ [dq] ++
  txt " data-cites=" ++ [dq].
Definition span_open : str := txt "<span".
Definition span_close : str := txt "</span>".

Local Open Scope Z_scope.

(** The inner [while depth > 0 and scan < len(content)] loop. [span_end]
    is the local variable of that name: [None] while it is unbound. *)
Fixpoint find_span_end (fuel : nat) (content : str) (depth scan : Z)
  (span_end : option Z) : res (option Z) :=
  if (depth >? 0) && (scan <? len content) then
    match fuel with
    | O => OutOfFuel
    | S fuel' =>
        let next_open := find content span_open scan in
        let next_close := find content span_close scan in
        if next_close =? -1 then Ok span_end
        else if negb (next_open =? -1) && (next_open <? next_close) then
          find_span_end fuel' content (depth + 1) (next_open + 5) span_end
        else
          let depth := depth - 1 in
          let span_end :=
            if depth =? 0 then Some (next_close + len span_close)
            else span_end in
          find_span_end fuel' content depth (next_close + 7) span_end
    end
  else Ok span_end.

Definition set_in (x : str) (s : list str) : bool := existsb (str_eqb x) s.

Definition link_open (href : str) : str :=
  txt "<a href=" ++ [dq] ++ href ++ [dq] ++ txt ">".
Definition link_close : str := txt "</a>".

(** The outer [while True] loop over one file: the pieces appended to
    [result] from position [pos] on, and the last value of [span_end]. *)
Fixpoint link_loop (fuel : nat) (bib_chapter : str) (bib_ids : list str)
  (content : str) (pos : Z) (span_end : option Z)
  : res (list str * option Z) :=
  match fuel with
  | O => OutOfFuel
  | S fuel' =>
      let idx := find content marker pos in
      if idx =? -1 then Ok ([slice_from content pos], span_end)
      else
        let before := slice content pos idx in
        let q_start := idx + len marker in
        q_end <- index content [dq] q_start ;;
        let cites_str := slice content q_start q_end in
        let span_start := idx in
        gt <- index content (txt ">") q_end ;;
        let tag_end := gt + 1 in
        span_end <- find_span_end (S (length content)) content 1 tag_end span_end ;;
        match span_end with
        | None => Raise UnboundLocalError
        | Some e =>
            let full_span := slice content span_start e in
            match Py.split cites_str with
            | [] => Raise IndexError
            | first_key :: _ =>
                let ref_id := txt "ref-" ++ first_key in
                let out :=
                  if set_in ref_id bib_ids
                  then link_open (bib_chapter ++ txt "#" ++ ref_id)
                       ++ full_span ++ link_close
                  else full_span in
                r <- link_loop fuel' bib_chapter bib_ids content e (Some e) ;;
                Ok (before :: out :: fst r, snd r)
            end
        end
  end.

Local Close Scope Z_scope.

(** One turn of the [for xf in xhtml_files] loop of step 2, on a file
    that holds [raw]: what the file holds afterwards, and the value of
    [span_end], which is a local variable of the whole function and lives
    on from one file to the next. A file without the attribute is skipped
    and not written. *)
Definition link_file (linesep : str) (fuel : nat) (bib_chapter : str)
  (bib_ids : list str) (raw : str) (span_end : option Z)
  : res (str * option Z) :=
  let content := read_text raw in
  if negb (contains (txt "data-cites=") content) then Ok (raw, span_end)
  else
    r <- link_loop fuel bib_chapter bib_ids content 0%Z span_end ;;
    let content := concat (fst r) in
    Ok (write_text linesep content, snd r).

Fixpoint link_files (linesep : str) (fuel : nat) (bib_chapter : str)
  (bib_ids : list str) (files : list (str * str)) (span_end : option Z)
  : res (list (str * str)) :=
  match files with
  | [] => Ok []
  | (xf, raw) :: files' =>
      r <- link_file linesep fuel bib_chapter bib_ids raw span_end ;;
      rest <- link_files linesep fuel bib_chapter bib_ids files' (snd r) ;;
      Ok ((xf, fst r) :: rest)
  end.

Definition ref_id_re : regex :=
  seqs [Lit (txt "id=" ++ [dq]); Grp 1 (Seq (L "ref-") (Plus true (Cls (fun c => negb (Ascii.eqb c dq)))));
        Lit [dq]].

(** Step 1: the first file with more than five [ref-] identifiers. *)
Fixpoint find_bib_chapter (files : list (str * str)) : option (str * list str) :=
  match files with
  | [] => None
  | (xf, raw) :: files' =>
      let content := read_text raw in
      let ids := findall1 ref_id_re content in
      if 5 <? length ids then Some (xf, ids) else find_bib_chapter files'
  end.

(** [xhtml_files]: the sorted [*.xhtml] files of the text directory, each
    with what it holds; the result is what they hold after the call.
    [linesep] is the line separator of the platform. *)
Definition _link_citations (linesep : str) (fuel : nat)
  (xhtml_files : list (str * str)) : res (list (str * str)) :=
  match find_bib_chapter xhtml_files with
  | None => Ok xhtml_files
  | Some (bib_chapter, bib_ids) =>
      if match bib_chapter with [] => true | _ => false end then Ok xhtml_files
      else link_files linesep fuel bib_chapter bib_ids xhtml_files None
  end.

(** *** [_repackage_epub] *)

(** What lies under the extracted directory: each path relative to it,
    as its parts, and whether it is a regular file. *)
Inductive kind : Type := File | Dir.

Definition node : Type := (list str * kind)%type.

Inductive compress_type : Type := ZIP_STORED | ZIP_DEFLATED.

(** [a <= b] on strings: by code points, a proper prefix first. *)
Fixpoint str_leb (a b : str) : bool :=
  match a, b with
  | [], _ => true
  | _ :: _, [] => false
  | x :: a', y :: b' =>
      if (code x <? code y)%nat then true
      else if (code y <? code x)%nat then false
      else str_leb a' b'
  end.

(** [a <= b] on paths, which compare as the lists of their parts. *)
Fixpoint path_leb (a b : list str) : bool :=
  match a, b with
  | [], _ => true
  | _ :: _, [] => false
  | x :: a', y :: b' =>
      if str_eqb x y then path_leb a' b' else str_leb x y
  end.

Fixpoint insert (x : node) (l : list node) : list node :=
  match l with
  | [] => [x]
  | y :: l' => if path_leb (fst x) (fst y) then x :: l else y :: insert x l'
  end.

(** [sorted(paths)] *)
Fixpoint sorted (l : list node) : list node :=
  match l with
  | [] => []
  | x :: l' => insert x (sorted l')
  end.

(** [path.name]: the last part *)
Definition name (parts : list str) : str := last parts [].

(** [str(path.relative_to(epub_dir))] *)
Definition arcname (parts : list str) : str := join (txt "/") parts.

Definition is_file (n : node) : bool :=
  match snd n with File => true | Dir => false end.

Definition mimetype : str := txt "mimetype".

(** [epub_dir / "mimetype"], when it exists *)
Definition mimetype_path (tree : list node) : option node :=
  List.find (fun n => if list_eq_dec (list_eq_dec ascii_dec) (fst n) [mimetype]
                      then true else false) tree.

Local Open Scope Z_scope.

(** [zf.write(path, arcname, compress_type)]: the entry written, for a
    file last modified in [year] (local time). The archive format holds
    the years from 1980 to 2107: for an earlier one [ZipInfo] raises
    [ValueError], and with a later one the header of the entry cannot be
    packed. *)
Definition zf_write (year : Z) (arcname : str) (c : compress_type)
  : res (str * compress_type) :=
  if year <? 1980 then Raise ValueError
  else if 2107 <? year then Raise StructError
  else Ok (arcname, c).

Local Close Scope Z_scope.

Fixpoint write_all (year : list str -> Z) (paths : list node)
  : res (list (str * compress_type)) :=
  match paths with
  | [] => Ok []
  | path :: paths' =>
      e <- zf_write (year (fst path)) (arcname (fst path)) ZIP_DEFLATED ;;
      es <- write_all year paths' ;;
      Ok (e :: es)
  end.

(** The entries written to the archive, in order, from everything that
    [epub_dir.rglob] finds; [year] gives the year in which the file at a
    path was last modified. A directory is written under its name with a
    slash appended, stored. *)
Definition _repackage_epub (year : list str -> Z) (tree : list node)
  : res (list (str * compress_type)) :=
  first <- match mimetype_path tree with
           | Some (p, File) =>
               e <- zf_write (year p) mimetype ZIP_STORED ;; Ok [e]
           | Some (p, Dir) =>
               e <- zf_write (year p) (mimetype ++ txt "/") ZIP_STORED ;; Ok [e]
           | None => Ok []
           end ;;
  others <- write_all year
              (filter (fun n => is_file n
                                && negb (str_eqb (name (fst n)) mimetype))
                      (sorted tree)) ;;
  Ok (first ++ others).

End Postprocessor.

(* ================================================================== *)
(** ** More of Python's strings and of [re] *)
(* ================================================================== *)

Module PyMore.

Import Re.

(** [s.split(sep)] for a separator of one character. [cur] is the part
    being read, reversed. *)
Fixpoint split_on_go (sep : ascii) (s cur : str) : list str :=
  match s with
  | [] => [rev cur]
  | c :: s' =>
      if Ascii.eqb c sep then rev cur :: split_on_go sep s' []
      else split_on_go sep s' (c :: cur)
  end.

Definition split_on (sep : ascii) (s : str) : list str := split_on_go sep s [].

(** [x in s] for a set or a list of strings *)
Definition str_in (x : str) (s : list str) : bool := existsb (str_eqb x) s.

(** [c.lower()] below code point 256: the letters [A-Z] and the
    accented capitals, the multiplication sign apart. *)
Definition lower_char (c : ascii) : ascii :=
  if between 65 90 c || between 192 214 c || between 216 222 c
  then ascii_of_nat (code c + 32) else c.

(** [s.lower()] *)
Definition lower (s : str) : str := map lower_char s.

(** [c.upper()] for the letters [a-z] *)
Definition upper_char (c : ascii) : ascii :=
  if between 97 122 c then ascii_of_nat (code c - 32) else c.

(** [s.capitalize()] for a word of unaccented letters *)
Definition capitalize (s : str) : str :=
  match s with
  | [] => []
  | c :: s' => upper_char c :: lower s'
  end.

Fixpoint lstrip_chars (chars s : str) : str :=
  match s with
  | c :: s' => if char_in c chars then lstrip_chars chars s' else s
  | [] => []
  end.

(** [s.strip(chars)] *)
Definition strip_chars (chars s : str) : str :=
  rev (lstrip_chars chars (rev (lstrip_chars chars s))).

(** [s.rsplit(sep, 1)[0]] for a separator of one character: the text
    before the last separator, or all of it. [rest] is the text read
    from the right end. *)
Fixpoint before_last (sep : ascii) (rs : str) : option str :=
  match rs with
  | [] => None
  | c :: rs' => if Ascii.eqb c sep then Some (rev rs') else before_last sep rs'
  end.

Definition rsplit1_head (sep : ascii) (s : str) : str :=
  match before_last sep (rev s) with
  | Some h => h
  | None => s
  end.

(** [re.match(r, s)]: a match at the beginning of [s] only *)
Definition rematch (r : regex) (s : str) : option rmatch :=
  match match_here r false [] s with
  | Some (m, _) => Some m
  | None => None
  end.

Definition Word : regex := Cls is_word.                          (* \w *)
Definition OneOf (cs : string) : regex := Cls (fun c => char_in c (txt cs)).

(** [a|b|...] *)
Fixpoint alts (rs : list regex) : regex :=
  match rs with
  | [] => Eps
  | [r] => r
  | r :: rs' => Alt r (alts rs')
  end.

(** [for pat in pats: content = re.sub(pat, "", content)] *)
Definition remove_all (pats : list regex) (content : str) : str :=
  fold_left (fun content pat => remove pat content) pats content.

End PyMore.

(* ================================================================== *)
(** ** tex2epub/preprocessor.py: the other stages and the pipeline *)
(* ================================================================== *)

Module Pipeline.

Import Re Preprocessor PyMore.

(** An option in brackets, as a group: [(\[.*?\])?] *)
Definition bracket_opt : regex :=
  Opt (Grp 1 (seqs [L "["; Star false Dot; L "]"])).

(** *** [_strip_preamble] *)

Definition documentclass_re : regex :=
  seqs [L "\documentclass"; bracket_opt; L "{"; Star false Dot; L "}";
        Star true Space].

Definition problematic : list str :=
  [ txt "icml2026"; txt "neurips"; txt "acl"; txt "emnlp";
    txt "microtype"; txt "placeins"; txt "todonotes"; txt "newfloat";
    txt "mdframed";
    txt "fancyhdr"; txt "geometry"; txt "titlesec"; txt "titling";
    txt "subcaption"; txt "caption"; txt "float"; txt "wrapfig";
    txt "algorithm"; txt "algorithmic"; txt "algpseudocode";
    txt "cleveref"; txt "xcolor"; txt "color"; txt "colortbl";
    txt "tabularx"; txt "multirow"; txt "makecell";
    txt "enumitem"; txt "paralist";
    txt "natbib"; txt "biblatex" ].

Definition problematic_re (pkg : str) : regex :=
  seqs [L "\usepackage"; bracket_opt; L "{"; Lit pkg; L "}"; tail_ws].

Definition usepackage_line_re : regex :=
  seqs [L "\usepackage"; bracket_opt; L "{"; Grp 2 (Plus true Word); L "}"].

(** The loop that drops the later declarations of a package. *)
Fixpoint dedupe (lines : list str) (seen_packages : list str) : list str :=
  match lines with
  | [] => []
  | line :: lines' =>
      match rematch usepackage_line_re (strip line) with
      | Some m =>
          let pkg := group_or_empty m 2 in
          if str_in pkg seen_packages then dedupe lines' seen_packages
          else line :: dedupe lines' (pkg :: seen_packages)
      | None => line :: dedupe lines' seen_packages
      end
  end.

Definition layout_cmds : list regex :=
  [ seqs [L "\setlength"; braces; braces];
    seqs [L "\captionsetup"; bracket_opt; braces];
    seqs [L "\setlist"; bracket_opt; braces];
    seqs [L "\pagestyle"; braces];
    seqs [L "\thispagestyle"; braces] ].

Definition _strip_preamble (content : str) : str :=
  let content := remove documentclass_re content in
  let content :=
    fold_left (fun content pkg => remove (problematic_re pkg) content)
              problematic content in
  let lines := split_on nl content in
  let deduped := dedupe lines [] in
  let content := join [nl] deduped in
  let content := remove_all layout_cmds content in
  let content := remove (seqs [L "\theoremstyle"; braces; tail_ws]) content in
  let content :=
    remove (seqs [L "\newtheorem"; Grp 1 (Opt (L "*")); Plus true (Grp 2 braces);
                  tail_ws]) content in
  let content :=
    remove (seqs [L "\DeclareFloatingEnvironment"; L "["; Star false Any; L "]";
                  braces; tail_ws]) content in
  let content :=
    remove (seqs [L "\newmdenv"; L "["; Star false Any; L "]"; braces; tail_ws])
           content in
  content.

(** *** [_convert_environments] *)

Definition frametitle_re : regex :=
  seqs [L "frametitle="; Grp 1 (Plus true (Not ",]"))].

Definition _replace_msgbox (m : rmatch) : str :=
  let opts := group_or_empty m 1 in
  let title_m := search frametitle_re opts in
  let prefix :=
    match title_m with
    | Some title_m =>
        txt "\textbf{" ++ strip (group_or_empty title_m 1) ++ txt "}" ++ [nl; nl]
    | None => []
    end in
  prefix ++ txt "\begin{quote}".

Definition theorem_envs : list str :=
  [ txt "theorem"; txt "lemma"; txt "proposition"; txt "corollary";
    txt "definition"; txt "assumption"; txt "remark" ].

(** The loop over the theorem-like environments. *)
Fixpoint convert_theorems (envs : list str) (content : str) : res str :=
  match envs with
  | [] => Ok content
  | env :: envs' =>
      content <- sub 1 (seqs [L "\begin{"; Lit env; L "}"; bracket_opt])
                       (txt "\\textbf{" ++ capitalize env ++ txt ".} ") content ;;
      content <- sub 0 (seqs [L "\end{"; Lit env; L "}"]) [nl] content ;;
      convert_theorems envs' content
  end.

Definition one_brace_arg (name : string) : regex :=
  seqs [L name; L "{"; Grp 1 (Star true (Not "}")); L "}"].

Definition _convert_environments (content : str) : res str :=
  let content :=
    remove (seqs [L "\begin{subfigure}";
                  Opt (seqs [L "["; Star true (Not "]"); L "]"]); braces])
           content in
  let content := remove (L "\end{subfigure}") content in
  let content := remove (Seq (L "\hfill") WordB) content in
  content <- sub 1 (seqs [L "\begin{prompt}"; bracket_opt])
                   (txt "\\begin{quote}") content ;;
  content <- sub 0 (L "\end{prompt}") (txt "\\end{quote}") content ;;
  let content :=
    sub_fun (seqs [L "\begin{mymessagebox}"; bracket_opt]) _replace_msgbox
            content in
  content <- sub 0 (L "\end{mymessagebox}") (txt "\\end{quote}") content ;;
  content <- sub 1 (seqs [L "\begin{algorithm}"; bracket_opt])
                   (txt "\\begin{quote}") content ;;
  content <- sub 0 (L "\end{algorithm}") (txt "\\end{quote}") content ;;
  content <- sub 0 (Seq (L "\REQUIRE") WordB) (txt "\\textbf{Require:}") content ;;
  content <- sub 0 (Seq (L "\ENSURE") WordB) (txt "\\textbf{Ensure:}") content ;;
  content <- sub 0 (Seq (L "\STATE") WordB) [] content ;;
  content <- sub 1 (one_brace_arg "\IF")
                   (txt "\\textbf{if} \\(\\1\\) \\textbf{then}") content ;;
  content <- sub 1 (one_brace_arg "\ELSIF")
                   (txt "\\textbf{else if} \\(\\1\\) \\textbf{then}") content ;;
  content <- sub 0 (Seq (L "\ELSE") WordB) (txt "\\textbf{else}") content ;;
  content <- sub 0 (Seq (L "\ENDIF") WordB) (txt "\\textbf{end if}") content ;;
  content <- sub 1 (one_brace_arg "\FOR")
                   (txt "\\textbf{for} \\(\\1\\) \\textbf{do}") content ;;
  content <- sub 0 (Seq (L "\ENDFOR") WordB) (txt "\\textbf{end for}") content ;;
  content <- sub 1 (one_brace_arg "\WHILE")
                   (txt "\\textbf{while} \\(\\1\\) \\textbf{do}") content ;;
  content <- sub 0 (Seq (L "\ENDWHILE") WordB) (txt "\\textbf{end while}") content ;;
  content <- sub 0 (Seq (L "\RETURN") WordB) (txt "\\textbf{return}") content ;;
  let content := remove (seqs [L "\begin{algorithmic}"; bracket_opt]) content in
  let content := remove (L "\end{algorithmic}") content in
  let content := replace content (txt "\begin{figure*}") (txt "\begin{figure}") in
  let content := replace content (txt "\end{figure*}") (txt "\end{figure}") in
  let content := replace content (txt "\begin{table*}") (txt "\begin{table}") in
  let content := replace content (txt "\end{table*}") (txt "\end{table}") in
  convert_theorems theorem_envs content.

(** *** [_final_cleanup] *)

Definition float_spec_re : regex :=
  seqs [Grp 1 (seqs [L "\begin{"; Alt (L "figure") (L "table"); L "}"]);
        Star true Space; L "["; Star true (Not "]"); L "]"].

Definition number : regex := Plus true (Cls (fun c => is_digit c || Ascii.eqb c ".")).

Definition spaced (name : string) : regex := seqs [L name; Star true Space].
Definition sized (name : string) : regex := seqs [L name; WordB; Star true Space].

Definition removals : list regex :=
  [ seqs [L "\vskip"; Plus true Space; number;
          alts [L "in"; L "pt"; L "em"; L "cm"; L "mm"]; Star true Space];
    seqs [L "\vspace"; Opt (L "*"); braces; Star true Space];
    seqs [L "\hspace"; Opt (L "*"); braces; Star true Space];
    spaced "\FloatBarrier";
    spaced "\clearpage";
    spaced "\newpage";
    spaced "\noindent";
    spaced "\centering";
    spaced "\raggedright";
    sized "\small";
    sized "\footnotesize";
    sized "\scriptsize";
    sized "\tiny";
    sized "\large";
    sized "\Large";
    sized "\LARGE";
    sized "\huge";
    sized "\Huge";
    sized "\normalsize";
    seqs [L "\fontfamily"; braces; L "\selectfont"; Star true Space];
    spaced "\selectfont" ].

Definition cref_re : regex := seqs [L "\"; OneOf "Cc"; L "ref{"].

(** [\n{3,}] *)
Definition blank_lines_re : regex :=
  seqs [Lit [nl]; Lit [nl]; Plus true (Lit [nl])].

Definition _final_cleanup (content : str) : res str :=
  content <- sub 1 float_spec_re (txt "\1") content ;;
  let content := remove_all removals content in
  content <- sub 0 cref_re (txt "\\ref{") content ;;
  content <- sub 0 blank_lines_re [nl; nl] content ;;
  Ok content.

(** *** [_fix_image_paths] and [preprocess] *)

Section FileSystem.

Variable path : Type.
Variable joinpath : path -> str -> path.      (* work_dir / filename *)
Variable parent : path -> path.               (* path.parent *)
Variable name : path -> str.                  (* path.name *)
Variable exists_ : path -> option bool.       (* path.exists(); None: an OSError *)
Variable read_text : path -> option str.      (* path.read_text(errors=...); None: an OSError *)
Variable glob_bib : path -> list path.        (* list(work_dir.glob("*.bib")) *)
Variable suffix : str -> str.                 (* Path(path_str).suffix *)

Definition includegraphics_re : regex :=
  seqs [L "\includegraphics";
        Opt (seqs [L "["; Grp 1 (Star true (Not "]")); L "]"]);
        L "{"; Grp 2 (Plus true (Not "}")); L "}"].

Definition widths : regex := alts [L "line"; L "text"; L "column"].

Definition width_re : regex :=
  seqs [L "width"; Star true Space; L "="; Star true Space; L "\"; widths;
        L "width"].
Definition scaled_width_re : regex :=
  seqs [L "width"; Star true Space; L "="; Star true Space; number; L "\";
        widths; L "width"].

Definition image_exts : list str :=
  [ txt ".png"; txt ".jpg"; txt ".jpeg"; txt ".pdf"; txt ".svg" ].

(** The [for ext in ...: if ... exists: ...; break] loop. *)
Fixpoint add_ext (work_dir : path) (path_str : str) (exts : list str)
  : res str :=
  match exts with
  | [] => Ok path_str
  | ext :: exts' =>
      match exists_ (joinpath work_dir (path_str ++ ext)) with
      | Some true => Ok (path_str ++ ext)
      | Some false => add_ext work_dir path_str exts'
      | None => Raise OSError
      end
  end.

Definition _fix_path (work_dir : path) (m : rmatch) : res str :=
  let opts := group_or_empty m 1 in
  let path_str := group_or_empty m 2 in
  path_str <-
    match suffix path_str with
    | [] => add_ext work_dir path_str image_exts
    | _ => Ok path_str
    end ;;
  opts <- sub 0 width_re (txt "width=\\textwidth") opts ;;
  opts <- sub 0 scaled_width_re (txt "width=\\textwidth") opts ;;
  match opts with
  | _ :: _ =>
      Ok (txt "\includegraphics[" ++ opts ++ txt "]{" ++ path_str ++ txt "}")
  | [] => Ok (txt "\includegraphics{" ++ path_str ++ txt "}")
  end.

Definition _fix_image_paths (content : str) (work_dir : path) : res str :=
  sub_res includegraphics_re (_fix_path work_dir) content.

(** [preprocess]; [fuel] is for the include resolver. *)
Definition preprocess (fuel : nat) (tex_path : path) : res (str * PaperMetadata) :=
  let work_dir := parent tex_path in
  match read_text tex_path with
  | None => Raise OSError
  | Some content =>
      content <- _resolve_includes joinpath parent exists_ read_text
                   fuel content work_dir 0 ;;
      metadata <- _extract_metadata content ;;
      let content := _strip_preamble content in
      let content := _strip_conference_commands content metadata in
      content <- _convert_environments content ;;
      content <- _expand_simple_macros content ;;
      content <- _fix_image_paths content work_dir ;;
      content <-
        _prepare_bibliography joinpath name exists_ glob_bib content work_dir ;;
      content <- _final_cleanup content ;;
      let content := _rebuild_document content metadata in
      Ok (content, metadata)
  end.

End FileSystem.

End Pipeline.

(* ================================================================== *)
(** ** tex2epub/cli.py: the file name of the output *)
(* ================================================================== *)

Module Cli.

Import Re PyMore.

(** [[^\w\s-]] *)
Definition unsafe_char (c : ascii) : bool :=
  negb (is_word c || is_space c || Ascii.eqb c "-").

(** [[-\s]] *)
Definition hyphen_or_space (c : ascii) : bool :=
  Ascii.eqb c "-" || is_space c.

Definition _slugify (title : str) : res str :=
  let slug := lower title in
  let slug := remove (Cls unsafe_char) slug in
  slug <- sub 0 (Plus true (Cls hyphen_or_space)) (txt "-") slug ;;
  let slug := strip_chars (txt "-") slug in
  let slug :=
    if 80 <? length slug then rsplit1_head "-" (firstn 80 slug) else slug in
  Ok slug.

End Cli.

(* ================================================================== *)
(** ** tex2epub/downloader.py: the identifier of a paper *)
(* ================================================================== *)

Module Downloader.

Import Re PyMore.

(** [\d{4}\.\d{4,5}(?:v\d+)?] *)
Definition id_body : regex :=
  seqs [Digit; Digit; Digit; Digit; L "."; Digit; Digit; Digit; Digit;
        Opt Digit; Opt (Seq (L "v") (Plus true Digit))].

Definition _ARXIV_URL_RE : regex :=
  seqs [Opt (seqs [L "http"; Opt (L "s"); L "://"]); Opt (L "www.");
        L "arxiv.org/"; alts [L "abs"; L "pdf"; L "html"; L "src"]; L "/";
        Grp 1 id_body].

(** [$] without re.MULTILINE: the end of the text, or the newline that
    ends the text. *)
Definition Dollar : regex :=
  NotAhead (NotAhead (Seq (Opt (Lit [nl])) (NotAhead Any))).

(** [^(...)$]; [re.match] tries the beginning of the text only, where
    [^] holds with and without re.MULTILINE. *)
Definition _ARXIV_ID_RE : regex := seqs [Bol; Grp 1 id_body; Dollar].

Definition parse_arxiv_id (input_str : str) : option str :=
  match search _ARXIV_URL_RE input_str with
  | Some m => group m 1
  | None =>
      match rematch _ARXIV_ID_RE (strip input_str) with
      | Some m => group m 1
      | None => None
      end
  end.

(** The address [download_source] asks for:
    [f"https://arxiv.org/src/{arxiv_id}"] *)
Definition source_url (arxiv_id : str) : str :=
  txt "https://arxiv.org/src/" ++ arxiv_id.

End Downloader.

(* ================================================================== *)
(** ** Properties of the string operations *)
(* ================================================================== *)

Section StringFacts.

Lemma starts_with_app (p t : str) : starts_with p (p ++ t) = true.
Proof.
  induction p as [|a p IH]; simpl; [reflexivity|].
  now rewrite Ascii.eqb_refl, IH.
Qed.

Lemma starts_with_inv (p s : str) :
  starts_with p s = true -> s = p ++ skipn (length p) s.
Proof.
  revert s; induction p as [|a p IH]; intros [|b s] H; simpl in *;
    try reflexivity; try discriminate.
  apply andb_true_iff in H as [Hab Hp].
  apply Ascii.eqb_eq in Hab; subst b.
  f_equal; now apply IH.
Qed.

Lemma starts_with_length (p s : str) :
  starts_with p s = true -> length p <= length s.
Proof.
  intros H; apply starts_with_inv in H.
  rewrite H, length_app; lia.
Qed.

(** Appending text does not undo a match. *)
Lemma starts_with_app_r (p s t : str) :
  starts_with p s = true -> starts_with p (s ++ t) = true.
Proof.
  intros H; apply starts_with_inv in H.
  rewrite H, <- app_assoc; apply starts_with_app.
Qed.

(** Nor does it create one in a text that was long enough to hold it. *)
Lemma starts_with_app_false (p s t : str) :
  starts_with p s = false -> length p <= length s ->
  starts_with p (s ++ t) = false.
Proof.
  revert s; induction p as [|a p IH]; intros [|b s] H L; simpl in *;
    try discriminate; try lia.
  apply andb_false_iff in H as [H|H].
  - now rewrite H.
  - rewrite (IH s H) by lia. apply andb_false_r.
Qed.

Lemma str_eqb_eq (a b : str) : str_eqb a b = true <-> a = b.
Proof.
  unfold str_eqb; destruct (list_eq_dec ascii_dec a b); split; congruence.
Qed.

Lemma str_eqb_refl (a : str) : str_eqb a a = true.
Proof. now apply str_eqb_eq. Qed.

(** The offset of the first occurrence of [sub] in [s]. *)
Fixpoint first_occ (sub s : str) : option nat :=
  if starts_with sub s then Some 0
  else match s with
       | [] => None
       | _ :: s' => option_map S (first_occ sub s')
       end.

Lemma first_occ_bound (sub s : str) (k : nat) :
  first_occ sub s = Some k -> k + length sub <= length s.
Proof.
  revert k; induction s as [|c s IH]; intros k; simpl.
  - destruct (starts_with sub []) eqn:E; [|discriminate].
    intros [= <-]. apply starts_with_length in E. simpl in *; lia.
  - destruct (starts_with sub (c :: s)) eqn:E.
    + intros [= <-]. apply starts_with_length in E. simpl in *; lia.
    + destruct (first_occ sub s) as [j|]; [|discriminate].
      intros [= <-]. specialize (IH j eq_refl). lia.
Qed.

Lemma first_occ_here (sub s : str) (k : nat) :
  first_occ sub s = Some k -> starts_with sub (skipn k s) = true.
Proof.
  revert k; induction s as [|c s IH]; intros k; simpl.
  - destruct (starts_with sub []) eqn:E; [|discriminate].
    intros [= <-]; exact E.
  - destruct (starts_with sub (c :: s)) eqn:E.
    + intros [= <-]; exact E.
    + destruct (first_occ sub s) as [j|]; [|discriminate].
      intros [= <-]. now apply IH.
Qed.

Lemma first_occ_before (sub s : str) (k i : nat) :
  first_occ sub s = Some k -> i < k -> starts_with sub (skipn i s) = false.
Proof.
  revert k i; induction s as [|c s IH]; intros k i; simpl.
  - destruct (starts_with sub []); [intros [= <-]; lia | discriminate].
  - destruct (starts_with sub (c :: s)) eqn:E; [intros [= <-]; lia|].
    destruct (first_occ sub s) as [j|] eqn:F; [|discriminate].
    intros [= <-] Hi. destruct i as [|i]; [exact E|].
    simpl. apply (IH j); [reflexivity | lia].
Qed.

Lemma first_occ_none (sub s : str) (i : nat) :
  first_occ sub s = None -> starts_with sub (skipn i s) = false.
Proof.
  revert i; induction s as [|c s IH]; intros i; simpl.
  - destruct (starts_with sub []) eqn:E; [discriminate|].
    intros _. now destruct i.
  - destruct (starts_with sub (c :: s)) eqn:E; [discriminate|].
    destruct (first_occ sub s) eqn:F; [discriminate|].
    intros _. destruct i as [|i]; [exact E | now apply IH].
Qed.

(** The first occurrence is where [sub] matches and has not matched
    before. *)
Lemma first_occ_intro (sub s : str) (k : nat) :
  starts_with sub (skipn k s) = true ->
  (forall i, i < k -> starts_with sub (skipn i s) = false) ->
  first_occ sub s = Some k.
Proof.
  revert k; induction s as [|c s IH]; intros k Hk Hlt; simpl.
  - destruct k as [|k]; simpl in Hk; [now rewrite Hk|].
    specialize (Hlt 0%nat ltac:(lia)). simpl in Hlt. congruence.
  - destruct k as [|k].
    + simpl in Hk. now rewrite Hk.
    + pose proof (Hlt 0 ltac:(lia)) as H0. simpl in H0. rewrite H0.
      simpl in Hk.
      rewrite (IH k Hk); [reflexivity|].
      intros i Hi. apply (Hlt (S i)). lia.
Qed.

(** Text appended after a first occurrence does not move it. *)
Lemma first_occ_app (sub s t : str) (k : nat) :
  first_occ sub s = Some k -> first_occ sub (s ++ t) = Some k.
Proof.
  revert k; induction s as [|c s IH]; intros k; simpl.
  - destruct (starts_with sub []) eqn:E; [|discriminate].
    intros [= <-]. destruct sub; [|discriminate].
    now destruct t.
  - destruct (starts_with sub (c :: s)) eqn:E.
    + intros [= <-]. change (c :: s ++ t) with ((c :: s) ++ t).
      now rewrite starts_with_app_r.
    + destruct (first_occ sub s) as [j|] eqn:F; [|discriminate].
      intros [= <-].
      change (c :: s ++ t) with ((c :: s) ++ t).
      rewrite starts_with_app_false; trivial.
      * now rewrite (IH j eq_refl).
      * apply first_occ_bound in F. simpl; lia.
Qed.

Local Open Scope Z_scope.

Lemma find_at_first_occ (sub s : str) (i : Z) :
  find_at sub s i =
  match first_occ sub s with
  | Some k => i + Z.of_nat k
  | None => -1
  end.
Proof.
  revert i; induction s as [|c s IH]; intros i; simpl.
  - destruct (starts_with sub []); lia.
  - destruct (starts_with sub (c :: s)); [lia|].
    rewrite IH. destruct (first_occ sub s); simpl; lia.
Qed.

(** [s.find(sub, start)] for a start inside the text. *)
Lemma find_from (s sub : str) (n : nat) :
  (n <= length s)%nat ->
  find s sub (Z.of_nat n) =
  match first_occ sub (skipn n s) with
  | Some k => Z.of_nat (n + k)
  | None => -1
  end.
Proof.
  intros Hn. unfold find, len.
  destruct (Z.ltb_spec (Z.of_nat n) 0); [lia|].
  destruct (Z.ltb_spec (Z.of_nat (length s)) (Z.of_nat n)); [lia|].
  rewrite Nat2Z.id, find_at_first_occ.
  destruct (first_occ sub (skipn n s)); lia.
Qed.

End StringFacts.

(* ================================================================== *)
(** ** Properties of the matcher *)
(* ================================================================== *)

Section MatcherFacts.

Import Re.

(** [st'] lies [w] further on in the text than [st]. *)
Definition reaches (st st' : mstate) (w : str) : Prop :=
  rest st = w ++ rest st' /\ seen st' = rev w ++ seen st.

Lemma reaches_refl (st : mstate) : reaches st st [].
Proof. now split. Qed.

Lemma reaches_trans (a b c : mstate) (u v : str) :
  reaches a b u -> reaches b c v -> reaches a c (u ++ v).
Proof.
  intros [R1 S1] [R2 S2]; split.
  - now rewrite R1, R2, app_assoc.
  - now rewrite S2, S1, rev_app_distr, app_assoc.
Qed.

Lemma reaches_length (a b : mstate) (w : str) :
  reaches a b w -> length (rest a) = length w + length (rest b).
Proof. intros [R _]. now rewrite R, length_app. Qed.

(** A step is sound when every result it gives comes from its
    continuation, called further on in the same text. *)
Definition sound_step
  (step : mstate -> (mstate -> option mstate) -> option mstate) : Prop :=
  forall st k out, step st k = Some out ->
  exists st' w, k st' = Some out /\ reaches st st' w.

Lemma star_loop_sound (greedy : bool) step :
  sound_step step ->
  forall fuel, sound_step (fun st k => star_loop greedy step k fuel st).
Proof.
  intros Hs fuel.
  induction fuel as [|fuel IH]; intros st k out H; simpl in H.
  - exists st, []. split; [exact H | apply reaches_refl].
  - assert (Hagain : forall out,
      step st (fun st' => if length (rest st') <? length (rest st)
                          then star_loop greedy step k fuel st' else None) = Some out ->
      exists st' w, k st' = Some out /\ reaches st st' w).
    { intros o Ho. apply Hs in Ho as (st1 & w1 & Hk1 & R1).
      destruct (length (rest st1) <? length (rest st)); [|discriminate].
      apply IH in Hk1 as (st2 & w2 & Hk2 & R2).
      exists st2, (w1 ++ w2). split; [exact Hk2 | eapply reaches_trans; eauto]. }
    destruct greedy.
    + destruct (step st _) as [o|] eqn:E.
      * injection H as <-. now apply Hagain.
      * exists st, []. split; [exact H | apply reaches_refl].
    + destruct (k st) as [o|] eqn:E.
      * injection H as <-. exists st, []. split; [exact E | apply reaches_refl].
      * now apply Hagain.
Qed.

Lemma run_sound (r : regex) : sound_step (run r).
Proof.
  induction r as [ | s | p | a IHa b IHb | a IHa b IHb | g a IHa | n a IHa
                 | a IHa | | | ]; intros st k out H; simpl in H.
  - exists st, []. split; [exact H | apply reaches_refl].
  - destruct (starts_with s (rest st)) eqn:E; [|discriminate].
    eexists _, s. split; [exact H|]. split; simpl; [|reflexivity].
    now apply starts_with_inv.
  - destruct (rest st) as [|c tl] eqn:E; [discriminate|].
    destruct (p c); [|discriminate].
    eexists _, [c]. split; [exact H|]. split; simpl; [exact E | reflexivity].
  - apply IHa in H as (st1 & w1 & H & R1).
    apply IHb in H as (st2 & w2 & H & R2).
    exists st2, (w1 ++ w2). split; [exact H | eapply reaches_trans; eauto].
  - destruct (run a st k) as [o|] eqn:E.
    + injection H as <-. now apply IHa.
    + now apply IHb.
  - eapply star_loop_sound in H; eauto.
  - apply IHa in H as (st1 & w1 & H & R1).
    eexists _, w1. split; [exact H|]. exact R1.
  - destruct (run a st _); [discriminate|].
    exists st, []. split; [exact H | apply reaches_refl].
  - destruct (at_bol st); [|discriminate].
    exists st, []. split; [exact H | apply reaches_refl].
  - destruct (at_eol st); [|discriminate].
    exists st, []. split; [exact H | apply reaches_refl].
  - destruct (at_wordb st); [|discriminate].
    exists st, []. split; [exact H | apply reaches_refl].
Qed.

(** A match is a prefix of the text ahead, of the length reported. *)
Lemma match_here_text (r : regex) (adv : bool) (before after : str) m n :
  match_here r adv before after = Some (m, n) ->
  after = m_text m ++ skipn n after /\ length (m_text m) = n /\ n <= length after.
Proof.
  unfold match_here. destruct (run r _ _) as [st|] eqn:E; [|discriminate].
  intros [= <- <-]. apply run_sound in E as (st' & w & Hk & [R _]).
  destruct (_ && _); [discriminate|]. injection Hk as ->.
  simpl in *. unfold consumed. rewrite R, length_app.
  replace (length w + length (rest st) - length (rest st)) with (length w) by lia.
  rewrite firstn_app, firstn_all, Nat.sub_diag, skipn_app, skipn_all, Nat.sub_diag.
  simpl. rewrite app_nil_r. repeat split; lia.
Qed.

(** The text of the pieces of a scan. *)
Definition piece_text (p : piece) : str :=
  match p with
  | Txt c => [c]
  | Hit m => m_text m
  end.

Definition whole (ps : list piece) : str := concat (map piece_text ps).

Lemma firstn_prefix (s a b : str) (n : nat) :
  s = a ++ b -> length a = n -> firstn n s = a.
Proof.
  intros -> <-. now rewrite firstn_app, firstn_all, Nat.sub_diag, app_nil_r.
Qed.

Lemma hits_at_text (r : regex) (before after : str) hs n :
  hits_at r before after = (hs, n) ->
  whole (map Hit hs) = firstn n after /\ n <= length after.
Proof.
  unfold hits_at.
  destruct (match_here r false before after) as [[m1 [|n1]]|] eqn:E1.
  - apply match_here_text in E1 as (T1 & L1 & B1).
    assert (N1 : m_text m1 = []) by now destruct (m_text m1).
    destruct (match_here r true before after) as [[m2 n2]|] eqn:E2;
      intros [= <- <-]; unfold whole; simpl; rewrite N1; simpl.
    + apply match_here_text in E2 as (T2 & L2 & B2).
      rewrite app_nil_r. split; [|exact B2].
      symmetry. eapply firstn_prefix; eauto.
    + split; [reflexivity | lia].
  - intros [= <- <-]. apply match_here_text in E1 as (T1 & L1 & B1).
    unfold whole; cbn [map piece_text concat]. rewrite app_nil_r.
    split; [|exact B1].
    symmetry. eapply firstn_prefix; eauto.
  - intros [= <- <-]. split; [reflexivity | lia].
Qed.

Lemma whole_app (a b : list piece) : whole (a ++ b) = whole a ++ whole b.
Proof. unfold whole. now rewrite map_app, concat_app. Qed.

(** A scan cuts the text up and loses none of it. *)
Lemma scan_go_whole (r : regex) (after before : str) (skip : nat) :
  skip <= length after ->
  whole (scan_go r before after skip) = skipn skip after.
Proof.
  revert before skip; induction after as [|c tl IH]; intros before skip Hs.
  - destruct skip; [|simpl in Hs; lia]. simpl.
    destruct (hits_at r before []) as [hs n] eqn:E.
    apply hits_at_text in E as [T B]. rewrite app_nil_r, T.
    now destruct n.
  - destruct skip as [|k]; simpl.
    + destruct (hits_at r before (c :: tl)) as [hs n] eqn:E.
      apply hits_at_text in E as [T B]. rewrite whole_app, T.
      destruct n as [|k]; simpl.
      * unfold whole at 1; simpl. fold (whole (scan_go r (c :: before) tl 0)).
        now rewrite IH by lia.
      * simpl in B. rewrite IH by lia. now rewrite firstn_skipn.
    + simpl in Hs. apply IH. lia.
Qed.

Lemma scan_whole (r : regex) (s : str) : whole (scan r s) = s.
Proof. unfold scan. now rewrite scan_go_whole by lia. Qed.

End MatcherFacts.

(* ================================================================== *)
(** ** What a substitution keeps and what it deletes *)
(* ================================================================== *)

Section ScanFacts.

Import Re.

(** A match object that some attempt of the pattern at some position
    of some text gave. *)
Definition hit_of (r : regex) (m : rmatch) : Prop :=
  exists adv before after n, match_here r adv before after = Some (m, n).

Lemma hits_at_hit_of (r : regex) (before after : str) hs n :
  hits_at r before after = (hs, n) -> Forall (hit_of r) hs.
Proof.
  unfold hits_at.
  destruct (match_here r false before after) as [[m1 [|n1]]|] eqn:E1.
  - destruct (match_here r true before after) as [[m2 n2]|] eqn:E2;
      intros [= <- <-]; repeat constructor; red; eauto 6.
  - intros [= <- <-]; repeat constructor; red; eauto 6.
  - intros [= <- <-]; constructor.
Qed.

Lemma hits_app (a b : list piece) : hits (a ++ b) = hits a ++ hits b.
Proof.
  induction a as [|[c|m] a IH]; simpl; [reflexivity | exact IH | now rewrite IH].
Qed.

Lemma hits_map_Hit (hs : list rmatch) : hits (map Hit hs) = hs.
Proof. induction hs; simpl; congruence. Qed.

(** Every match of a scan is a match of the pattern. *)
Lemma scan_go_hit_of (r : regex) (after before : str) (skip : nat) :
  Forall (hit_of r) (hits (scan_go r before after skip)).
Proof.
  revert before skip; induction after as [|c tl IH]; intros before skip.
  - destruct skip; simpl; [|constructor].
    destruct (hits_at r before []) as [hs n] eqn:E.
    rewrite app_nil_r, hits_map_Hit. eapply hits_at_hit_of; eauto.
  - destruct skip as [|k]; simpl; [|apply IH].
    destruct (hits_at r before (c :: tl)) as [hs n] eqn:E.
    rewrite hits_app, hits_map_Hit. apply Forall_app; split.
    + eapply hits_at_hit_of; eauto.
    + destruct n; simpl; apply IH.
Qed.

Lemma scan_hit_of (r : regex) (s : str) : Forall (hit_of r) (hits (scan r s)).
Proof. apply scan_go_hit_of. Qed.

(** The text a deletion keeps: the characters between the matches. *)
Definition kept (ps : list piece) : str := sub_pieces (fun _ => []) ps.

Lemma remove_kept (r : regex) (s : str) : remove r s = kept (scan r s).
Proof. reflexivity. Qed.

(** A scan without a match changes nothing, whatever the replacement. *)
Lemma sub_pieces_no_hit (f : rmatch -> str) (ps : list piece) :
  hits ps = [] -> sub_pieces f ps = whole ps.
Proof.
  induction ps as [|[c|m] ps IH]; simpl; intros H; try discriminate.
  - reflexivity.
  - unfold whole in *; simpl. now rewrite IH.
Qed.

(** The text of a match of [Lit a] followed by [Lit b] and more begins
    with [a ++ b]. *)
Lemma hit_of_lit2 (a b : str) (r1 r2 : regex) (m : rmatch) :
  hit_of (Seq (Lit a) (Seq (Seq (Lit b) r1) r2)) m ->
  starts_with (a ++ b) (m_text m) = true.
Proof.
  intros (adv & before & after & n & H).
  unfold match_here in H.
  destruct (run _ _ _) as [st|] eqn:E; [|discriminate].
  injection H as <- <-. simpl in E.
  destruct (starts_with a after) eqn:Ea; [|discriminate].
  simpl in E.
  destruct (starts_with b (skipn (length a) after)) eqn:Eb; [|discriminate].
  apply run_sound in E as (st1 & w1 & Hk & [R1 _]). simpl in R1.
  apply run_sound in Hk as (st' & w2 & Hk & [R2 _]).
  destruct (_ && _); [discriminate|]. injection Hk as ->.
  apply starts_with_inv in Ea, Eb. simpl.
  assert (A : after = (a ++ b ++ w1 ++ w2) ++ rest st).
  { rewrite Ea at 1. rewrite Eb at 1. rewrite R1, R2. now rewrite <- !app_assoc. }
  unfold consumed. rewrite A.
  rewrite length_app, Nat.add_sub, firstn_app, firstn_all, Nat.sub_diag.
  simpl. rewrite app_nil_r, app_assoc. apply starts_with_app.
Qed.

End ScanFacts.

(* ================================================================== *)
(** ** How the matcher runs on texts of a known shape *)
(* ================================================================== *)

Section RunFacts.

Import Re.

Lemma run_lit (s tl sn : str) (cp : list (nat * str)) k :
  run (Lit s) (MState sn (s ++ tl) cp) k = k (MState (rev s ++ sn) tl cp).
Proof.
  simpl. rewrite starts_with_app, skipn_app, skipn_all, Nat.sub_diag.
  reflexivity.
Qed.

Lemma run_lit_fail (s : str) (r : regex) (st : mstate) k :
  starts_with s (rest st) = false -> run (Seq (Lit s) r) st k = None.
Proof. intros H. simpl. now rewrite H. Qed.

(** A lazy repetition of a class goes on at the first position where
    the continuation accepts. *)
Lemma star_lazy_run (p : ascii -> bool) k (tl : str) (cp : list (nat * str)) out :
  forall (x sn : str) (fuel : nat),
    length x <= fuel ->
    forallb p x = true ->
    (forall i, i < length x ->
       k (MState (rev (firstn i x) ++ sn) (skipn i x ++ tl) cp) = None) ->
    k (MState (rev x ++ sn) tl cp) = Some out ->
    star_loop false (run (Cls p)) k fuel (MState sn (x ++ tl) cp) = Some out.
Proof.
  induction x as [|c x IH]; intros sn fuel Hf Hp Hno Hk.
  - destruct fuel; simpl in *; now rewrite Hk.
  - destruct fuel as [|fuel]; [simpl in Hf; lia|].
    simpl in Hp. apply andb_true_iff in Hp as [Hc Hp].
    pose proof (Hno 0 ltac:(simpl; lia)) as H0. simpl in H0.
    rewrite <- app_comm_cons.
    cbn [star_loop]. rewrite H0.
    cbn [run rest seen caps]. rewrite Hc.
    replace (length (x ++ tl) <? length (c :: x ++ tl)) with true
      by (symmetry; apply Nat.ltb_lt; simpl; lia).
    apply IH; trivial.
    + simpl in Hf; lia.
    + intros i Hi. specialize (Hno (S i)). simpl in Hno.
      rewrite <- app_assoc in Hno. apply Hno. lia.
    + simpl in Hk. now rewrite <- app_assoc in Hk.
Qed.

(** A greedy repetition of a class runs to the end of the text of the
    class and goes on there, when the continuation accepts there. *)
Lemma star_greedy_run (p : ascii -> bool) k (tl : str) (cp : list (nat * str)) out :
  match tl with [] => true | c :: _ => negb (p c) end = true ->
  forall (x sn : str) (fuel : nat),
    length x <= fuel ->
    forallb p x = true ->
    k (MState (rev x ++ sn) tl cp) = Some out ->
    star_loop true (run (Cls p)) k fuel (MState sn (x ++ tl) cp) = Some out.
Proof.
  intros Htl. induction x as [|c x IH]; intros sn fuel Hf Hp Hk.
  - destruct fuel; simpl in *; [exact Hk|].
    destruct tl as [|c tl]; [exact Hk|].
    apply negb_true_iff in Htl. now rewrite Htl.
  - destruct fuel as [|fuel]; [simpl in Hf; lia|].
    simpl in Hp. apply andb_true_iff in Hp as [Hc Hp].
    rewrite <- app_comm_cons.
    cbn [star_loop run rest seen caps]. rewrite Hc.
    replace (length (x ++ tl) <? length (c :: x ++ tl)) with true
      by (symmetry; apply Nat.ltb_lt; simpl; lia).
    rewrite IH; trivial.
    + simpl in Hf; lia.
    + simpl in Hk. now rewrite <- app_assoc in Hk.
Qed.

(** A scan passes over a stretch of text in which no attempt matches. *)
Lemma scan_go_skip (r : regex) (after : str) :
  forall (pre before : str),
    (forall i, i < length pre ->
       match_here r false (rev (firstn i pre) ++ before) (skipn i pre ++ after) = None) ->
    scan_go r before (pre ++ after) 0 =
    map Txt pre ++ scan_go r (rev pre ++ before) after 0.
Proof.
  induction pre as [|c pre IH]; intros before Hno; [reflexivity|].
  pose proof (Hno 0 ltac:(simpl; lia)) as H0. simpl in H0.
  rewrite <- app_comm_cons. cbn [scan_go]. unfold hits_at. rewrite H0.
  cbn [map app]. f_equal. rewrite IH.
  - simpl. now rewrite <- app_assoc.
  - intros i Hi. specialize (Hno (S i) ltac:(simpl; lia)). simpl in Hno.
    now rewrite <- app_assoc in Hno.
Qed.

Lemma hits_map_Txt (s : str) : hits (map Txt s) = [].
Proof. induction s; simpl; auto. Qed.

(** The first match of a search is the first attempt that matches. *)
Lemma search_first (r : regex) (pre after : str) (m : rmatch) (n : nat) :
  (forall i, i < length pre ->
     match_here r false (rev (firstn i pre)) (skipn i pre ++ after) = None) ->
  match_here r false (rev pre) after = Some (m, n) ->
  search r (pre ++ after) = Some m.
Proof.
  intros Hno Hm. unfold search, finditer, scan.
  rewrite scan_go_skip.
  - rewrite hits_app, hits_map_Txt, app_nil_r. cbn [app].
    destruct after as [|c tl]; cbn [scan_go]; unfold hits_at; rewrite Hm.
    + destruct n as [|n]; [|reflexivity].
      destruct (match_here r true (rev pre) []) as [[m2 n2]|]; reflexivity.
    + destruct n as [|n]; [|reflexivity].
      destruct (match_here r true (rev pre) (c :: tl)) as [[m2 n2]|]; reflexivity.
  - intros i Hi. rewrite app_nil_r. now apply Hno.
Qed.

(** A search finds nothing when no attempt matches. *)
Lemma search_none (r : regex) (s : str) :
  (forall i, i <= length s ->
     match_here r false (rev (firstn i s)) (skipn i s) = None) ->
  scan r s = map Txt s.
Proof.
  intros Hno. unfold scan.
  rewrite <- (app_nil_r s) at 1. rewrite scan_go_skip.
  - cbn [scan_go]. unfold hits_at.
    pose proof (Hno (length s) (le_n _)) as He.
    rewrite firstn_all, skipn_all in He. rewrite app_nil_r, He.
    simpl. now rewrite app_nil_r.
  - intros i Hi. rewrite !app_nil_r. apply Hno. lia.
Qed.

Lemma match_here_lit_fail (s : str) (r : regex) adv (before after : str) :
  starts_with s after = false ->
  match_here (Seq (Lit s) r) adv before after = None.
Proof. intros H. unfold match_here. now rewrite run_lit_fail. Qed.

(** [A(.+?)B] and [A(.*?)B] under re.DOTALL, on a text that begins with
    [A], then [T], then the first [B] after it. *)
Definition lazy_between (A B : str) (at_least_one : bool) : regex :=
  seqs [Lit A;
        Grp 1 (if at_least_one then Plus false Any else Star false Any);
        Lit B].

Lemma lazy_between_match (A B T post before : str) (one : bool) :
  (if one then T <> [] else True) ->
  (forall i, (if one then 1 else 0) <= i -> i < length T ->
     starts_with B (skipn i T ++ B ++ post) = false) ->
  exists m n,
    match_here (lazy_between A B one) false before (A ++ T ++ B ++ post) = Some (m, n)
    /\ group_or_empty m 1 = T.
Proof.
  intros HT Hno. unfold match_here, lazy_between. cbn [seqs].
  cbn [run rest seen caps]. rewrite starts_with_app, skipn_app, skipn_all, Nat.sub_diag.
  cbn [skipn app rest seen caps andb].
  match goal with |- context [run _ _ ?K] => set (K0 := K) end.
  assert (K1 : forall sn' u, starts_with B u = false -> K0 (MState sn' u []) = None).
  { intros sn' u Hu. unfold K0. cbn [rest]. now rewrite Hu. }
  assert (K2 : forall sn',
    K0 (MState sn' (B ++ post) []) = Some (MState (rev B ++ sn') post [(1, T)])).
  { intros sn'. unfold K0. cbn [rest seen caps]. rewrite starts_with_app.
    rewrite skipn_app, skipn_all, Nat.sub_diag. cbn [skipn app].
    unfold consumed. cbn [rest]. rewrite !length_app.
    replace (length T + (length B + length post) - (length B + length post))
      with (length T) by lia.
    now rewrite firstn_app, firstn_all, Nat.sub_diag, app_nil_r. }
  assert (Hstar : forall (x sn' : str) fuel,
    length x <= fuel ->
    (forall i, i < length x -> starts_with B (skipn i x ++ B ++ post) = false) ->
    star_loop false (run Any) K0 fuel (MState sn' (x ++ B ++ post) []) =
    Some (MState (rev B ++ rev x ++ sn') post [(1, T)])).
  { intros x sn' fuel Hf Hx.
    apply star_lazy_run; trivial.
    - clear. induction x; simpl; auto.
    - intros i Hi. apply K1. now apply Hx. }
  destruct one.
  - destruct T as [|c T]; [congruence|].
    unfold Plus, Any in *. rewrite <- app_comm_cons. cbn [run rest seen caps].
    match goal with |- context [star_loop false ?step K0 ?f ?st] =>
      change (star_loop false step K0 f st)
        with (star_loop false (run (Cls (fun _ => true))) K0 f st);
      rewrite (Hstar T (c :: rev A ++ before) f) end.
    + eexists _, _. split; reflexivity.
    + rewrite !length_app. lia.
    + intros i Hi. apply (Hno (S i)); simpl; lia.
  - unfold Any in *. cbn [run rest seen caps].
    match goal with |- context [star_loop false ?step K0 ?f ?st] =>
      change (star_loop false step K0 f st)
        with (star_loop false (run (Cls (fun _ => true))) K0 f st);
      rewrite (Hstar T (rev A ++ before) f) end.
    + eexists _, _. split; reflexivity.
    + rewrite !length_app. lia.
    + intros i Hi. apply (Hno i); simpl; lia.
Qed.

End RunFacts.

(* ================================================================== *)
(** ** Occurrences across a seam *)
(* ================================================================== *)

Section Seams.

Lemma char_in_app (c : ascii) (a b : str) :
  char_in c (a ++ b) = char_in c a || char_in c b.
Proof. unfold char_in. apply existsb_app. Qed.

Lemma char_in_cons_same (c : ascii) (a : str) : char_in c (c :: a) = true.
Proof. unfold char_in; simpl. now rewrite Ascii.eqb_refl. Qed.

(** A pattern that matches across the end of [u] has [u] as a proper
    prefix. *)
Lemma starts_with_seam (p u t : str) :
  starts_with p u = false -> starts_with p (u ++ t) = true ->
  exists p', p = u ++ p' /\ p' <> [] /\ starts_with p' t = true.
Proof.
  revert u; induction p as [|a p IH]; intros [|b u] Hf Ht; simpl in *;
    try discriminate.
  - exists (a :: p). repeat split; [discriminate | exact Ht].
  - apply andb_true_iff in Ht as [Hab Ht]. rewrite Hab in Hf. simpl in Hf.
    apply Ascii.eqb_eq in Hab; subst b.
    destruct (IH u Hf Ht) as (p' & -> & Hne & Hp').
    exists p'. now repeat split.
Qed.

(** A pattern whose first character is not met again in it cannot
    begin in a text free of it and end in a text that begins with that
    character. *)
Lemma no_straddle (c : ascii) (sub' pre t : str) (i : nat) :
  char_in c sub' = false ->
  first_occ (c :: sub') pre = None ->
  i < length pre ->
  starts_with (c :: sub') (skipn i pre ++ c :: t) = false.
Proof.
  intros Hc Hpre Hi.
  destruct (starts_with (c :: sub') (skipn i pre ++ c :: t)) eqn:E; [|reflexivity].
  pose proof (@first_occ_none _ _ i Hpre) as Hu.
  destruct (@starts_with_seam _ _ _ Hu E) as (p' & Hp & Hne & Hp').
  destruct (skipn i pre) as [|b u] eqn:Eu.
  - apply (f_equal (@length _)) in Eu. rewrite length_skipn in Eu. simpl in Eu. lia.
  - simpl in Hp. injection Hp as -> ->.
    destruct p' as [|d p']; [congruence|]. simpl in Hp'.
    apply andb_true_iff in Hp' as [Hd _]. apply Ascii.eqb_eq in Hd; subst d.
    rewrite char_in_app, char_in_cons_same, orb_true_r in Hc. discriminate.
Qed.

End Seams.

(* ================================================================== *)
(** ** C9: the title *)
(* ================================================================== *)

Section TitleExtraction.

Import Re Preprocessor.

Lemma clean_tex_ok (text : str) : exists t, _clean_tex text = Ok t.
Proof. eexists. reflexivity. Qed.

Lemma map_clean_tex_ok (l : list str) : exists l', map_res _clean_tex l = Ok l'.
Proof.
  induction l as [|a l [l' IH]]; [now exists []|].
  destruct (clean_tex_ok a) as [t Ht].
  exists (t :: l'). cbn [map_res]. now rewrite Ht, IH.
Qed.

(** The record carries the title the loop found, or the empty default. *)
Lemma extract_metadata_title (content : str) (t : option str) :
  first_title title_patterns content = Ok t ->
  exists meta, _extract_metadata content = Ok meta
               /\ title meta = match t with Some t => t | None => [] end.
Proof.
  intros Ht. unfold _extract_metadata. rewrite Ht. cbn [bind].
  destruct (findall1 icmlauthor_re content) as [|a l] eqn:Ea.
  - destruct (search author_re content) as [m|].
    + destruct (map_clean_tex_ok (split and_re (group_or_empty m 1))) as [l' Hl].
      rewrite Hl. cbn [bind]. eexists; split; reflexivity.
    + cbn [bind]. eexists; split; reflexivity.
  - destruct (map_clean_tex_ok (a :: l)) as [l' Hl].
    rewrite Hl. cbn [bind]. eexists; split; reflexivity.
Qed.

Lemma first_title_hit (pattern : regex) (ps : list regex) (content : str) m :
  search pattern content = Some m ->
  exists t, _clean_tex (group_or_empty m 1) = Ok t
            /\ first_title (pattern :: ps) content = Ok (Some t).
Proof.
  intros Hm. destruct (clean_tex_ok (group_or_empty m 1)) as [t Ht].
  exists t. split; [exact Ht|]. cbn [first_title]. now rewrite Hm, Ht.
Qed.

Lemma first_title_miss (pattern : regex) (ps : list regex) (content : str) :
  search pattern content = None ->
  first_title (pattern :: ps) content = first_title ps content.
Proof. intros Hm. cbn [first_title]. now rewrite Hm. Qed.

(** The search for [\icmltitle{T}] in a text where it comes first. *)
Lemma search_icmltitle (pre T post : str) :
  first_occ (txt "\icmltitle{") pre = None ->
  T <> [] -> char_in "}" T = false ->
  exists m, search icmltitle_re (pre ++ txt "\icmltitle{" ++ T ++ txt "}" ++ post) = Some m
            /\ group_or_empty m 1 = T.
Proof.
  intros Hpre HT Hbrace.
  destruct (@lazy_between_match (txt "\icmltitle{") (txt "}") T post (rev pre) true HT)
    as (m & n & Hm & Hg).
  { intros i Hi1 Hi2.
    destruct (skipn i T) as [|c u] eqn:Eu.
    - apply (f_equal (@length _)) in Eu. rewrite length_skipn in Eu. simpl in Eu. lia.
    - assert (Hc : char_in "}" (c :: u) = false).
      { rewrite <- Eu. rewrite <- (firstn_skipn i T), char_in_app in Hbrace.
        now apply orb_false_iff in Hbrace. }
      unfold char_in in Hc. simpl in Hc. apply orb_false_iff in Hc as [Hc _].
      simpl. now rewrite Hc. }
  exists m. split; [|exact Hg].
  eapply search_first; [|exact Hm].
  intros i Hi. apply match_here_lit_fail.
  apply (@no_straddle "\"%char (txt "icmltitle{")); trivial.
Qed.

(** C9. The title is taken from the first pattern of the list that
    matches: from [\icmltitle] when it matches, whatever else the text
    holds; from the [\neurips...title] pattern when [\icmltitle] does not
    match; from the generic [\title] only when neither does. In particular
    a text whose first [\icmltitle{] is followed by [T] and a closing brace
    yields the title [_clean_tex T]. *)
Theorem title_first_match_wins :
  (forall content m,
     search icmltitle_re content = Some m ->
     exists meta, _extract_metadata content = Ok meta
                  /\ _clean_tex (group_or_empty m 1) = Ok (title meta))
  /\ (forall content m,
        search icmltitle_re content = None ->
        search neurips_title_re content = Some m ->
        exists meta, _extract_metadata content = Ok meta
                     /\ _clean_tex (group_or_empty m 1) = Ok (title meta))
  /\ (forall content m,
        search icmltitle_re content = None ->
        search neurips_title_re content = None ->
        search title_re content = Some m ->
        exists meta, _extract_metadata content = Ok meta
                     /\ _clean_tex (group_or_empty m 1) = Ok (title meta))
  /\ (forall pre T post,
        first_occ (txt "\icmltitle{") pre = None ->
        T <> [] -> char_in "}" T = false ->
        exists meta,
          _extract_metadata (pre ++ txt "\icmltitle{" ++ T ++ txt "}" ++ post) = Ok meta
          /\ _clean_tex T = Ok (title meta)).
Proof.
  assert (P1 : forall content m,
     search icmltitle_re content = Some m ->
     exists meta, _extract_metadata content = Ok meta
                  /\ _clean_tex (group_or_empty m 1) = Ok (title meta)).
  { intros content m Hm.
    destruct (@first_title_hit _ [neurips_title_re; title_re] _ _ Hm) as (t & Hc & Hf).
    destruct (@extract_metadata_title _ _ Hf) as (meta & He & Ht).
    exists meta. split; [exact He | now rewrite Ht]. }
  split; [exact P1|]. split; [|split].
  - intros content m H1 Hm. unfold _extract_metadata.
    destruct (@first_title_hit _ [title_re] _ _ Hm) as (t & Hc & Hf).
    assert (Hf' : first_title title_patterns content = Ok (Some t)).
    { unfold title_patterns. rewrite first_title_miss by exact H1. exact Hf. }
    destruct (@extract_metadata_title _ _ Hf') as (meta & He & Ht).
    exists meta. split; [exact He | now rewrite Ht].
  - intros content m H1 H2 Hm.
    destruct (@first_title_hit _ [] _ _ Hm) as (t & Hc & Hf).
    assert (Hf' : first_title title_patterns content = Ok (Some t)).
    { unfold title_patterns. rewrite first_title_miss by exact H1.
      rewrite first_title_miss by exact H2. exact Hf. }
    destruct (@extract_metadata_title _ _ Hf') as (meta & He & Ht).
    exists meta. split; [exact He | now rewrite Ht].
  - intros pre T post Hpre HT Hb.
    destruct (@search_icmltitle pre T post Hpre HT Hb) as (m & Hm & Hg).
    destruct (P1 _ _ Hm) as (meta & He & Ht).
    exists meta. split; [exact He | now rewrite <- Hg].
Qed.

(** The example of the specification: [\icmltitle{Foo}] and no [\title]. *)
Lemma title_first_match_wins_witness :
  exists meta,
    _extract_metadata (txt "\icmltitle{Foo}") = Ok meta /\ title meta = txt "Foo".
Proof.
  destruct title_first_match_wins as (_ & _ & _ & H).
  destruct (H [] (txt "Foo") [] eq_refl ltac:(discriminate) eq_refl)
    as (meta & He & Ht).
  exists meta. split; [exact He|].
  assert (Hc : _clean_tex (txt "Foo") = Ok (txt "Foo")) by (vm_compute; reflexivity).
  rewrite Hc in Ht. now injection Ht as <-.
Defined.

End TitleExtraction.

(* ================================================================== *)
(** ** C6: the manifest patch *)
(* ================================================================== *)

Section Manifest.

Import Postprocessor.

Lemma contains_first_occ (sub s : str) :
  contains sub s = match first_occ sub s with Some _ => true | None => false end.
Proof.
  unfold contains. change 0%Z with (Z.of_nat 0).
  rewrite (@find_from s sub 0) by lia. cbn [skipn].
  destruct (first_occ sub s) as [k|]; [|reflexivity].
  apply negb_true_iff, Z.eqb_neq. lia.
Qed.

Lemma occurs_contains (sub s : str) (i : nat) :
  starts_with sub (skipn i s) = true -> contains sub s = true.
Proof.
  intros H. rewrite contains_first_occ.
  destruct (first_occ sub s) eqn:E; [reflexivity|].
  now rewrite (@first_occ_none _ _ i E) in H.
Qed.

(** Text that contains [sub] still does with text around it. *)
Lemma contains_app_mid (sub a s b : str) :
  contains sub s = true -> contains sub (a ++ s ++ b) = true.
Proof.
  rewrite contains_first_occ.
  destruct (first_occ sub s) as [k|] eqn:E; [intros _|discriminate].
  apply (@occurs_contains _ _ (k + length a)).
  rewrite <- skipn_skipn, skipn_app, skipn_all, Nat.sub_diag. cbn [skipn app].
  apply first_occ_here. now apply first_occ_app.
Qed.

(** What is left of an occurrence is dropped before the search for the
    next one goes on. *)
Lemma replace_go_skip (old new : str) :
  old <> [] ->
  forall (s : str) (k : nat),
    replace_go old new s k = replace_go old new (skipn k s) 0.
Proof.
  intros Hold. induction s as [|c s IH]; intros [|k]; simpl; trivial.
  destruct old; [congruence | reflexivity].
Qed.

(** Without an occurrence, [replace] returns its text. *)
Lemma replace_none (old new s : str) :
  old <> [] -> first_occ old s = None -> replace s old new = s.
Proof.
  intros Hold. unfold replace. induction s as [|c s IH]; simpl.
  - destruct old; [congruence | reflexivity].
  - destruct (starts_with old (c :: s)); [discriminate|].
    destruct (first_occ old s); [discriminate|].
    intros _. now rewrite IH.
Qed.

(** With one, the first occurrence is where [new] goes. *)
Lemma replace_first (old new s : str) (k : nat) :
  old <> [] -> first_occ old s = Some k ->
  replace s old new =
  firstn k s ++ new ++ replace (skipn (k + length old) s) old new.
Proof.
  intros Hold. unfold replace. revert k. induction s as [|c s IH]; intros k; simpl.
  - destruct old; [congruence | discriminate].
  - destruct (starts_with old (c :: s)) eqn:E.
    + intros [= <-]. destruct old as [|o old]; [congruence|].
      cbn [firstn app]. f_equal. now rewrite replace_go_skip.
    + destruct (first_occ old s) as [j|]; [|discriminate].
      intros [= <-]. cbn [firstn skipn Nat.add]. rewrite (IH j eq_refl).
      reflexivity.
Qed.

Lemma font_items_marked : contains marker_font font_items = true.
Proof. vm_compute. reflexivity. Qed.

(** A patch either changes nothing or leaves the marker in the text. *)
Lemma patch_manifest_cases (content : str) :
  patch_manifest content = content
  \/ contains marker_font (patch_manifest content) = true.
Proof.
  unfold patch_manifest.
  destruct (contains marker_font content) eqn:Em; [now left|].
  destruct (first_occ manifest_close content) as [k|] eqn:Ec.
  - right. rewrite (@replace_first _ _ _ k) by (trivial; discriminate).
    apply contains_app_mid.
    apply (@contains_app_mid marker_font [] font_items (txt "  </manifest>")).
    apply font_items_marked.
  - left. now rewrite replace_none by (trivial; discriminate).
Qed.

Lemma patch_manifest_idempotent (content : str) :
  patch_manifest (patch_manifest content) = patch_manifest content.
Proof.
  destruct (patch_manifest_cases content) as [H|H].
  - now rewrite H.
  - unfold patch_manifest at 1. now rewrite H.
Qed.

(** C6. The manifest patch is idempotent: run on its own result it
    changes nothing, for every manifest text and every set of manifest
    files, so a second run adds no font entry. The reason is the one
    given: a text with the marker font name is left as it is, and a patch
    that changes the text leaves the marker in it. *)
Theorem update_manifest_idempotent :
  forall (P : Type) (opf_files : list (P * str)),
    _update_manifest (_update_manifest opf_files) = _update_manifest opf_files
    /\ (forall content,
          patch_manifest (patch_manifest content) = patch_manifest content)
    /\ (forall content,
          contains marker_font content = true -> patch_manifest content = content)
    /\ (forall content,
          patch_manifest content = content
          \/ contains marker_font (patch_manifest content) = true).
Proof.
  intros P opf_files. split; [|split; [|split]].
  - destruct opf_files as [|[p content] others]; [reflexivity|].
    cbn [_update_manifest]. now rewrite patch_manifest_idempotent.
  - apply patch_manifest_idempotent.
  - intros content H. unfold patch_manifest. now rewrite H.
  - apply patch_manifest_cases.
Qed.

End Manifest.

(* ================================================================== *)
(** ** C8: the include resolver *)
(* ================================================================== *)

(** The computation came to an end: it returned or raised. *)
Definition finished {A : Type} (r : res A) : bool :=
  match r with
  | OutOfFuel => false
  | _ => true
  end.

Section Includes.

Import Re Preprocessor.

Variable path : Type.
Variable joinpath : path -> str -> path.
Variable parent : path -> path.
Variable exists_ : path -> option bool.
Variable read_text : path -> option str.

Local Abbreviation resolve := (_resolve_includes joinpath parent exists_ read_text).

Lemma sub_pieces_res_finished (f : rmatch -> res str) (ps : list piece) :
  (forall m, finished (f m) = true) -> finished (sub_pieces_res f ps) = true.
Proof.
  intros Hf. induction ps as [|[c|m] ps IH]; simpl; trivial.
  - destruct (sub_pieces_res f ps); simpl in *; congruence.
  - specialize (Hf m). destruct (f m); simpl in *; try congruence.
    destruct (sub_pieces_res f ps); simpl in *; congruence.
Qed.

Lemma sub_pieces_res_ext (f g : rmatch -> res str) (ps : list piece) :
  (forall m, f m = g m) -> sub_pieces_res f ps = sub_pieces_res g ps.
Proof.
  intros Hfg. induction ps as [|[c|m] ps IH]; simpl; trivial.
  - now rewrite IH.
  - now rewrite Hfg, IH.
Qed.

Local Open Scope Z_scope.

(** Enough fuel for the depths [depth .. 11]: the call comes to an end. *)
Lemma resolve_finished (fuel : nat) :
  forall (content : str) (work_dir : path) (depth : Z),
    11 - depth < Z.of_nat fuel ->
    finished (resolve fuel content work_dir depth) = true.
Proof.
  induction fuel as [|fuel IH]; intros content work_dir depth Hd.
  - simpl. destruct (Z.gtb_spec depth 10); [reflexivity | lia].
  - cbn [_resolve_includes].
    destruct (Z.gtb_spec depth 10); [reflexivity|].
    set (cb := fun m : rmatch => _).
    assert (Hcb : forall m, finished (cb m) = true).
    { intros m. unfold cb.
      destruct (exists_ _) as [[|]|]; try reflexivity.
      destruct (read_text _); [|reflexivity].
      apply IH. lia. }
    unfold sub_res.
    pose proof (sub_pieces_res_finished cb (scan input_re content) Hcb) as H1.
    destruct (sub_pieces_res cb (scan input_re content)) as [c1| |];
      simpl in *; try congruence.
    now apply sub_pieces_res_finished.
Qed.

(** With enough fuel, more fuel changes nothing. *)
Lemma resolve_fuel (fuel1 : nat) :
  forall (fuel2 : nat) (content : str) (work_dir : path) (depth : Z),
    11 - depth < Z.of_nat fuel1 -> 11 - depth < Z.of_nat fuel2 ->
    resolve fuel1 content work_dir depth = resolve fuel2 content work_dir depth.
Proof.
  induction fuel1 as [|fuel1 IH]; intros fuel2 content work_dir depth H1 H2.
  - destruct fuel2; simpl; destruct (Z.gtb_spec depth 10); trivial; lia.
  - destruct fuel2 as [|fuel2].
    + simpl. destruct (Z.gtb_spec depth 10); trivial; lia.
    + cbn [_resolve_includes].
      destruct (Z.gtb_spec depth 10); [reflexivity|].
      set (cb1 := fun m : rmatch => _).
      set (cb2 := fun m : rmatch => _).
      assert (Hcb : forall m, cb1 m = cb2 m).
      { intros m. unfold cb1, cb2.
        destruct (exists_ _) as [[|]|]; try reflexivity.
        destruct (read_text _); [|reflexivity].
        apply IH; lia. }
      unfold sub_res.
      rewrite (sub_pieces_res_ext cb1 cb2 _ Hcb).
      destruct (sub_pieces_res cb2 (scan input_re content)); simpl; trivial.
      now apply sub_pieces_res_ext.
Qed.

(** C8. Include resolution comes to an end for every text, directory and
    file system, circular includes among them: twelve levels of recursion
    are all it can use (depths 0 to 11), more fuel does not change the
    result, and at a depth above ten the text comes back as it is. *)
Theorem resolve_includes_terminates :
  forall (content : str) (work_dir : path),
    finished (resolve 12 content work_dir 0) = true
    /\ (forall extra : nat,
          resolve (12 + extra) content work_dir 0 = resolve 12 content work_dir 0)
    /\ (forall (fuel : nat) (depth : Z),
          depth > 10 -> resolve fuel content work_dir depth = Ok content).
Proof.
  intros content work_dir. split; [|split].
  - apply resolve_finished. simpl. lia.
  - intros extra. apply resolve_fuel; simpl; lia.
  - intros fuel depth Hd.
    destruct fuel; simpl; destruct (Z.gtb_spec depth 10); trivial; lia.
Qed.

End Includes.

Section CircularInclude.

Import Re Preprocessor.

(** A directory whose only file, [a.tex], includes itself. *)
Definition loop_join (_ : str) (filename : str) : str := filename.
Definition loop_parent (_ : str) : str := [].
Definition loop_exists (p : str) : option bool := Some (str_eqb p (txt "a.tex")).
Definition loop_read (p : str) : option str := Some (txt "x\input{a}").

(** The resolver on the circular include: eleven copies deep, then the
    directive is left in place. *)
Lemma resolve_includes_terminates_witness :
  finished (_resolve_includes loop_join loop_parent loop_exists loop_read
              12 (txt "\input{a}") [] 0) = true
  /\ _resolve_includes loop_join loop_parent loop_exists loop_read
       12 (txt "\input{a}") [] 0 = Ok (txt "xxxxxxxxxxx\input{a}").
Proof.
  split.
  - apply (resolve_includes_terminates loop_join loop_parent loop_exists
             loop_read (txt "\input{a}") []).
  - vm_compute. reflexivity.
Defined.

End CircularInclude.

(* ================================================================== *)
(** ** C2: the macro expander on replacement texts with backslashes *)
(* ================================================================== *)

Section MacroTemplates.

Import Re Preprocessor.

(** An escape that the template compiler does not know: a backslash
    before a letter other than [a b f g n r t v]. *)
Definition unknown_escape (e : ascii) : bool :=
  is_alpha e && negb (Ascii.eqb e "g")
  && match escape_char e with None => true | Some _ => false end.

(** A replacement text whose first backslash begins such an escape. *)
Definition bad_template (R : str) : Prop :=
  exists (pre : str) (e : ascii) (post : str),
    R = pre ++ bsl :: e :: post
    /\ char_in bsl pre = false
    /\ unknown_escape e = true.

Lemma unknown_escape_cases (e : ascii) :
  unknown_escape e = true ->
  Ascii.eqb e "g" = false /\ Ascii.eqb e "0" = false /\ is_digit e = false
  /\ escape_char e = None /\ is_alpha e = true.
Proof.
  destruct e as [[] [] [] [] [] [] [] []]; intros H;
    solve [ discriminate H | repeat split ].
Qed.

Lemma parse_template_bad (groups : nat) (e : ascii) (post : str) :
  unknown_escape e = true ->
  forall pre : str,
    char_in bsl pre = false ->
    parse_template (length (pre ++ bsl :: e :: post)) groups (pre ++ bsl :: e :: post)
    = Raise TemplateError.
Proof.
  intros He. apply unknown_escape_cases in He as (Hg & H0 & Hd & Hx & Ha).
  induction pre as [|c pre IH]; intros Hp.
  - cbn [app length parse_template].
    rewrite Ascii.eqb_refl. cbn [negb].
    rewrite Hg, H0, Hd, Hx, Ha. reflexivity.
  - unfold char_in in Hp. cbn [existsb] in Hp.
    apply orb_false_iff in Hp as [Hc Hp].
    rewrite <- app_comm_cons. cbn [length parse_template].
    rewrite Ascii.eqb_sym, Hc. cbn [negb].
    rewrite (IH Hp). reflexivity.
Qed.

Lemma bad_template_backslash (R : str) : bad_template R -> char_in bsl R = true.
Proof.
  intros (pre & e & post & -> & _ & _). unfold char_in.
  rewrite existsb_app. cbn [existsb]. rewrite Ascii.eqb_refl.
  cbn [orb]. apply orb_true_r.
Qed.

(** [re.sub] raises on such a template, whatever the pattern and the
    text. *)
Lemma sub_bad (groups : nat) (r : regex) (R s : str) :
  bad_template R -> sub groups r R s = Raise TemplateError.
Proof.
  intros HR. unfold sub. rewrite (bad_template_backslash HR). cbn [negb].
  destruct HR as (pre & e & post & -> & Hp & He).
  now rewrite parse_template_bad.
Qed.

(** No other exception comes out of the template compiler, and it does
    not loop. *)
Definition template_result {A : Type} (x : res A) : Prop :=
  match x with
  | Ok _ | Raise TemplateError => True
  | _ => False
  end.

Lemma tgroup_result (groups n : nat) (k : res (list titem)) :
  template_result k -> template_result (tgroup groups n k).
Proof.
  unfold tgroup. destruct (groups <? n); [exact (fun _ => I)|].
  destruct k as [items|[]|]; simpl; trivial.
Qed.

Lemma bind_result (k : res (list titem)) (f : list titem -> list titem) :
  template_result k -> template_result (items <- k ;; Ok (f items)).
Proof. destruct k as [items|[]|]; simpl; trivial. Qed.

Lemma parse_template_result (groups : nat) :
  forall (fuel : nat) (t : str), template_result (parse_template fuel groups t).
Proof.
  induction fuel as [|fuel IH]; intros t; [exact I|].
  cbn [parse_template].
  repeat match goal with
         | |- template_result (Ok _) => exact I
         | |- template_result (Raise TemplateError) => exact I
         | |- template_result (parse_template fuel groups _) => apply IH
         | |- template_result (tgroup _ _ _) => apply tgroup_result
         | |- template_result (bind _ (fun items => Ok _)) =>
             apply (@bind_result _ (fun items => _))
         | |- template_result (let '(a, b) := ?x in _) => destruct x
         | |- template_result (match ?x with _ => _ end) => destruct x
         end.
Qed.

Lemma sub_result (groups : nat) (r : regex) (R s : str) :
  template_result (sub groups r R s).
Proof.
  unfold sub. destruct (negb (char_in bsl R)); [exact I|].
  pose proof (parse_template_result groups (length R) R) as H.
  destruct (parse_template (length R) groups R) as [items|[]|]; simpl in *; trivial.
Qed.

(** One bad entry of the macro table is enough: the entries before it
    either go through or raise the same exception. *)
Lemma expand_macros_bad (cmd R : str) :
  bad_template R ->
  forall (macros : list (str * str)) (content : str),
    In (cmd, R) macros -> expand_macros macros content = Raise TemplateError.
Proof.
  intros HR. induction macros as [|[c r] macros IH]; intros content Hin.
  - destruct Hin.
  - cbn [expand_macros]. destruct Hin as [E|Hin].
    + injection E as -> ->. now rewrite sub_bad.
    + pose proof (sub_result 0 (macro_use_re c) r content) as H.
      destruct (sub 0 (macro_use_re c) r content) as [t|[]|];
        simpl in H; try contradiction; cbn [bind]; auto.
Qed.

(** A definition every paper on real numbers has. *)
Definition reals_doc : str :=
  txt "\newcommand{\R}{\mathbb{R}}" ++ [nl] ++ txt "Let $x \in \R$.".

(** C2. The simple-macro expander is not total: the replacement text of
    a definition is handed to [re.sub] as a template, and the template
    compiler raises on [\m], an escape it does not know. The definition is
    in the macro table; the stage raises instead of returning a text. So
    it is for every document with a definition whose replacement text has
    such an escape at its first backslash. *)
Theorem expand_simple_macros_raises :
  (collect_macros reals_doc = [(txt "\R", txt "\mathbb{R}")]
   /\ bad_template (txt "\mathbb{R}")
   /\ _expand_simple_macros reals_doc = Raise TemplateError)
  /\ (forall content cmd R : str,
        In (cmd, R) (collect_macros content) -> bad_template R ->
        _expand_simple_macros content = Raise TemplateError).
Proof.
  split; [split; [|split]|].
  - vm_compute. reflexivity.
  - exists [], "m"%char, (txt "athbb{R}"). repeat split.
  - vm_compute. reflexivity.
  - intros content cmd R Hin HR. unfold _expand_simple_macros.
    now rewrite (@expand_macros_bad cmd R HR _ _ Hin).
Qed.

End MacroTemplates.

(* ================================================================== *)
(** ** C7: repackaging *)
(* ================================================================== *)

Section Repackaging.

Import Postprocessor.

(** An extracted archive with a second file named [mimetype], inside
    the content directory. *)
Definition nested_mimetype_tree : list node :=
  [ ([txt "mimetype"], File);
    ([txt "EPUB"], Dir);
    ([txt "EPUB"; txt "content.opf"], File);
    ([txt "EPUB"; txt "mimetype"], File) ].

Lemma zf_write_ok (year : Z) (arcname : str) (c : compress_type) :
  (1980 <= year <= 2107)%Z -> zf_write year arcname c = Ok (arcname, c).
Proof.
  intros H. unfold zf_write.
  destruct (Z.ltb_spec year 1980); [lia|].
  destruct (Z.ltb_spec 2107 year); [lia | reflexivity].
Qed.

Lemma write_all_ok (year : list str -> Z) (paths : list node) :
  (forall n, In n paths -> (1980 <= year (fst n) <= 2107)%Z) ->
  write_all year paths = Ok (map (fun n => (arcname (fst n), ZIP_DEFLATED)) paths).
Proof.
  induction paths as [|n paths IH]; intros H; [reflexivity|].
  cbn [write_all map]. rewrite zf_write_ok by (apply H; now left).
  cbn [bind]. rewrite IH by (intros m Hm; apply H; now right).
  reflexivity.
Qed.

(** C7. Repackaging leaves out every file whose last path part is
    [mimetype], not only the entry at the top: [EPUB/mimetype] is a file
    of the directory and is missing from the archive written, whenever
    the files were last modified (in the years that the archive format
    holds). *)
Theorem repackage_drops_nested_mimetype :
  forall year : list str -> Z,
    (forall p, 1980 <= year p <= 2107)%Z ->
    _repackage_epub year nested_mimetype_tree =
    Ok [ (txt "mimetype", ZIP_STORED); (txt "EPUB/content.opf", ZIP_DEFLATED) ].
Proof.
  intros year Hy. unfold _repackage_epub.
  replace (mimetype_path nested_mimetype_tree)
    with (Some ([mimetype], File)) by (vm_compute; reflexivity).
  rewrite zf_write_ok by apply Hy. cbn [bind].
  replace (filter _ (sorted nested_mimetype_tree))
    with [([txt "EPUB"; txt "content.opf"], File)] by (vm_compute; reflexivity).
  rewrite write_all_ok by (intros n _; apply Hy).
  reflexivity.
Qed.

Lemma repackage_drops_nested_mimetype_witness :
  _repackage_epub (fun _ => 2024%Z) nested_mimetype_tree =
  Ok [ (txt "mimetype", ZIP_STORED); (txt "EPUB/content.opf", ZIP_DEFLATED) ].
Proof.
  apply repackage_drops_nested_mimetype. intros p. lia.
Defined.

(** *** The order of the entries *)

Lemma code_inj (x y : ascii) : code x = code y -> x = y.
Proof.
  unfold code. intros H.
  rewrite <- (ascii_nat_embedding x), <- (ascii_nat_embedding y). now rewrite H.
Qed.

Lemma str_leb_total : forall a b : str, str_leb a b = false -> str_leb b a = true.
Proof.
  induction a as [|x a IH]; intros [|y b] H; simpl in *; try easy.
  destruct (Nat.ltb_spec (code x) (code y)); [discriminate|].
  destruct (Nat.ltb_spec (code y) (code x)); [reflexivity|].
  now apply IH.
Qed.

Lemma str_leb_trans :
  forall a b c : str, str_leb a b = true -> str_leb b c = true -> str_leb a c = true.
Proof.
  induction a as [|x a IH]; intros [|y b] [|z c] H1 H2; simpl in *; try easy.
  destruct (Nat.ltb_spec (code x) (code y)), (Nat.ltb_spec (code y) (code z)),
    (Nat.ltb_spec (code x) (code z)); trivial; try lia;
    destruct (Nat.ltb_spec (code y) (code x)); try discriminate; try lia;
    destruct (Nat.ltb_spec (code z) (code y)); try discriminate; try lia;
    destruct (Nat.ltb_spec (code z) (code x)); try lia.
  eapply IH; eauto.
Qed.

Lemma str_leb_antisym :
  forall a b : str, str_leb a b = true -> str_leb b a = true -> a = b.
Proof.
  induction a as [|x a IH]; intros [|y b] H1 H2; simpl in *; try easy.
  destruct (Nat.ltb_spec (code x) (code y)), (Nat.ltb_spec (code y) (code x));
    try lia; try discriminate.
  f_equal; [apply code_inj; lia | now apply IH].
Qed.

Lemma str_eqb_true (a b : str) : str_eqb a b = true <-> a = b.
Proof. unfold str_eqb. destruct (list_eq_dec ascii_dec a b); split; easy. Qed.

Lemma str_eqb_false (a b : str) : str_eqb a b = false <-> a <> b.
Proof. unfold str_eqb. destruct (list_eq_dec ascii_dec a b); split; easy. Qed.

Lemma path_leb_total :
  forall a b : list str, path_leb a b = false -> path_leb b a = true.
Proof.
  induction a as [|x a IH]; intros [|y b] H; simpl in *; try easy.
  destruct (str_eqb x y) eqn:E.
  - apply str_eqb_true in E as ->.
    replace (str_eqb y y) with true by (symmetry; now apply str_eqb_true).
    now apply IH.
  - replace (str_eqb y x) with false.
    + now apply str_leb_total.
    + symmetry. apply str_eqb_false. apply str_eqb_false in E. congruence.
Qed.

Lemma path_leb_trans :
  forall a b c : list str,
    path_leb a b = true -> path_leb b c = true -> path_leb a c = true.
Proof.
  induction a as [|x a IH]; intros [|y b] [|z c] H1 H2; simpl in *; try easy.
  destruct (str_eqb x y) eqn:Exy.
  - apply str_eqb_true in Exy as ->.
    destruct (str_eqb y z); [eapply IH; eauto | exact H2].
  - destruct (str_eqb y z) eqn:Eyz.
    + apply str_eqb_true in Eyz as ->. now rewrite Exy.
    + destruct (str_eqb x z) eqn:Exz.
      * apply str_eqb_true in Exz as ->.
        apply str_eqb_false in Exy. destruct Exy.
        now apply str_leb_antisym.
      * eapply str_leb_trans; eauto.
Qed.

Definition path_le (a b : node) : Prop := path_leb (fst a) (fst b) = true.

Lemma insert_In (x : node) : forall (l : list node) (n : node),
  In n (insert x l) <-> n = x \/ In n l.
Proof.
  induction l as [|y l IH]; intros n; simpl.
  - intuition.
  - destruct (path_leb (fst x) (fst y)); simpl; [intuition|].
    rewrite IH. intuition.
Qed.

Lemma sorted_In : forall (l : list node) (n : node), In n (sorted l) <-> In n l.
Proof.
  induction l as [|x l IH]; intros n; simpl; [tauto|].
  rewrite insert_In, IH. intuition.
Qed.

Lemma insert_sorted (x : node) : forall l : list node,
  StronglySorted path_le l -> StronglySorted path_le (insert x l).
Proof.
  induction l as [|y l IH]; intros H; simpl.
  - repeat constructor.
  - inversion H as [|? ? Hl Hy]; subst.
    destruct (path_leb (fst x) (fst y)) eqn:E.
    + constructor; [exact H|]. constructor; [exact E|].
      apply Forall_forall. intros z Hz.
      rewrite Forall_forall in Hy. unfold path_le.
      eapply path_leb_trans; [exact E | now apply Hy].
    + constructor; [now apply IH|].
      apply Forall_forall. intros z Hz. apply insert_In in Hz as [->|Hz].
      * now apply path_leb_total.
      * rewrite Forall_forall in Hy. now apply Hy.
Qed.

Lemma sorted_sorted : forall l : list node, StronglySorted path_le (sorted l).
Proof.
  induction l as [|x l IH]; simpl; [constructor|now apply insert_sorted].
Qed.

Lemma filter_sorted (f : node -> bool) : forall l : list node,
  StronglySorted path_le l -> StronglySorted path_le (filter f l).
Proof.
  induction l as [|x l IH]; intros H; simpl; [constructor|].
  inversion H as [|? ? Hl Hx]; subst.
  destruct (f x); [|now apply IH].
  constructor; [now apply IH|].
  apply Forall_forall. intros z Hz. apply filter_In in Hz as [Hz _].
  rewrite Forall_forall in Hx. now apply Hx.
Qed.

Lemma insert_perm (x : node) (l : list node) : Permutation (insert x l) (x :: l).
Proof.
  induction l as [|y l IH]; simpl; [reflexivity|].
  destruct (path_leb (fst x) (fst y)); [reflexivity|].
  rewrite IH. apply perm_swap.
Qed.

Lemma sorted_perm (l : list node) : Permutation (sorted l) l.
Proof.
  induction l as [|x l IH]; simpl; [reflexivity|].
  rewrite insert_perm. now constructor.
Qed.

Lemma filter_perm (f : node -> bool) (a b : list node) :
  Permutation a b -> Permutation (filter f a) (filter f b).
Proof.
  induction 1 as [|x a b _ IH|x y a|a b c _ IH1 _ IH2]; simpl.
  - reflexivity.
  - destruct (f x); [now constructor | exact IH].
  - destruct (f x), (f y); try reflexivity. apply perm_swap.
  - now rewrite IH1.
Qed.

Lemma filter_agree (f g : node -> bool) (l : list node) :
  (forall n, In n l -> f n = g n) -> filter f l = filter g l.
Proof.
  induction l as [|x l IH]; intros H; [reflexivity|].
  simpl. rewrite (H x) by now left.
  rewrite IH by (intros n Hn; apply H; now right). reflexivity.
Qed.

(** The writing stops at the first file that cannot be written. *)
Lemma write_all_raises (year : list str -> Z) (paths : list node) (n : node) :
  In n paths ->
  ~ (1980 <= year (fst n) <= 2107)%Z ->
  write_all year paths = Raise ValueError
  \/ write_all year paths = Raise StructError.
Proof.
  induction paths as [|m paths IH]; intros Hin Hy; [destruct Hin|].
  cbn [write_all]. unfold zf_write.
  destruct (Z.ltb_spec (year (fst m)) 1980); [now left|].
  destruct (Z.ltb_spec 2107 (year (fst m))); [now right|].
  cbn [bind]. destruct Hin as [->|Hin]; [lia|].
  destruct (IH Hin Hy) as [-> | ->]; [now left | now right].
Qed.

(** The files other than the entry at the top. *)
Definition other_file (n : node) : bool :=
  is_file n
  && negb (if list_eq_dec (list_eq_dec ascii_dec) (fst n) [mimetype]
           then true else false).

(** X1. An extracted directory with a [mimetype] file at the top and no
    other file of that name. When every file was last modified in a year
    from 1980 to 2107, the archive begins with the [mimetype] entry,
    stored, and then holds the other regular files of the directory and
    nothing else -- each as often as the walk lists it, so once;
    directories are not written -- deflated, in the order of their paths.
    When one of the files was last modified outside those years, the call
    raises [ValueError] or [struct.error], and no archive is complete. *)
Theorem repackage_epub_entries :
  forall (year : list str -> Z) (tree : list node),
    mimetype_path tree = Some ([mimetype], File) ->
    (forall n, In n tree -> is_file n = true ->
               name (fst n) = mimetype -> fst n = [mimetype]) ->
    ((forall n, In n tree -> is_file n = true ->
                (1980 <= year (fst n) <= 2107)%Z) ->
     exists rest : list node,
       _repackage_epub year tree
       = Ok ((mimetype, ZIP_STORED)
               :: map (fun n => (arcname (fst n), ZIP_DEFLATED)) rest)
       /\ Permutation rest (filter other_file tree)
       /\ StronglySorted path_le rest)
    /\ ((exists n, In n tree /\ is_file n = true
                   /\ ~ (1980 <= year (fst n) <= 2107)%Z) ->
        _repackage_epub year tree = Raise ValueError
        \/ _repackage_epub year tree = Raise StructError).
Proof.
  intros year tree Hm Hone.
  assert (Htop : In ([mimetype], File) tree).
  { unfold mimetype_path in Hm. now apply find_some in Hm as [Hin _]. }
  assert (Hsame : forall n, In n tree ->
            (is_file n && negb (str_eqb (name (fst n)) mimetype))%bool
            = other_file n).
  { intros n Hn. unfold other_file. destruct (is_file n) eqn:Ef; [|reflexivity].
    cbn [andb]. f_equal.
    destruct (list_eq_dec (list_eq_dec ascii_dec) (fst n) [mimetype]) as [E|E].
    - rewrite E. reflexivity.
    - apply str_eqb_false. intros En. apply E. now apply Hone. }
  split.
  - intros Hy.
    exists (filter (fun n => is_file n && negb (str_eqb (name (fst n)) mimetype))
                   (sorted tree)).
    split; [|split].
    + unfold _repackage_epub. rewrite Hm.
      rewrite zf_write_ok by (apply (Hy _ Htop); reflexivity).
      cbn [bind]. rewrite write_all_ok; [reflexivity|].
      intros n Hn. apply filter_In in Hn as [Hin Hf].
      apply andb_true_iff in Hf as [Hf _].
      apply Hy; [now apply (proj1 (sorted_In tree n)) | exact Hf].
    + rewrite <- (filter_agree _ _ tree Hsame).
      apply filter_perm, sorted_perm.
    + apply filter_sorted, sorted_sorted.
  - intros (n & Hin & Hf & Hy). unfold _repackage_epub. rewrite Hm.
    unfold zf_write.
    destruct (Z.ltb_spec (year [mimetype]) 1980); [now left|].
    destruct (Z.ltb_spec 2107 (year [mimetype])); [now right|].
    cbn [bind].
    assert (Hn : In n (filter (fun n => is_file n
                                 && negb (str_eqb (name (fst n)) mimetype))
                              (sorted tree))).
    { apply filter_In. split; [now apply sorted_In|].
      rewrite (Hsame n Hin). unfold other_file. rewrite Hf. cbn [andb].
      destruct (list_eq_dec (list_eq_dec ascii_dec) (fst n) [mimetype]) as [E|E];
        [|reflexivity].
      rewrite E in Hy. lia. }
    destruct (write_all_raises year _ n Hn Hy) as [-> | ->];
      [now left | now right].
Qed.

Definition plain_tree : list node :=
  [ ([txt "mimetype"], File);
    ([txt "META-INF"], Dir);
    ([txt "META-INF"; txt "container.xml"], File);
    ([txt "EPUB"], Dir);
    ([txt "EPUB"; txt "text"], Dir);
    ([txt "EPUB"; txt "text"; txt "ch1.xhtml"], File);
    ([txt "EPUB"; txt "content.opf"], File) ].

(** The files of [plain_tree] last modified in 2024; and the same with
    the style sheet of 1979 that an old archive was unpacked with. *)
Definition year_1979 (p : list str) : Z :=
  if str_eqb (name p) (txt "content.opf") then 1979%Z else 2024%Z.

Lemma repackage_epub_entries_witness :
  (exists rest : list node,
     _repackage_epub (fun _ => 2024%Z) plain_tree
     = Ok ((mimetype, ZIP_STORED)
             :: map (fun n => (arcname (fst n), ZIP_DEFLATED)) rest)
     /\ Permutation rest (filter other_file plain_tree)
     /\ StronglySorted path_le rest)
  /\ _repackage_epub (fun _ => 2024%Z) plain_tree
     = Ok [ (txt "mimetype", ZIP_STORED);
            (txt "EPUB/content.opf", ZIP_DEFLATED);
            (txt "EPUB/text/ch1.xhtml", ZIP_DEFLATED);
            (txt "META-INF/container.xml", ZIP_DEFLATED) ]
  /\ (_repackage_epub year_1979 plain_tree = Raise ValueError
      \/ _repackage_epub year_1979 plain_tree = Raise StructError).
Proof.
  assert (Hone : forall n, In n plain_tree -> is_file n = true ->
                           name (fst n) = mimetype -> fst n = [mimetype]).
  { intros n Hn. unfold plain_tree in Hn. cbn [In] in Hn.
    repeat (destruct Hn as [<-|Hn];
            [vm_compute; intros; (reflexivity || discriminate)|]).
    destruct Hn. }
  split; [|split; [vm_compute; reflexivity|]].
  - apply (@repackage_epub_entries (fun _ => 2024%Z) plain_tree eq_refl Hone).
    intros n _ _. lia.
  - apply (@repackage_epub_entries year_1979 plain_tree eq_refl Hone).
    exists ([txt "EPUB"; txt "content.opf"], File).
    split; [simpl; tauto|]. split; [reflexivity|].
    vm_compute. intros [H _]. now apply H.
Defined.

(** The file of 1979 stops the writing with [ValueError]. *)
Lemma repackage_epub_old_file :
  _repackage_epub year_1979 plain_tree = Raise ValueError.
Proof. vm_compute. reflexivity. Qed.

End Repackaging.

(* ================================================================== *)
(** ** Counting occurrences *)
(* ================================================================== *)

Section Counting.

(** A character that is not in the pattern separates the text on its two
    sides. *)
Lemma starts_with_sep (c : ascii) (M : str) :
  char_in c M = false ->
  forall u b, starts_with M (u ++ c :: b) = starts_with M u.
Proof.
  induction M as [|m M IH]; intros Hc [|x u] b; simpl; trivial.
  - unfold char_in in Hc. simpl in Hc. apply orb_false_iff in Hc as [Hc _].
    rewrite Ascii.eqb_sym. now rewrite Hc.
  - rewrite IH; trivial.
    unfold char_in in *. simpl in Hc. now apply orb_false_iff in Hc.
Qed.

Lemma count_sep (c : ascii) (M a b : str) :
  char_in c M = false -> M <> [] ->
  count M (a ++ c :: b) = count M a + count M b.
Proof.
  intros Hc HM. induction a as [|x a IH].
  - simpl. destruct M as [|m M]; [congruence|].
    unfold char_in in Hc. simpl in Hc. apply orb_false_iff in Hc as [Hc _].
    simpl. rewrite Ascii.eqb_sym. now rewrite Hc.
  - change ((x :: a) ++ c :: b) with (x :: a ++ c :: b).
    cbn [count]. rewrite IH.
    change (x :: a ++ c :: b) with ((x :: a) ++ c :: b).
    rewrite starts_with_sep by exact Hc. lia.
Qed.

(** A stretch of text in which the pattern starts nowhere adds nothing. *)
Lemma count_dull (M a b : str) :
  (forall i, i < length a -> starts_with M (skipn i a ++ b) = false) ->
  count M (a ++ b) = count M b.
Proof.
  induction a as [|x a IH]; intros H; [reflexivity|].
  change ((x :: a) ++ b) with (x :: a ++ b). cbn [count].
  pose proof (H 0 ltac:(simpl; lia)) as H0. simpl in H0. rewrite H0.
  apply IH. intros i Hi. apply (H (S i)). simpl; lia.
Qed.

Lemma count_zero (M s : str) (i : nat) :
  M <> [] -> count M s = 0 -> starts_with M (skipn i s) = false.
Proof.
  intros HM. revert i; induction s as [|x s IH]; intros i H.
  - destruct i; simpl; destruct M; trivial; congruence.
  - cbn [count] in H. destruct (starts_with M (x :: s)) eqn:E; [lia|].
    destruct i; [exact E|]. simpl. apply IH. lia.
Qed.

Lemma count_zero_first_occ (M s : str) :
  M <> [] -> count M s = 0 -> first_occ M s = None.
Proof.
  intros HM. induction s as [|x s IH]; simpl.
  - destruct M; [congruence | reflexivity].
  - destruct (starts_with M (x :: s)); [lia|].
    intros H. now rewrite IH by lia.
Qed.

(** A pattern with an opening brace after a prefix free of closing
    braces starts nowhere in a text free of opening braces that a closing
    brace follows. *)
Lemma char_in_cons (c x : ascii) (s : str) :
  char_in c (x :: s) = Ascii.eqb c x || char_in c s.
Proof. reflexivity. Qed.

Lemma brace_guard (A B : str) :
  char_in "}" A = false ->
  forall u t, char_in "{" u = false ->
  starts_with (A ++ "{"%char :: B) (u ++ "}"%char :: t) = false.
Proof.
  induction A as [|a A IH]; intros HA u t Hu.
  - destruct u as [|x u]; [reflexivity|].
    rewrite char_in_cons in Hu. apply orb_false_iff in Hu as [Hx _].
    cbn [app starts_with]. now rewrite Hx.
  - rewrite char_in_cons in HA. apply orb_false_iff in HA as [Ha HA].
    destruct u as [|x u]; cbn [app starts_with].
    + rewrite Ascii.eqb_sym. now rewrite Ha.
    + rewrite IH; [apply andb_false_r | exact HA |].
      rewrite char_in_cons in Hu. now apply orb_false_iff in Hu.
Qed.

Lemma char_in_skipn (c : ascii) (s : str) (i : nat) :
  char_in c s = false -> char_in c (skipn i s) = false.
Proof.
  intros H. rewrite <- (firstn_skipn i s), char_in_app in H.
  now apply orb_false_iff in H.
Qed.

Lemma count_brace_guard (A B T t : str) :
  char_in "}" A = false -> char_in "{" T = false ->
  count (A ++ "{"%char :: B) (T ++ "}"%char :: t) =
  count (A ++ "{"%char :: B) ("}"%char :: t).
Proof.
  intros HA HT. apply count_dull. intros i Hi.
  apply brace_guard; trivial. now apply char_in_skipn.
Qed.

End Counting.

(* ================================================================== *)
(** ** C4: the document rebuilder *)
(* ================================================================== *)

Section Rebuilder.

Import Re Preprocessor.

Definition brace_free (s : str) : Prop :=
  char_in "{" s = false /\ char_in "}" s = false.

(** *** The body the rebuilder keeps *)

Lemma document_body_whole (content : str) :
  count begin_document content = 0 -> document_body content = content.
Proof.
  intros H. unfold document_body, search, finditer.
  rewrite search_none, hits_map_Txt; [reflexivity|].
  intros i Hi. apply match_here_lit_fail. cbn [rest].
  apply count_zero; [discriminate | exact H].
Qed.

Lemma document_body_pair (pre body post : str) :
  count begin_document pre = 0 -> count end_document body = 0 ->
  document_body (pre ++ begin_document ++ body ++ end_document ++ post) = body.
Proof.
  intros Hpre Hbody. unfold document_body.
  destruct (@lazy_between_match begin_document end_document body post (rev pre) false I)
    as (m & n & Hm & Hg).
  { intros i _ Hi.
    apply (@no_straddle bsl (txt "end{document}")); trivial.
    apply count_zero_first_occ; [discriminate | exact Hbody]. }
  erewrite search_first; [now rewrite Hg | | exact Hm].
  intros i Hi. apply match_here_lit_fail.
  apply (@no_straddle bsl (txt "begin{document}")); trivial.
  apply count_zero_first_occ; [discriminate | exact Hpre].
Qed.

(** *** The rebuilt text, line by line *)

Definition lines_text (ls : list str) : str :=
  concat (map (fun l => l ++ [nl]) ls).

Lemma lines_text_app (a b : list str) :
  lines_text (a ++ b) = lines_text a ++ lines_text b.
Proof. unfold lines_text. now rewrite map_app, concat_app. Qed.

Lemma count_lines (M : str) (ls : list str) :
  char_in nl M = false -> M <> [] ->
  count M (lines_text ls) = list_sum (map (count M) ls).
Proof.
  intros Hc HM. induction ls as [|l ls IH]; [reflexivity|].
  change (list_sum (map (count M) (l :: ls)))
    with (count M l + list_sum (map (count M) ls)).
  rewrite <- IH.
  change (lines_text (l :: ls)) with ((l ++ [nl]) ++ lines_text ls).
  rewrite <- app_assoc. now apply count_sep.
Qed.

Definition head_lines : list str :=
  [ txt "\documentclass{article}"; txt "\usepackage{amsmath}";
    txt "\usepackage{amssymb}"; txt "\usepackage{graphicx}";
    txt "\usepackage{hyperref}"; txt "\usepackage{booktabs}" ].

Definition title_lines (meta : PaperMetadata) : list str :=
  if nonempty (title meta) then [txt "\title{" ++ title meta ++ txt "}"] else [].

Definition author_lines (meta : PaperMetadata) : list str :=
  match authors meta with
  | _ :: _ => [txt "\author{" ++ join (txt " \and ") (authors meta) ++ txt "}"]
  | [] => []
  end.

Definition maketitle_lines (meta : PaperMetadata) : list str :=
  if nonempty (title meta) then [txt "\maketitle"] else [].

Lemma rebuild_lines (content : str) (meta : PaperMetadata) :
  _rebuild_document content meta =
  lines_text (head_lines ++ title_lines meta ++ author_lines meta ++ [[]])
  ++ begin_document ++ [nl]
  ++ lines_text (maketitle_lines meta ++ [document_body content])
  ++ end_document ++ [nl].
Proof.
  unfold _rebuild_document, title_lines, author_lines, maketitle_lines.
  destruct (nonempty (title meta)); destruct (authors meta) as [|a l];
    rewrite !lines_text_app; unfold lines_text; cbn [map concat app];
    rewrite <- ?app_assoc; cbn [app]; rewrite ?app_nil_r; reflexivity.
Qed.

(** *** Counting the markers *)

Lemma char_in_join (c : ascii) (sep : str) (l : list str) :
  char_in c sep = false -> Forall (fun a => char_in c a = false) l ->
  char_in c (join sep l) = false.
Proof.
  intros Hs H. induction H as [|a l Ha Hl IH]; [reflexivity|].
  destruct l as [|b l]; [exact Ha|].
  change (join sep (a :: b :: l)) with (a ++ sep ++ join sep (b :: l)).
  now rewrite !char_in_app, Ha, Hs, IH.
Qed.

(** A line [lit ++ T ++ "}"] holds no marker when [lit] starts none and
    [T] has no opening brace. *)
Lemma count_braced_line (A B lit T : str) :
  char_in "}" A = false -> char_in "{" T = false ->
  (forall i b, i < length lit ->
     starts_with (A ++ "{"%char :: B) (skipn i lit ++ b) = false) ->
  count (A ++ "{"%char :: B) (txt "}") = 0 ->
  count (A ++ "{"%char :: B) (lit ++ T ++ txt "}") = 0.
Proof.
  intros HA HT Hlit Hend.
  rewrite count_dull by (intros i Hi; now apply Hlit).
  change (T ++ txt "}") with (T ++ "}"%char :: []).
  now rewrite count_brace_guard.
Qed.

Lemma begin_document_split :
  begin_document = txt "\begin" ++ "{"%char :: txt "document}".
Proof. reflexivity. Qed.

Lemma end_document_split :
  end_document = txt "\end" ++ "{"%char :: txt "document}".
Proof. reflexivity. Qed.

Ltac dull_literal :=
  let i := fresh "i" in let b := fresh "b" in let Hi := fresh "Hi" in
  intros i b Hi;
  repeat (destruct i as [|i]; [reflexivity|]);
  simpl in Hi; lia.

Lemma count_title_line (M T : str) :
  M = begin_document \/ M = end_document ->
  char_in "{" T = false ->
  count M (txt "\title{" ++ T ++ txt "}") = 0.
Proof.
  intros [-> | ->] HT.
  - rewrite begin_document_split. apply count_braced_line; trivial. dull_literal.
  - rewrite end_document_split. apply count_braced_line; trivial. dull_literal.
Qed.

Lemma count_author_line (M T : str) :
  M = begin_document \/ M = end_document ->
  char_in "{" T = false ->
  count M (txt "\author{" ++ T ++ txt "}") = 0.
Proof.
  intros [-> | ->] HT.
  - rewrite begin_document_split. apply count_braced_line; trivial. dull_literal.
  - rewrite end_document_split. apply count_braced_line; trivial. dull_literal.
Qed.

(** The lines of the preamble and the title directive hold no marker. *)
Lemma count_frame_lines (M : str) (meta : PaperMetadata) (body : str) :
  M = begin_document \/ M = end_document ->
  brace_free (title meta) -> Forall brace_free (authors meta) ->
  count M body = 0 ->
  list_sum (map (count M)
    (head_lines ++ title_lines meta ++ author_lines meta ++ [[]])) = 0
  /\ list_sum (map (count M) (maketitle_lines meta ++ [body])) = 0.
Proof.
  intros HM [Ht _] Ha Hb.
  assert (Hhead : list_sum (map (count M) head_lines) = 0)
    by (destruct HM as [-> | ->]; vm_compute; reflexivity).
  assert (Hnil : count M [] = 0) by (destruct HM as [-> | ->]; reflexivity).
  assert (Hmk : count M (txt "\maketitle") = 0)
    by (destruct HM as [-> | ->]; vm_compute; reflexivity).
  assert (Htl : list_sum (map (count M) (title_lines meta)) = 0).
  { unfold title_lines. destruct (nonempty (title meta)); [|reflexivity].
    cbn [map list_sum fold_right]. now rewrite count_title_line. }
  assert (Hal : list_sum (map (count M) (author_lines meta)) = 0).
  { unfold author_lines. destruct (authors meta) as [|a l] eqn:E; [reflexivity|].
    cbn [map list_sum fold_right]. rewrite count_author_line; trivial.
    apply char_in_join; [reflexivity|].
    eapply Forall_impl; [|exact Ha]. now intros x [Hx _]. }
  split.
  - rewrite !map_app, !list_sum_app, Hhead, Htl, Hal. reflexivity.
  - rewrite map_app, list_sum_app. unfold maketitle_lines.
    destruct (nonempty (title meta));
      cbn [map list_sum fold_right]; rewrite ?Hmk, Hb; reflexivity.
Qed.

Lemma nl_not_in_marker (M : str) :
  M = begin_document \/ M = end_document -> char_in nl M = false /\ M <> [].
Proof. intros [-> | ->]; split; try reflexivity; discriminate. Qed.

Lemma count_rebuilt (M : str) (X Y : list str) (marker other : str) :
  char_in nl M = false -> M <> [] ->
  list_sum (map (count M) X) = 0 -> list_sum (map (count M) Y) = 0 ->
  count M (lines_text X ++ marker ++ [nl] ++ lines_text Y ++ other ++ [nl])
  = count M marker + count M other.
Proof.
  intros Hc HM HX HY.
  replace (lines_text X ++ marker ++ [nl] ++ lines_text Y ++ other ++ [nl])
    with (lines_text (X ++ [marker] ++ Y ++ [other])).
  - rewrite count_lines, !map_app, !list_sum_app, HX, HY by trivial.
    simpl. lia.
  - rewrite !lines_text_app. unfold lines_text at 2 4. simpl.
    now rewrite <- !app_assoc, !app_nil_r.
Qed.

(** C4, as the code has it. When the body the rebuilder keeps holds no
    boundary marker and the title and the author names hold no brace
    (the plain-text cleaner of the extractor removes them), the rebuilt
    text has exactly one begin-document marker and exactly one
    end-document marker, the first before the second. A text without a
    begin marker is kept whole as the body; of a text with a begin marker
    and a later end marker, the body is what lies between the first such
    pair. *)
Theorem rebuild_document_markers :
  forall (content : str) (meta : PaperMetadata),
    count begin_document (document_body content) = 0 ->
    count end_document (document_body content) = 0 ->
    brace_free (title meta) -> Forall brace_free (authors meta) ->
    let out := _rebuild_document content meta in
    count begin_document out = 1
    /\ count end_document out = 1
    /\ (exists X Y Z, out = X ++ begin_document ++ Y ++ end_document ++ Z)
    /\ (count begin_document content = 0 -> document_body content = content)
    /\ (forall pre body post,
          content = pre ++ begin_document ++ body ++ end_document ++ post ->
          count begin_document pre = 0 -> count end_document body = 0 ->
          document_body content = body).
Proof.
  intros content meta Hb He Ht Ha out. subst out.
  rewrite rebuild_lines.
  destruct (@count_frame_lines begin_document meta (document_body content))
    as [B1 B2]; auto.
  destruct (@count_frame_lines end_document meta (document_body content))
    as [E1 E2]; auto.
  split; [|split; [|split; [|split]]].
  - rewrite count_rebuilt; trivial; discriminate.
  - rewrite count_rebuilt; trivial; discriminate.
  - exists (lines_text (head_lines ++ title_lines meta ++ author_lines meta ++ [[]])),
           ([nl] ++ lines_text (maketitle_lines meta ++ [document_body content])),
           [nl].
    now rewrite <- (app_assoc [nl]).
  - apply document_body_whole.
  - intros pre body post -> Hpre Hbody. now apply document_body_pair.
Qed.

(** A text with no marker at all, and a title and two authors. *)
Lemma rebuild_document_markers_witness :
  let content := txt "Hello" in
  let meta := Meta (txt "T") [txt "A"; txt "B"] [] [] in
  count begin_document (_rebuild_document content meta) = 1
  /\ count end_document (_rebuild_document content meta) = 1
  /\ document_body content = content.
Proof.
  intros content meta.
  destruct (@rebuild_document_markers content meta) as (H1 & H2 & _ & H4 & _).
  - vm_compute; reflexivity.
  - vm_compute; reflexivity.
  - split; reflexivity.
  - repeat constructor.
  - split; [exact H1 | split; [exact H2 | apply H4; vm_compute; reflexivity]].
Defined.

(** The claim as it stands fails on an unbalanced text: a begin marker
    without an end marker stays in the body, and the rebuilt text has
    two begin markers. *)
Lemma rebuild_document_unbalanced :
  count begin_document
    (_rebuild_document (txt "\begin{document} hello") (Meta [] [] [] [])) = 2.
Proof. vm_compute. reflexivity. Qed.

End Rebuilder.

(* ================================================================== *)
(** ** C5: the two-column wrapper *)
(* ================================================================== *)

Section TwoColumn.

Import Re Preprocessor.

(** Where a match of a scan lies in the text. *)
Lemma hits_at_In (r : regex) (before after : str) hs n m :
  hits_at r before after = (hs, n) -> In m hs ->
  exists adv k, match_here r adv before after = Some (m, k).
Proof.
  unfold hits_at.
  destruct (match_here r false before after) as [[m1 [|n1]]|] eqn:E1.
  - destruct (match_here r true before after) as [[m2 n2]|] eqn:E2.
    + intros [= <- <-] [<-|[<-|[]]]; eauto.
    + intros [= <- <-] [<-|[]]; eauto.
  - intros [= <- <-] [<-|[]]; eauto.
  - intros [= <- <-] [].
Qed.

Lemma scan_go_located (r : regex) (after : str) :
  forall (before : str) (skip : nat) (m : rmatch),
    In m (hits (scan_go r before after skip)) ->
    exists pre post adv n,
      after = pre ++ post
      /\ match_here r adv (rev pre ++ before) post = Some (m, n).
Proof.
  induction after as [|c tl IH]; intros before skip m Hin.
  - destruct skip; simpl in Hin; [|contradiction].
    destruct (hits_at r before []) as [hs n] eqn:E.
    rewrite app_nil_r, hits_map_Hit in Hin.
    destruct (@hits_at_In _ _ _ _ _ _ E Hin) as (adv & k & Hk).
    now exists [], [], adv, k.
  - assert (Hrec : forall skip',
      In m (hits (scan_go r (c :: before) tl skip')) ->
      exists pre post adv n,
        c :: tl = pre ++ post
        /\ match_here r adv (rev pre ++ before) post = Some (m, n)).
    { intros skip' H. apply IH in H as (pre & post & adv & n & -> & Hm).
      exists (c :: pre), post, adv, n. split; [reflexivity|].
      simpl. now rewrite <- app_assoc. }
    destruct skip as [|k]; simpl in Hin; [|now apply Hrec in Hin].
    destruct (hits_at r before (c :: tl)) as [hs n] eqn:E.
    rewrite hits_app, hits_map_Hit in Hin. apply in_app_or in Hin as [Hin|Hin].
    + destruct (@hits_at_In _ _ _ _ _ _ E Hin) as (adv & k & Hk).
      now exists [], (c :: tl), adv, k.
    + destruct n; simpl in Hin; now apply Hrec in Hin.
Qed.

Lemma scan_located (r : regex) (s : str) (m : rmatch) :
  In m (hits (scan r s)) ->
  exists pre post adv n,
    s = pre ++ post /\ match_here r adv (rev pre) post = Some (m, n).
Proof.
  intros H. apply scan_go_located in H as (pre & post & adv & n & -> & Hm).
  rewrite app_nil_r in Hm. eauto 6.
Qed.

(** What a repetition of a class passes is text of the class. *)
Lemma star_class_sound (greedy : bool) (p : ascii -> bool) (fuel : nat) :
  forall st k out,
    star_loop greedy (run (Cls p)) k fuel st = Some out ->
    exists st' w, k st' = Some out /\ reaches st st' w /\ forallb p w = true.
Proof.
  induction fuel as [|fuel IH]; intros st k out H; simpl in H.
  - exists st, []. repeat split; trivial.
  - assert (Hagain :
      match rest st with
      | [] => None
      | c :: tl =>
          if p c
          then (if length tl <? length (rest st)
                then star_loop greedy (run (Cls p)) k fuel
                       (MState (c :: seen st) tl (caps st))
                else None)
          else None
      end = Some out ->
      exists st' w, k st' = Some out /\ reaches st st' w /\ forallb p w = true).
    { destruct (rest st) as [|c tl] eqn:E; [discriminate|].
      destruct (p c) eqn:Ep; [|discriminate].
      destruct (length tl <? _); [|discriminate].
      intros Hs. apply IH in Hs as (st' & w & Hk & [R Sn] & Hw).
      exists st', (c :: w). split; [exact Hk|]. split; [split|].
      - simpl in *. now rewrite E, R.
      - simpl in *. now rewrite Sn, <- app_assoc.
      - simpl. now rewrite Ep. }
    destruct greedy.
    + destruct (match rest st with [] => None | _ => _ end) as [o|] eqn:E.
      * injection H as <-. now apply Hagain.
      * exists st, []. repeat split; trivial.
    + destruct (k st) as [o|] eqn:E.
      * injection H as <-. exists st, []. repeat split; trivial.
      * now apply Hagain.
Qed.

Definition line_start (pre : str) : Prop :=
  match rev pre with
  | [] => True
  | c :: _ => c = nl
  end.

Definition line_end (post : str) : Prop :=
  match post with
  | [] => True
  | c :: _ => c = nl
  end.

(** A match of the closing-bracket pattern: a [\]] at the start of a
    line, then white space up to the end of a line. *)
Lemma lone_bracket_hit (pre post : str) adv m n :
  match_here lone_bracket_re adv (rev pre) post = Some (m, n) ->
  exists ws post',
    post = m_text m ++ post'
    /\ m_text m = "]"%char :: ws
    /\ forallb is_space ws = true
    /\ line_start pre /\ line_end post'.
Proof.
  intros H. pose proof (@match_here_text _ _ _ _ _ _ H) as (HT & HL & _).
  unfold match_here in H.
  destruct (run _ _ _) as [st|] eqn:E; [|discriminate].
  injection H as <- <-. unfold lone_bracket_re, L in E. cbn [seqs] in E.
  cbn [run] in E. destruct (at_bol _) eqn:Eb; [|discriminate].
  cbn [rest seen caps] in E.
  destruct (starts_with (txt "]") post) eqn:El; [|discriminate].
  apply starts_with_inv in El. cbn [txt list_ascii_of_string length skipn app] in El.
  destruct post as [|c post]; [discriminate|]. injection El as ->.
  cbn [skipn length txt list_ascii_of_string] in E.
  apply star_class_sound in E as (st' & ws & Hk & [R _] & Hws).
  cbn [run rest seen caps] in Hk, R.
  destruct (at_eol st') eqn:Ee; [|discriminate].
  destruct (_ && _); [discriminate|]. injection Hk as <-.
  exists ws, (rest st'). cbn [m_text] in *.
  assert (Htxt : firstn (consumed ("]"%char :: post) st') ("]"%char :: post)
                 = "]"%char :: ws).
  { unfold consumed. rewrite R. cbn [length]. rewrite length_app.
    replace (S (length ws + length (rest st')) - length (rest st'))
      with (S (length ws)) by lia.
    cbn [firstn]. f_equal.
    now rewrite firstn_app, firstn_all, Nat.sub_diag, app_nil_r. }
  rewrite Htxt. repeat split; trivial.
  - simpl. now rewrite R.
  - unfold line_start. unfold at_bol in Eb. cbn [seen] in Eb.
    destruct (rev pre); [exact I | now apply Ascii.eqb_eq].
  - unfold line_end. unfold at_eol in Ee.
    destruct (rest st'); [exact I | now apply Ascii.eqb_eq].
Qed.

Lemma twocolumn_open_hit (before after : str) adv m n :
  match_here twocolumn_open_re adv before after = Some (m, n) ->
  m_text m = txt "\twocolumn[".
Proof.
  intros H. unfold match_here in H.
  destruct (run _ _ _) as [st|] eqn:E; [|discriminate].
  injection H as <- <-. unfold twocolumn_open_re, L in E. cbn [run rest] in E.
  destruct (starts_with _ after) eqn:Es; [|discriminate].
  destruct (_ && _); [discriminate|]. injection E as <-.
  apply starts_with_inv in Es. cbn [m_text]. unfold consumed. cbn [rest].
  rewrite Es at 1 3. rewrite length_app, Nat.add_sub.
  now rewrite firstn_app, firstn_all, Nat.sub_diag, app_nil_r.
Qed.

(** C5, as the code has it. The step deletes two kinds of text and
    nothing else: every match of the opening token [\twocolumn\[], and
    then every [\]] that begins a line and is followed by white space up
    to the end of a line, with that white space -- each such line, whether
    or not a wrapper was opened before it. What is left is the text
    between the matches, unchanged. *)
Theorem strip_twocolumn_deletes :
  forall content : str,
    let ps1 := scan twocolumn_open_re content in
    let mid := kept ps1 in
    let ps2 := scan lone_bracket_re mid in
    strip_twocolumn content = kept ps2
    /\ whole ps1 = content
    /\ whole ps2 = mid
    /\ (forall m, In m (hits ps1) -> m_text m = txt "\twocolumn[")
    /\ (forall m, In m (hits ps2) ->
          exists pre ws post,
            mid = pre ++ m_text m ++ post
            /\ m_text m = "]"%char :: ws
            /\ forallb is_space ws = true
            /\ line_start pre /\ line_end post).
Proof.
  intros content ps1 mid ps2. repeat split.
  - apply scan_whole.
  - apply scan_whole.
  - intros m Hm. apply scan_located in Hm as (pre & post & adv & n & _ & Hm).
    eapply twocolumn_open_hit; eauto.
  - intros m Hm. apply scan_located in Hm as (pre & post & adv & n & Hs & Hm).
    apply lone_bracket_hit in Hm as (ws & post' & -> & Ht & Hw & H1 & H2).
    exists pre, ws, post'. now repeat split.
Qed.

(** A wrapper, and after it a figure whose option bracket closes on a
    line of its own: both closing brackets go. *)
Definition two_brackets_doc : str :=
  txt "\twocolumn[" ++ [nl] ++ txt "\icmltitle{T}" ++ [nl] ++ txt "]" ++ [nl] ++
  txt "\begin{figure}[" ++ [nl] ++ txt "ht" ++ [nl] ++ txt "]" ++ [nl] ++ txt "x".

Lemma strip_twocolumn_two_brackets :
  strip_twocolumn two_brackets_doc =
  [nl] ++ txt "\icmltitle{T}" ++ [nl] ++ [nl] ++
  txt "\begin{figure}[" ++ [nl] ++ txt "ht" ++ [nl] ++ [nl] ++ txt "x".
Proof. vm_compute. reflexivity. Qed.

End TwoColumn.

(* ================================================================== *)
(** ** Captured groups *)
(* ================================================================== *)

Section Groups.

Import Re.

(** A pattern without a capturing group. *)
Fixpoint group_free (r : regex) : bool :=
  match r with
  | Seq a b | Alt a b => group_free a && group_free b
  | Star _ a | NotAhead a => group_free a
  | Grp _ _ => false
  | _ => true
  end.

(** A step that leaves the captured groups as they are. *)
Definition keeps_caps
  (step : mstate -> (mstate -> option mstate) -> option mstate) : Prop :=
  forall st k out, step st k = Some out ->
  exists st' w, k st' = Some out /\ reaches st st' w /\ caps st' = caps st.

Lemma star_loop_keeps_caps (greedy : bool) step :
  keeps_caps step ->
  forall fuel, keeps_caps (fun st k => star_loop greedy step k fuel st).
Proof.
  intros Hs fuel.
  induction fuel as [|fuel IH]; intros st k out H; simpl in H.
  - exists st, []. split; [exact H|]. split; [apply reaches_refl | reflexivity].
  - assert (Hagain : forall out,
      step st (fun st' => if length (rest st') <? length (rest st)
                          then star_loop greedy step k fuel st' else None) = Some out ->
      exists st' w, k st' = Some out /\ reaches st st' w /\ caps st' = caps st).
    { intros o Ho. apply Hs in Ho as (st1 & w1 & Hk1 & R1 & C1).
      destruct (length (rest st1) <? length (rest st)); [|discriminate].
      apply IH in Hk1 as (st2 & w2 & Hk2 & R2 & C2).
      exists st2, (w1 ++ w2). split; [exact Hk2|].
      split; [eapply reaches_trans; eauto | congruence]. }
    destruct greedy.
    + destruct (step st _) as [o|] eqn:E.
      * injection H as <-. now apply Hagain.
      * exists st, []. split; [exact H|]. split; [apply reaches_refl | reflexivity].
    + destruct (k st) as [o|] eqn:E.
      * injection H as <-. exists st, [].
        split; [exact E|]. split; [apply reaches_refl | reflexivity].
      * now apply Hagain.
Qed.

Lemma run_keeps_caps (r : regex) : group_free r = true -> keeps_caps (run r).
Proof.
  induction r as [ | s | p | a IHa b IHb | a IHa b IHb | g a IHa | n a IHa
                 | a IHa | | | ]; intros G st k out H; simpl in H, G;
    try (apply andb_true_iff in G as [Ga Gb]); try discriminate.
  - exists st, []. split; [exact H|]. split; [apply reaches_refl | reflexivity].
  - destruct (starts_with s (rest st)) eqn:E; [|discriminate].
    eexists _, s. split; [exact H|]. split; [|reflexivity].
    split; simpl; [now apply starts_with_inv | reflexivity].
  - destruct (rest st) as [|c tl] eqn:E; [discriminate|].
    destruct (p c); [|discriminate].
    eexists _, [c]. split; [exact H|]. split; [|reflexivity].
    split; simpl; [exact E | reflexivity].
  - apply (IHa Ga) in H as (st1 & w1 & H & R1 & C1).
    apply (IHb Gb) in H as (st2 & w2 & H & R2 & C2).
    exists st2, (w1 ++ w2). split; [exact H|].
    split; [eapply reaches_trans; eauto | congruence].
  - destruct (run a st k) as [o|] eqn:E.
    + injection H as <-. now apply (IHa Ga).
    + now apply (IHb Gb).
  - eapply star_loop_keeps_caps in H; eauto.
  - destruct (run a st _); [discriminate|].
    exists st, []. split; [exact H|]. split; [apply reaches_refl | reflexivity].
  - destruct (at_bol st); [|discriminate].
    exists st, []. split; [exact H|]. split; [apply reaches_refl | reflexivity].
  - destruct (at_eol st); [|discriminate].
    exists st, []. split; [exact H|]. split; [apply reaches_refl | reflexivity].
  - destruct (at_wordb st); [|discriminate].
    exists st, []. split; [exact H|]. split; [apply reaches_refl | reflexivity].
Qed.

(** A group records the text its pattern passed. *)
Lemma run_grp (n : nat) (a : regex) : group_free a = true ->
  forall st k out, run (Grp n a) st k = Some out ->
  exists st' w, k (MState (seen st') (rest st') ((n, w) :: caps st)) = Some out
                /\ reaches st st' w.
Proof.
  intros G st k out H. cbn [run] in H.
  apply (run_keeps_caps a G) in H as (st' & w & Hk & R & C).
  exists st', w. split; [|exact R].
  unfold consumed in Hk. destruct R as [R Sn]. rewrite R in Hk.
  rewrite length_app, Nat.add_sub in Hk.
  now rewrite firstn_app, firstn_all, Nat.sub_diag, app_nil_r, C in Hk.
Qed.

Lemma run_seq (a b : regex) st k :
  run (Seq a b) st k = run a st (fun st' => run b st' k).
Proof. reflexivity. Qed.

(** A repetition of a class passes text of the class and captures
    nothing. *)
Lemma star_class_keeps (greedy : bool) (p : ascii -> bool) (fuel : nat) :
  forall st k out,
    star_loop greedy (run (Cls p)) k fuel st = Some out ->
    exists st' w, k st' = Some out /\ reaches st st' w
                  /\ caps st' = caps st /\ forallb p w = true.
Proof.
  induction fuel as [|fuel IH]; intros st k out H; simpl in H.
  - exists st, []. split; [exact H|]. split; [apply reaches_refl|]. now split.
  - assert (Hagain :
      match rest st with
      | [] => None
      | c :: tl =>
          if p c
          then (if length tl <? length (rest st)
                then star_loop greedy (run (Cls p)) k fuel
                       (MState (c :: seen st) tl (caps st))
                else None)
          else None
      end = Some out ->
      exists st' w, k st' = Some out /\ reaches st st' w
                    /\ caps st' = caps st /\ forallb p w = true).
    { destruct (rest st) as [|c tl] eqn:E; [discriminate|].
      destruct (p c) eqn:Ep; [|discriminate].
      destruct (length tl <? _); [|discriminate].
      intros Hs. apply IH in Hs as (st' & w & Hk & [R Sn] & C & Hw).
      exists st', (c :: w). split; [exact Hk|]. split; [split|split].
      - simpl in *. now rewrite E, R.
      - simpl in *. now rewrite Sn, <- app_assoc.
      - exact C.
      - simpl. now rewrite Ep. }
    destruct greedy.
    + destruct (match rest st with [] => None | _ => _ end) as [o|] eqn:E.
      * injection H as <-. now apply Hagain.
      * exists st, []. split; [exact H|]. split; [apply reaches_refl|]. now split.
    + destruct (k st) as [o|] eqn:E.
      * injection H as <-. exists st, [].
        split; [exact E|]. split; [apply reaches_refl|]. now split.
      * now apply Hagain.
Qed.

End Groups.

(* ================================================================== *)
(** ** C3: macro expansion *)
(* ================================================================== *)

Section MacroExpansion.

Import Re Preprocessor.

(** *** The commands of the macro table *)

(** A command name as the definition pattern captures it. *)
Definition command_name (cmd : str) : Prop :=
  exists name, cmd = bsl :: name /\ name <> [] /\ forallb is_alpha name = true.

Lemma macro_name_passes st k out :
  run macro_name st k = Some out ->
  exists st' w, k st' = Some out /\ reaches st st' w
                /\ caps st' = caps st /\ command_name w.
Proof.
  unfold macro_name, L, Plus, Alpha. rewrite !run_seq. cbn [run].
  destruct (starts_with (txt "\") (rest st)) eqn:E1; [|discriminate].
  cbn [rest seen caps].
  destruct (skipn _ (rest st)) as [|c tl] eqn:E2; [discriminate|].
  destruct (is_alpha c) eqn:Ec; [|discriminate].
  intros H. apply star_class_keeps in H as (st' & w & Hk & [R Sn] & C & Hw).
  cbn [rest seen caps] in *.
  exists st', (bsl :: c :: w). split; [exact Hk|]. split; [split|split].
  - apply starts_with_inv in E1. rewrite E1, E2, R. reflexivity.
  - rewrite Sn. cbn [rev txt list_ascii_of_string app].
    now rewrite <- !app_assoc.
  - exact C.
  - exists (c :: w). split; [reflexivity|]. split; [discriminate|].
    simpl. now rewrite Ec.
Qed.

Lemma macro_def_hit (m : rmatch) :
  hit_of macro_def_re m -> command_name (group_or_empty m 1).
Proof.
  intros (adv & before & after & n & H). unfold match_here in H.
  destruct (run _ _ _) as [st|] eqn:E; [|discriminate].
  injection H as <- <-. unfold macro_def_re in E. cbn [seqs] in E.
  rewrite run_seq in E.
  apply (@run_keeps_caps new_or_renew eq_refl) in E as (st1 & w1 & E & _ & C1).
  cbn beta in E. rewrite run_seq in E.
  apply (@run_keeps_caps (L "{") eq_refl) in E as (st2 & w2 & E & _ & C2).
  cbn beta in E. rewrite run_seq in E.
  change (run (Grp 1 macro_name) st2) with
    (fun k => run macro_name st2 (fun st' =>
       k (MState (seen st') (rest st')
            ((1, firstn (consumed (rest st2) st') (rest st2)) :: caps st')))) in E.
  cbn beta in E.
  apply macro_name_passes in E as (st3 & w3 & E & [R3 _] & C3 & N3).
  unfold consumed in E. rewrite R3, length_app, Nat.add_sub in E.
  rewrite firstn_app, firstn_all, Nat.sub_diag, app_nil_r in E. cbn [seen rest] in E.
  rewrite run_seq in E.
  apply (@run_keeps_caps (L "}") eq_refl) in E as (st4 & w4 & E & _ & C4).
  cbn beta in E. rewrite run_seq in E.
  apply (@run_keeps_caps (L "{") eq_refl) in E as (st5 & w5 & E & _ & C5).
  cbn beta in E. rewrite run_seq in E.
  apply (@run_grp 2 macro_body eq_refl) in E as (st6 & w6 & E & _).
  apply (@run_keeps_caps (L "}") eq_refl) in E as (st7 & w7 & E & _ & C7).
  destruct (_ && _); [discriminate|]. injection E as <-.
  unfold group_or_empty, group. cbn [m_caps].
  rewrite C7. cbn [caps]. rewrite C5, C4. cbn [caps assoc Nat.eqb].
  exact N3.
Qed.

Lemma dict_set_In (d : list (str * str)) (k v k' v' : str) :
  In (k', v') (dict_set d k v) -> In (k', v') d \/ k' = k.
Proof.
  induction d as [|[a b] d IH]; simpl.
  - intros [[= <- <-]|[]]. now right.
  - destruct (str_eqb k a) eqn:E.
    + intros [[= <- <-]|H]; [now right | left; now right].
    + intros [[= <- <-]|H]; [left; now left|].
      apply IH in H as [H|H]; [left; now right | now right].
Qed.

(** Every command of the macro table is a backslash and letters. *)
Lemma collect_macros_commands (content : str) (cmd R : str) :
  In (cmd, R) (collect_macros content) -> command_name cmd.
Proof.
  unfold collect_macros, finditer.
  pose proof (scan_hit_of macro_def_re content) as Hall.
  assert (Hgen : forall (ms : list rmatch) (acc : list (str * str)),
    Forall (hit_of macro_def_re) ms ->
    (forall c r, In (c, r) acc -> command_name c) ->
    forall c r,
      In (c, r) (fold_left
        (fun macros m =>
           if negb (char_in "#" (group_or_empty m 2))
           then dict_set macros (group_or_empty m 1) (group_or_empty m 2)
           else macros) ms acc) -> command_name c).
  { induction ms as [|m ms IH]; intros acc Hms Hacc c r; simpl; [apply Hacc|].
    inversion Hms as [|? ? Hm Hms']; subst.
    apply IH; [exact Hms'|].
    intros c' r' Hin. destruct (negb _); [|now apply (Hacc c' r')].
    apply dict_set_In in Hin as [Hin| ->]; [now apply (Hacc c' r')|].
    now apply macro_def_hit. }
  apply (Hgen _ [] Hall). intros c r [].
Qed.

(** *** Substitution of whole command tokens, in the words of the
        specification *)

(** [cmd] stands at the head of [s] as a whole command token: it is
    there, and no letter follows it. *)
Definition whole_token (cmd s : str) : bool :=
  starts_with cmd s
  && negb (match skipn (length cmd) s with
           | c :: _ => is_alpha c
           | [] => false
           end).

(** Every whole-token occurrence of [cmd] replaced by [R], left to
    right; [skip] counts the characters of an occurrence still to pass. *)
Fixpoint replace_tokens (cmd R s : str) (skip : nat) : str :=
  match s with
  | [] => []
  | c :: s' =>
      match skip with
      | S k => replace_tokens cmd R s' k
      | 0 =>
          if whole_token cmd s
          then R ++ replace_tokens cmd R s' (length cmd - 1)
          else c :: replace_tokens cmd R s' 0
      end
  end.

Lemma match_here_use (cmd before after : str) :
  cmd <> [] ->
  match_here (macro_use_re cmd) false before after =
  if whole_token cmd after then Some (RMatch cmd [], length cmd) else None.
Proof.
  intros Hc. unfold match_here, macro_use_re, whole_token, Alpha.
  cbn [run rest seen caps andb].
  destruct (starts_with cmd after) eqn:E; [|reflexivity].
  cbn [andb]. apply starts_with_inv in E.
  assert (F : firstn (length cmd) after = cmd)
    by (eapply firstn_prefix; eauto).
  assert (L : length after - length (skipn (length cmd) after) = length cmd).
  { rewrite E at 1. rewrite length_app. lia. }
  destruct (skipn (length cmd) after) as [|c tl] eqn:Es.
  - cbn [negb]. unfold consumed. cbn [rest]. now rewrite L, F.
  - destruct (is_alpha c); [reflexivity|]. cbn [negb].
    unfold consumed. cbn [rest]. now rewrite L, F.
Qed.

(** The substitution of the code is the substitution of whole tokens:
    every match is the command itself, and has no groups. *)
Lemma sub_use_replace_tokens (cmd : str) (f : rmatch -> str) :
  cmd <> [] ->
  forall (s before : str) (skip : nat),
    sub_pieces f (scan_go (macro_use_re cmd) before s skip)
    = replace_tokens cmd (f (RMatch cmd [])) s skip.
Proof.
  intros Hc. induction s as [|c s IH]; intros before skip.
  - destruct skip; [|reflexivity]. cbn [scan_go]. unfold hits_at.
    rewrite match_here_use by exact Hc.
    unfold whole_token. destruct cmd; [congruence | reflexivity].
  - destruct skip as [|k]; cbn [scan_go replace_tokens]; [|apply IH].
    unfold hits_at. rewrite match_here_use by exact Hc.
    destruct (whole_token cmd (c :: s)).
    + destruct cmd as [|x cmd]; [congruence|].
      cbn [length map app sub_pieces]. rewrite IH.
      now replace (S (length cmd) - 1) with (length cmd) by lia.
    + cbn [map app sub_pieces]. now rewrite IH.
Qed.

(** What an occurrence of [cmd] is replaced by: the replacement text of
    its definition is handed to [re.sub] as the replacement, and [re.sub]
    reads a replacement with a backslash as a template, escapes and group
    references expanded. *)
Definition template_text (cmd R : str) : res str :=
  if negb (char_in bsl R) then Ok R
  else items <- parse_template (length R) 0 R ;;
       Ok (expand items (RMatch cmd [])).

Lemma sub_use (cmd R s : str) :
  cmd <> [] ->
  sub 0 (macro_use_re cmd) R s
  = (R' <- template_text cmd R ;; Ok (replace_tokens cmd R' s 0)).
Proof.
  intros Hc. unfold sub, template_text.
  destruct (negb (char_in bsl R)); cbn [bind].
  - unfold sub_fun, scan. now rewrite sub_use_replace_tokens.
  - destruct (parse_template (length R) 0 R) as [items| |]; cbn [bind];
      try reflexivity.
    unfold sub_fun, scan. now rewrite sub_use_replace_tokens.
Qed.

(** The table applied entry by entry. *)
Fixpoint expand_table (macros : list (str * str)) (content : str) : res str :=
  match macros with
  | [] => Ok content
  | (cmd, R) :: macros' =>
      R' <- template_text cmd R ;;
      expand_table macros' (replace_tokens cmd R' content 0)
  end.

Lemma expand_macros_table (macros : list (str * str)) :
  (forall cmd R, In (cmd, R) macros -> cmd <> []) ->
  forall content, expand_macros macros content = expand_table macros content.
Proof.
  induction macros as [|[cmd R] macros IH]; intros H content; [reflexivity|].
  cbn [expand_macros expand_table].
  rewrite sub_use by (apply (H cmd R); now left).
  destruct (template_text cmd R) as [R'| |]; cbn [bind]; try reflexivity.
  apply IH. intros c r Hin. apply (H c r). now right.
Qed.

(** The deletion of the annotation commands, with or without an option. *)
Definition strip_annotations (content : str) : str :=
  remove (seqs [annotators; L "["; Star true (Not "]"); L "]"; braces])
         (remove (Seq annotators braces) content).

(** *** Replacement texts as templates *)

Lemma template_text_plain (cmd R : str) :
  char_in bsl R = false -> template_text cmd R = Ok R.
Proof. intros H. unfold template_text. now rewrite H. Qed.

Lemma expand_literal (t : str) (m : rmatch) : expand (map TLit t) m = t.
Proof.
  unfold expand. induction t as [|c t IH]; [reflexivity|].
  cbn [map concat expand_item app]. now rewrite IH.
Qed.

Lemma parse_template_literal (groups : nat) (t : str) :
  char_in bsl t = false ->
  forall fuel : nat,
    length t <= fuel -> parse_template fuel groups t = Ok (map TLit t).
Proof.
  induction t as [|c t IH]; intros Hp fuel Hf.
  - now destruct fuel.
  - destruct fuel as [|fuel]; [simpl in Hf; lia|].
    rewrite char_in_cons in Hp. apply orb_false_iff in Hp as [Hc Hp].
    cbn [parse_template]. rewrite Ascii.eqb_sym, Hc. cbn [negb].
    rewrite (IH Hp) by (simpl in Hf; lia). reflexivity.
Qed.

Lemma escape_char_cases (e c : ascii) :
  escape_char e = Some c ->
  Ascii.eqb e "g" = false /\ Ascii.eqb e "0" = false /\ is_digit e = false.
Proof.
  destruct e as [[] [] [] [] [] [] [] []]; intros H;
    solve [ discriminate H | repeat split ].
Qed.

(** An escape of a letter that the template compiler knows stands for a
    control character, and [\\] for one backslash. *)
Lemma parse_template_escape (groups : nat) (e c : ascii) (rest : str) :
  escape_char e = Some c ->
  char_in bsl rest = false ->
  forall (pre : str) (fuel : nat),
    char_in bsl pre = false ->
    length (pre ++ bsl :: e :: rest) <= fuel ->
    parse_template fuel groups (pre ++ bsl :: e :: rest)
    = Ok (map TLit (pre ++ c :: rest)).
Proof.
  intros He Hr. pose proof (@escape_char_cases e c He) as (Hg & H0 & Hd).
  induction pre as [|x pre IH]; intros fuel Hp Hf.
  - destruct fuel as [|fuel]; [simpl in Hf; lia|].
    cbn [app length parse_template].
    rewrite Ascii.eqb_refl. cbn [negb]. rewrite Hg, H0, Hd, He.
    rewrite (@parse_template_literal groups rest Hr) by (simpl in Hf; lia).
    reflexivity.
  - destruct fuel as [|fuel]; [simpl in Hf; lia|].
    rewrite char_in_cons in Hp. apply orb_false_iff in Hp as [Hx Hp].
    rewrite <- app_comm_cons. cbn [parse_template].
    rewrite Ascii.eqb_sym, Hx. cbn [negb].
    rewrite (IH fuel Hp) by (simpl in Hf; lia). reflexivity.
Qed.

Lemma template_text_escape (cmd pre rest : str) (e c : ascii) :
  char_in bsl pre = false ->
  escape_char e = Some c ->
  char_in bsl rest = false ->
  template_text cmd (pre ++ bsl :: e :: rest) = Ok (pre ++ c :: rest).
Proof.
  intros Hp He Hr. unfold template_text.
  replace (char_in bsl (pre ++ bsl :: e :: rest)) with true.
  - cbn [negb]. rewrite (@parse_template_escape 0 e c rest He Hr pre _ Hp (le_n _)).
    cbn [bind]. now rewrite expand_literal.
  - symmetry. rewrite char_in_app, char_in_cons_same. apply orb_true_r.
Qed.

(** *** Where a command is replaced and where it is not *)

Lemma replace_tokens_skip (cmd R t : str) :
  forall u : str,
    replace_tokens cmd R (u ++ t) (length u) = replace_tokens cmd R t 0.
Proof.
  induction u as [|c u IH]; [reflexivity|]. simpl. exact IH.
Qed.

(** A stretch of text in which no whole token starts is passed as it
    is. *)
Lemma replace_tokens_dull (cmd R t : str) :
  forall a : str,
    (forall i, i < length a -> whole_token cmd (skipn i a ++ t) = false) ->
    replace_tokens cmd R (a ++ t) 0 = a ++ replace_tokens cmd R t 0.
Proof.
  induction a as [|c a IH]; intros H; [reflexivity|].
  pose proof (H 0 ltac:(simpl; lia)) as H0. cbn [skipn] in H0.
  rewrite <- app_comm_cons in *. cbn [replace_tokens]. rewrite H0.
  rewrite IH; [reflexivity|]. intros i Hi. apply (H (S i)). simpl; lia.
Qed.

Lemma letters_no_backslash (name : str) :
  forallb is_alpha name = true -> char_in bsl name = false.
Proof.
  induction name as [|c name IH]; [reflexivity|].
  intros H. cbn [forallb] in H. apply andb_true_iff in H as [Hc H].
  rewrite char_in_cons, IH by exact H.
  destruct (Ascii.eqb bsl c) eqn:E; [|reflexivity].
  apply Ascii.eqb_eq in E. subst c. discriminate.
Qed.

Lemma whole_token_before (cmd pre t : str) (i : nat) :
  command_name cmd -> first_occ cmd pre = None -> i < length pre ->
  whole_token cmd (skipn i pre ++ cmd ++ t) = false.
Proof.
  intros (name & -> & _ & Hn) Hpre Hi. unfold whole_token.
  rewrite <- app_comm_cons.
  rewrite (@no_straddle bsl name pre (name ++ t) i); trivial.
  now apply letters_no_backslash.
Qed.

(** A whole-token occurrence, the first of its text, is replaced. *)
Lemma replace_tokens_whole (cmd R pre post : str) :
  command_name cmd -> first_occ cmd pre = None ->
  match post with c :: _ => is_alpha c = false | [] => True end ->
  replace_tokens cmd R (pre ++ cmd ++ post) 0
  = pre ++ R ++ replace_tokens cmd R post 0.
Proof.
  intros Hc Hpre Hpost.
  rewrite replace_tokens_dull
    by (intros i Hi; now apply whole_token_before).
  f_equal. destruct Hc as (name & -> & _ & _).
  rewrite <- app_comm_cons. cbn [replace_tokens].
  replace (whole_token (bsl :: name) (bsl :: name ++ post)) with true.
  - cbn [length]. replace (S (length name) - 1) with (length name) by lia.
    now rewrite replace_tokens_skip.
  - unfold whole_token. rewrite app_comm_cons, starts_with_app.
    rewrite skipn_app, skipn_all, Nat.sub_diag. cbn [skipn app andb].
    destruct post as [|c post]; [reflexivity | now rewrite Hpost].
Qed.

(** An occurrence that a letter follows is the beginning of a longer
    command name and is left as it is. *)
Lemma replace_tokens_prefix (cmd R pre post : str) (c : ascii) :
  command_name cmd -> first_occ cmd pre = None -> is_alpha c = true ->
  replace_tokens cmd R (pre ++ cmd ++ c :: post) 0
  = pre ++ cmd ++ replace_tokens cmd R (c :: post) 0.
Proof.
  intros Hc Hpre Hl.
  rewrite replace_tokens_dull
    by (intros i Hi; now apply whole_token_before).
  f_equal. apply replace_tokens_dull. intros i Hi.
  destruct Hc as (name & -> & _ & Hn). unfold whole_token.
  destruct i as [|i]; cbn [skipn].
  - rewrite starts_with_app, skipn_app, skipn_all, Nat.sub_diag.
    cbn [skipn app]. now rewrite Hl.
  - assert (Hs : forallb is_alpha (skipn i name) = true).
    { rewrite <- (firstn_skipn i name), forallb_app in Hn.
      now apply andb_true_iff in Hn. }
    destruct (skipn i name) as [|x u] eqn:Eu.
    + apply (f_equal (@length _)) in Eu. rewrite length_skipn in Eu.
      simpl in Hi, Eu. lia.
    + cbn [app starts_with]. simpl in Hs. apply andb_true_iff in Hs as [Hx _].
      destruct (Ascii.eqb bsl x) eqn:E; [|reflexivity].
      apply Ascii.eqb_eq in E. subst x. discriminate.
Qed.

(** A definition every paper with Greek letters has. *)
Definition beta_doc : str :=
  txt "\newcommand{\B}{\beta}" ++ [nl] ++ txt "$\B$".

(** C3, where the code departs from it. The expander returns the text
    with the definitions deleted, then the macro table -- the
    zero-argument definitions found, the last definition of a command
    taken, replacement texts with a parameter sign left out -- applied
    entry by entry, then the annotation commands deleted. Applying an
    entry replaces the command where it stands as a whole token, and
    leaves it where a letter follows it. But what it is replaced by is not
    the replacement text [R] as it stands: [R] is read as a template of
    [re.sub]. A text without a backslash stands for itself; in any other
    the escapes count, and a backslash before [a b f n r t v] becomes a
    control character, two backslashes become one. So [\B], defined as
    [\beta], is replaced by a backspace and [eta], and the stage returns
    that text. *)
Theorem expand_simple_macros_template :
  (forall doc : str,
      _expand_simple_macros doc
      = (expanded <- expand_table (collect_macros doc)
                       (remove macro_del_re doc) ;;
         Ok (strip_annotations expanded)))
  /\ (forall doc cmd R : str,
        In (cmd, R) (collect_macros doc) -> command_name cmd)
  /\ (forall cmd R pre post : str,
        command_name cmd ->
        first_occ cmd pre = None ->
        match post with c :: _ => is_alpha c = false | [] => True end ->
        replace_tokens cmd R (pre ++ cmd ++ post) 0
        = pre ++ R ++ replace_tokens cmd R post 0)
  /\ (forall (cmd R pre : str) (c : ascii) (post : str),
        command_name cmd ->
        first_occ cmd pre = None ->
        is_alpha c = true ->
        replace_tokens cmd R (pre ++ cmd ++ c :: post) 0
        = pre ++ cmd ++ replace_tokens cmd R (c :: post) 0)
  /\ (forall cmd R : str,
        char_in bsl R = false -> template_text cmd R = Ok R)
  /\ (forall (cmd pre rest : str) (e c : ascii),
        char_in bsl pre = false ->
        escape_char e = Some c ->
        char_in bsl rest = false ->
        template_text cmd (pre ++ bsl :: e :: rest) = Ok (pre ++ c :: rest))
  /\ (collect_macros beta_doc = [(txt "\B", txt "\beta")]
      /\ template_text (txt "\B") (txt "\beta") = Ok ("008"%char :: txt "eta")
      /\ _expand_simple_macros beta_doc
         = Ok (txt "$" ++ ["008"%char] ++ txt "eta$")).
Proof.
  split; [|split; [|split; [|split; [|split; [|split]]]]].
  - intros doc. unfold _expand_simple_macros. cbv zeta.
    rewrite expand_macros_table; [reflexivity|].
    intros cmd R Hin.
    destruct (collect_macros_commands _ _ _ Hin) as (name & -> & _).
    discriminate.
  - intros doc cmd R. apply collect_macros_commands.
  - intros cmd R pre post. apply replace_tokens_whole.
  - intros cmd R pre c post. apply replace_tokens_prefix.
  - intros cmd R. apply template_text_plain.
  - intros cmd pre rest e c. apply template_text_escape.
  - split; [|split]; vm_compute; reflexivity.
Qed.

(** One definition, a whole token and a longer command name. *)
Definition foo_doc : str :=
  txt "\newcommand{\foo}{bar}" ++ [nl] ++ txt "Use \foo, not \foobar.".

Lemma expand_simple_macros_foo :
  collect_macros foo_doc = [(txt "\foo", txt "bar")]
  /\ _expand_simple_macros foo_doc = Ok (txt "Use bar, not \foobar.").
Proof. split; vm_compute; reflexivity. Qed.

(** The macro table is a mapping: where a command is defined twice, the
    table keeps the second replacement text. *)
Lemma expand_simple_macros_redefinition :
  _expand_simple_macros
    (txt "\newcommand{\x}{A}\renewcommand{\x}{B}\x!") = Ok (txt "B!").
Proof. vm_compute. reflexivity. Qed.

(** A backslash before a character that is no letter and no digit stands
    for itself, and so does the replacement text. *)
Lemma expand_simple_macros_control_space :
  _expand_simple_macros (txt "\newcommand{\eg}{e.g.\ }" ++ [nl] ++ txt "\eg{} x")
  = Ok (txt "e.g.\ {} x").
Proof. vm_compute. reflexivity. Qed.

(** The line break of LaTeX, two backslashes, comes out as one. *)
Lemma expand_simple_macros_line_break :
  _expand_simple_macros (txt "\newcommand{\br}{\\}" ++ [nl] ++ txt "a\br b")
  = Ok (txt "a\ b").
Proof. vm_compute. reflexivity. Qed.

End MacroExpansion.

(* ================================================================== *)
(** ** C1: citation linking *)
(* ================================================================== *)

Section SpanDepth.

Import Postprocessor.

(** *** The nesting-depth counter, in the words of the specification

    [close_at s depth]: read [s] token by token, one up for an opening
    span token and one down for a closing one; the offset just after the
    closing token that brings a depth of [depth] back to zero. *)
Fixpoint close_at (s : str) (depth : nat) : option nat :=
  match s with
  | [] => None
  | _ :: s' =>
      if starts_with span_close s then
        match depth with
        | 0 => None
        | 1 => Some 7
        | S d => option_map S (close_at s' d)
        end
      else if starts_with span_open s then option_map S (close_at s' (S depth))
      else option_map S (close_at s' depth)
  end.

Lemma close_at_bound (s : str) :
  forall depth k, close_at s depth = Some k -> 7 <= k <= length s.
Proof.
  induction s as [|c s IH]; intros depth k; [discriminate|].
  cbn [close_at].
  assert (Hrec : forall d, option_map S (close_at s d) = Some k ->
                           7 <= k <= length (c :: s)).
  { intros d H. destruct (close_at s d) as [j|] eqn:E; [|discriminate].
    injection H as <-. apply IH in E. simpl. lia. }
  destruct (starts_with span_close (c :: s)) eqn:Ec.
  - destruct depth as [|[|d]]; [discriminate | | apply Hrec].
    intros [= <-]. apply starts_with_length in Ec. simpl in *. lia.
  - destruct (starts_with span_open (c :: s)); apply Hrec.
Qed.

(** Text after the closing token does not change where it is found. *)
Lemma close_at_app (s r : str) :
  forall depth k, close_at s depth = Some k -> close_at (s ++ r) depth = Some k.
Proof.
  induction s as [|c s IH]; intros depth k; [discriminate|].
  rewrite <- app_comm_cons. cbn [close_at].
  assert (Hrec : forall d, option_map S (close_at s d) = Some k ->
                           option_map S (close_at (s ++ r) d) = Some k
                           /\ 8 <= length (c :: s)).
  { intros d H. destruct (close_at s d) as [j|] eqn:E; [|discriminate].
    injection H as <-. rewrite (IH _ _ E). split; [reflexivity|].
    apply close_at_bound in E. simpl. lia. }
  rewrite !app_comm_cons.
  destruct (starts_with span_close (c :: s)) eqn:Ec.
  - rewrite starts_with_app_r by exact Ec.
    destruct depth as [|[|d]]; trivial. intros H. now apply Hrec in H.
  - destruct (starts_with span_open (c :: s)) eqn:Eo.
    + intros H. destruct (Hrec _ H) as [H1 H2].
      rewrite starts_with_app_false by (trivial; simpl in *; lia).
      now rewrite starts_with_app_r by exact Eo.
    + intros H. destruct (Hrec _ H) as [H1 H2].
      rewrite !starts_with_app_false by (trivial; simpl in *; lia).
      exact H1.
Qed.

(** No span token starts at any of the first [n] positions. *)
Definition token_free (s : str) (n : nat) : Prop :=
  forall j, j < n ->
    starts_with span_open (skipn j s) = false
    /\ starts_with span_close (skipn j s) = false.

Lemma close_at_skip (n : nat) :
  forall s depth, token_free s n ->
  close_at s depth = option_map (fun k => n + k) (close_at (skipn n s) depth).
Proof.
  induction n as [|n IH]; intros s depth Hf.
  - cbn [skipn]. now destruct (close_at s depth).
  - destruct s as [|c s]; [reflexivity|].
    destruct (Hf 0 ltac:(lia)) as [Ho Hc]. cbn [skipn] in Ho, Hc.
    cbn [close_at skipn]. rewrite Ho, Hc. rewrite IH.
    + destruct (close_at (skipn n s) depth); reflexivity.
    + intros j Hj. apply (Hf (S j)). lia.
Qed.

(** The positions before the first token of each kind are free. *)
Lemma token_free_first (s : str) (n : nat) :
  (forall j, j < n -> starts_with span_open (skipn j s) = false) ->
  (forall j, j < n -> starts_with span_close (skipn j s) = false) ->
  token_free s n.
Proof. intros Ho Hc j Hj. split; auto. Qed.

(** Inside a token no token starts. *)
Lemma after_open (u : str) :
  starts_with span_open u = true ->
  starts_with span_close u = false /\ token_free (skipn 1 u) 4.
Proof.
  intros H. apply starts_with_inv in H. rewrite H. split; [reflexivity|].
  intros j Hj. destruct j as [|[|[|[|j]]]]; try lia; split; reflexivity.
Qed.

Lemma after_close (u : str) :
  starts_with span_close u = true ->
  starts_with span_open u = false /\ token_free (skipn 1 u) 6.
Proof.
  intros H. apply starts_with_inv in H. rewrite H. split; [reflexivity|].
  intros j Hj. destruct j as [|[|[|[|[|[|j]]]]]]; try lia; split; reflexivity.
Qed.

Lemma close_at_open_step (u : str) (depth : nat) :
  starts_with span_open u = true ->
  close_at u depth
  = option_map (fun k => 5 + k) (close_at (skipn 5 u) (S depth)).
Proof.
  intros H. destruct (@after_open _ H) as [Hc Hf].
  destruct u as [|x u]; [discriminate|].
  cbn [close_at]. rewrite Hc, H. cbn [skipn] in Hf.
  rewrite (@close_at_skip _ _ (S depth) Hf).
  change (skipn 5 (x :: u)) with (skipn 4 u).
  destruct (close_at (skipn 4 u) (S depth)); reflexivity.
Qed.

Lemma close_at_close_step (u : str) (depth : nat) :
  starts_with span_close u = true ->
  close_at u (S depth)
  = match depth with
    | 0 => Some 7
    | S _ => option_map (fun k => 7 + k) (close_at (skipn 7 u) depth)
    end.
Proof.
  intros H. destruct (@after_close _ H) as [Ho Hf].
  destruct u as [|x u]; [discriminate|].
  cbn [close_at]. rewrite H. destruct depth as [|d]; [reflexivity|].
  cbn [skipn] in Hf. rewrite (@close_at_skip _ _ (S d) Hf).
  change (skipn 7 (x :: u)) with (skipn 6 u).
  destruct (close_at (skipn 6 u) (S d)); reflexivity.
Qed.

Lemma close_at_none (s : str) :
  forall depth, first_occ span_close s = None -> close_at s depth = None.
Proof.
  induction s as [|c s IH]; intros depth; [reflexivity|].
  cbn [first_occ close_at].
  destruct (starts_with span_close (c :: s)); [discriminate|].
  destruct (first_occ span_close s); [discriminate|]. intros _.
  destruct (starts_with span_open (c :: s)); now rewrite IH.
Qed.

Local Open Scope Z_scope.

(** The loop of the code, with its two searches and its jumps over the
    tokens, finds the end that the counter of the specification finds. *)
Lemma find_span_end_close_at (content : str) (se : option Z) :
  forall (fuel scan depth k : nat),
    (scan <= length content)%nat ->
    close_at (skipn scan content) (S depth) = Some k ->
    (length content - scan < fuel)%nat ->
    find_span_end fuel content (Z.of_nat (S depth)) (Z.of_nat scan) se
    = Ok (Some (Z.of_nat (scan + k))).
Proof.
  induction fuel as [|fuel IH]; intros scan depth k Hs Hk Hf; [lia|].
  pose proof (@close_at_bound _ _ _ Hk) as Hb. rewrite length_skipn in Hb.
  cbn [find_span_end].
  replace ((Z.of_nat (S depth) >? 0) && (Z.of_nat scan <? len content)) with true.
  2:{ symmetry. apply andb_true_iff. split.
      - apply Z.gtb_lt. lia.
      - apply Z.ltb_lt. unfold len. lia. }
  rewrite !find_from by exact Hs.
  set (s := skipn scan content) in *.
  destruct (first_occ span_close s) as [c|] eqn:Ec.
  2:{ now rewrite close_at_none in Hk. }
  replace (Z.of_nat (scan + c) =? -1) with false by (symmetry; apply Z.eqb_neq; lia).
  pose proof (@first_occ_bound _ _ _ Ec) as Hcb. simpl length in Hcb.
  unfold s in Hcb. rewrite length_skipn in Hcb.
  destruct (first_occ span_open s) as [i|] eqn:Eo.
  - destruct (Nat.ltb_spec i c) as [Hic|Hic].
    + (* an opening token comes first *)
      replace (negb (Z.of_nat (scan + i) =? -1)
               && (Z.of_nat (scan + i) <? Z.of_nat (scan + c))) with true.
      2:{ symmetry. apply andb_true_iff. split.
          - apply negb_true_iff, Z.eqb_neq. lia.
          - apply Z.ltb_lt. lia. }
      assert (Hfree : token_free s i).
      { apply token_free_first; intros j Hj.
        - eapply first_occ_before; eauto.
        - eapply first_occ_before; eauto. lia. }
      rewrite (@close_at_skip _ _ _ Hfree) in Hk.
      rewrite (@close_at_open_step _ _ (@first_occ_here _ _ _ Eo)) in Hk.
      unfold s in Hk. rewrite !skipn_skipn in Hk.
      destruct (close_at (skipn (5 + i + scan) content) (S (S depth)))
        as [k'|] eqn:Ek; [|discriminate].
      injection Hk as <-.
      pose proof (@first_occ_bound _ _ _ Eo) as Hob. simpl length in Hob.
      unfold s in Hob. rewrite length_skipn in Hob.
      replace (Z.of_nat (S depth) + 1) with (Z.of_nat (S (S depth))) by lia.
      replace (Z.of_nat (scan + i) + 5) with (Z.of_nat (5 + i + scan)) by lia.
      rewrite (@IH _ _ k'); trivial; try lia.
      do 2 f_equal. lia.
    + (* the closing token comes first *)
      replace (negb (Z.of_nat (scan + i) =? -1)
               && (Z.of_nat (scan + i) <? Z.of_nat (scan + c))) with false.
      2:{ symmetry. apply andb_false_iff. right. apply Z.ltb_ge. lia. }
      assert (Hfree : token_free s c).
      { apply token_free_first; intros j Hj.
        - eapply first_occ_before; eauto. lia.
        - eapply first_occ_before; eauto. }
      rewrite (@close_at_skip _ _ _ Hfree) in Hk.
      rewrite (@close_at_close_step _ _ (@first_occ_here _ _ _ Ec)) in Hk.
      destruct depth as [|d].
      * injection Hk as <-.
        replace (Z.of_nat 1 - 1 =? 0) with true by reflexivity.
        replace (Z.of_nat 1 - 1) with 0 by reflexivity.
        destruct fuel; cbn [find_span_end andb Z.gtb Z.compare];
          do 2 f_equal; unfold len; simpl; lia.
      * unfold s in Hk. rewrite !skipn_skipn in Hk.
        destruct (close_at (skipn (7 + c + scan) content) (S d))
          as [k'|] eqn:Ek; [|discriminate].
        injection Hk as <-.
        replace (Z.of_nat (S (S d)) - 1 =? 0) with false
          by (symmetry; apply Z.eqb_neq; lia).
        replace (Z.of_nat (S (S d)) - 1) with (Z.of_nat (S d)) by lia.
        replace (Z.of_nat (scan + c) + 7) with (Z.of_nat (7 + c + scan)) by lia.
        rewrite (@IH _ _ k'); trivial; try lia.
        do 2 f_equal. lia.
  - (* no opening token at all *)
    replace (negb (-1 =? -1) && (-1 <? Z.of_nat (scan + c))) with false by reflexivity.
    assert (Hfree : token_free s c).
    { apply token_free_first; intros j Hj.
      - now apply first_occ_none.
      - eapply first_occ_before; eauto. }
    rewrite (@close_at_skip _ _ _ Hfree) in Hk.
    rewrite (@close_at_close_step _ _ (@first_occ_here _ _ _ Ec)) in Hk.
    destruct depth as [|d].
    + injection Hk as <-.
      replace (Z.of_nat 1 - 1 =? 0) with true by reflexivity.
      replace (Z.of_nat 1 - 1) with 0 by reflexivity.
      destruct fuel; cbn [find_span_end andb Z.gtb Z.compare];
        do 2 f_equal; unfold len; simpl; lia.
    + unfold s in Hk. rewrite !skipn_skipn in Hk.
      destruct (close_at (skipn (7 + c + scan) content) (S d))
        as [k'|] eqn:Ek; [|discriminate].
      injection Hk as <-.
      replace (Z.of_nat (S (S d)) - 1 =? 0) with false
        by (symmetry; apply Z.eqb_neq; lia).
      replace (Z.of_nat (S (S d)) - 1) with (Z.of_nat (S d)) by lia.
      replace (Z.of_nat (scan + c) + 7) with (Z.of_nat (7 + c + scan)) by lia.
      rewrite (@IH _ _ k'); trivial; try lia.
      do 2 f_equal. lia.
Qed.

Local Close Scope Z_scope.

End SpanDepth.

Section Citations.

Import Postprocessor.

(** *** Searches and slices at the end of a known prefix *)

Lemma find_after (a s sub : str) :
  find (a ++ s) sub (Z.of_nat (length a)) =
  match first_occ sub s with
  | Some j => Z.of_nat (length a + j)
  | None => (-1)%Z
  end.
Proof.
  rewrite find_from by (rewrite length_app; lia).
  now rewrite skipn_app, skipn_all, Nat.sub_diag.
Qed.

Lemma slice_mid (a b c : str) :
  slice (a ++ b ++ c) (Z.of_nat (length a)) (Z.of_nat (length a + length b)) = b.
Proof.
  unfold slice, clip, len. rewrite !length_app.
  destruct (Z.ltb_spec (Z.of_nat (length a)) 0); [lia|].
  destruct (Z.ltb_spec (Z.of_nat (length a + length b)) 0); [lia|].
  rewrite !Z.min_l by lia.
  replace (Z.to_nat (Z.of_nat (length a + length b) - Z.of_nat (length a)))
    with (length b) by lia.
  rewrite Nat2Z.id, skipn_app, skipn_all, Nat.sub_diag. cbn [skipn app].
  now rewrite firstn_app, firstn_all, Nat.sub_diag, app_nil_r.
Qed.

Lemma slice_from_after (a b : str) :
  slice_from (a ++ b) (Z.of_nat (length a)) = b.
Proof.
  unfold slice_from, clip, len. rewrite length_app.
  destruct (Z.ltb_spec (Z.of_nat (length a)) 0); [lia|].
  rewrite Z.min_l by lia.
  now rewrite Nat2Z.id, skipn_app, skipn_all, Nat.sub_diag.
Qed.

Lemma first_occ_char (c : ascii) (x y : str) :
  char_in c x = false -> first_occ [c] (x ++ c :: y) = Some (length x).
Proof.
  induction x as [|a x IH]; intros H.
  - simpl. now rewrite Ascii.eqb_refl.
  - rewrite char_in_cons in H. apply orb_false_iff in H as [Ha H].
    rewrite <- app_comm_cons. cbn [first_occ starts_with].
    rewrite Ha. cbn [andb]. now rewrite IH.
Qed.

(** The first opener after a text free of openers. *)
Lemma first_occ_marker (t X : str) :
  first_occ marker t = None -> first_occ marker (t ++ marker ++ X) = Some (length t).
Proof.
  intros H. apply first_occ_intro.
  - rewrite skipn_app, skipn_all, Nat.sub_diag. cbn [skipn app].
    apply starts_with_app.
  - intros i Hi. rewrite skipn_app.
    replace (i - length t) with 0 by lia. cbn [skipn].
    apply (@no_straddle "<"%char (tl marker) t); trivial.
Qed.

(** *** Citation spans *)

(** A citation span: the value of its cite-key attribute, what follows
    the attribute inside the opening tag, and its content. *)
Record citation : Type := Cite {
  c_keys : str;
  c_attrs : str;
  c_inner : str
}.

Definition cite_text (c : citation) : str :=
  marker ++ c_keys c ++ [dq] ++ c_attrs c ++ txt ">" ++ c_inner c ++ span_close.

(** The attribute value and the tag are closed, the content is balanced
    in span tokens, and there is a cite-key. *)
Definition well_formed (c : citation) : Prop :=
  char_in dq (c_keys c) = false
  /\ char_in ">" (c_attrs c) = false
  /\ close_at (c_inner c ++ span_close) 1 = Some (length (c_inner c) + 7)
  /\ Py.split (c_keys c) <> [].

Definition ref_id (c : citation) : str :=
  txt "ref-" ++ hd [] (Py.split (c_keys c)).

(** What the span becomes: wrapped in a link when its reference is a
    bibliography entry, itself otherwise. *)
Definition linked (bib_chapter : str) (bib_ids : list str) (c : citation) : str :=
  if set_in (ref_id c) bib_ids
  then link_open (bib_chapter ++ txt "#" ++ ref_id c) ++ cite_text c ++ link_close
  else cite_text c.

Lemma cite_text_length (c : citation) :
  length (cite_text c) =
  length marker + length (c_keys c) + 1 + length (c_attrs c) + 1
  + length (c_inner c) + 7.
Proof. unfold cite_text. rewrite !length_app. simpl. lia. Qed.

Local Open Scope Z_scope.

(** Two ways of writing the same text, up to the grouping of [++]. *)
Local Ltac flat_text content P3 P2 P1 X :=
  unfold content, P3, P2, P1, X, cite_text; cbn [c_keys c_attrs c_inner];
  change (txt ">") with [">"%char];
  repeat (rewrite <- app_assoc || rewrite <- app_comm_cons); reflexivity.

(** One turn of the loop on a well-formed span. *)
Lemma link_loop_cite (bib_chapter : str) (bib_ids : list str)
  (prefix t rest : str) (c : citation) (se : option Z) (fuel : nat) :
  first_occ marker t = None -> well_formed c ->
  let content := prefix ++ t ++ cite_text c ++ rest in
  let e := Z.of_nat (length (prefix ++ t ++ cite_text c)) in
  link_loop (S fuel) bib_chapter bib_ids content (Z.of_nat (length prefix)) se
  = (r <- link_loop fuel bib_chapter bib_ids content e (Some e) ;;
     Ok (t :: linked bib_chapter bib_ids c :: fst r, snd r)).
Proof.
  intros Ht (Hk & Ha & Hi & Hs) content e.
  destruct c as [keys attrs inner]. cbn [c_keys c_attrs c_inner] in *.

  set (X := keys ++ [dq] ++ attrs ++ txt ">" ++ inner ++ span_close) in *.
  set (P1 := prefix ++ t ++ marker).
  set (P2 := P1 ++ keys).
  set (P3 := P2 ++ dq :: attrs ++ txt ">").
  assert (C0 : content = prefix ++ (t ++ marker ++ X ++ rest)) by flat_text content P3 P2 P1 X.
  assert (C0' : content = prefix ++ t ++ (marker ++ X ++ rest)) by flat_text content P3 P2 P1 X.
  assert (C1 : content
               = P1 ++ keys ++ dq :: (attrs ++ txt ">" ++ inner ++ span_close ++ rest))
    by flat_text content P3 P2 P1 X.
  assert (C2 : content
               = P2 ++ (dq :: attrs) ++ ">"%char :: (inner ++ span_close ++ rest))
    by flat_text content P3 P2 P1 X.
  assert (C3 : content = P3 ++ (inner ++ span_close) ++ rest) by flat_text content P3 P2 P1 X.
  assert (C4 : content = (prefix ++ t) ++ cite_text (Cite keys attrs inner) ++ rest)
    by flat_text content P3 P2 P1 X.
  assert (L1 : length P1 = (length prefix + length t + length marker)%nat).
  { unfold P1. rewrite !length_app. lia. }
  assert (L2 : length P2 = (length P1 + length keys)%nat).
  { unfold P2. rewrite length_app. lia. }
  assert (L3 : length P3 = (length P2 + 1 + length attrs + 1)%nat).
  { unfold P3. rewrite length_app. cbn [length]. rewrite length_app.
    simpl. lia. }
  (* the opener *)
  assert (F1 : find content marker (Z.of_nat (length prefix))
               = Z.of_nat (length prefix + length t)).
  { rewrite C0, find_after, first_occ_marker by exact Ht. reflexivity. }
  (* the closing quote of the attribute *)
  assert (F3 : index content [dq] (Z.of_nat (length P1))
               = Ok (Z.of_nat (length P2))).
  { unfold index. rewrite C1, find_after, first_occ_char by exact Hk.
    rewrite <- L2.
    replace (Z.of_nat (length P2) =? -1) with false
      by (symmetry; apply Z.eqb_neq; lia).
    reflexivity. }
  (* the end of the opening tag *)
  assert (F5 : index content (txt ">") (Z.of_nat (length P2))
               = Ok (Z.of_nat (length P3) - 1)).
  { unfold index. rewrite C2, find_after.
    change (txt ">") with [">"%char].
    rewrite first_occ_char.
    - replace (Z.of_nat (length P2 + length (dq :: attrs)) =? -1) with false
        by (symmetry; apply Z.eqb_neq; lia).
      f_equal. rewrite L3. simpl length. lia.
    - rewrite char_in_cons, Ha. reflexivity. }
  (* the end of the span *)
  assert (F6 : find_span_end (S (length content)) content 1
                 (Z.of_nat (length P3)) se = Ok (Some e)).
  { change 1 with (Z.of_nat 1).
    rewrite (@find_span_end_close_at content se _ _ 0 (length inner + 7)%nat).
    - do 2 f_equal. unfold e.
      rewrite !length_app, cite_text_length, L3, L2, L1.
      cbn [c_keys c_attrs c_inner]. lia.
    - rewrite C3, length_app. lia.
    - rewrite C3, skipn_app, skipn_all, Nat.sub_diag. cbn [skipn app].
      now apply close_at_app.
    - lia. }
  assert (E7 : e = Z.of_nat (length (prefix ++ t)
                             + length (cite_text (Cite keys attrs inner)))).
  { unfold e. rewrite !length_app. lia. }
  cbn [link_loop]. fold content. rewrite F1.
  replace (Z.of_nat (length prefix + length t) =? -1) with false
    by (symmetry; apply Z.eqb_neq; lia).
  replace (Z.of_nat (length prefix + length t) + len marker)
    with (Z.of_nat (length P1)) by (rewrite L1; unfold len; lia).
  rewrite F3. cbn [bind]. rewrite F5. cbn [bind].
  replace (Z.of_nat (length P3) - 1 + 1) with (Z.of_nat (length P3)) by lia.
  rewrite F6. cbn [bind].
  (* the slices *)
  replace (slice content (Z.of_nat (length prefix))
             (Z.of_nat (length prefix + length t))) with t.
  2:{ rewrite C0'. now rewrite slice_mid. }
  replace (slice content (Z.of_nat (length P1)) (Z.of_nat (length P2))) with keys.
  2:{ rewrite C1, L2. now rewrite slice_mid. }
  replace (slice content (Z.of_nat (length prefix + length t)) e)
    with (cite_text (Cite keys attrs inner)).
  2:{ rewrite E7, C4. rewrite <- (length_app prefix t). now rewrite slice_mid. }
  unfold linked, ref_id. cbn [c_keys].
  destruct (Py.split keys) as [|k1 ks]; [congruence|]. cbn [hd].
  reflexivity.
Qed.

Local Close Scope Z_scope.

(** *** A content fragment *)

(** A fragment read left to right: text without an opener, then a
    citation span, and so on, and a last text without an opener. *)
Fixpoint render (segs : list (str * citation)) (tail : str) : str :=
  match segs with
  | [] => tail
  | (t, c) :: segs' => t ++ cite_text c ++ render segs' tail
  end.

(** The same fragment with its spans linked. *)
Fixpoint render_linked (bib_chapter : str) (bib_ids : list str)
  (segs : list (str * citation)) (tail : str) : str :=
  match segs with
  | [] => tail
  | (t, c) :: segs' =>
      t ++ linked bib_chapter bib_ids c
        ++ render_linked bib_chapter bib_ids segs' tail
  end.

Definition seg_ok (s : str * citation) : Prop :=
  first_occ marker (fst s) = None /\ well_formed (snd s).

Lemma link_loop_render (bib_chapter : str) (bib_ids : list str) (tail : str) :
  first_occ marker tail = None ->
  forall (segs : list (str * citation)) (prefix : str) (se : option Z) (fuel : nat),
    Forall seg_ok segs -> length segs < fuel ->
    exists pieces se',
      link_loop fuel bib_chapter bib_ids (prefix ++ render segs tail)
        (Z.of_nat (length prefix)) se = Ok (pieces, se')
      /\ concat pieces = render_linked bib_chapter bib_ids segs tail.
Proof.
  intros Htail. induction segs as [|[t c] segs IH]; intros prefix se fuel Hok Hf.
  - destruct fuel as [|fuel]; [simpl in Hf; lia|].
    cbn [link_loop render]. rewrite find_after, Htail.
    cbn [Z.eqb]. rewrite slice_from_after.
    eexists _, _. split; [reflexivity|]. simpl. apply app_nil_r.
  - destruct fuel as [|fuel]; [simpl in Hf; lia|].
    inversion Hok as [|? ? [Ht Hc] Hok']; subst.
    cbn [render fst snd] in *.
    rewrite link_loop_cite by trivial.
    replace (prefix ++ t ++ cite_text c ++ render segs tail)
      with ((prefix ++ t ++ cite_text c) ++ render segs tail)
      by (now rewrite <- !app_assoc).
    destruct (IH (prefix ++ t ++ cite_text c)
                 (Some (Z.of_nat (length (prefix ++ t ++ cite_text c)))) fuel Hok')
      as (pieces & se' & Hl & Hp); [simpl in Hf; lia|].
    rewrite Hl. cbn [bind fst snd].
    eexists _, _. split; [reflexivity|].
    cbn [concat render_linked]. now rewrite Hp.
Qed.

Lemma render_has_attribute (t : str) (c : citation) (rest : str) :
  contains (txt "data-cites=") (t ++ cite_text c ++ rest) = true.
Proof.
  unfold cite_text. rewrite <- !app_assoc.
  apply contains_app_mid.
  change marker with ((txt "<span class=" ++ [dq] ++ txt "citation" ++ [dq]
                       ++ txt " ") ++ txt "data-cites=" ++ [dq]).
  apply contains_app_mid. reflexivity.
Qed.

(** Text without a carriage return is read as it is, and where the line
    separator is the newline a text is written as it is. *)
Lemma read_text_plain (raw : str) :
  char_in cr raw = false -> read_text raw = raw.
Proof.
  induction raw as [|c raw IH]; [reflexivity|].
  rewrite char_in_cons. intros H. apply orb_false_iff in H as [Hc H].
  cbn [read_text]. rewrite Ascii.eqb_sym, Hc. now rewrite IH.
Qed.

Lemma write_text_nl (content : str) : write_text [nl] content = content.
Proof.
  induction content as [|c content IH]; [reflexivity|].
  unfold write_text in *. cbn [flat_map]. rewrite IH.
  destruct (Ascii.eqb c nl) eqn:E; [|reflexivity].
  apply Ascii.eqb_eq in E. now subst c.
Qed.

Lemma link_file_render (linesep bib_chapter : str) (bib_ids : list str)
  (raw : str) (segs : list (str * citation)) (tail : str) (se : option Z)
  (fuel : nat) :
  read_text raw = render segs tail ->
  Forall seg_ok segs -> first_occ marker tail = None -> length segs < fuel ->
  exists se',
    link_file linesep fuel bib_chapter bib_ids raw se
    = Ok (if contains (txt "data-cites=") (read_text raw)
          then write_text linesep (render_linked bib_chapter bib_ids segs tail)
          else raw, se').
Proof.
  intros Hr Hok Htail Hf. unfold link_file. cbv zeta.
  destruct (contains (txt "data-cites=") (read_text raw)) eqn:E; cbn [negb];
    [|eauto].
  rewrite Hr.
  destruct (@link_loop_render bib_chapter bib_ids tail Htail segs [] se fuel Hok Hf)
    as (pieces & se' & Hl & Hp).
  cbn [app length] in Hl. change (Z.of_nat 0) with 0%Z in Hl.
  rewrite Hl. cbn [bind fst snd]. rewrite Hp. eauto.
Qed.

(** In a file without a carriage return, on a platform whose line
    separator is the newline, what is written is the linked text itself. *)
Lemma link_file_render_plain (bib_chapter : str) (bib_ids : list str)
  (raw : str) (segs : list (str * citation)) (tail : str) (se : option Z)
  (fuel : nat) :
  read_text raw = render segs tail ->
  Forall seg_ok segs -> first_occ marker tail = None -> length segs < fuel ->
  char_in cr raw = false ->
  exists se',
    link_file [nl] fuel bib_chapter bib_ids raw se
    = Ok (render_linked bib_chapter bib_ids segs tail, se').
Proof.
  intros Hr Hok Htail Hf Hcr.
  destruct (@link_file_render [nl] bib_chapter bib_ids raw segs tail se fuel
              Hr Hok Htail Hf) as (se' & H).
  exists se'. rewrite H, write_text_nl. f_equal. f_equal.
  destruct (contains (txt "data-cites=") (read_text raw)) eqn:E; [reflexivity|].
  rewrite Hr in E. rewrite <- (read_text_plain raw Hcr), Hr.
  destruct segs as [|[t c] segs]; [reflexivity|].
  cbn [render] in E. now rewrite render_has_attribute in E.
Qed.

(** *** The files of the text directory *)

(** A file of the directory: its name, what it holds, and the text read
    from it as a fragment. *)
Record fragment : Type := Fragment {
  f_name : str;
  f_raw : str;
  f_segs : list (str * citation);
  f_tail : str
}.

Definition frag_file (f : fragment) : str * str := (f_name f, f_raw f).

(** What the file holds afterwards: the linked text as text mode writes
    it, when the file has the attribute, and what it held otherwise. *)
Definition frag_linked (linesep bib_chapter : str) (bib_ids : list str)
  (f : fragment) : str * str :=
  (f_name f,
   if contains (txt "data-cites=") (read_text (f_raw f))
   then write_text linesep
          (render_linked bib_chapter bib_ids (f_segs f) (f_tail f))
   else f_raw f).

Definition frag_ok (fuel : nat) (f : fragment) : Prop :=
  read_text (f_raw f) = render (f_segs f) (f_tail f)
  /\ Forall seg_ok (f_segs f)
  /\ first_occ marker (f_tail f) = None
  /\ length (f_segs f) < fuel.

Lemma link_files_render (linesep bib_chapter : str) (bib_ids : list str)
  (fuel : nat) :
  forall (files : list fragment) (se : option Z),
    Forall (frag_ok fuel) files ->
    link_files linesep fuel bib_chapter bib_ids (map frag_file files) se
    = Ok (map (frag_linked linesep bib_chapter bib_ids) files).
Proof.
  induction files as [|[xf raw segs tail] files IH]; intros se Hok.
  - reflexivity.
  - inversion Hok as [|? ? (Hr & Hs & Ht & Hf) Hok']; subst.
    cbn [f_name f_raw f_segs f_tail] in Hr, Hs, Ht, Hf.
    cbn [map frag_file f_name f_raw link_files].
    destruct (@link_file_render linesep bib_chapter bib_ids raw segs tail se
                fuel Hr Hs Ht Hf) as (se' & Hl).
    rewrite Hl. cbn [bind fst snd]. rewrite (IH se' Hok'). reflexivity.
Qed.

(** X19. Citation linking on well-formed fragments. The text read from a
    file is made of texts without an opener and of well-formed citation
    spans -- the spans that the left-to-right scan meets, each with its
    attribute value and its tag closed, its content balanced in span
    tokens, and a cite-key. Then every span whose first cite-key names a
    bibliography entry is wrapped, whole and unchanged, in a link to that
    entry of the bibliography fragment, every other span is written back
    as it is, and so is the text between them. An opener inside a span
    belongs to the content of that span. The end of a span is where the
    depth counter over the opening and closing span tokens comes back to
    zero. The file is read and written in text mode: the line ends of the
    file are read as newlines, and the newlines of the linked text are
    written as the line separator of the platform; a file without the
    attribute is not written. So it is for every file of the text
    directory, once one of them has been found to be the bibliography
    fragment. *)
Theorem link_citations_wraps :
  forall (linesep bib_chapter : str) (bib_ids : list str) (raw : str)
         (segs : list (str * citation)) (tail : str)
         (se : option Z) (fuel : nat),
    read_text raw = render segs tail ->
    Forall seg_ok segs -> first_occ marker tail = None -> length segs < fuel ->
    (exists se',
       link_file linesep fuel bib_chapter bib_ids raw se
       = Ok (if contains (txt "data-cites=") (read_text raw)
             then write_text linesep
                    (render_linked bib_chapter bib_ids segs tail)
             else raw, se'))
    /\ (char_in cr raw = false ->
        exists se',
          link_file [nl] fuel bib_chapter bib_ids raw se
          = Ok (render_linked bib_chapter bib_ids segs tail, se'))
    /\ (forall (content : str) (scan depth k : nat) (old : option Z),
          scan <= length content ->
          close_at (skipn scan content) (S depth) = Some k ->
          find_span_end (S (length content)) content
            (Z.of_nat (S depth)) (Z.of_nat scan) old
          = Ok (Some (Z.of_nat (scan + k))))
    /\ (forall (files : list fragment),
          Forall (frag_ok fuel) files ->
          find_bib_chapter (map frag_file files) = Some (bib_chapter, bib_ids) ->
          bib_chapter <> [] ->
          _link_citations linesep fuel (map frag_file files)
          = Ok (map (frag_linked linesep bib_chapter bib_ids) files)).
Proof.
  intros linesep bib_chapter bib_ids raw segs tail se fuel Hr Hok Htail Hf.
  split; [|split; [|split]].
  - now apply link_file_render.
  - intros Hcr. now apply link_file_render_plain.
  - intros content scan depth k old Hs Hk.
    apply find_span_end_close_at; trivial. lia.
  - intros files Hfs Hb Hn. unfold _link_citations. rewrite Hb.
    destruct bib_chapter as [|b bs]; [congruence|].
    now apply link_files_render.
Qed.

(** The example of the specification: a span with the cite-keys [a b]
    and a nested span, in a chapter next to a bibliography fragment with
    the entries [ref-a] to [ref-f]. *)
Definition example_segs : list (str * citation) :=
  [ (txt "See ", Cite (txt "a b") [] (txt "(A <span class=x>1</span>; B)")) ].

Definition csl_entry (key : str) : str :=
  txt "<div id=" ++ [dq] ++ txt "ref-" ++ key ++ [dq] ++ txt ">" ++ key
  ++ txt "</div>".

Definition example_bibliography : str :=
  concat (map csl_entry [txt "a"; txt "b"; txt "c"; txt "d"; txt "e"; txt "f"]).

Definition example_files : list fragment :=
  [ Fragment (txt "bib.xhtml") example_bibliography [] example_bibliography;
    Fragment (txt "ch1.xhtml") (render example_segs (txt "."))
             example_segs (txt ".") ].

Lemma link_citations_wraps_witness :
  (exists se',
     link_file [nl] 2 (txt "bib.xhtml") [txt "ref-a"; txt "ref-b"]
       (render example_segs (txt ".")) None
     = Ok (txt "See " ++ link_open (txt "bib.xhtml#ref-a")
             ++ cite_text (Cite (txt "a b") [] (txt "(A <span class=x>1</span>; B)"))
             ++ link_close ++ txt ".", se'))
  /\ _link_citations [nl] 2 (map frag_file example_files)
     = Ok [ (txt "bib.xhtml", example_bibliography);
            (txt "ch1.xhtml",
             txt "See " ++ link_open (txt "bib.xhtml#ref-a")
               ++ cite_text (Cite (txt "a b") [] (txt "(A <span class=x>1</span>; B)"))
               ++ link_close ++ txt ".") ].
Proof.
  assert (Hseg : Forall seg_ok example_segs).
  { constructor; [|constructor].
    split; [reflexivity|]. split; [reflexivity|]. split; [reflexivity|].
    split; [vm_compute; reflexivity|].
    intros H. vm_compute in H. discriminate H. }
  split.
  - destruct (@link_citations_wraps [nl] (txt "bib.xhtml") [txt "ref-a"; txt "ref-b"]
                (render example_segs (txt ".")) example_segs (txt ".") None 2)
      as (_ & H & _).
    + vm_compute. reflexivity.
    + exact Hseg.
    + reflexivity.
    + simpl. lia.
    + destruct H as (se' & H); [vm_compute; reflexivity|].
      exists se'. rewrite H. reflexivity.
  - destruct (@link_citations_wraps [nl] (txt "bib.xhtml")
                (map (fun k => txt "ref-" ++ k)
                     [txt "a"; txt "b"; txt "c"; txt "d"; txt "e"; txt "f"])
                (render example_segs (txt ".")) example_segs (txt ".") None 2)
      as (_ & _ & _ & H).
    + vm_compute. reflexivity.
    + exact Hseg.
    + reflexivity.
    + simpl. lia.
    + rewrite (H example_files).
      * vm_compute. reflexivity.
      * constructor; [|constructor; [|constructor]].
        -- split; [vm_compute; reflexivity|]. split; [constructor|].
           split; [vm_compute; reflexivity|]. simpl. lia.
        -- split; [vm_compute; reflexivity|]. split; [exact Hseg|].
           split; [reflexivity|]. simpl. lia.
      * vm_compute. reflexivity.
      * discriminate.
Defined.

(** An opener inside a span: the inner span has the cite-key [b],
    [ref-b] is a bibliography entry, and the inner span gets no link of
    its own -- it is content of the outer span, which is linked to
    [ref-a]. *)
Definition nested_cite : str :=
  marker ++ txt "a" ++ [dq] ++ txt ">" ++
    marker ++ txt "b" ++ [dq] ++ txt ">x" ++ span_close ++ span_close.

Lemma link_file_nested_opener :
  link_file [nl] 2 (txt "bib.xhtml") [txt "ref-a"; txt "ref-b"] nested_cite None
  = Ok (link_open (txt "bib.xhtml#ref-a") ++ nested_cite ++ link_close,
        Some (len nested_cite)).
Proof. vm_compute. reflexivity. Qed.

(** Line ends in text mode: a chapter with the line ends [\r\n] is
    written back with the line ends of the platform, its bytes changed
    although no span of it is linked. *)
Lemma link_file_line_ends :
  link_file [nl] 2 (txt "bib.xhtml") [txt "ref-a"]
    (txt "A" ++ [cr; nl] ++ marker ++ txt "z" ++ [dq] ++ txt ">x" ++ span_close
     ++ [cr] ++ txt "B") None
  = Ok (txt "A" ++ [nl] ++ marker ++ txt "z" ++ [dq] ++ txt ">x" ++ span_close
        ++ [nl] ++ txt "B", Some 48%Z).
Proof. vm_compute. reflexivity. Qed.

(** *** Spans that are never closed *)

Local Open Scope Z_scope.

Lemma marker_has_attribute (t X : str) :
  contains (txt "data-cites=") (t ++ marker ++ X) = true.
Proof.
  apply contains_app_mid. reflexivity.
Qed.

Lemma first_occ_skipn_none (sub s : str) (n : nat) :
  first_occ sub s = None -> first_occ sub (skipn n s) = None.
Proof.
  revert n. induction s as [|c s IH]; intros n H.
  - now destruct n.
  - destruct n as [|n]; [exact H|]. cbn [skipn]. apply IH.
    cbn [first_occ] in H. destruct (starts_with sub (c :: s)); [discriminate|].
    now destruct (first_occ sub s).
Qed.

(** What a span becomes, given the text taken for it. *)
Definition wrapped (bib_chapter : str) (bib_ids : list str) (keys full_span : str)
  : str :=
  let ref_id := txt "ref-" ++ hd [] (Py.split keys) in
  if set_in ref_id bib_ids
  then link_open (bib_chapter ++ txt "#" ++ ref_id) ++ full_span ++ link_close
  else full_span.

(** One turn of the loop at an opener whose span is never closed: the
    inner loop ends without an assignment, and the turn goes on with the
    value that [span_end] had before. *)
Lemma link_loop_unclosed (bib_chapter : str) (bib_ids : list str)
  (content prefix t keys attrs inner : str) (se : option Z) (fuel : nat) :
  content = prefix ++ t ++ marker ++ keys ++ [dq] ++ attrs ++ txt ">" ++ inner ->
  first_occ marker t = None ->
  char_in dq keys = false ->
  char_in ">" attrs = false ->
  first_occ span_close inner = None ->
  link_loop (S fuel) bib_chapter bib_ids content (Z.of_nat (length prefix)) se
  = match se with
    | None => Raise UnboundLocalError
    | Some e =>
        match Py.split keys with
        | [] => Raise IndexError
        | _ :: _ =>
            r <- link_loop fuel bib_chapter bib_ids content e (Some e) ;;
            Ok (t :: wrapped bib_chapter bib_ids keys
                       (slice content (Z.of_nat (length prefix + length t)) e)
                  :: fst r, snd r)
        end
    end.
Proof.
  intros Hc Ht Hk Ha Hi.
  set (P1 := prefix ++ t ++ marker).
  set (P2 := P1 ++ keys).
  set (P3 := P2 ++ dq :: attrs ++ txt ">").
  assert (C0 : content = prefix ++ (t ++ marker ++ keys ++ [dq] ++ attrs
                                      ++ txt ">" ++ inner)) by exact Hc.
  assert (C0' : content = prefix ++ t ++ (marker ++ keys ++ [dq] ++ attrs
                                            ++ txt ">" ++ inner)) by exact Hc.
  assert (C1 : content = P1 ++ keys ++ dq :: (attrs ++ txt ">" ++ inner)).
  { rewrite Hc. unfold P1. now rewrite <- !app_assoc. }
  assert (C2 : content = P2 ++ (dq :: attrs) ++ ">"%char :: inner).
  { rewrite Hc. unfold P2, P1. now rewrite <- !app_assoc. }
  assert (C3 : content = P3 ++ inner).
  { rewrite Hc. unfold P3, P2, P1. cbn [app].
    repeat (rewrite <- app_assoc || rewrite <- app_comm_cons). reflexivity. }
  assert (L1 : length P1 = (length prefix + length t + length marker)%nat).
  { unfold P1. rewrite !length_app. lia. }
  assert (L2 : length P2 = (length P1 + length keys)%nat).
  { unfold P2. rewrite length_app. lia. }
  assert (L3 : length P3 = (length P2 + 1 + length attrs + 1)%nat).
  { unfold P3. rewrite length_app. cbn [length]. rewrite length_app.
    simpl. lia. }
  assert (F1 : find content marker (Z.of_nat (length prefix))
               = Z.of_nat (length prefix + length t)).
  { rewrite C0, find_after, first_occ_marker by exact Ht. reflexivity. }
  assert (F3 : index content [dq] (Z.of_nat (length P1))
               = Ok (Z.of_nat (length P2))).
  { unfold index. rewrite C1, find_after, first_occ_char by exact Hk.
    rewrite <- L2.
    replace (Z.of_nat (length P2) =? -1) with false
      by (symmetry; apply Z.eqb_neq; lia).
    reflexivity. }
  assert (F5 : index content (txt ">") (Z.of_nat (length P2))
               = Ok (Z.of_nat (length P3) - 1)).
  { unfold index. rewrite C2, find_after.
    change (txt ">") with [">"%char].
    rewrite first_occ_char.
    - replace (Z.of_nat (length P2 + length (dq :: attrs)) =? -1) with false
        by (symmetry; apply Z.eqb_neq; lia).
      f_equal. rewrite L3. simpl length. lia.
    - rewrite char_in_cons, Ha. reflexivity. }
  assert (F6 : find_span_end (S (length content)) content 1
                 (Z.of_nat (length P3)) se = Ok se).
  { cbn [find_span_end].
    destruct ((1 >? 0) && (Z.of_nat (length P3) <? len content)); [|reflexivity].
    replace (find content span_close (Z.of_nat (length P3))) with (-1).
    - reflexivity.
    - rewrite C3, find_after, Hi. reflexivity. }
  cbn [link_loop]. rewrite F1.
  replace (Z.of_nat (length prefix + length t) =? -1) with false
    by (symmetry; apply Z.eqb_neq; lia).
  replace (Z.of_nat (length prefix + length t) + len marker)
    with (Z.of_nat (length P1)) by (rewrite L1; unfold len; lia).
  rewrite F3. cbn [bind]. rewrite F5. cbn [bind].
  replace (Z.of_nat (length P3) - 1 + 1) with (Z.of_nat (length P3)) by lia.
  rewrite F6. cbn [bind].
  destruct se as [e|]; [|reflexivity].
  replace (slice content (Z.of_nat (length prefix))
             (Z.of_nat (length prefix + length t))) with t.
  2:{ rewrite C0'. now rewrite slice_mid. }
  replace (slice content (Z.of_nat (length P1)) (Z.of_nat (length P2))) with keys.
  2:{ rewrite C1, L2. now rewrite slice_mid. }
  unfold wrapped.
  destruct (Py.split keys) as [|k1 ks]; reflexivity.
Qed.

(** When that value is the position the turn began at, the turn comes
    back to where it began: the loop does not end. *)
Lemma link_loop_stale_loops (bib_chapter : str) (bib_ids : list str)
  (content prefix t keys attrs inner : str) :
  content = prefix ++ t ++ marker ++ keys ++ [dq] ++ attrs ++ txt ">" ++ inner ->
  first_occ marker t = None ->
  char_in dq keys = false ->
  char_in ">" attrs = false ->
  first_occ span_close inner = None ->
  Py.split keys <> [] ->
  forall fuel : nat,
    link_loop fuel bib_chapter bib_ids content (Z.of_nat (length prefix))
      (Some (Z.of_nat (length prefix))) = OutOfFuel.
Proof.
  intros Hc Ht Hk Ha Hi Hs. induction fuel as [|fuel IH]; [reflexivity|].
  rewrite (@link_loop_unclosed bib_chapter bib_ids content prefix t keys attrs
             inner _ fuel Hc Ht Hk Ha Hi).
  destruct (Py.split keys); [congruence|]. now rewrite IH.
Qed.

Section NeverClosed.

Variables linesep bib_chapter : str.
Variable bib_ids : list str.
Variables t keys attrs inner : str.

Hypothesis Ht : first_occ marker t = None.
Hypothesis Hk : char_in dq keys = false.
Hypothesis Ha : char_in ">" attrs = false.
Hypothesis Hi : first_occ span_close inner = None.

(** A fragment that begins with text without an opener and a citation
    span that is never closed. *)
Definition unclosed (t keys attrs inner : str) : str :=
  t ++ marker ++ keys ++ [dq] ++ attrs ++ txt ">" ++ inner.

Lemma link_file_unclosed (raw : str) (se : option Z) (fuel : nat) :
  read_text raw = unclosed t keys attrs inner ->
  link_file linesep (S fuel) bib_chapter bib_ids raw se
  = match se with
    | None => Raise UnboundLocalError
    | Some e =>
        match Py.split keys with
        | [] => Raise IndexError
        | _ :: _ =>
            r <- link_loop fuel bib_chapter bib_ids
                   (unclosed t keys attrs inner) e (Some e) ;;
            Ok (write_text linesep
                  (t ++ wrapped bib_chapter bib_ids keys
                          (slice (unclosed t keys attrs inner)
                                 (Z.of_nat (length t)) e)
                     ++ concat (fst r)), snd r)
        end
    end.
Proof.
  intros Hr. unfold link_file. cbv zeta. rewrite Hr.
  unfold unclosed at 1. rewrite marker_has_attribute. cbn [negb].
  change 0 with (Z.of_nat (length (@nil ascii))).
  rewrite (@link_loop_unclosed bib_chapter bib_ids (unclosed t keys attrs inner)
             [] t keys attrs inner se fuel eq_refl Ht Hk Ha Hi).
  destruct se as [e|]; [|reflexivity].
  destruct (Py.split keys); [reflexivity|].
  cbn [length Nat.add].
  destruct (link_loop fuel _ _ _ e (Some e)) as [[pieces se']| |];
    reflexivity.
Qed.

Lemma link_file_stale_before (raw : str) (e : Z) (fuel : nat) :
  read_text raw = unclosed t keys attrs inner ->
  Py.split keys <> [] ->
  0 <= e <= Z.of_nat (length t) ->
  link_file linesep fuel bib_chapter bib_ids raw (Some e) = OutOfFuel.
Proof.
  intros Hr Hs He. destruct fuel as [|fuel].
  - unfold link_file. cbv zeta. rewrite Hr.
    unfold unclosed. now rewrite marker_has_attribute.
  - rewrite link_file_unclosed by exact Hr.
    destruct (Py.split keys) as [|k ks] eqn:Es; [congruence|].
    replace e with (Z.of_nat (length (firstn (Z.to_nat e) t)))
      by (rewrite length_firstn; lia).
    rewrite (@link_loop_stale_loops bib_chapter bib_ids
               (unclosed t keys attrs inner) (firstn (Z.to_nat e) t)
               (skipn (Z.to_nat e) t) keys attrs inner).
    + reflexivity.
    + unfold unclosed. rewrite <- (firstn_skipn (Z.to_nat e) t) at 1.
      now rewrite <- app_assoc.
    + now apply first_occ_skipn_none.
    + exact Hk.
    + exact Ha.
    + exact Hi.
    + now rewrite Es.
Qed.

Lemma link_file_stale_after (raw : str) (e : Z) (fuel : nat) :
  read_text raw = unclosed t keys attrs inner ->
  Py.split keys <> [] ->
  find (unclosed t keys attrs inner) marker e = -1 ->
  link_file linesep (S (S fuel)) bib_chapter bib_ids raw (Some e)
  = Ok (write_text linesep
          (t ++ wrapped bib_chapter bib_ids keys
                  (slice (unclosed t keys attrs inner) (Z.of_nat (length t)) e)
             ++ slice_from (unclosed t keys attrs inner) e),
        Some e).
Proof.
  intros Hr Hs Hf. rewrite link_file_unclosed by exact Hr.
  destruct (Py.split keys) as [|k ks]; [congruence|].
  cbn [link_loop]. rewrite Hf. change (-1 =? -1) with true.
  cbn [bind fst snd concat]. now rewrite app_nil_r.
Qed.

Lemma link_file_after_closed (raw t0 : str) (c : citation) (se : option Z)
  (fuel : nat) :
  read_text raw = t0 ++ cite_text c ++ unclosed t keys attrs inner ->
  first_occ marker t0 = None -> well_formed c ->
  Py.split keys <> [] ->
  link_file linesep fuel bib_chapter bib_ids raw se = OutOfFuel.
Proof.
  intros Hr Ht0 Hc Hs. unfold link_file. cbv zeta. rewrite Hr.
  rewrite render_has_attribute. cbn [negb].
  destruct fuel as [|fuel]; [reflexivity|].
  change 0 with (Z.of_nat (length (@nil ascii))).
  change (t0 ++ cite_text c ++ unclosed t keys attrs inner)
    with ([] ++ t0 ++ cite_text c ++ unclosed t keys attrs inner).
  rewrite link_loop_cite by trivial.
  rewrite (@link_loop_stale_loops bib_chapter bib_ids _
             ([] ++ t0 ++ cite_text c) t keys attrs inner).
  - reflexivity.
  - unfold unclosed. now rewrite <- !app_assoc.
  - exact Ht.
  - exact Hk.
  - exact Ha.
  - exact Hi.
  - exact Hs.
Qed.

End NeverClosed.

(** C1, where the code departs from it. [span_end] is assigned only
    where the depth counter comes back to zero, and it is read whether or
    not it was assigned: for a citation span that is never closed the
    inner loop ends without an assignment, and the span is neither wrapped
    nor written back as it is. With [span_end] still unbound, reading it
    raises [UnboundLocalError] and the file is not written. After a span
    that was closed, in the same file, the scan goes back to the end of
    that span and meets the same opener again, for ever. With a value left
    by an earlier file, the scan does not end either when that value lies
    before the opener; when it lies behind the opener and no opener
    follows, the file is written back with the span cut at that position:
    the link, if there is one, holds the span up to there, and the rest of
    the span follows the link. *)
Theorem link_citations_span_never_closed :
  forall (linesep bib_chapter : str) (bib_ids : list str)
         (t keys attrs inner : str),
    first_occ marker t = None ->
    char_in dq keys = false ->
    char_in ">" attrs = false ->
    first_occ span_close inner = None ->
    Py.split keys <> [] ->
    (forall (raw : str) (fuel : nat),
        read_text raw = unclosed t keys attrs inner ->
        link_file linesep (S fuel) bib_chapter bib_ids raw None
        = Raise UnboundLocalError)
    /\ (forall (raw t0 : str) (c : citation) (se : option Z) (fuel : nat),
          read_text raw = t0 ++ cite_text c ++ unclosed t keys attrs inner ->
          first_occ marker t0 = None -> well_formed c ->
          link_file linesep fuel bib_chapter bib_ids raw se = OutOfFuel)
    /\ (forall (raw : str) (e : Z) (fuel : nat),
          read_text raw = unclosed t keys attrs inner ->
          0 <= e <= Z.of_nat (length t) ->
          link_file linesep fuel bib_chapter bib_ids raw (Some e) = OutOfFuel)
    /\ (forall (raw : str) (e : Z) (fuel : nat),
          read_text raw = unclosed t keys attrs inner ->
          find (unclosed t keys attrs inner) marker e = -1 ->
          link_file linesep (S (S fuel)) bib_chapter bib_ids raw (Some e)
          = Ok (write_text linesep
                  (t ++ wrapped bib_chapter bib_ids keys
                          (slice (unclosed t keys attrs inner)
                                 (Z.of_nat (length t)) e)
                     ++ slice_from (unclosed t keys attrs inner) e),
                Some e)).
Proof.
  intros linesep bib_chapter bib_ids t keys attrs inner Ht Hk Ha Hi Hs.
  split; [|split; [|split]].
  - intros raw fuel Hr.
    now rewrite (@link_file_unclosed linesep bib_chapter bib_ids t keys attrs
                   inner Ht Hk Ha Hi raw None fuel Hr).
  - intros raw t0 c se fuel Hr Ht0 Hc.
    now apply (@link_file_after_closed linesep bib_chapter bib_ids t keys attrs
                 inner Ht Hk Ha Hi raw t0 c).
  - intros raw e fuel Hr He.
    now apply (@link_file_stale_before linesep bib_chapter bib_ids t keys attrs
                 inner Ht Hk Ha Hi).
  - intros raw e fuel Hr Hf.
    now apply (@link_file_stale_after linesep bib_chapter bib_ids t keys attrs
                 inner Ht Hk Ha Hi).
Qed.

(** A chapter that ends in the middle of a citation; the same after a
    citation that is complete; and the same read with a value of
    [span_end] that an earlier file left behind. *)
Definition cut_chapter : str :=
  unclosed (txt "See ") (txt "a") [] (txt "(A 2020) and so on").

Definition closed_cite : citation := Cite (txt "b") [] (txt "(B 2021)").

Lemma link_citations_span_never_closed_witness :
  link_file [nl] 2 (txt "bib.xhtml") [txt "ref-a"] cut_chapter None
  = Raise UnboundLocalError
  /\ (forall fuel : nat,
        link_file [nl] fuel (txt "bib.xhtml") [txt "ref-a"]
          (txt "As " ++ cite_text closed_cite ++ cut_chapter) None
        = OutOfFuel)
  /\ (forall fuel : nat,
        link_file [nl] fuel (txt "bib.xhtml") [txt "ref-a"] cut_chapter (Some 3)
        = OutOfFuel)
  /\ link_file [nl] 2 (txt "bib.xhtml") [txt "ref-a"] cut_chapter (Some 57)
     = Ok (txt "See " ++ link_open (txt "bib.xhtml#ref-a")
             ++ marker ++ txt "a" ++ [dq] ++ txt ">(A 2020) and so" ++ link_close
             ++ txt " on", Some 57).
Proof.
  destruct (@link_citations_span_never_closed [nl] (txt "bib.xhtml") [txt "ref-a"]
              (txt "See ") (txt "a") [] (txt "(A 2020) and so on"))
    as (H1 & H2 & H3 & H4).
  - reflexivity.
  - reflexivity.
  - reflexivity.
  - reflexivity.
  - discriminate.
  - split; [|split; [|split]].
    + apply H1. reflexivity.
    + intros fuel. apply (H2 _ (txt "As ") closed_cite).
      * reflexivity.
      * reflexivity.
      * split; [reflexivity|]. split; [reflexivity|].
        split; [vm_compute; reflexivity|]. discriminate.
    + intros fuel. apply H3; [reflexivity | simpl; lia].
    + rewrite (H4 cut_chapter 57 0%nat); [|reflexivity | vm_compute; reflexivity].
      vm_compute. reflexivity.
Defined.

(** *** The whole stage on such files *)

Definition bib_file : str * str := (txt "bib.xhtml", example_bibliography).

Definition bib_ids_example : list str :=
  map (fun k => txt "ref-" ++ k)
      [txt "a"; txt "b"; txt "c"; txt "d"; txt "e"; txt "f"].

Lemma link_citations_found (linesep : str) (fuel : nat)
  (files : list (str * str)) (bib_chapter : str) (bib_ids : list str) :
  find_bib_chapter files = Some (bib_chapter, bib_ids) ->
  bib_chapter <> [] ->
  _link_citations linesep fuel files
  = link_files linesep fuel bib_chapter bib_ids files None.
Proof.
  intros Hb Hn. unfold _link_citations. rewrite Hb.
  destruct bib_chapter; [congruence | reflexivity].
Qed.

(** Files without the attribute are passed over, and [span_end] with
    them. *)
Lemma link_files_skipped (linesep bib_chapter : str) (bib_ids : list str)
  (fuel : nat) (rest : list (str * str)) :
  forall (before : list (str * str)) (se : option Z),
    Forall (fun f => contains (txt "data-cites=") (read_text (snd f)) = false)
           before ->
    link_files linesep fuel bib_chapter bib_ids (before ++ rest) se
    = (r <- link_files linesep fuel bib_chapter bib_ids rest se ;;
       Ok (before ++ r)).
Proof.
  induction before as [|[xf raw] before IH]; intros se H.
  - cbn [app]. now destruct (link_files _ _ _ _ rest se).
  - inversion H as [|? ? Hf H']; subst. cbn [snd] in Hf.
    cbn [app link_files]. unfold link_file. cbv zeta. rewrite Hf.
    cbn [negb bind fst snd]. rewrite (IH se H').
    now destruct (link_files _ _ _ _ rest se).
Qed.

(** X3. Citation linking, when the first file that has the attribute
    begins, after text without an opener, with a citation span that is
    never closed by [</span>] (its attribute value and its opening tag are
    closed): the files before it are passed over, [span_end] is still
    unbound when the depth-counting loop ends without assigning it, and
    the stage raises [UnboundLocalError]; it returns nothing. The
    condition on the earlier files counts: [span_end] is a local variable
    of the whole function, and after a span closed in an earlier file the
    same fragment makes the stage loop for ever, or is written back with
    the span cut. *)
Theorem link_citations_unclosed_raises :
  forall (linesep : str) (before after : list (str * str)) (xf raw : str)
         (bib_chapter : str) (bib_ids : list str)
         (t keys attrs inner : str) (fuel : nat),
    find_bib_chapter (before ++ (xf, raw) :: after)
    = Some (bib_chapter, bib_ids) ->
    bib_chapter <> [] ->
    Forall (fun f => contains (txt "data-cites=") (read_text (snd f)) = false)
           before ->
    read_text raw = unclosed t keys attrs inner ->
    first_occ marker t = None ->
    char_in dq keys = false ->
    char_in ">" attrs = false ->
    first_occ span_close inner = None ->
    _link_citations linesep (S fuel) (before ++ (xf, raw) :: after)
    = Raise UnboundLocalError.
Proof.
  intros linesep before after xf raw bib_chapter bib_ids t keys attrs inner fuel
         Hb Hn Hbefore Hr Ht Hk Ha Hi.
  rewrite (link_citations_found linesep (S fuel) _ Hb Hn).
  rewrite link_files_skipped by exact Hbefore.
  cbn [link_files].
  now rewrite (@link_file_unclosed linesep bib_chapter bib_ids t keys attrs inner
                 Ht Hk Ha Hi raw None fuel Hr).
Qed.

Lemma link_citations_unclosed_raises_witness :
  _link_citations [nl] 2 ([bib_file] ++ [(txt "ch1.xhtml", cut_chapter)])
  = Raise UnboundLocalError.
Proof.
  apply (@link_citations_unclosed_raises [nl] [bib_file] [] (txt "ch1.xhtml")
           cut_chapter (txt "bib.xhtml") bib_ids_example
           (txt "See ") (txt "a") [] (txt "(A 2020) and so on") 1).
  - vm_compute. reflexivity.
  - discriminate.
  - constructor; [vm_compute; reflexivity | constructor].
  - reflexivity.
  - reflexivity.
  - reflexivity.
  - reflexivity.
  - reflexivity.
Defined.

(** A chapter with a complete citation and then one that is never
    closed: the stage does not end, whatever the fuel. *)
Lemma link_citations_never_ends (fuel : nat) :
  _link_citations [nl] fuel
    [bib_file; (txt "ch1.xhtml", txt "As " ++ cite_text closed_cite ++ cut_chapter)]
  = OutOfFuel.
Proof.
  rewrite (@link_citations_found [nl] fuel _ (txt "bib.xhtml") bib_ids_example)
    by (vm_compute; reflexivity || discriminate).
  match goal with
  | |- link_files _ _ _ _ [bib_file; ?f] _ = _ =>
      change [bib_file; f] with ([bib_file] ++ [f])
  end.
  rewrite link_files_skipped
    by (constructor; [vm_compute; reflexivity | constructor]).
  cbn [link_files].
  rewrite (@link_file_after_closed [nl] (txt "bib.xhtml") bib_ids_example
             (txt "See ") (txt "a") [] (txt "(A 2020) and so on")
             eq_refl eq_refl eq_refl eq_refl
             (txt "As " ++ cite_text closed_cite ++ cut_chapter)
             (txt "As ") closed_cite None fuel).
  - reflexivity.
  - reflexivity.
  - reflexivity.
  - split; [reflexivity|]. split; [reflexivity|].
    split; [vm_compute; reflexivity|]. discriminate.
  - discriminate.
Qed.

(** A chapter with a complete citation, and after it a chapter that ends
    in the middle of one: the second chapter is written back with its
    span cut where the span of the first chapter ended, the link closed
    in the middle of the text. *)
Lemma link_citations_cut_span :
  _link_citations [nl] 3
    [ bib_file;
      (txt "ch1.xhtml", txt "As " ++ cite_text closed_cite ++ txt ".");
      (txt "ch2.xhtml", cut_chapter) ]
  = Ok [ bib_file;
         (txt "ch1.xhtml",
          txt "As " ++ link_open (txt "bib.xhtml#ref-b")
            ++ cite_text closed_cite ++ link_close ++ txt ".");
         (txt "ch2.xhtml",
          txt "See " ++ link_open (txt "bib.xhtml#ref-a")
            ++ marker ++ txt "a" ++ [dq] ++ txt ">(A 2020) and s" ++ link_close
            ++ txt "o on") ].
Proof. vm_compute. reflexivity. Qed.

(** The other malformed spans: an attribute value or an opening tag that
    is not closed, and an attribute without a cite-key. *)
Lemma link_file_open_attribute :
  link_file [nl] 2 (txt "bib.xhtml") [txt "ref-a"]
    (marker ++ txt "a>x" ++ span_close) None
  = Raise ValueError.
Proof. vm_compute. reflexivity. Qed.

Lemma link_file_open_tag :
  link_file [nl] 2 (txt "bib.xhtml") [txt "ref-a"] (marker ++ txt "a" ++ [dq]) None
  = Raise ValueError.
Proof. vm_compute. reflexivity. Qed.

Lemma link_file_no_key :
  link_file [nl] 2 (txt "bib.xhtml") [txt "ref-a"]
    (marker ++ txt " " ++ [dq] ++ txt ">x" ++ span_close) None
  = Raise IndexError.
Proof. vm_compute. reflexivity. Qed.

Local Close Scope Z_scope.

(** *** The bibliography fragment *)

(** X2. A fragment is taken for the bibliography only when it has more
    than five reference identifiers: with none such in the directory, every
    file is left as it is, whatever citation spans it holds. *)
Theorem link_citations_needs_six :
  forall (linesep : str) (fuel : nat) (files : list (str * str)),
    Forall (fun f => length (Re.findall1 ref_id_re (read_text (snd f))) <= 5)
           files ->
    _link_citations linesep fuel files = Ok files.
Proof.
  intros linesep fuel files H. unfold _link_citations.
  assert (E : find_bib_chapter files = None).
  { induction H as [|[xf content] files Hf _ IH]; [reflexivity|].
    cbn [find_bib_chapter]. cbn [snd] in Hf. cbv zeta.
    replace (5 <? length (Re.findall1 ref_id_re (read_text content))) with false
      by (symmetry; apply Nat.ltb_ge; exact Hf).
    exact IH. }
  now rewrite E.
Qed.

(** The bibliography of two entries [ref-a] and [ref-b] next to a chapter
    that cites [a b]: nothing is linked. *)
Definition two_entry_files : list (str * str) :=
  [ (txt "bib.xhtml", csl_entry (txt "a") ++ csl_entry (txt "b"));
    (txt "ch1.xhtml", render example_segs (txt ".")) ].

Lemma link_citations_needs_six_witness :
  _link_citations [nl] 2 two_entry_files = Ok two_entry_files.
Proof.
  apply link_citations_needs_six.
  constructor; [|constructor; [|constructor]]; vm_compute; lia.
Defined.

End Citations.

(* ================================================================== *)
(** ** Text that a pattern cannot match *)
(* ================================================================== *)

Section Untouched.

Import Re PyMore.

(** Every match of the pattern holds the character [c]. *)
Fixpoint needs (c : ascii) (r : regex) : bool :=
  match r with
  | Lit s => char_in c s
  | Seq a b => needs c a || needs c b
  | Alt a b => needs c a && needs c b
  | Grp _ a => needs c a
  | _ => false
  end.

Lemma run_needs (c : ascii) (r : regex) :
  needs c r = true ->
  forall st k out, run r st k = Some out ->
  exists st' w, k st' = Some out /\ reaches st st' w /\ char_in c w = true.
Proof.
  induction r as [ | s | p | a IHa b IHb | a IHa b IHb | g a IHa | n a IHa
                 | a IHa | | | ]; intros Hn st k out H; simpl in Hn;
    try discriminate.
  - simpl in H. destruct (starts_with s (rest st)) eqn:E; [|discriminate].
    eexists _, s. split; [exact H|]. split; [|exact Hn].
    split; simpl; [|reflexivity]. now apply starts_with_inv.
  - simpl in H. apply orb_true_iff in Hn as [Hn|Hn].
    + apply (IHa Hn) in H as (st1 & w1 & H & R1 & C1).
      apply run_sound in H as (st2 & w2 & H & R2).
      exists st2, (w1 ++ w2). split; [exact H|].
      split; [eapply reaches_trans; eauto|].
      rewrite char_in_app, C1. reflexivity.
    + apply run_sound in H as (st1 & w1 & H & R1).
      apply (IHb Hn) in H as (st2 & w2 & H & R2 & C2).
      exists st2, (w1 ++ w2). split; [exact H|].
      split; [eapply reaches_trans; eauto|].
      rewrite char_in_app, C2. apply orb_true_r.
  - simpl in H. apply andb_true_iff in Hn as [Ha Hb].
    destruct (run a st k) as [o|] eqn:E.
    + injection H as <-. now apply IHa.
    + now apply IHb.
  - simpl in H. apply (IHa Hn) in H as (st1 & w1 & H & R1 & C1).
    eexists _, w1. split; [exact H|]. split; [exact R1 | exact C1].
Qed.

Lemma match_here_needs (c : ascii) (r : regex) adv (before after : str) :
  needs c r = true -> char_in c after = false ->
  match_here r adv before after = None.
Proof.
  intros Hn Hc. unfold match_here.
  destruct (run r _ _) as [st|] eqn:E; [|reflexivity].
  apply (@run_needs c r Hn) in E as (st' & w & _ & [R _] & C).
  simpl in R. rewrite R, char_in_app, C in Hc. discriminate.
Qed.

Lemma char_in_skipn_false (c : ascii) (s : str) (i : nat) :
  char_in c s = false -> char_in c (skipn i s) = false.
Proof.
  intros H. rewrite <- (firstn_skipn i s), char_in_app in H.
  now apply orb_false_iff in H.
Qed.

(** A scan of a text without [c] finds no match. *)
Lemma scan_needs (c : ascii) (r : regex) (s : str) :
  needs c r = true -> char_in c s = false -> scan r s = map Txt s.
Proof.
  intros Hn Hc. apply search_none. intros i _.
  apply (@match_here_needs c r); trivial. now apply char_in_skipn_false.
Qed.

Lemma whole_map_Txt (s : str) : whole (map Txt s) = s.
Proof. induction s as [|a s IH]; simpl; [reflexivity|]. unfold whole in *. simpl. now rewrite IH. Qed.

Lemma sub_pieces_map_Txt (f : rmatch -> str) (s : str) :
  sub_pieces f (map Txt s) = s.
Proof. induction s as [|a s IH]; simpl; congruence. Qed.

Lemma sub_pieces_res_map_Txt (f : rmatch -> res str) (s : str) :
  sub_pieces_res f (map Txt s) = Ok s.
Proof. induction s as [|a s IH]; simpl; [reflexivity|]. now rewrite IH. Qed.

(** The literal text that every match of the pattern begins with. *)
Fixpoint head_lit (r : regex) : str :=
  match r with
  | Lit s => s
  | Grp _ a => head_lit a
  | Seq a b =>
      match a with
      | Lit s => s ++ head_lit b
      | Eps | Bol | Eol | WordB => head_lit b
      | _ => head_lit a
      end
  | _ => []
  end.

Lemma starts_with_nil (s : str) : starts_with [] s = true.
Proof. now destruct s. Qed.

Lemma starts_with_join (a b s : str) :
  starts_with a s = true -> starts_with b (skipn (length a) s) = true ->
  starts_with (a ++ b) s = true.
Proof.
  revert s. induction a as [|x a IH]; intros s Ha Hb; [exact Hb|].
  destruct s as [|y s]; [discriminate|].
  simpl in *. apply andb_true_iff in Ha as [-> Ha]. now apply IH.
Qed.

Lemma run_head_lit (r : regex) :
  forall st k out, run r st k = Some out ->
  starts_with (head_lit r) (rest st) = true.
Proof.
  induction r as [ | s | p | a IHa b IHb | a IHa b IHb | g a IHa | n a IHa
                 | a IHa | | | ]; intros st k out H;
    try (apply starts_with_nil).
  - simpl in *. now destruct (starts_with s (rest st)).
  - assert (Ha : starts_with (head_lit a) (rest st) = true).
    { cbn [run] in H. now apply IHa in H. }
    destruct a; cbn [head_lit]; try exact Ha; cbn [run] in H.
    + now apply IHb in H.
    + destruct (starts_with s (rest st)) eqn:E; [|discriminate].
      apply IHb in H. cbn [rest] in H. now apply starts_with_join.
    + destruct (at_bol st); [|discriminate]. now apply IHb in H.
    + destruct (at_eol st); [|discriminate]. now apply IHb in H.
    + destruct (at_wordb st); [|discriminate]. now apply IHb in H.
  - cbn [head_lit]. cbn [run] in H. now apply IHa in H.
Qed.

Lemma match_here_head_lit (r : regex) adv (before after : str) :
  starts_with (head_lit r) after = false ->
  match_here r adv before after = None.
Proof.
  intros Hs. unfold match_here.
  destruct (run r _ _) as [st|] eqn:E; [|reflexivity].
  apply run_head_lit in E. simpl in E. congruence.
Qed.

(** A scan of a text in which that literal does not occur finds no
    match. *)
Lemma scan_head_lit (r : regex) (s : str) :
  first_occ (head_lit r) s = None -> scan r s = map Txt s.
Proof.
  intros H. apply search_none. intros i _.
  apply match_here_head_lit. now apply first_occ_none.
Qed.

(** What a substitution does where the scan finds no match. *)
Lemma remove_untouched (r : regex) (s : str) :
  scan r s = map Txt s -> remove r s = s.
Proof. intros H. unfold remove, sub_fun. rewrite H. apply sub_pieces_map_Txt. Qed.

Lemma sub_fun_untouched (r : regex) (f : rmatch -> str) (s : str) :
  scan r s = map Txt s -> sub_fun r f s = s.
Proof. intros H. unfold sub_fun. rewrite H. apply sub_pieces_map_Txt. Qed.

Lemma sub_res_untouched (r : regex) (f : rmatch -> res str) (s : str) :
  scan r s = map Txt s -> sub_res r f s = Ok s.
Proof. intros H. unfold sub_res. rewrite H. apply sub_pieces_res_map_Txt. Qed.

(** A template that the compiler accepts. *)
Definition template_ok (groups : nat) (repl : str) : bool :=
  negb (char_in bsl repl)
  || match parse_template (length repl) groups repl with
     | Ok _ => true
     | _ => false
     end.

Lemma sub_untouched (groups : nat) (r : regex) (repl s : str) :
  template_ok groups repl = true ->
  scan r s = map Txt s -> sub groups r repl s = Ok s.
Proof.
  intros Ht H. unfold sub, template_ok in *.
  destruct (negb (char_in bsl repl)).
  - now rewrite sub_fun_untouched.
  - simpl in Ht. destruct (parse_template _ _ _) as [items| |]; try discriminate.
    cbn [bind]. now rewrite sub_fun_untouched.
Qed.

Lemma search_untouched (r : regex) (s : str) :
  scan r s = map Txt s -> search r s = None.
Proof. intros H. unfold search, finditer. now rewrite H, hits_map_Txt. Qed.

Lemma finditer_untouched (r : regex) (s : str) :
  scan r s = map Txt s -> finditer r s = [].
Proof. intros H. unfold finditer. now rewrite H, hits_map_Txt. Qed.

End Untouched.

(* ================================================================== *)
(** ** Plain text in the pipeline *)
(* ================================================================== *)

Section PlainText.

Import Re Preprocessor PyMore Pipeline.

(** Text without a backslash: no command at all. *)
Definition plain (s : str) : Prop := char_in bsl s = false.

Lemma char_in_rev (c : ascii) (s : str) : char_in c (rev s) = char_in c s.
Proof.
  induction s as [|a s IH]; [reflexivity|].
  simpl rev. rewrite char_in_app, IH. unfold char_in. simpl.
  now rewrite orb_false_r, orb_comm.
Qed.

Lemma char_in_lstrip (c : ascii) (s : str) :
  char_in c s = false -> char_in c (lstrip s) = false.
Proof.
  induction s as [|a s IH]; intros H; [reflexivity|].
  simpl. destruct (is_space a); [|exact H].
  apply IH. unfold char_in in *. simpl in H. now apply orb_false_iff in H.
Qed.

Lemma char_in_strip (c : ascii) (s : str) :
  char_in c s = false -> char_in c (strip s) = false.
Proof.
  intros H. unfold strip. rewrite char_in_rev. apply char_in_lstrip.
  rewrite char_in_rev. now apply char_in_lstrip.
Qed.

Lemma first_occ_needs (c : ascii) (old s : str) :
  char_in c old = true -> char_in c s = false -> first_occ old s = None.
Proof.
  intros Ho Hs. destruct (first_occ old s) as [k|] eqn:E; [|reflexivity].
  apply first_occ_here, starts_with_inv in E.
  apply (@char_in_skipn_false c s k) in Hs.
  rewrite E, char_in_app, Ho in Hs. discriminate.
Qed.

(** *** Lines *)

Lemma split_on_go_cons (sep : ascii) (s cur : str) :
  exists l ls, split_on_go sep s cur = l :: ls.
Proof.
  revert cur. induction s as [|c s IH]; intros cur; simpl; [eauto|].
  destruct (Ascii.eqb c sep); eauto.
Qed.

Lemma join_split_on_go (sep : ascii) (s cur : str) :
  join [sep] (split_on_go sep s cur) = rev cur ++ s.
Proof.
  revert cur. induction s as [|c s IH]; intros cur; simpl.
  - now rewrite app_nil_r.
  - destruct (Ascii.eqb c sep) eqn:E.
    + apply Ascii.eqb_eq in E. subst c.
      destruct (split_on_go_cons sep s []) as (l & ls & Hl).
      specialize (IH []). rewrite Hl in *.
      change (join [sep] (rev cur :: l :: ls))
        with (rev cur ++ [sep] ++ join [sep] (l :: ls)).
      rewrite IH. reflexivity.
    + rewrite IH. simpl. now rewrite <- app_assoc.
Qed.

(** Joining the lines of a text gives the text back. *)
Lemma join_split_on (sep : ascii) (s : str) :
  join [sep] (split_on sep s) = s.
Proof. unfold split_on. now rewrite join_split_on_go. Qed.

Lemma split_on_go_chars (c sep : ascii) (s cur : str) :
  char_in c s = false -> char_in c cur = false ->
  Forall (fun l => char_in c l = false) (split_on_go sep s cur).
Proof.
  revert cur. induction s as [|a s IH]; intros cur Hs Hc; simpl.
  - constructor; [now rewrite char_in_rev | constructor].
  - unfold char_in in Hs. simpl in Hs. apply orb_false_iff in Hs as [Ha Hs].
    destruct (Ascii.eqb a sep).
    + constructor; [now rewrite char_in_rev | now apply IH].
    + apply IH; trivial. unfold char_in. simpl. now rewrite Ha.
Qed.

Lemma dedupe_plain (lines seen : list str) :
  Forall plain lines -> dedupe lines seen = lines.
Proof.
  induction 1 as [|line lines Hl _ IH]; [reflexivity|].
  cbn [dedupe]. unfold rematch.
  rewrite (@match_here_needs bsl) by (trivial; now apply char_in_strip).
  now rewrite IH.
Qed.

Lemma fold_left_same {A B : Type} (f : A -> B -> A) (l : list B) (a : A) :
  (forall b, f a b = a) -> fold_left f l a = a.
Proof. intros H. induction l as [|b l IH]; simpl; [reflexivity|]. now rewrite H. Qed.

(** *** The stages *)

Lemma step_to {A B : Type} (f : A -> B) (x c : A) (d : B) :
  x = c -> f c = d -> f x = d.
Proof. now intros ->. Qed.

Lemma bind_to {A B : Type} (x : res A) (k : A -> res B) (c : A) (d : res B) :
  x = Ok c -> k c = d -> bind x k = d.
Proof. now intros ->. Qed.

Ltac untouched_side :=
  match goal with
  | |- template_ok _ _ = true => vm_compute; reflexivity
  | |- scan _ _ = map Txt _ =>
      first [ apply (@scan_needs bsl); [reflexivity | assumption]
            | apply (@scan_needs "]"%char); [reflexivity | assumption] ]
  | |- first_occ _ _ = None =>
      apply (@first_occ_needs bsl); [reflexivity | assumption]
  | |- _ <> [] => discriminate
  end.

(** One step of a stage on a text it cannot match. *)
Ltac untouched_step :=
  lazymatch goal with
  | |- remove _ _ = _ => apply remove_untouched; untouched_side
  | |- sub_fun _ _ _ = _ => apply sub_fun_untouched; untouched_side
  | |- sub _ _ _ _ = _ => apply sub_untouched; untouched_side
  | |- replace _ _ _ = _ => apply replace_none; untouched_side
  end.

(** A stage, from its last step back to its first. *)
Ltac untouched c :=
  cbv beta;
  lazymatch goal with
  | |- Ok ?x = Ok _ => apply (@step_to _ _ (@Ok str) x c); [untouched c | reflexivity]
  | |- bind ?x ?k = _ => apply (@bind_to _ _ x k c); [untouched c | untouched c]
  | |- remove ?r ?x = _ =>
      apply (@step_to _ _ (remove r) x c); [untouched c | untouched_step]
  | |- sub_fun ?r ?f ?x = _ =>
      apply (@step_to _ _ (sub_fun r f) x c); [untouched c | untouched_step]
  | |- sub ?g ?r ?t ?x = _ =>
      apply (@step_to _ _ (sub g r t) x c); [untouched c | untouched_step]
  | |- replace ?x ?o ?n = _ =>
      apply (@step_to _ _ (fun s => replace s o n) x c); [untouched c | untouched_step]
  | |- ?y = ?y => reflexivity
  | |- _ => idtac
  end.

Lemma problematic_plain (content : str) :
  plain content ->
  fold_left (fun content pkg => remove (problematic_re pkg) content)
            problematic content = content.
Proof.
  unfold plain. intros H. apply fold_left_same. intros pkg.
  apply remove_untouched, (@scan_needs bsl); [reflexivity | assumption].
Qed.

Lemma dedupe_lines_plain (content : str) :
  plain content -> join [nl] (dedupe (split_on nl content) []) = content.
Proof.
  intros H. rewrite dedupe_plain by (now apply split_on_go_chars).
  apply join_split_on.
Qed.

Lemma remove_all_plain (pats : list regex) (content : str) :
  plain content -> forallb (needs bsl) pats = true ->
  remove_all pats content = content.
Proof.
  unfold plain, remove_all. intros H.
  induction pats as [|r pats IH]; intros Hp; [reflexivity|].
  simpl in Hp. apply andb_true_iff in Hp as [Hr Hp]. cbn [fold_left].
  rewrite remove_untouched by (now apply (@scan_needs bsl)).
  now apply IH.
Qed.

Lemma strip_preamble_plain (content : str) :
  plain content -> _strip_preamble content = content.
Proof.
  intros H. pose proof H as H'. unfold plain in H'.
  unfold _strip_preamble. cbv zeta.
  untouched content.
  apply (@step_to _ _ (remove_all layout_cmds) _ content);
    [|now apply remove_all_plain].
  apply (@step_to _ _ (fun s => join [nl] (dedupe (split_on nl s) [])) _ content);
    [|now apply dedupe_lines_plain].
  apply (@step_to _ _ (fold_left (fun content pkg => remove (problematic_re pkg) content)
                                 problematic) _ content);
    [|now apply problematic_plain].
  untouched content.
Qed.

Lemma strip_conference_commands_plain (content : str) (meta : PaperMetadata) :
  plain content -> char_in "]" content = false ->
  _strip_conference_commands content meta = content.
Proof.
  unfold plain. intros H Hb. unfold _strip_conference_commands, strip_twocolumn.
  cbv zeta. untouched content.
Qed.

Lemma convert_theorems_plain (content : str) :
  plain content -> convert_theorems theorem_envs content = Ok content.
Proof.
  unfold plain. intros H. unfold theorem_envs. cbn [convert_theorems].
  untouched content.
Qed.

Lemma convert_environments_plain (content : str) :
  plain content -> _convert_environments content = Ok content.
Proof.
  intros H. pose proof H as H'. unfold plain in H'.
  unfold _convert_environments. cbv zeta.
  untouched content.
  apply (@step_to _ _ (convert_theorems theorem_envs) _ content);
    [|now apply convert_theorems_plain].
  untouched content.
Qed.

Lemma expand_simple_macros_plain (content : str) :
  plain content -> _expand_simple_macros content = Ok content.
Proof.
  unfold plain. intros H. unfold _expand_simple_macros, collect_macros.
  rewrite finditer_untouched by untouched_side.
  cbn [fold_left]. cbv zeta. cbn [expand_macros].
  untouched content.
Qed.

Lemma final_cleanup_plain (content : str) :
  plain content -> first_occ [nl; nl; nl] content = None ->
  _final_cleanup content = Ok content.
Proof.
  intros H Hn. pose proof H as H'. unfold plain in H'.
  unfold _final_cleanup. cbv zeta.
  apply (@bind_to _ _ _ _ content); [untouched content|]. cbv beta.
  apply (@bind_to _ _ _ _ content).
  { apply (@step_to _ _ (sub 0 cref_re (txt "\\ref{")) _ content);
      [|untouched_step].
    apply remove_all_plain; [exact H | reflexivity]. }
  cbv beta.
  apply (@bind_to _ _ _ _ content); [|reflexivity].
  apply sub_untouched; [reflexivity|]. now apply scan_head_lit.
Qed.

Lemma extract_metadata_plain (content : str) :
  plain content -> _extract_metadata content = Ok (Meta [] [] [] []).
Proof.
  unfold plain. intros H. unfold _extract_metadata, title_patterns.
  cbn [first_title].
  rewrite (@search_untouched icmltitle_re content) by untouched_side.
  rewrite (@search_untouched neurips_title_re content) by untouched_side.
  rewrite (@search_untouched title_re content) by untouched_side.
  cbn [bind]. unfold findall1.
  rewrite (@finditer_untouched icmlauthor_re content) by untouched_side.
  cbn [map].
  rewrite (@search_untouched author_re content) by untouched_side.
  rewrite (@search_untouched abstract_re content) by untouched_side.
  reflexivity.
Qed.

Lemma rebuild_document_plain (content : str) :
  plain content ->
  _rebuild_document content (Meta [] [] [] [])
  = preamble0 ++ [nl] ++ begin_document ++ [nl] ++ content
    ++ [nl] ++ end_document ++ [nl].
Proof.
  unfold plain. intros H. unfold _rebuild_document, document_body.
  rewrite (@search_untouched document_re content) by untouched_side.
  cbn [title authors nonempty]. cbv zeta. now rewrite <- !app_assoc.
Qed.

Section FileSystem.

Variable path : Type.
Variable joinpath : path -> str -> path.
Variable parent : path -> path.
Variable name : path -> str.
Variable exists_ : path -> option bool.
Variable read_text : path -> option str.
Variable glob_bib : path -> list path.
Variable suffix : str -> str.

Lemma resolve_includes_plain (content : str) (work_dir : path) (fuel : nat) :
  plain content ->
  _resolve_includes joinpath parent exists_ read_text (S fuel) content work_dir 0
  = Ok content.
Proof.
  unfold plain. intros H. cbn [_resolve_includes]. cbn [Z.gtb Z.compare].
  rewrite sub_res_untouched
    by (apply (@scan_needs bsl); [reflexivity | assumption]).
  cbn [bind].
  now rewrite sub_res_untouched
    by (apply (@scan_needs bsl); [reflexivity | assumption]).
Qed.

Lemma fix_image_paths_plain (content : str) (work_dir : path) :
  plain content ->
  _fix_image_paths joinpath exists_ suffix content work_dir = Ok content.
Proof.
  unfold plain. intros H. unfold _fix_image_paths.
  now rewrite sub_res_untouched
    by (apply (@scan_needs bsl); [reflexivity | assumption]).
Qed.

Lemma prepare_bibliography_plain (content : str) (work_dir : path) :
  plain content ->
  _prepare_bibliography joinpath name exists_ glob_bib content work_dir
  = Ok content.
Proof.
  unfold plain. intros H. unfold _prepare_bibliography, bib_lookup.
  rewrite search_untouched
    by (apply (@scan_needs bsl); [reflexivity | assumption]).
  cbn [bind].
  now rewrite remove_untouched
    by (apply (@scan_needs bsl); [reflexivity | assumption]).
Qed.

(** X4. A main file of plain text -- no backslash, no closing bracket,
    no more than one blank line in a row -- comes out of the pipeline as
    the body of the rebuilt document, unchanged, with empty metadata: no
    stage touches text that holds no command. *)
Theorem preprocess_plain_text :
  forall (tex_path : path) (content : str) (fuel : nat),
    read_text tex_path = Some content ->
    plain content ->
    char_in "]" content = false ->
    first_occ [nl; nl; nl] content = None ->
    preprocess joinpath parent name exists_ read_text glob_bib suffix
               (S fuel) tex_path
    = Ok (preamble0 ++ [nl] ++ begin_document ++ [nl] ++ content
            ++ [nl] ++ end_document ++ [nl],
          Meta [] [] [] []).
Proof.
  intros tex_path content fuel Hr Hp Hb Hn. unfold preprocess. rewrite Hr.
  rewrite resolve_includes_plain by exact Hp. cbn [bind].
  rewrite extract_metadata_plain by exact Hp. cbn [bind].
  rewrite strip_preamble_plain by exact Hp.
  rewrite strip_conference_commands_plain by trivial.
  rewrite convert_environments_plain by exact Hp. cbn [bind].
  rewrite expand_simple_macros_plain by exact Hp. cbn [bind].
  rewrite fix_image_paths_plain by exact Hp. cbn [bind].
  rewrite prepare_bibliography_plain by exact Hp. cbn [bind].
  rewrite final_cleanup_plain by trivial. cbn [bind].
  now rewrite rebuild_document_plain.
Qed.

End FileSystem.

(** A directory [paper] of three files: [main.tex] and [intro.tex] hold
    plain text, [reals.tex] defines a macro. The file system refuses a
    name of more than 255 characters. No name is asked for with a
    suffix. *)
Definition paper_join (dir filename : str) : str := dir ++ txt "/" ++ filename.
Definition paper_parent (_ : str) : str := txt "paper".
Definition paper_name (p : str) : str := skipn 6 p.
Definition paper_read (p : str) : option str :=
  if str_eqb p (txt "paper/main.tex") then Some (txt "Forests are sets of trees.")
  else if str_eqb p (txt "paper/intro.tex") then Some (txt "Trees are graphs.")
  else if str_eqb p (txt "paper/reals.tex")
  then Some (txt "\newcommand{\R}{\mathbb{R}}" ++ [nl] ++ txt "Let $x \in \R$.")
  else None.
Definition paper_exists (p : str) : option bool :=
  if 255 <? length (paper_name p) then None
  else Some (match paper_read p with Some _ => true | None => false end).
Definition paper_glob (_ : str) : list str := [].
Definition paper_suffix (_ : str) : str := [].

Lemma preprocess_plain_text_witness :
  preprocess paper_join paper_parent paper_name paper_exists paper_read
             paper_glob paper_suffix 1 (txt "paper/main.tex")
  = Ok (preamble0 ++ [nl] ++ begin_document ++ [nl]
          ++ txt "Forests are sets of trees."
          ++ [nl] ++ end_document ++ [nl],
        Meta [] [] [] []).
Proof.
  apply (@preprocess_plain_text str paper_join paper_parent paper_name
           paper_exists paper_read paper_glob paper_suffix
           (txt "paper/main.tex") (txt "Forests are sets of trees.") 0);
    reflexivity.
Defined.

End PlainText.

(* ================================================================== *)
(** ** Patterns that match runs of one kind of character *)
(* ================================================================== *)

Section Runs.

Import Re PyMore.

(** The length of the run of [p] characters that [s] begins with. *)
Fixpoint run_len (p : ascii -> bool) (s : str) : nat :=
  match s with
  | c :: s' => if p c then S (run_len p s') else 0
  | [] => 0
  end.

(** [s] with every run of at least [least] characters of [p] replaced by
    [new]. [skip] counts the characters of a run still to drop. *)
Fixpoint sub_runs (p : ascii -> bool) (least : nat) (new s : str) (skip : nat)
  : str :=
  match s with
  | [] => []
  | c :: s' =>
      match skip with
      | S k => sub_runs p least new s' k
      | 0 =>
          let n := run_len p s in
          if least <=? n then new ++ sub_runs p least new s' (n - 1)
          else c :: sub_runs p least new s' 0
      end
  end.

(** [k] times [a], then [a] as often as it goes: [a{k,}] *)
Fixpoint at_least (k : nat) (a : regex) : regex :=
  match k with
  | 0 => Star true a
  | S k' => Seq a (at_least k' a)
  end.

(** The pattern [a] matches one character of [p]. *)
Definition one_char (a : regex) (p : ascii -> bool) : Prop :=
  forall st k, run a st k = run (Cls p) st k.

Lemma one_char_cls (p : ascii -> bool) : one_char (Cls p) p.
Proof. now intros st k. Qed.

Lemma one_char_lit (c : ascii) : one_char (Lit [c]) (Ascii.eqb c).
Proof.
  intros [sn [|x tl] cp] k; cbn [run rest seen caps starts_with]; [reflexivity|].
  rewrite andb_true_r. destruct (Ascii.eqb c x) eqn:E; [|reflexivity].
  apply Ascii.eqb_eq in E. now subst x.
Qed.

Lemma run_len_split (p : ascii -> bool) (s : str) :
  s = firstn (run_len p s) s ++ skipn (run_len p s) s
  /\ forallb p (firstn (run_len p s) s) = true
  /\ match skipn (run_len p s) s with [] => true | c :: _ => negb (p c) end = true
  /\ length (firstn (run_len p s) s) = run_len p s.
Proof.
  induction s as [|c s (IH1 & IH2 & IH3 & IH4)]; [now repeat split|].
  simpl. destruct (p c) eqn:E.
  - simpl. rewrite E, IH2, IH4. repeat split; trivial. now rewrite <- IH1.
  - simpl. now rewrite E.
Qed.

Lemma star_greedy_chars (a : regex) (p : ascii -> bool) k (tl : str)
  (cp : list (nat * str)) out :
  one_char a p ->
  match tl with [] => true | c :: _ => negb (p c) end = true ->
  forall (x sn : str) (fuel : nat),
    length x <= fuel ->
    forallb p x = true ->
    k (MState (rev x ++ sn) tl cp) = Some out ->
    star_loop true (run a) k fuel (MState sn (x ++ tl) cp) = Some out.
Proof.
  intros Ha Htl. induction x as [|c x IH]; intros sn fuel Hf Hp Hk.
  - destruct fuel; simpl in *; [exact Hk|].
    rewrite Ha. cbn [run rest].
    destruct tl as [|c tl]; [exact Hk|].
    apply negb_true_iff in Htl. now rewrite Htl.
  - destruct fuel as [|fuel]; [simpl in Hf; lia|].
    simpl in Hp. apply andb_true_iff in Hp as [Hc Hp].
    rewrite <- app_comm_cons.
    cbn [star_loop]. rewrite Ha. cbn [run rest seen caps]. rewrite Hc.
    replace (length (x ++ tl) <? length (c :: x ++ tl)) with true
      by (symmetry; apply Nat.ltb_lt; simpl; lia).
    rewrite IH; trivial.
    + simpl in Hf; lia.
    + simpl in Hk. now rewrite <- app_assoc in Hk.
Qed.

(** On a run of [x] followed by [tl], the pattern takes all of [x]. *)
Lemma at_least_run (a : regex) (p : ascii -> bool) K (tl : str)
  (cp : list (nat * str)) out :
  one_char a p ->
  match tl with [] => true | c :: _ => negb (p c) end = true ->
  forall (k : nat) (x sn : str),
    k <= length x -> forallb p x = true ->
    K (MState (rev x ++ sn) tl cp) = Some out ->
    run (at_least k a) (MState sn (x ++ tl) cp) K = Some out.
Proof.
  intros Ha Htl. induction k as [|k IH]; intros x sn Hk Hp HK.
  - cbn [at_least run rest]. apply (@star_greedy_chars a p K tl cp out Ha Htl); trivial.
    rewrite length_app. lia.
  - destruct x as [|c x]; [simpl in Hk; lia|].
    simpl in Hp. apply andb_true_iff in Hp as [Hc Hp].
    cbn [at_least run]. rewrite Ha. rewrite <- app_comm_cons.
    cbn [run rest seen caps]. rewrite Hc.
    apply IH; trivial.
    + simpl in Hk. lia.
    + simpl in HK. now rewrite <- app_assoc in HK.
Qed.

Lemma at_least_short (a : regex) (p : ascii -> bool) K (tl : str)
  (cp : list (nat * str)) :
  one_char a p ->
  match tl with [] => true | c :: _ => negb (p c) end = true ->
  forall (k : nat) (x sn : str),
    length x < k -> forallb p x = true ->
    run (at_least k a) (MState sn (x ++ tl) cp) K = None.
Proof.
  intros Ha Htl. induction k as [|k IH]; intros x sn Hk Hp; [lia|].
  cbn [at_least run]. rewrite Ha.
  destruct x as [|c x].
  - cbn [app run rest]. destruct tl as [|c tl]; [reflexivity|].
    apply negb_true_iff in Htl. now rewrite Htl.
  - simpl in Hp. apply andb_true_iff in Hp as [Hc Hp].
    rewrite <- app_comm_cons. cbn [run rest seen caps]. rewrite Hc.
    apply IH; trivial. simpl in Hk. lia.
Qed.

(** What an attempt of such a pattern gives at any position. *)
Lemma match_here_at_least (a : regex) (p : ascii -> bool) (k : nat)
  (before after : str) :
  one_char a p ->
  match match_here (at_least k a) false before after with
  | Some (m, n) => n = run_len p after /\ k <= n
  | None => run_len p after < k
  end.
Proof.
  intros Ha.
  destruct (run_len_split p after) as (Hs & Hp & Ht & Hl).
  rewrite <- Hl.
  set (x := firstn (run_len p after) after) in *.
  set (tl := skipn (run_len p after) after) in *.
  clearbody x tl. clear Hl. subst after.
  unfold match_here.
  destruct (le_lt_dec k (length x)) as [Hk|Hk].
  - rewrite (@at_least_run a p _ tl [] (MState (rev x ++ before) tl []) Ha Ht k x before);
      trivial.
    unfold consumed. cbn [rest]. rewrite length_app. split; lia.
  - rewrite (@at_least_short a p _ tl [] Ha Ht k x before); trivial.
Qed.

(** The substitution, read as the rewriting of runs. *)
Lemma sub_fun_at_least (a : regex) (p : ascii -> bool) (k : nat) (new : str) :
  one_char a p -> 0 < k ->
  forall (s before : str) (skip : nat),
    sub_pieces (fun _ => new) (scan_go (at_least k a) before s skip)
    = sub_runs p k new s skip.
Proof.
  intros Ha Hk. induction s as [|c s IH]; intros before skip.
  - destruct skip; [|reflexivity]. cbn [scan_go sub_runs]. unfold hits_at.
    pose proof (@match_here_at_least a p k before [] Ha) as H.
    destruct (match_here _ _ _ _) as [[m n]|]; [|reflexivity].
    simpl in H. lia.
  - destruct skip as [|skip]; [|cbn [scan_go sub_runs]; apply IH].
    cbn [scan_go sub_runs]. unfold hits_at.
    pose proof (@match_here_at_least a p k before (c :: s) Ha) as H.
    destruct (match_here _ _ _ _) as [[m n]|].
    + destruct H as [-> Hn].
      destruct (run_len p (c :: s)) as [|n] eqn:E; [lia|].
      cbn [map app sub_pieces].
      replace (k <=? S n) with true by (symmetry; apply Nat.leb_le; lia).
      rewrite IH. now replace (S n - 1) with n by lia.
    + replace (k <=? run_len p (c :: s)) with false
        by (symmetry; apply Nat.leb_gt; lia).
      cbn [map app sub_pieces]. now rewrite IH.
Qed.

Lemma sub_fun_runs (a : regex) (p : ascii -> bool) (k : nat) (new s : str) :
  one_char a p -> 0 < k ->
  sub_fun (at_least k a) (fun _ => new) s = sub_runs p k new s 0.
Proof. intros Ha Hk. unfold sub_fun, scan. now apply sub_fun_at_least. Qed.

(** *** What the rewriting of runs leaves *)

Lemma sub_runs_skip (p : ascii -> bool) (least : nat) (new : str) :
  forall (s : str) (k : nat),
    sub_runs p least new s k = sub_runs p least new (skipn k s) 0.
Proof.
  induction s as [|c s IH]; intros [|k]; trivial. simpl. apply IH.
Qed.

(** The two cases at the beginning of a text. *)
Lemma sub_runs_step (p : ascii -> bool) (least : nat) (new : str) (c : ascii)
  (s : str) :
  0 < least ->
  sub_runs p least new (c :: s) 0 =
  if least <=? run_len p (c :: s)
  then new ++ sub_runs p least new (skipn (run_len p (c :: s)) (c :: s)) 0
  else c :: sub_runs p least new s 0.
Proof.
  intros Hl. cbn [sub_runs].
  destruct (least <=? run_len p (c :: s)) eqn:E; [|reflexivity].
  apply Nat.leb_le in E. rewrite sub_runs_skip.
  destruct (run_len p (c :: s)) as [|n]; [lia|].
  now replace (S n - 1) with n by lia.
Qed.

(** Every run of [p] in [s] is shorter than [bound]. *)
Fixpoint runs_below (p : ascii -> bool) (bound : nat) (s : str) : Prop :=
  match s with
  | [] => True
  | _ :: s' => run_len p s < bound /\ runs_below p bound s'
  end.

Lemma runs_below_app_run (p : ascii -> bool) (bound : nat) (x tl : str) :
  forallb p x = true -> length x < bound ->
  match tl with [] => true | c :: _ => negb (p c) end = true ->
  runs_below p bound tl -> runs_below p bound (x ++ tl).
Proof.
  intros Hp Hl Ht Hb. induction x as [|c x IH]; [exact Hb|].
  simpl in Hp. apply andb_true_iff in Hp as [Hc Hp]. simpl in Hl.
  cbn [app runs_below]. split; [|apply IH; trivial; lia].
  clear IH. revert Hl. generalize bound.
  cbn [run_len]. rewrite Hc.
  induction x as [|d x IHx]; intros b Hl.
  - cbn [app]. destruct tl as [|e tl]; cbn [run_len]; [simpl in Hl; lia|].
    apply negb_true_iff in Ht. rewrite Ht. simpl in Hl. lia.
  - simpl in Hp. apply andb_true_iff in Hp as [Hd Hp].
    cbn [app run_len]. rewrite Hd. simpl in Hl.
    specialize (IHx Hp (pred b)). lia.
Qed.

(** A run too short to be rewritten is kept. *)
Lemma sub_runs_kept (p : ascii -> bool) (least : nat) (new : str) :
  0 < least ->
  forall s : str,
    run_len p s < least ->
    run_len p (sub_runs p least new s 0) = run_len p s.
Proof.
  intros Hl. induction s as [|c s IH]; intros Hs; [reflexivity|].
  rewrite sub_runs_step by exact Hl.
  replace (least <=? run_len p (c :: s)) with false
    by (symmetry; apply Nat.leb_gt; exact Hs).
  cbn [run_len] in *. destruct (p c); [|reflexivity].
  f_equal. apply IH. lia.
Qed.

(** After the rewriting no run is as long as [bound], when the kept runs
    (shorter than [least]) and the replacement are shorter. *)
Lemma sub_runs_below (p : ascii -> bool) (least bound : nat) (new : str) :
  0 < least -> least <= bound ->
  forallb p new = true -> length new < bound ->
  forall (n : nat) (s : str), length s <= n ->
    runs_below p bound (sub_runs p least new s 0).
Proof.
  intros Hl Hb Hn Hnl. induction n as [|n IH]; intros s Hs.
  - destruct s; [exact I | simpl in Hs; lia].
  - destruct s as [|c s]; [exact I|].
    destruct (Nat.leb_spec least (run_len p (c :: s))) as [E|E].
    + rewrite sub_runs_step by exact Hl.
      replace (least <=? run_len p (c :: s)) with true
        by (symmetry; apply Nat.leb_le; exact E).
      destruct (run_len_split p (c :: s)) as (Hsp & Hp & Ht & Hlen).
      assert (Hrest : length (skipn (run_len p (c :: s)) (c :: s)) <= n).
      { rewrite length_skipn. cbn [length] in Hs |- *. lia. }
      apply runs_below_app_run; trivial; [|now apply IH].
      destruct (skipn (run_len p (c :: s)) (c :: s)) as [|d tl] eqn:Ed;
        [reflexivity|].
      assert (H0 : run_len p (d :: tl) = 0).
      { cbn [run_len]. apply negb_true_iff in Ht. now rewrite Ht. }
      pose proof (@sub_runs_kept p least new Hl (d :: tl)) as K.
      rewrite H0 in K. specialize (K Hl).
      destruct (sub_runs p least new (d :: tl) 0) as [|e out]; [reflexivity|].
      cbn [run_len] in K. destruct (p e); [discriminate | reflexivity].
    + pose proof (@sub_runs_kept p least new Hl (c :: s) E) as K.
      rewrite sub_runs_step in * by exact Hl.
      replace (least <=? run_len p (c :: s)) with false in *
        by (symmetry; apply Nat.leb_gt; exact E).
      cbn [runs_below]. split; [lia|].
      apply IH. simpl in Hs. lia.
Qed.

(** With [least = 1] every character of [p] that is left comes from the
    replacement. *)
Lemma sub_runs_chars (p : ascii -> bool) (new : str) :
  forall (n : nat) (s : str), length s <= n ->
    forall c, In c (sub_runs p 1 new s 0) -> p c = true -> In c new.
Proof.
  induction n as [|n IH]; intros s Hs c Hin Hc.
  - destruct s; [destruct Hin | simpl in Hs; lia].
  - destruct s as [|d s]; [destruct Hin|].
    rewrite sub_runs_step in Hin by lia.
    destruct (Nat.leb_spec 1 (run_len p (d :: s))) as [E|E].
    + apply in_app_or in Hin as [Hin|Hin]; [exact Hin|].
      apply (IH (skipn (run_len p (d :: s)) (d :: s))); trivial.
      rewrite length_skipn. cbn [length] in Hs |- *. lia.
    + destruct Hin as [<-|Hin].
      * cbn [run_len] in E. rewrite Hc in E. lia.
      * apply (IH s); trivial. simpl in Hs. lia.
Qed.

(** Characters that are not of [p] stay, in their order. *)
Lemma sub_runs_others (p : ascii -> bool) (least : nat) (new : str) :
  0 < least -> forallb p new = true ->
  forall (n : nat) (s : str), length s <= n ->
    filter (fun c => negb (p c)) (sub_runs p least new s 0)
    = filter (fun c => negb (p c)) s.
Proof.
  intros Hl Hn. induction n as [|n IH]; intros s Hs.
  - destruct s; [reflexivity | simpl in Hs; lia].
  - destruct s as [|c s]; [reflexivity|].
    rewrite sub_runs_step by exact Hl.
    destruct (run_len_split p (c :: s)) as (Hsp & Hp & Ht & Hlen).
    destruct (Nat.leb_spec least (run_len p (c :: s))) as [E|E].
    + rewrite filter_app.
      assert (F : forall x, forallb p x = true ->
                            filter (fun c => negb (p c)) x = []).
      { induction x as [|a x IHx]; [reflexivity|]. simpl.
        intros H. apply andb_true_iff in H as [-> H]. simpl. now apply IHx. }
      rewrite (F new Hn). cbn [app].
      rewrite IH by (rewrite length_skipn; cbn [length] in Hs |- *; lia).
      replace (filter (fun c => negb (p c)) (c :: s))
        with (filter (fun c => negb (p c))
                (firstn (run_len p (c :: s)) (c :: s)
                 ++ skipn (run_len p (c :: s)) (c :: s)))
        by (now rewrite <- Hsp).
      now rewrite filter_app, (F _ Hp).
    + cbn [filter]. rewrite IH by (simpl in Hs; lia). reflexivity.
Qed.

End Runs.

(* ================================================================== *)
(** ** Blank lines after the final cleanup *)
(* ================================================================== *)

Section BlankLines.

Import Re Preprocessor PyMore Pipeline.

(** A template that the compiler accepts gives a substitution. *)
Lemma sub_total (groups : nat) (r : regex) (repl s : str) :
  template_ok groups repl = true ->
  exists f, sub groups r repl s = Ok (sub_fun r f s).
Proof.
  intros Ht. unfold sub, template_ok in *.
  destruct (negb (char_in bsl repl)); [eauto|].
  simpl in Ht. destruct (parse_template _ _ _) as [items| |]; try discriminate.
  cbn [bind]. eauto.
Qed.

Lemma starts_with_run_len (p : ascii -> bool) (l s : str) :
  forallb p l = true -> starts_with l s = true -> length l <= run_len p s.
Proof.
  revert s. induction l as [|a l IH]; intros s Hl Hs; [simpl; lia|].
  destruct s as [|b s]; [discriminate|].
  simpl in *. apply andb_true_iff in Hl as [Ha Hl].
  apply andb_true_iff in Hs as [Hab Hs].
  apply Ascii.eqb_eq in Hab. subst b. rewrite Ha.
  specialize (IH s Hl Hs). lia.
Qed.

(** Where every run is shorter than [l], a text of [p] characters as long
    as [l] does not occur. *)
Lemma runs_below_first_occ (p : ascii -> bool) (l s : str) :
  l <> [] -> forallb p l = true ->
  runs_below p (length l) s -> first_occ l s = None.
Proof.
  intros Hne Hl. induction s as [|c s IH]; intros Hb.
  - destruct l; [congruence | reflexivity].
  - destruct Hb as [Hc Hb]. cbn [first_occ].
    destruct (starts_with l (c :: s)) eqn:E.
    + apply (starts_with_run_len p _ _ Hl) in E. lia.
    + now rewrite IH.
Qed.

Lemma blank_lines_runs (s : str) :
  sub_fun blank_lines_re (fun _ => [nl; nl]) s
  = sub_runs (Ascii.eqb nl) 3 [nl; nl] s 0.
Proof.
  change blank_lines_re with (at_least 3 (Lit [nl])).
  apply sub_fun_runs; [apply one_char_lit | lia].
Qed.

(** X5. The final cleanup returns a text for every text, and in it no
    more than one blank line in a row: three newlines never follow each
    other. *)
Theorem final_cleanup_blank_lines :
  forall content : str,
    exists out,
      _final_cleanup content = Ok out
      /\ first_occ [nl; nl; nl] out = None.
Proof.
  intros content. unfold _final_cleanup.
  destruct (@sub_total 1 float_spec_re (txt "\1") content eq_refl) as [f1 ->].
  cbn [bind].
  set (c2 := remove_all removals _).
  destruct (@sub_total 0 cref_re (txt "\\ref{") c2 eq_refl) as [f2 ->].
  cbn [bind].
  set (c3 := sub_fun cref_re f2 c2).
  assert (E : sub 0 blank_lines_re [nl; nl] c3
              = Ok (sub_fun blank_lines_re (fun _ => [nl; nl]) c3)) by reflexivity.
  rewrite E. cbn [bind]. eexists. split; [reflexivity|].
  rewrite blank_lines_runs.
  assert (R : runs_below (Ascii.eqb nl) 3 (sub_runs (Ascii.eqb nl) 3 [nl; nl] c3 0)).
  { apply (@sub_runs_below (Ascii.eqb nl) 3 3 [nl; nl]) with (n := length c3);
      trivial; simpl; lia. }
  apply (@runs_below_first_occ (Ascii.eqb nl)); [discriminate | reflexivity | exact R].
Qed.

End BlankLines.

(* ================================================================== *)
(** ** The plain-text cleaner *)
(* ================================================================== *)

Section CleanTex.

Import Re Preprocessor PyMore Pipeline.

(** *** A class of characters deleted *)

Lemma sub_pieces_cls (p : ascii -> bool) (new : str) :
  forall (s before : str),
    sub_pieces (fun _ => new) (scan_go (Cls p) before s 0)
    = flat_map (fun c => if p c then new else [c]) s.
Proof.
  induction s as [|c s IH]; intros before; [reflexivity|].
  cbn [scan_go flat_map]. unfold hits_at, match_here.
  cbn [run rest seen caps andb]. destruct (p c).
  - unfold consumed. cbn [rest length].
    replace (S (length s) - length s) with 1 by lia.
    cbn [map app sub_pieces]. now rewrite IH.
  - cbn [map app sub_pieces]. now rewrite IH.
Qed.

Lemma sub_fun_cls (p : ascii -> bool) (new s : str) :
  sub_fun (Cls p) (fun _ => new) s
  = flat_map (fun c => if p c then new else [c]) s.
Proof. apply sub_pieces_cls. Qed.

Lemma delete_class (p : ascii -> bool) (s : str) :
  flat_map (fun c => if p c then [] else [c]) s = filter (fun c => negb (p c)) s.
Proof.
  induction s as [|c s IH]; [reflexivity|]. simpl. rewrite IH.
  now destruct (p c).
Qed.

(** *** Stripping *)

Lemma lstrip_suffix (s : str) :
  exists v, s = v ++ lstrip s /\ forallb is_space v = true.
Proof.
  induction s as [|c s (v & Hv & Hs)]; [now exists []|].
  simpl. destruct (is_space c) eqn:E.
  - exists (c :: v). simpl. rewrite E. split; [now f_equal | exact Hs].
  - now exists [].
Qed.

Lemma lstrip_head (s : str) :
  match lstrip s with [] => true | c :: _ => negb (is_space c) end = true.
Proof.
  induction s as [|c s IH]; [reflexivity|].
  simpl. destruct (is_space c) eqn:E; [exact IH|]. simpl. now rewrite E.
Qed.

Lemma lstrip_fixed (s : str) :
  match s with [] => true | c :: _ => negb (is_space c) end = true ->
  lstrip s = s.
Proof.
  destruct s as [|c s]; [reflexivity|]. simpl.
  intros H. apply negb_true_iff in H. now rewrite H.
Qed.

Lemma lstrip_lstrip (s : str) : lstrip (lstrip s) = lstrip s.
Proof. apply lstrip_fixed, lstrip_head. Qed.

(** The text without its white space at the end is a prefix. *)
Lemma rstrip_prefix (u : str) :
  exists v, u = rev (lstrip (rev u)) ++ v /\ forallb is_space v = true.
Proof.
  destruct (lstrip_suffix (rev u)) as (v & Hv & Hs).
  exists (rev v). split.
  - rewrite <- rev_app_distr, <- Hv. now rewrite rev_involutive.
  - rewrite forallb_forall in *. intros x Hx. apply Hs. now apply in_rev.
Qed.

(** What is left keeps the first character of [u], when it is not white
    space. *)
Lemma rstrip_head (u : str) :
  match u with [] => true | c :: _ => negb (is_space c) end = true ->
  match rev (lstrip (rev u)) with [] => true | c :: _ => negb (is_space c) end
  = true.
Proof.
  destruct u as [|c u]; [reflexivity|]. intros Hc.
  destruct (rstrip_prefix (c :: u)) as (v & Hv & Hs).
  destruct (rev (lstrip (rev (c :: u)))) as [|d w]; [reflexivity|].
  simpl in Hv. now injection Hv as <- _.
Qed.

Lemma strip_ends (s : str) :
  lstrip (strip s) = strip s /\ lstrip (rev (strip s)) = rev (strip s).
Proof.
  unfold strip. split.
  - apply lstrip_fixed, rstrip_head, lstrip_head.
  - rewrite rev_involutive. apply lstrip_lstrip.
Qed.

(** The stripped text is a piece of the text. *)
Lemma strip_middle (s : str) :
  exists a b, s = a ++ strip s ++ b.
Proof.
  destruct (lstrip_suffix s) as (a & Ha & _).
  destruct (rstrip_prefix (lstrip s)) as (b & Hb & _).
  exists a, b. unfold strip. now rewrite <- Hb.
Qed.

(** *** Runs in a piece of a text *)

Lemma run_len_app_le (p : ascii -> bool) (a b : str) :
  run_len p a <= run_len p (a ++ b).
Proof.
  induction a as [|c a IH]; simpl; [lia|]. destruct (p c); lia.
Qed.

Lemma runs_below_suffix (p : ascii -> bool) (bound : nat) (a s : str) :
  runs_below p bound (a ++ s) -> runs_below p bound s.
Proof. induction a as [|c a IH]; [trivial|]. intros [_ H]. now apply IH. Qed.

Lemma runs_below_prefix (p : ascii -> bool) (bound : nat) (s b : str) :
  runs_below p bound (s ++ b) -> runs_below p bound s.
Proof.
  induction s as [|c s IH]; [intros _; exact I|].
  intros [H1 H2]. split; [|now apply IH].
  pose proof (run_len_app_le p (c :: s) b). simpl app in *. lia.
Qed.

(** *** Tidy text *)

(** Text as the cleaner leaves it: no brace; white space only as single
    blanks, and none at either end. *)
Definition tidy (t : str) : Prop :=
  brace_free t
  /\ runs_below is_space 2 t
  /\ (forall c, In c t -> is_space c = true -> c = " "%char)
  /\ lstrip t = t
  /\ lstrip (rev t) = rev t.

Definition is_brace (c : ascii) : bool := char_in c (txt "{}").

Lemma char_in_In (c : ascii) (s : str) : char_in c s = true <-> In c s.
Proof.
  unfold char_in. rewrite existsb_exists. split.
  - intros (x & Hx & E). apply Ascii.eqb_eq in E. now subst.
  - intros H. exists c. split; [exact H | apply Ascii.eqb_refl].
Qed.

Lemma char_in_false (c : ascii) (s : str) : char_in c s = false <-> ~ In c s.
Proof.
  rewrite <- char_in_In. destruct (char_in c s); split; congruence.
Qed.

(** The last three steps on any text give tidy text. *)
Lemma squeeze_tidy (s : str) :
  tidy (strip (sub_runs is_space 1 (txt " ")
                 (filter (fun c => negb (is_brace c)) s) 0)).
Proof.
  set (s5 := filter _ s).
  set (s6 := sub_runs is_space 1 (txt " ") s5 0).
  assert (B6 : forall c, is_brace c = true -> ~ In c s6).
  { intros c Hc Hin.
    assert (Hsp : negb (is_space c) = true)
      by (unfold is_brace in Hc; simpl in Hc;
          destruct (Ascii.eqb c "{") eqn:E1;
          [apply Ascii.eqb_eq in E1; now subst
          |destruct (Ascii.eqb c "}") eqn:E2; [|discriminate];
           apply Ascii.eqb_eq in E2; now subst]).
    assert (H : In c (filter (fun c => negb (is_space c)) s6))
      by (apply filter_In; now split).
    unfold s6 in H.
    rewrite (@sub_runs_others is_space 1 (txt " ")) with (n := length s5) in H
      by (trivial; lia).
    apply filter_In in H as [H _]. unfold s5 in H.
    apply filter_In in H as [_ H]. now rewrite Hc in H. }
  assert (R6 : runs_below is_space 2 s6).
  { apply (@sub_runs_below is_space 1 2 (txt " ")) with (n := length s5);
      trivial; simpl; lia. }
  assert (C6 : forall c, In c s6 -> is_space c = true -> c = " "%char).
  { intros c Hin Hc.
    apply (@sub_runs_chars is_space (txt " ") (length s5) s5 (le_n _)) in Hin;
      trivial.
    destruct Hin as [<-|[]]. reflexivity. }
  destruct (strip_middle s6) as (a & b & Hm).
  destruct (strip_ends s6) as [E1 E2].
  assert (Hin : forall c, In c (strip s6) -> In c s6).
  { intros c Hc. rewrite Hm. apply in_or_app. right. apply in_or_app. now left. }
  repeat split; trivial.
  - apply char_in_false. intros H. apply (B6 "{"%char eq_refl). now apply Hin.
  - apply char_in_false. intros H. apply (B6 "}"%char eq_refl). now apply Hin.
  - rewrite Hm in R6. apply runs_below_suffix in R6.
    now apply runs_below_prefix in R6.
  - intros c Hc. apply C6. now apply Hin.
Qed.

(** On tidy text the last three steps change nothing. *)
Lemma filter_all {A : Type} (f : A -> bool) (l : list A) :
  (forall x, In x l -> f x = true) -> filter f l = l.
Proof.
  induction l as [|a l IH]; intros H; [reflexivity|].
  simpl. rewrite (H a) by now left. f_equal. apply IH.
  intros x Hx. apply H. now right.
Qed.

Lemma sub_runs_single (s : str) :
  runs_below is_space 2 s ->
  (forall c, In c s -> is_space c = true -> c = " "%char) ->
  sub_runs is_space 1 (txt " ") s 0 = s.
Proof.
  induction s as [|c s IH]; intros Hr Hc; [reflexivity|].
  destruct Hr as [H1 Hr].
  rewrite sub_runs_step by lia.
  assert (IH' : sub_runs is_space 1 (txt " ") s 0 = s).
  { apply IH; trivial. intros x Hx. apply Hc. now right. }
  destruct (is_space c) eqn:E.
  - assert (Hl : run_len is_space (c :: s) = 1).
    { cbn [run_len] in *. rewrite E in *. lia. }
    rewrite Hl. cbn [Nat.leb skipn]. rewrite IH'.
    rewrite (Hc c (or_introl eq_refl) E). reflexivity.
  - assert (Hl : run_len is_space (c :: s) = 0).
    { cbn [run_len]. now rewrite E. }
    rewrite Hl. cbn [Nat.leb]. now rewrite IH'.
Qed.

Lemma strip_fixed (s : str) :
  lstrip s = s -> lstrip (rev s) = rev s -> strip s = s.
Proof. intros H1 H2. unfold strip. now rewrite H1, H2, rev_involutive. Qed.

Lemma squeeze_runs (s : str) :
  sub_fun (Plus true Space) (fun _ => txt " ") s
  = sub_runs is_space 1 (txt " ") s 0.
Proof.
  change (Plus true Space) with (at_least 1 (Cls is_space)).
  apply sub_fun_runs; [apply one_char_cls | lia].
Qed.

Lemma clean_tex_steps (text : str) :
  exists s, _clean_tex text
            = Ok (strip (sub_runs is_space 1 (txt " ")
                           (filter (fun c => negb (is_brace c)) s) 0)).
Proof.
  unfold _clean_tex.
  destruct (@sub_total 1 (one_arg (L "\textbf")) (txt "\1") text eq_refl)
    as [f1 ->]. cbn [bind].
  set (t1 := sub_fun _ f1 text).
  destruct (@sub_total 1 (one_arg (L "\textit")) (txt "\1") t1 eq_refl)
    as [f2 ->]. cbn [bind].
  set (t2 := sub_fun _ f2 t1).
  destruct (@sub_total 1 (one_arg (L "\emph")) (txt "\1") t2 eq_refl)
    as [f3 ->]. cbn [bind].
  set (t3 := sub_fun _ f3 t2).
  destruct (@sub_total 1 (one_arg (Seq (L "\") (Plus true Alpha))) (txt "\1") t3
              eq_refl) as [f4 ->]. cbn [bind].
  set (t4 := sub_fun _ f4 t3).
  exists t4.
  assert (E5 : sub 0 (Cls (fun c => char_in c (txt "{}"))) [] t4
               = Ok (filter (fun c => negb (is_brace c)) t4)).
  { unfold sub. cbn [char_in existsb negb].
    now rewrite sub_fun_cls, delete_class. }
  rewrite E5. cbn [bind].
  set (t5 := filter _ t4).
  assert (E6 : sub 0 (Plus true Space) (txt " ") t5
               = Ok (sub_runs is_space 1 (txt " ") t5 0)).
  { unfold sub. replace (negb (char_in bsl (txt " "))) with true by reflexivity.
    now rewrite squeeze_runs. }
  rewrite E6. reflexivity.
Qed.

(** The cleaner returns a text for every text, and the text is tidy. *)
Lemma clean_tex_returns_tidy (text : str) :
  exists t, _clean_tex text = Ok t /\ tidy t.
Proof.
  destruct (clean_tex_steps text) as [s ->].
  eexists. split; [reflexivity | apply squeeze_tidy].
Qed.

(** Tidy text is returned as it is. *)
Lemma clean_tex_fixed (t : str) : tidy t -> _clean_tex t = Ok t.
Proof.
  intros ([Ho Hc] & Hr & Hs & H1 & H2).
  unfold _clean_tex.
  rewrite (@sub_untouched 1 (one_arg (L "\textbf")) (txt "\1") t)
    by (trivial; now apply (@scan_needs "{"%char)). cbn [bind].
  rewrite (@sub_untouched 1 (one_arg (L "\textit")) (txt "\1") t)
    by (trivial; now apply (@scan_needs "{"%char)). cbn [bind].
  rewrite (@sub_untouched 1 (one_arg (L "\emph")) (txt "\1") t)
    by (trivial; now apply (@scan_needs "{"%char)). cbn [bind].
  rewrite (@sub_untouched 1 (one_arg (Seq (L "\") (Plus true Alpha))) (txt "\1") t)
    by (trivial; now apply (@scan_needs "{"%char)). cbn [bind].
  assert (E5 : sub 0 (Cls (fun c => char_in c (txt "{}"))) [] t = Ok t).
  { unfold sub. cbn [char_in existsb negb].
    rewrite sub_fun_cls, delete_class. f_equal. apply filter_all.
    intros x Hx. apply negb_true_iff.
    destruct (char_in x (txt "{}")) eqn:E; [|reflexivity].
    simpl in E. apply orb_true_iff in E as [E|E].
    - apply Ascii.eqb_eq in E. subst x.
      apply char_in_false in Ho. contradiction.
    - rewrite orb_false_r in E. apply Ascii.eqb_eq in E. subst x.
      apply char_in_false in Hc. contradiction. }
  rewrite E5. cbn [bind].
  assert (E6 : sub 0 (Plus true Space) (txt " ") t = Ok t).
  { unfold sub. replace (negb (char_in bsl (txt " "))) with true by reflexivity.
    now rewrite squeeze_runs, sub_runs_single. }
  rewrite E6. cbn [bind]. now rewrite strip_fixed.
Qed.

(** X6. The plain-text cleaner returns a text for every text, and the
    text is tidy: no brace, no white space but single blanks, none of them
    next to another or at either end. Tidy text it returns as it is, so
    cleaning a second time changes nothing. *)
Theorem clean_tex_tidy :
  (forall text : str, exists t, _clean_tex text = Ok t /\ tidy t)
  /\ (forall t : str, tidy t -> _clean_tex t = Ok t)
  /\ (forall text t : str, _clean_tex text = Ok t -> _clean_tex t = Ok t).
Proof.
  split; [exact clean_tex_returns_tidy|]. split; [exact clean_tex_fixed|].
  intros text t Ht. destruct (clean_tex_returns_tidy text) as (t' & Ht' & Htidy).
  rewrite Ht in Ht'. injection Ht' as <-. now apply clean_tex_fixed.
Qed.

End CleanTex.

(* ================================================================== *)
(** ** The metadata the extractor returns *)
(* ================================================================== *)

Section Metadata.

Import Re Preprocessor PyMore Pipeline.

Lemma tidy_nil : tidy [].
Proof. repeat split. intros c []. Qed.

Lemma map_clean_tex_tidy (l : list str) :
  exists l', map_res _clean_tex l = Ok l'
             /\ Forall tidy l' /\ length l' = length l.
Proof.
  induction l as [|a l (l' & El & Hl & Hn)]; [now exists []|].
  destruct (clean_tex_returns_tidy a) as (t & Et & Ht).
  exists (t :: l'). cbn [map_res]. rewrite Et, El. cbn [bind].
  repeat split; [now constructor | simpl; now rewrite Hn].
Qed.

Lemma Forall_filter {A : Type} (P : A -> Prop) (f : A -> bool) (l : list A) :
  Forall P l -> Forall P (filter f l).
Proof.
  induction 1 as [|a l Ha _ IH]; [constructor|]. simpl.
  destruct (f a); [now constructor | exact IH].
Qed.

(** What the extractor returns, field by field. *)
Lemma extract_metadata_fields :
  forall content : str,
    exists meta,
      _extract_metadata content = Ok meta
      /\ tidy (title meta)
      /\ Forall tidy (authors meta)
      /\ lstrip (abstract meta) = abstract meta
      /\ lstrip (rev (abstract meta)) = rev (abstract meta)
      /\ date meta = []
      /\ (findall1 icmlauthor_re content <> [] ->
          length (authors meta) = length (findall1 icmlauthor_re content))
      /\ (findall1 icmlauthor_re content = [] ->
          Forall (fun a => a <> []) (authors meta)).
Proof.
  intros content. unfold _extract_metadata.
  pose proof clean_tex_returns_tidy as P1.
  assert (T : exists t, first_title title_patterns content = Ok t
                        /\ tidy (match t with Some t => t | None => [] end)).
  { unfold title_patterns. cbn [first_title].
    destruct (search icmltitle_re content) as [m|].
    { destruct (P1 (group_or_empty m 1)) as (t & -> & Ht). now exists (Some t). }
    destruct (search neurips_title_re content) as [m|].
    { destruct (P1 (group_or_empty m 1)) as (t & -> & Ht). now exists (Some t). }
    destruct (search title_re content) as [m|].
    { destruct (P1 (group_or_empty m 1)) as (t & -> & Ht). now exists (Some t). }
    exists None. split; [reflexivity | apply tidy_nil]. }
  destruct T as (t & -> & Ht). cbn [bind].
  assert (A : match search abstract_re content with
              | Some m => strip (group_or_empty m 1)
              | None => []
              end = strip match search abstract_re content with
                          | Some m => group_or_empty m 1
                          | None => []
                          end)
    by (now destruct (search abstract_re content)).
  rewrite A.
  set (ab := match search abstract_re content with
             | Some m => group_or_empty m 1 | None => [] end).
  destruct (strip_ends ab) as [A1 A2].
  destruct (findall1 icmlauthor_re content) as [|a l] eqn:Ef.
  - destruct (search author_re content) as [m|].
    + destruct (map_clean_tex_tidy (split and_re (group_or_empty m 1)))
        as (l' & -> & Hl & _).
      cbn [bind]. eexists. split; [reflexivity|]. cbn [title authors abstract date].
      split; [exact Ht|]. split; [now apply Forall_filter|].
      split; [exact A1|]. split; [exact A2|]. split; [reflexivity|].
      split; [congruence|].
      intros _. apply Forall_forall. intros x Hx.
      apply filter_In in Hx as [_ Hx]. now destruct x.
    + cbn [bind]. eexists. split; [reflexivity|].
      cbn [title authors abstract date].
      split; [exact Ht|]. split; [constructor|].
      split; [exact A1|]. split; [exact A2|]. split; [reflexivity|].
      split; [congruence | constructor].
  - destruct (map_clean_tex_tidy (a :: l)) as (l' & -> & Hl & Hn).
    cbn [bind]. eexists. split; [reflexivity|].
    cbn [title authors abstract date].
    split; [exact Ht|]. split; [exact Hl|].
    split; [exact A1|]. split; [exact A2|]. split; [reflexivity|].
    split; [intros _; exact Hn | discriminate].
Qed.

(** X7. The extractor returns a record for every text. Its title and its
    author names are tidy, its abstract has no white space at either end,
    and its date is empty. Names from [\icmlauthor] are all kept, one for
    each; of the names of an [\author] block the empty ones are dropped. *)
Theorem extract_metadata_tidy :
  forall content : str,
    exists meta,
      _extract_metadata content = Ok meta
      /\ tidy (title meta)
      /\ Forall tidy (authors meta)
      /\ lstrip (abstract meta) = abstract meta
      /\ lstrip (rev (abstract meta)) = rev (abstract meta)
      /\ date meta = []
      /\ (findall1 icmlauthor_re content <> [] ->
          length (authors meta) = length (findall1 icmlauthor_re content))
      /\ (findall1 icmlauthor_re content = [] ->
          Forall (fun a => a <> []) (authors meta)).
Proof. exact extract_metadata_fields. Qed.

(** X8. The metadata of the extractor meets what the rebuilder needs:
    with it, a body without a marker is rebuilt with exactly one begin
    marker and one end marker, whatever the source of the metadata holds. *)
Theorem rebuild_extracted_metadata :
  forall (source content : str) (meta : PaperMetadata),
    _extract_metadata source = Ok meta ->
    count begin_document (document_body content) = 0 ->
    count end_document (document_body content) = 0 ->
    count begin_document (_rebuild_document content meta) = 1
    /\ count end_document (_rebuild_document content meta) = 1.
Proof.
  intros source content meta Hm Hb He.
  destruct (extract_metadata_fields source) as (meta' & Hm' & (Ht & _) & Ha & _).
  rewrite Hm in Hm'. injection Hm' as <-.
  assert (Ha' : Forall brace_free (authors meta)).
  { eapply Forall_impl; [|exact Ha]. intros a H. apply H. }
  rewrite rebuild_lines.
  destruct (@count_frame_lines begin_document meta (document_body content))
    as [B1 B2]; auto.
  destruct (@count_frame_lines end_document meta (document_body content))
    as [E1 E2]; auto.
  split; rewrite count_rebuilt; trivial; discriminate.
Qed.

(** A paper whose title holds a command in braces. *)
Definition titled_paper : str :=
  txt "\title{Deep \textbf{Residual} Learning}" ++ [nl] ++
  txt "\author{K. He \and X. Zhang}" ++ [nl] ++
  txt "\begin{document}Body\end{document}".

Lemma rebuild_extracted_metadata_witness :
  count begin_document
    (_rebuild_document titled_paper
       (Meta (txt "Deep \textbfResidual") [txt "K. He"; txt "X. Zhang"] [] [])) = 1
  /\ count end_document
       (_rebuild_document titled_paper
          (Meta (txt "Deep \textbfResidual") [txt "K. He"; txt "X. Zhang"] [] [])) = 1.
Proof.
  apply (@rebuild_extracted_metadata titled_paper titled_paper);
    vm_compute; reflexivity.
Defined.

End Metadata.

(* ================================================================== *)
(** ** A text with one match *)
(* ================================================================== *)

Section OneMatch.

Import Re PyMore.

Lemma scan_go_drop (r : regex) (post : str) :
  forall (w before : str),
    scan_go r before (w ++ post) (length w) = scan_go r (rev w ++ before) post 0.
Proof.
  induction w as [|c w IH]; intros before; [reflexivity|].
  cbn [app length scan_go]. rewrite IH. cbn [rev]. now rewrite <- app_assoc.
Qed.

Lemma scan_go_hit (r : regex) (w post before : str) (m : rmatch) :
  w <> [] ->
  match_here r false before (w ++ post) = Some (m, length w) ->
  scan_go r before (w ++ post) 0 = Hit m :: scan_go r (rev w ++ before) post 0.
Proof.
  intros Hw Hm. destruct w as [|c w]; [congruence|].
  cbn [app scan_go]. unfold hits_at. cbn [app] in Hm. rewrite Hm.
  cbn [length map app]. f_equal.
  rewrite scan_go_drop. cbn [rev]. now rewrite <- app_assoc.
Qed.

Lemma scan_go_none (r : regex) (post : str) :
  (forall i before, match_here r false before (skipn i post) = None) ->
  forall before, scan_go r before post 0 = map Txt post.
Proof.
  intros Hno before.
  rewrite <- (app_nil_r post) at 1. rewrite scan_go_skip.
  - cbn [scan_go]. unfold hits_at.
    specialize (Hno (length post) (rev post ++ before)).
    rewrite skipn_all in Hno. rewrite Hno. simpl. apply app_nil_r.
  - intros i Hi. rewrite app_nil_r. apply Hno.
Qed.

(** The pieces of a text with one match, between stretches without. *)
Lemma scan_one_hit (r : regex) (pre w post : str) (m : rmatch) :
  (forall i, i < length pre ->
     match_here r false (rev (firstn i pre)) (skipn i pre ++ w ++ post) = None) ->
  w <> [] ->
  match_here r false (rev pre) (w ++ post) = Some (m, length w) ->
  (forall i before, match_here r false before (skipn i post) = None) ->
  scan r (pre ++ w ++ post) = map Txt pre ++ Hit m :: map Txt post.
Proof.
  intros Hpre Hw Hm Hpost. unfold scan.
  rewrite scan_go_skip.
  - f_equal. rewrite app_nil_r, (@scan_go_hit r w post (rev pre) m) by trivial.
    f_equal. now apply scan_go_none.
  - intros i Hi. rewrite app_nil_r. now apply Hpre.
Qed.

Lemma sub_pieces_app (f : rmatch -> str) (a b : list piece) :
  sub_pieces f (a ++ b) = sub_pieces f a ++ sub_pieces f b.
Proof.
  induction a as [|[c|m] a IH]; simpl; [reflexivity| |]; rewrite IH; trivial.
  now rewrite app_assoc.
Qed.

Lemma sub_pieces_one_hit (f : rmatch -> str) (pre post : str) (m : rmatch) :
  sub_pieces f (map Txt pre ++ Hit m :: map Txt post) = pre ++ f m ++ post.
Proof.
  rewrite sub_pieces_app, sub_pieces_map_Txt. cbn [sub_pieces].
  now rewrite sub_pieces_map_Txt.
Qed.

Lemma sub_pieces_res_app (f : rmatch -> res str) (a b : list piece) (x y : str) :
  sub_pieces_res f a = Ok x -> sub_pieces_res f b = Ok y ->
  sub_pieces_res f (a ++ b) = Ok (x ++ y).
Proof.
  revert x. induction a as [|[c|m] a IH]; intros x Ha Hb; simpl in *.
  - now injection Ha as <-.
  - destruct (sub_pieces_res f a) as [x'| |]; try discriminate.
    injection Ha as <-. now rewrite (IH x' eq_refl Hb).
  - destruct (f m) as [new| |]; try discriminate. cbn [bind] in *.
    destruct (sub_pieces_res f a) as [x'| |]; try discriminate.
    injection Ha as <-. rewrite (IH x' eq_refl Hb). cbn [bind].
    now rewrite app_assoc.
Qed.

Lemma sub_pieces_res_one_hit (f : rmatch -> res str) (pre post new : str)
  (m : rmatch) :
  f m = Ok new ->
  sub_pieces_res f (map Txt pre ++ Hit m :: map Txt post) = Ok (pre ++ new ++ post).
Proof.
  intros Hf. apply sub_pieces_res_app; [apply sub_pieces_res_map_Txt|].
  cbn [sub_pieces_res]. rewrite Hf, sub_pieces_res_map_Txt. reflexivity.
Qed.

(** *** A command with one argument in braces *)

(** [name{arg}] at the head of the text, for a pattern that reads the
    name, a brace, the argument up to the next closing brace as group 1,
    and the closing brace. *)
Lemma match_braced_arg (name arg post before : str) (at_least_one : bool) :
  char_in "}" arg = false ->
  (if at_least_one then arg <> [] else True) ->
  exists m,
    match_here
      (seqs [Lit name; L "{";
             Grp 1 (if at_least_one then Plus true (Not "}")
                    else Star true (Not "}"));
             L "}"])
      false before (name ++ txt "{" ++ arg ++ txt "}" ++ post)
    = Some (m, length (name ++ txt "{" ++ arg ++ txt "}"))
    /\ group_or_empty m 1 = arg
    /\ m_text m = name ++ txt "{" ++ arg ++ txt "}".
Proof.
  intros Hc Hne.
  assert (Hp : forallb (fun c => negb (char_in c (txt "}"))) arg = true).
  { apply forallb_forall. intros x Hx. apply negb_true_iff.
    simpl. rewrite orb_false_r. apply Ascii.eqb_neq. intros ->.
    apply char_in_false in Hc. contradiction. }
  set (after := name ++ txt "{" ++ arg ++ txt "}" ++ post).
  set (full := name ++ txt "{" ++ arg ++ txt "}").
  assert (Hafter : after = full ++ post).
  { unfold after, full. now rewrite <- !app_assoc. }
  assert (R : forall K out,
             K (MState (rev arg ++ "{"%char :: rev name ++ before)
                       ("}"%char :: post) []) = Some out ->
             run (if at_least_one then Plus true (Not "}") else Star true (Not "}"))
                 (MState ("{"%char :: rev name ++ before)
                         (arg ++ "}"%char :: post) []) K = Some out).
  { intros K out HK. destruct at_least_one.
    - destruct arg as [|a arg]; [congruence|].
      cbn [forallb] in Hp. apply andb_true_iff in Hp as [Ha Hp].
      cbv beta in Ha.
      unfold Plus, Not. cbn [run app rest seen caps].
      rewrite Ha.
      apply star_greedy_run; trivial.
      + rewrite length_app. lia.
      + cbn [rev] in HK. now rewrite <- app_assoc in HK.
    - unfold Not. cbn [run rest]. apply star_greedy_run; trivial.
      rewrite length_app. lia. }
  eexists. unfold match_here. cbn [seqs].
  unfold after, L. cbn [run]. cbn [rest seen caps].
  rewrite starts_with_app.
  rewrite skipn_app, skipn_all, Nat.sub_diag.
  change (txt "{") with ["{"%char]. change (txt "}") with ["}"%char].
  cbn [skipn app starts_with].
  rewrite Ascii.eqb_refl. cbn [andb length skipn rev app].
  erewrite R.
  2:{ cbn [rest seen caps starts_with]. rewrite Ascii.eqb_refl.
      cbn [andb length skipn]. reflexivity. }
  cbn [rest seen caps].
  unfold consumed. cbn [rest].
  assert (Hlen : length (name ++ "{"%char :: arg ++ "}"%char :: post) - length post
                 = length full).
  { unfold full. rewrite !length_app. simpl. rewrite !length_app. simpl. lia. }
  assert (Hg : length (arg ++ "}"%char :: post) - length ("}"%char :: post)
               = length arg).
  { rewrite length_app. simpl. lia. }
  rewrite Hlen, Hg.
  assert (Hf : firstn (length full) (name ++ "{"%char :: arg ++ "}"%char :: post)
               = full).
  { apply firstn_prefix with (b := post); trivial;
      try (unfold full; now rewrite <- !app_assoc). }
  rewrite Hf. split; [reflexivity|]. split; [|reflexivity].
  unfold group_or_empty, group. cbn [m_caps assoc Nat.eqb].
  now rewrite firstn_app, firstn_all, Nat.sub_diag, app_nil_r.
Qed.

End OneMatch.

(* ================================================================== *)
(** ** Text with commands that no pattern knows *)
(* ================================================================== *)

Section Backslashes.

Import Re PyMore.

Lemma starts_with_head (c : ascii) (l s : str) :
  starts_with (c :: l) s = true -> char_in c s = true.
Proof.
  destruct s as [|x s]; [discriminate|]. simpl.
  intros H. apply andb_true_iff in H as [H _].
  unfold char_in. simpl. now rewrite H.
Qed.

Lemma plain_no_start (c : ascii) (l pre t : str) (i : nat) :
  char_in c pre = false -> i < length pre ->
  starts_with (c :: l) (skipn i pre ++ t) = false.
Proof.
  intros Hp Hi.
  destruct (skipn i pre) as [|x u] eqn:E.
  - apply (f_equal (@length _)) in E. rewrite length_skipn in E. simpl in E. lia.
  - assert (Hx : char_in c (x :: u) = false)
      by (rewrite <- E; now apply char_in_skipn_false).
    unfold char_in in Hx. simpl in Hx. apply orb_false_iff in Hx as [Hx _].
    simpl. now rewrite Hx.
Qed.

Lemma first_occ_one_bsl (l' pre rest : str) :
  char_in bsl pre = false -> char_in bsl rest = false ->
  starts_with (bsl :: l') (bsl :: rest) = false ->
  first_occ (bsl :: l') (pre ++ bsl :: rest) = None.
Proof.
  intros Hpre Hrest Hs.
  destruct (first_occ (bsl :: l') (pre ++ bsl :: rest)) as [k|] eqn:E;
    [|reflexivity].
  apply first_occ_here in E.
  destruct (Nat.lt_trichotomy k (length pre)) as [Hk|[Hk|Hk]].
  - rewrite skipn_app in E. replace (k - length pre) with 0 in E by lia.
    cbn [skipn] in E. now rewrite plain_no_start in E.
  - subst k. rewrite skipn_app, skipn_all, Nat.sub_diag in E.
    cbn [skipn app] in E. congruence.
  - rewrite skipn_app, skipn_all2 in E by lia. cbn [app] in E.
    destruct (k - length pre) as [|j] eqn:Ej; [lia|]. cbn [skipn] in E.
    apply starts_with_head in E.
    now rewrite char_in_skipn_false in E.
Qed.

(** Every backslash of [s] that a character follows is followed by one
    of [ok]. *)
Fixpoint bsl_follow (ok : ascii -> bool) (s : str) : bool :=
  match s with
  | [] => true
  | c :: s' =>
      (if Ascii.eqb c bsl
       then match s' with [] => true | d :: _ => ok d end
       else true)
      && bsl_follow ok s'
  end.

Lemma first_occ_bsl_follow (ok : ascii -> bool) (x : ascii) (l s : str) :
  bsl_follow ok s = true -> ok x = false ->
  first_occ (bsl :: x :: l) s = None.
Proof.
  intros Hs Hx. induction s as [|c s IH]; [reflexivity|].
  cbn [bsl_follow] in Hs. apply andb_true_iff in Hs as [Hc Hs].
  cbn [first_occ starts_with].
  destruct (Ascii.eqb bsl c) eqn:E.
  - apply Ascii.eqb_eq in E. subst c. rewrite Ascii.eqb_refl in Hc.
    destruct s as [|d s]; cbn [andb].
    + reflexivity.
    + destruct (Ascii.eqb x d) eqn:Ed.
      * apply Ascii.eqb_eq in Ed. subst d. congruence.
      * cbn [andb]. now rewrite IH.
  - cbn [andb]. now rewrite IH.
Qed.

Lemma bsl_follow_plain (ok : ascii -> bool) (s : str) :
  char_in bsl s = false -> bsl_follow ok s = true.
Proof.
  induction s as [|c s IH]; intros H; [reflexivity|].
  unfold char_in in H. cbn [existsb] in H. apply orb_false_iff in H as [Hc H].
  cbn [bsl_follow]. rewrite Ascii.eqb_sym, Hc. now apply IH.
Qed.

Lemma bsl_follow_plain_app (ok : ascii -> bool) (a b : str) :
  char_in bsl a = false -> bsl_follow ok (a ++ b) = bsl_follow ok b.
Proof.
  induction a as [|c a IH]; intros H; [reflexivity|].
  unfold char_in in H. cbn [existsb] in H. apply orb_false_iff in H as [Hc H].
  cbn [app bsl_follow]. rewrite Ascii.eqb_sym, Hc. now apply IH.
Qed.

End Backslashes.

(* ================================================================== *)
(** ** The condition of an [\IF] *)
(* ================================================================== *)

Section Algorithmic.

Import Re Preprocessor PyMore Pipeline.

(** What [\IF{...}] becomes: the template holds [\\1], a backslash and
    the character 1, where a reference to group 1 was meant. *)
Definition if_text : str := txt "\textbf{if} \(\1\) \textbf{then}".

Lemma sub_one_brace_arg (name : string) (template out pre arg post : str)
  (items : list titem) :
  (exists l, txt name = bsl :: l) ->
  char_in bsl template = true ->
  parse_template (length template) 1 template = Ok items ->
  (forall m, expand items m = out) ->
  plain pre -> plain post -> char_in "}" arg = false ->
  sub 1 (one_brace_arg name) template
      (pre ++ txt name ++ txt "{" ++ arg ++ txt "}" ++ post)
  = Ok (pre ++ out ++ post).
Proof.
  intros (l & Hname) Hb Hparse Hout Hpre Hpost Harg.
  unfold sub. rewrite Hb. cbn [negb]. rewrite Hparse. cbn [bind].
  f_equal. unfold sub_fun.
  destruct (@match_braced_arg (txt name) arg post (rev pre) false Harg I)
    as (m & Hm & _ & _).
  replace (pre ++ txt name ++ txt "{" ++ arg ++ txt "}" ++ post)
    with (pre ++ (txt name ++ txt "{" ++ arg ++ txt "}") ++ post)
    by (now rewrite <- !app_assoc).
  rewrite (@scan_one_hit (one_brace_arg name) pre _ post m).
  - now rewrite sub_pieces_one_hit, Hout.
  - intros i Hi. apply match_here_head_lit.
    unfold one_brace_arg, L. cbn [seqs head_lit]. rewrite Hname.
    cbn [app]. now apply plain_no_start.
  - rewrite Hname. discriminate.
  - rewrite <- !app_assoc. exact Hm.
  - intros i before. apply match_here_head_lit.
    unfold one_brace_arg, L. cbn [seqs head_lit]. rewrite Hname. cbn [app].
    destruct (starts_with _ _) eqn:E; [|reflexivity].
    apply starts_with_head in E. now rewrite char_in_skipn_false in E.
Qed.

Ltac head_side tac :=
  match goal with
  | |- template_ok _ _ = true => vm_compute; reflexivity
  | |- scan ?r _ = map Txt _ =>
      apply scan_head_lit;
      let h := eval vm_compute in (head_lit r) in
      change (head_lit r) with h; tac
  | |- first_occ ?o _ = None =>
      let h := eval vm_compute in o in
      change o with h; tac
  | |- _ <> [] => discriminate
  end.

Ltac head_step tac :=
  lazymatch goal with
  | |- remove _ _ = _ => apply remove_untouched; head_side tac
  | |- sub_fun _ _ _ = _ => apply sub_fun_untouched; head_side tac
  | |- sub _ _ _ _ = _ => apply sub_untouched; head_side tac
  | |- replace _ _ _ = _ => apply replace_none; head_side tac
  end.

Ltac head_chain tac c :=
  lazymatch goal with
  | |- remove ?r ?x = _ =>
      apply (@step_to _ _ (remove r) x c); [head_chain tac c | head_step tac]
  | |- sub_fun ?r ?f ?x = _ =>
      apply (@step_to _ _ (sub_fun r f) x c); [head_chain tac c | head_step tac]
  | |- sub ?g ?r ?t ?x = _ =>
      apply (@step_to _ _ (sub g r t) x c); [head_chain tac c | head_step tac]
  | |- replace ?x ?o ?n = _ =>
      apply (@step_to _ _ (fun s => replace s o n) x c);
      [head_chain tac c | head_step tac]
  | |- ?y = ?y => reflexivity
  end.

Ltac head_pass tac c :=
  lazymatch goal with
  | |- bind ?x ?k = _ =>
      apply (@bind_to _ _ x k c); [head_chain tac c | cbv beta]
  end.

Lemma convert_theorems_follow (ok : ascii -> bool) (content : str) :
  bsl_follow ok content = true -> ok "b"%char = false -> ok "e"%char = false ->
  convert_theorems theorem_envs content = Ok content.
Proof.
  intros H Hb He. unfold theorem_envs. cbn [convert_theorems].
  repeat (head_pass ltac:(first [ apply (@first_occ_bsl_follow ok); [exact H | exact Hb]
                                | apply (@first_occ_bsl_follow ok); [exact H | exact He] ])
                    content).
  reflexivity.
Qed.

(** X9. The condition of an [\IF] is lost: whatever stands between the
    braces, the rewritten text holds the two characters [\1] in its
    place, since the template escapes the backslash of the group
    reference. *)
Theorem convert_environments_if :
  forall pre cond post : str,
    plain pre -> plain cond -> plain post ->
    char_in "}" cond = false ->
    _convert_environments (pre ++ txt "\IF{" ++ cond ++ txt "}" ++ post)
    = Ok (pre ++ if_text ++ post).
Proof.
  intros pre cond post Hpre Hcond Hpost Hbrace.
  unfold plain in Hpre, Hcond, Hpost.
  set (rest := txt "IF{" ++ cond ++ txt "}" ++ post).
  assert (Hrest : char_in bsl rest = false).
  { unfold rest. now rewrite !char_in_app, Hcond, Hpost. }
  set (content := pre ++ bsl :: rest).
  change (pre ++ txt "\IF{" ++ cond ++ txt "}" ++ post) with content.
  set (ok := fun d : ascii => char_in d (txt "t(1)")).
  set (content' := pre ++ if_text ++ post).
  assert (Hfollow : bsl_follow ok content' = true).
  { unfold content'. rewrite bsl_follow_plain_app by exact Hpre.
    unfold if_text. cbn. now apply bsl_follow_plain. }
  unfold _convert_environments. cbv zeta.
  do 8 (head_pass ltac:(apply first_occ_one_bsl;
                        [exact Hpre | exact Hrest | reflexivity]) content).
  apply (@bind_to _ _ _ _ content').
  { unfold content, rest.
    change (pre ++ bsl :: txt "IF{" ++ cond ++ txt "}" ++ post)
      with (pre ++ txt "\IF" ++ txt "{" ++ cond ++ txt "}" ++ post).
    eapply sub_one_brace_arg;
      [ now eexists | reflexivity | vm_compute; reflexivity
      | intros m; reflexivity | assumption .. ]. }
  cbv beta.
  do 8 (head_pass ltac:(apply (@first_occ_bsl_follow ok);
                        [exact Hfollow | reflexivity]) content').
  apply (@step_to _ _ (convert_theorems theorem_envs) _ content');
    [|now apply (@convert_theorems_follow ok)].
  head_chain ltac:(apply (@first_occ_bsl_follow ok);
                   [exact Hfollow | reflexivity]) content'.
Qed.

Lemma convert_environments_if_witness :
  _convert_environments (txt "Step 1: \IF{x > 0} go on")
  = Ok (txt "Step 1: \textbf{if} \(\1\) \textbf{then} go on").
Proof.
  exact (@convert_environments_if (txt "Step 1: ") (txt "x > 0") (txt " go on")
           eq_refl eq_refl eq_refl eq_refl).
Defined.

End Algorithmic.

(* ================================================================== *)
(** ** Packages declared twice *)
(* ================================================================== *)

Section Packages.

Import Re Preprocessor PyMore Pipeline.

(** The package a line declares, as the loop reads it. *)
Definition package_of (line : str) : option str :=
  match rematch usepackage_line_re (strip line) with
  | Some m => Some (group_or_empty m 2)
  | None => None
  end.

Definition declares (line : str) : bool :=
  match package_of line with Some _ => true | None => false end.

(** The packages that the lines declare, in order. *)
Fixpoint packages (lines : list str) : list str :=
  match lines with
  | [] => []
  | line :: lines' =>
      match package_of line with
      | Some pkg => pkg :: packages lines'
      | None => packages lines'
      end
  end.

(** [a] is [b] with some of its elements left out. *)
Inductive subseq {A : Type} : list A -> list A -> Prop :=
| subseq_nil : subseq [] []
| subseq_keep (x : A) (a b : list A) : subseq a b -> subseq (x :: a) (x :: b)
| subseq_drop (x : A) (a b : list A) : subseq a b -> subseq a (x :: b).

Lemma str_in_In (x : str) (s : list str) : str_in x s = true <-> In x s.
Proof.
  unfold str_in. rewrite existsb_exists. split.
  - intros (y & Hy & E). apply str_eqb_eq in E. now subst.
  - intros H. exists x. split; [exact H | apply str_eqb_refl].
Qed.

Lemma dedupe_cases (line : str) (lines seen : list str) :
  dedupe (line :: lines) seen =
  match package_of line with
  | Some pkg =>
      if str_in pkg seen then dedupe lines seen
      else line :: dedupe lines (pkg :: seen)
  | None => line :: dedupe lines seen
  end.
Proof.
  cbn [dedupe]. unfold package_of.
  now destruct (rematch usepackage_line_re (strip line)).
Qed.

Lemma dedupe_invariants (lines : list str) :
  forall seen : list str,
    NoDup (packages (dedupe lines seen))
    /\ (forall pkg, In pkg (packages (dedupe lines seen)) <->
                    In pkg (packages lines) /\ ~ In pkg seen)
    /\ subseq (dedupe lines seen) lines
    /\ filter (fun l => negb (declares l)) (dedupe lines seen)
       = filter (fun l => negb (declares l)) lines.
Proof.
  induction lines as [|line lines IH]; intros seen.
  - repeat split; try constructor; simpl; tauto.
  - rewrite dedupe_cases. cbn [packages].
    assert (Hd : declares line
                 = match package_of line with Some _ => true | None => false end)
      by reflexivity.
    destruct (package_of line) as [pkg|] eqn:Ep.
    + destruct (str_in pkg seen) eqn:Es.
      * apply str_in_In in Es.
        destruct (IH seen) as (N & M & S & F).
        split; [exact N|]. split; [|split; [now constructor|]].
        -- intros p. rewrite M. cbn [In]. split; [tauto|].
           intros [[<-|H] Hn]; [contradiction | tauto].
        -- cbn [filter]. rewrite Hd. cbn [negb]. exact F.
      * assert (Hn : ~ In pkg seen).
        { intros H. apply str_in_In in H. congruence. }
        destruct (IH (pkg :: seen)) as (N & M & S & F).
        cbn [packages filter]. rewrite Ep, Hd. cbn [negb].
        split; [|split; [|split; [now constructor | exact F]]].
        -- constructor; [|exact N]. rewrite M. cbn [In]. tauto.
        -- intros p. cbn [In]. rewrite M. cbn [In]. split.
           ++ intros [<-|[H1 H2]]; [tauto|]. split; [now right | tauto].
           ++ intros [[<-|H1] H2]; [now left|].
              destruct (list_eq_dec ascii_dec pkg p) as [<-|Hne]; [now left|].
              right. split; [exact H1|]. intros [E|H3]; [congruence | tauto].
    + destruct (IH seen) as (N & M & S & F).
      cbn [packages filter]. rewrite Ep, Hd. cbn [negb].
      split; [exact N|]. split; [exact M|].
      split; [now constructor | now rewrite F].
Qed.

(** X10. The loop of the preamble stripper keeps the first line that
    declares a package and drops the later ones: among the lines kept no
    package is declared twice, every package declared is still declared,
    no line is added or moved, and every line that declares no package is
    kept. *)
Theorem dedupe_first_declaration :
  forall lines : list str,
    NoDup (packages (dedupe lines []))
    /\ (forall pkg, In pkg (packages (dedupe lines [])) <-> In pkg (packages lines))
    /\ subseq (dedupe lines []) lines
    /\ filter (fun l => negb (declares l)) (dedupe lines [])
       = filter (fun l => negb (declares l)) lines.
Proof.
  intros lines. destruct (dedupe_invariants lines []) as (N & M & S & F).
  split; [exact N|]. split; [|split; [exact S | exact F]].
  intros pkg. rewrite M. cbn [In]. tauto.
Qed.

(** A package declared twice, the second time with an option and with
    blanks around the line. *)
Lemma dedupe_example :
  dedupe [ txt "\usepackage{amsmath}"; txt "Text.";
           txt "  \usepackage[leqno]{amsmath}  " ] []
  = [ txt "\usepackage{amsmath}"; txt "Text." ]
  /\ packages [ txt "\usepackage{amsmath}"; txt "Text.";
                txt "  \usepackage[leqno]{amsmath}  " ]
     = [ txt "amsmath"; txt "amsmath" ].
Proof. split; vm_compute; reflexivity. Qed.

End Packages.

(* ================================================================== *)
(** ** What the include resolver puts in the place of a directive *)
(* ================================================================== *)

Section Inlining.

Import Re Preprocessor PyMore Pipeline.

(** [open arg }] at the head of the text, for a pattern that reads the
    opening text, the argument up to the next closing brace as group 1,
    and the closing brace. *)
Lemma match_open_arg (open arg post before : str) :
  char_in "}" arg = false -> arg <> [] ->
  exists m,
    match_here (seqs [Lit open; Grp 1 (Plus true (Not "}")); L "}"])
      false before (open ++ arg ++ txt "}" ++ post)
    = Some (m, length (open ++ arg ++ txt "}"))
    /\ group_or_empty m 1 = arg
    /\ m_text m = open ++ arg ++ txt "}".
Proof.
  intros Hc Hne.
  assert (Hp : forallb (fun c => negb (char_in c (txt "}"))) arg = true).
  { apply forallb_forall. intros x Hx. apply negb_true_iff.
    simpl. rewrite orb_false_r. apply Ascii.eqb_neq. intros ->.
    apply char_in_false in Hc. contradiction. }
  set (full := open ++ arg ++ txt "}").
  assert (R : forall K out,
             K (MState (rev arg ++ rev open ++ before)
                       ("}"%char :: post) []) = Some out ->
             run (Plus true (Not "}"))
                 (MState (rev open ++ before) (arg ++ "}"%char :: post) []) K
             = Some out).
  { intros K out HK.
    destruct arg as [|a arg]; [congruence|].
    cbn [forallb] in Hp. apply andb_true_iff in Hp as [Ha Hp].
    cbv beta in Ha.
    unfold Plus, Not. cbn [run app rest seen caps].
    rewrite Ha.
    apply star_greedy_run; trivial.
    - rewrite length_app. lia.
    - cbn [rev] in HK. now rewrite <- app_assoc in HK. }
  eexists. unfold match_here. cbn [seqs].
  unfold L. cbn [run]. cbn [rest seen caps].
  rewrite starts_with_app.
  rewrite skipn_app, skipn_all, Nat.sub_diag.
  change (txt "}") with ["}"%char].
  cbn [skipn app].
  erewrite R.
  2:{ cbn [rest seen caps starts_with]. rewrite Ascii.eqb_refl.
      cbn [andb length skipn]. reflexivity. }
  cbn [rest seen caps].
  unfold consumed. cbn [rest].
  assert (Hlen : length (open ++ arg ++ "}"%char :: post) - length post
                 = length full).
  { unfold full. rewrite !length_app. simpl. lia. }
  assert (Hg : length (arg ++ "}"%char :: post) - length ("}"%char :: post)
               = length arg).
  { rewrite length_app. simpl. lia. }
  rewrite Hlen, Hg.
  assert (Hf : firstn (length full) (open ++ arg ++ "}"%char :: post) = full).
  { apply firstn_prefix with (b := post); trivial;
      try (unfold full; now rewrite <- !app_assoc). }
  rewrite Hf. split; [reflexivity|]. split; [|reflexivity].
  unfold group_or_empty, group. cbn [m_caps assoc Nat.eqb].
  now rewrite firstn_app, firstn_all, Nat.sub_diag, app_nil_r.
Qed.

Lemma sub_pieces_res_Txt_app (f : rmatch -> res str) (pre : str) (ps : list piece) :
  sub_pieces_res f (map Txt pre ++ ps)
  = (out <- sub_pieces_res f ps ;; Ok (pre ++ out)).
Proof.
  induction pre as [|c pre IH]; cbn [map app sub_pieces_res].
  - now destruct (sub_pieces_res f ps).
  - rewrite IH. now destruct (sub_pieces_res f ps).
Qed.

(** What a result becomes between two stretches of text. *)
Definition framed (pre post : str) (r : res str) : res str :=
  new <- r ;; Ok (pre ++ new ++ post).

(** A substitution by a function that can raise, on a text with one
    directive between plain stretches. *)
Lemma sub_res_open_arg (open' arg pre post : str) (f : rmatch -> res str)
  (r : res str) :
  plain pre -> plain post -> char_in "}" arg = false -> arg <> [] ->
  (forall m, group_or_empty m 1 = arg ->
             m_text m = (bsl :: open') ++ arg ++ txt "}" -> f m = r) ->
  sub_res (seqs [Lit (bsl :: open'); Grp 1 (Plus true (Not "}")); L "}"]) f
          (pre ++ (bsl :: open') ++ arg ++ txt "}" ++ post)
  = framed pre post r.
Proof.
  intros Hpre Hpost Harg Hne Hf. unfold sub_res.
  destruct (@match_open_arg (bsl :: open') arg post (rev pre) Harg Hne)
    as (m & Hm & Hg & Ht).
  replace (pre ++ (bsl :: open') ++ arg ++ txt "}" ++ post)
    with (pre ++ ((bsl :: open') ++ arg ++ txt "}") ++ post)
    by (now rewrite <- !app_assoc).
  rewrite (@scan_one_hit _ pre _ post m).
  - rewrite sub_pieces_res_Txt_app. cbn [sub_pieces_res].
    rewrite (Hf m Hg Ht), sub_pieces_res_map_Txt. unfold framed.
    now destruct r.
  - intros i Hi. apply match_here_head_lit.
    cbn [seqs head_lit app]. now apply plain_no_start.
  - discriminate.
  - rewrite <- !app_assoc. exact Hm.
  - intros i before. apply match_here_head_lit.
    cbn [seqs head_lit app].
    destruct (starts_with _ _) eqn:E; [|reflexivity].
    apply starts_with_head in E. now rewrite char_in_skipn_false in E.
Qed.

Section FileSystem.

Variable path : Type.
Variable joinpath : path -> str -> path.
Variable parent : path -> path.
Variable exists_ : path -> option bool.
Variable read_text : path -> option str.

Local Abbreviation resolve := (_resolve_includes joinpath parent exists_ read_text).

Lemma resolve_plain (content : str) (work_dir : path) (fuel : nat) (depth : Z) :
  plain content -> resolve (S fuel) content work_dir depth = Ok content.
Proof.
  unfold plain. intros H. cbn [_resolve_includes].
  destruct (depth >? 10)%Z; [reflexivity|].
  rewrite sub_res_untouched
    by (apply (@scan_needs bsl); [reflexivity | assumption]).
  cbn [bind].
  now rewrite sub_res_untouched
    by (apply (@scan_needs bsl); [reflexivity | assumption]).
Qed.

(** The file a directive names: [.tex] is added to a name without it. *)
Definition include_file (work_dir : path) (f : str) : path :=
  joinpath work_dir
    (if negb (endswith f (txt ".tex")) then f ++ txt ".tex" else f).

(** The two directives. *)
Definition directive (input : bool) (f : str) : str :=
  (if input then txt "\input{" else txt "\include{") ++ f ++ txt "}".

Lemma directive_rest (input : bool) (f post : str) :
  exists rest,
    directive input f ++ post = bsl :: rest
    /\ (plain f -> plain post -> char_in bsl rest = false)
    /\ starts_with (if input then txt "\include{" else txt "\input{")
                   (bsl :: rest) = false.
Proof.
  destruct input.
  - exists (txt "input{" ++ f ++ txt "}" ++ post).
    split; [unfold directive; now rewrite <- !app_assoc|].
    split; [|reflexivity].
    unfold plain. intros Hf Hp. now rewrite !char_in_app, Hf, Hp.
  - exists (txt "include{" ++ f ++ txt "}" ++ post).
    split; [unfold directive; now rewrite <- !app_assoc|].
    split; [|reflexivity].
    unfold plain. intros Hf Hp. now rewrite !char_in_app, Hf, Hp.
Qed.

(** X11. One [\input] or [\include] directive in plain text. When the
    existence check says that the file is not there, the text stays as it
    is, directive and all; when the file is there and holds plain text,
    that text takes the place of the directive; when it is there and
    cannot be read, the stage raises; and when the existence check itself
    raises, as it does for a name that is too long, the stage raises
    too. *)
Theorem resolve_includes_inlines :
  forall (input : bool) (work_dir : path) (pre f post : str) (fuel : nat),
    plain pre -> plain f -> plain post ->
    f <> [] -> char_in "}" f = false ->
    let content := pre ++ directive input f ++ post in
    let file := include_file work_dir f in
    (exists_ file = Some false ->
     resolve (S fuel) content work_dir 0 = Ok content)
    /\ (forall sub, exists_ file = Some true -> read_text file = Some sub ->
                    plain sub ->
                    resolve (S (S fuel)) content work_dir 0
                    = Ok (pre ++ sub ++ post))
    /\ (exists_ file = Some true -> read_text file = None ->
        resolve (S fuel) content work_dir 0 = Raise OSError)
    /\ (exists_ file = None ->
        resolve (S fuel) content work_dir 0 = Raise OSError).
Proof.
  intros input work_dir pre f post fuel Hpre Hf Hpost Hne Hbrace content file.
  destruct (directive_rest input f post) as (rest & Hrest & Hplain & Hother).
  specialize (Hplain Hf Hpost).
  assert (Hcontent : content = pre ++ bsl :: rest).
  { unfold content. now rewrite <- Hrest. }
  (* the pass for the other directive changes nothing *)
  assert (Hskip : forall cb,
            sub_res (if input then include_re else input_re) cb content
            = Ok content).
  { intros cb. apply sub_res_untouched, scan_head_lit. rewrite Hcontent.
    destruct input; apply first_occ_one_bsl; trivial. }
  (* the pass for the directive *)
  assert (Hhit : forall cb r,
            (forall m, group_or_empty m 1 = f ->
                       m_text m = directive input f -> cb m = r) ->
            sub_res (if input then input_re else include_re) cb content
            = framed pre post r).
  { intros cb r Hcb. unfold content, directive.
    destruct input.
    - rewrite <- !app_assoc.
      apply (@sub_res_open_arg (txt "input{") f pre post cb r); trivial.
    - rewrite <- !app_assoc.
      apply (@sub_res_open_arg (txt "include{") f pre post cb r); trivial. }
  (* the two passes, whichever the directive *)
  assert (Hboth : forall cb r,
            (forall m, group_or_empty m 1 = f ->
                       m_text m = directive input f -> cb m = r) ->
            (forall new, r = Ok new -> plain (pre ++ new ++ post)
                                       \/ pre ++ new ++ post = content) ->
            (content <- sub_res input_re cb content ;;
             sub_res include_re cb content) = framed pre post r).
  { intros cb r Hcb Hnew. destruct input.
    - rewrite (Hhit cb r Hcb). unfold framed.
      destruct r as [new| |]; cbn [bind]; trivial.
      destruct (Hnew new eq_refl) as [Hp| ->].
      + apply sub_res_untouched, (@scan_needs bsl); [reflexivity | exact Hp].
      + apply Hskip.
    - rewrite Hskip. cbn [bind]. apply (Hhit cb r Hcb). }
  assert (Hdir : pre ++ directive input f ++ post = content) by reflexivity.
  split; [|split; [|split]].
  - intros He. cbn [_resolve_includes]. cbn [Z.gtb Z.compare].
    rewrite (Hboth _ (Ok (directive input f))).
    + unfold framed. cbn [bind]. now rewrite Hdir.
    + intros m Hg Ht. cbv beta zeta. rewrite Hg.
      match goal with |- context [exists_ ?p] => change p with file end.
      now rewrite He, Ht.
    + intros new [= <-]. now right.
  - intros sub He Hr Hs. cbn [_resolve_includes]. cbn [Z.gtb Z.compare].
    rewrite (Hboth _ (Ok sub)).
    + reflexivity.
    + intros m Hg Ht. cbv beta zeta. rewrite Hg.
      match goal with |- context [exists_ ?p] => change p with file end.
      rewrite He, Hr. now apply resolve_plain.
    + intros new [= <-]. left. unfold plain in *.
      now rewrite !char_in_app, Hpre, Hs, Hpost.
  - intros He Hr. cbn [_resolve_includes]. cbn [Z.gtb Z.compare].
    rewrite (Hboth _ (Raise OSError)).
    + reflexivity.
    + intros m Hg Ht. cbv beta zeta. rewrite Hg.
      match goal with |- context [exists_ ?p] => change p with file end.
      now rewrite He, Hr.
    + intros new H. discriminate H.
  - intros He. cbn [_resolve_includes]. cbn [Z.gtb Z.compare].
    rewrite (Hboth _ (Raise OSError)).
    + reflexivity.
    + intros m Hg Ht. cbv beta zeta. rewrite Hg.
      match goal with |- context [exists_ ?p] => change p with file end.
      now rewrite He.
    + intros new H. discriminate H.
Qed.

End FileSystem.

Lemma resolve_includes_inlines_witness :
  _resolve_includes paper_join paper_parent paper_exists paper_read 2
    (txt "Note. \input{intro} See below.") (txt "paper") 0
  = Ok (txt "Note. Trees are graphs. See below.")
  /\ _resolve_includes paper_join paper_parent paper_exists paper_read 1
       (txt "Note. \include{outro.tex} End.") (txt "paper") 0
     = Ok (txt "Note. \include{outro.tex} End.")
  /\ _resolve_includes paper_join paper_parent paper_exists paper_read 1
       (txt "Note. " ++ txt "\input{" ++ repeat "a"%char 300 ++ txt "}"
        ++ txt " End.") (txt "paper") 0
     = Raise OSError.
Proof.
  split; [|split].
  - refine (proj1 (proj2 (@resolve_includes_inlines str paper_join paper_parent
                            paper_exists paper_read true (txt "paper")
                            (txt "Note. ") (txt "intro") (txt " See below.") 0
                            eq_refl eq_refl eq_refl _ eq_refl))
                  (txt "Trees are graphs.") eq_refl eq_refl eq_refl).
    discriminate.
  - refine (proj1 (@resolve_includes_inlines str paper_join paper_parent
                     paper_exists paper_read false (txt "paper")
                     (txt "Note. ") (txt "outro.tex") (txt " End.") 0
                     eq_refl eq_refl eq_refl _ eq_refl) eq_refl).
    discriminate.
  - refine (proj2 (proj2 (proj2
             (@resolve_includes_inlines str paper_join paper_parent
                paper_exists paper_read true (txt "paper")
                (txt "Note. ") (repeat "a"%char 300) (txt " End.") 0
                eq_refl eq_refl eq_refl _ eq_refl))) eq_refl).
    discriminate.
Defined.

End Inlining.

(* ================================================================== *)
(** ** The file name made of a title *)
(* ================================================================== *)

Section Slug.

Import Re PyMore Cli.

(** *** Stripping a set of characters *)

Lemma lstrip_chars_suffix (chars s : str) :
  exists v, s = v ++ lstrip_chars chars s.
Proof.
  induction s as [|c s (v & Hv)]; [now exists []|].
  simpl. destruct (char_in c chars).
  - exists (c :: v). simpl. now f_equal.
  - now exists [].
Qed.

Lemma lstrip_chars_head (chars s : str) :
  match lstrip_chars chars s with
  | [] => true
  | c :: _ => negb (char_in c chars)
  end = true.
Proof.
  induction s as [|c s IH]; [reflexivity|].
  simpl. destruct (char_in c chars) eqn:E; [exact IH|]. simpl. now rewrite E.
Qed.

Lemma rstrip_chars_prefix (chars u : str) :
  exists v, u = rev (lstrip_chars chars (rev u)) ++ v.
Proof.
  destruct (lstrip_chars_suffix chars (rev u)) as (v & Hv).
  exists (rev v). rewrite <- rev_app_distr, <- Hv. now rewrite rev_involutive.
Qed.

Lemma rstrip_chars_head (chars u : str) :
  match u with [] => true | c :: _ => negb (char_in c chars) end = true ->
  match rev (lstrip_chars chars (rev u)) with
  | [] => true
  | c :: _ => negb (char_in c chars)
  end = true.
Proof.
  destruct u as [|c u]; [reflexivity|]. intros Hc.
  destruct (rstrip_chars_prefix chars (c :: u)) as (v & Hv).
  destruct (rev (lstrip_chars chars (rev (c :: u)))) as [|d w]; [reflexivity|].
  simpl in Hv. now injection Hv as <- _.
Qed.

(** The stripped text is a piece of the text, and neither of its ends
    is one of the characters. *)
Lemma strip_chars_spec (chars s : str) :
  (exists a b, s = a ++ strip_chars chars s ++ b)
  /\ match strip_chars chars s with
     | [] => true | c :: _ => negb (char_in c chars) end = true
  /\ match rev (strip_chars chars s) with
     | [] => true | c :: _ => negb (char_in c chars) end = true.
Proof.
  unfold strip_chars. split; [|split].
  - destruct (lstrip_chars_suffix chars s) as (a & Ha).
    destruct (rstrip_chars_prefix chars (lstrip_chars chars s)) as (b & Hb).
    exists a, b. now rewrite <- Hb.
  - apply rstrip_chars_head, lstrip_chars_head.
  - rewrite rev_involutive. apply lstrip_chars_head.
Qed.

(** *** The text before the last separator *)

Lemma before_last_spec (sep : ascii) (rs : str) :
  match before_last sep rs with
  | Some h => exists t, rev rs = h ++ sep :: t /\ char_in sep t = false
  | None => char_in sep rs = false
  end.
Proof.
  induction rs as [|c rs IH]; [reflexivity|].
  cbn [before_last]. destruct (Ascii.eqb c sep) eqn:E.
  - apply Ascii.eqb_eq in E. subst c. exists []. split; [reflexivity|reflexivity].
  - destruct (before_last sep rs) as [h|].
    + destruct IH as (t & Ht & Hc). exists (t ++ [c]). split.
      * cbn [rev]. rewrite Ht. now rewrite <- app_assoc.
      * rewrite char_in_app, Hc. unfold char_in. simpl.
        rewrite Ascii.eqb_sym, E. reflexivity.
    + unfold char_in in *. simpl. rewrite Ascii.eqb_sym, E. exact IH.
Qed.

Lemma rsplit1_head_spec (sep : ascii) (s : str) :
  (exists t, s = rsplit1_head sep s ++ sep :: t /\ char_in sep t = false)
  \/ (rsplit1_head sep s = s /\ char_in sep s = false).
Proof.
  unfold rsplit1_head. pose proof (before_last_spec sep (rev s)) as H.
  destruct (before_last sep (rev s)) as [h|].
  - left. destruct H as (t & Ht & Hc). rewrite rev_involutive in Ht. eauto.
  - right. split; [reflexivity|]. now rewrite char_in_rev in H.
Qed.

(** *** Small letters *)

Lemma lower_char_small (c : ascii) : between 65 90 (lower_char c) = false.
Proof. destruct c as [[] [] [] [] [] [] [] []]; reflexivity. Qed.

(** *** The slug *)

(** The characters of a slug: word characters that are no capital
    letters [A-Z], and hyphens. *)
Definition slug_char (c : ascii) : bool :=
  (is_word c && negb (between 65 90 c)) || Ascii.eqb c "-".

(** A safe name: slug characters only, no hyphen next to another or at
    either end, and no more than eighty characters. *)
Definition safe_name (slug : str) : Prop :=
  forallb slug_char slug = true
  /\ first_occ (txt "--") slug = None
  /\ starts_with (txt "-") slug = false
  /\ endswith slug (txt "-") = false
  /\ length slug <= 80.

Lemma hyphen_run (s : str) :
  runs_below hyphen_or_space 2 s -> first_occ (txt "--") s = None.
Proof.
  intros H. apply (@runs_below_first_occ hyphen_or_space); trivial. discriminate.
Qed.

Lemma head_not_hyphen (s : str) :
  match s with [] => true | c :: _ => negb (char_in c (txt "-")) end = true ->
  starts_with (txt "-") s = false.
Proof.
  destruct s as [|c s]; [reflexivity|].
  unfold char_in. cbn [existsb txt list_ascii_of_string starts_with].
  rewrite orb_false_r, andb_true_r. intros H. apply negb_true_iff in H.
  rewrite Ascii.eqb_sym. exact H.
Qed.

Lemma forallb_app_l {A : Type} (f : A -> bool) (a b : list A) :
  forallb f (a ++ b) = true -> forallb f a = true.
Proof. rewrite forallb_app. intros H. now apply andb_true_iff in H. Qed.

Lemma forallb_app_r {A : Type} (f : A -> bool) (a b : list A) :
  forallb f (a ++ b) = true -> forallb f b = true.
Proof. rewrite forallb_app. intros H. now apply andb_true_iff in H. Qed.

(** The steps up to the stripping. *)
Lemma slug_steps (title : str) :
  let s3 := sub_runs hyphen_or_space 1 (txt "-")
              (filter (fun c => negb (unsafe_char c)) (lower title)) 0 in
  forallb slug_char s3 = true /\ runs_below hyphen_or_space 2 s3.
Proof.
  intros s3. set (s2 := filter _ (lower title)) in *. split.
  - apply forallb_forall. intros c Hc. unfold slug_char.
    destruct (hyphen_or_space c) eqn:Eh.
    + apply (@sub_runs_chars hyphen_or_space (txt "-") (length s2) s2 (le_n _))
        in Hc; trivial.
      destruct Hc as [<-|[]]. reflexivity.
    + assert (H : In c (filter (fun c => negb (hyphen_or_space c)) s3))
        by (apply filter_In; split; [exact Hc | now rewrite Eh]).
      unfold s3 in H.
      rewrite (@sub_runs_others hyphen_or_space 1 (txt "-")) with (n := length s2)
        in H by (trivial; lia).
      apply filter_In in H as [H _]. unfold s2 in H.
      apply filter_In in H as [H Hu].
      unfold lower in H. apply in_map_iff in H as (x & <- & _).
      rewrite lower_char_small. cbn [negb]. rewrite andb_true_r.
      unfold unsafe_char in Hu. rewrite negb_involutive in Hu.
      unfold hyphen_or_space in Eh. apply orb_false_iff in Eh as [E1 E2].
      rewrite E1, E2, !orb_false_r in Hu. now rewrite Hu.
  - apply (@sub_runs_below hyphen_or_space 1 2 (txt "-")) with (n := length s2);
      trivial; simpl; lia.
Qed.

Lemma last_not_hyphen (h t : str) :
  runs_below hyphen_or_space 2 (h ++ "-"%char :: t) ->
  endswith h (txt "-") = false.
Proof.
  intros H. unfold endswith. cbn [rev app txt list_ascii_of_string].
  destruct (rev h) as [|c r] eqn:E; [reflexivity|].
  cbn [starts_with]. rewrite andb_true_r.
  destruct (Ascii.eqb "-" c) eqn:Ec; [|reflexivity].
  apply Ascii.eqb_eq in Ec. subst c.
  assert (Hh : h = rev r ++ ["-"%char]).
  { rewrite <- (rev_involutive h), E. reflexivity. }
  rewrite Hh, <- app_assoc in H. apply runs_below_suffix in H.
  cbn [app runs_below run_len] in H.
  replace (hyphen_or_space "-") with true in H by reflexivity.
  destruct H as [H _]. lia.
Qed.

(** The slug before it is cut to length. *)
Definition slug_stem (title : str) : str :=
  strip_chars (txt "-")
    (sub_runs hyphen_or_space 1 (txt "-")
       (filter (fun c => negb (unsafe_char c)) (lower title)) 0).

Lemma slugify_stem (title : str) :
  _slugify title
  = Ok (if 80 <? length (slug_stem title)
        then rsplit1_head "-" (firstn 80 (slug_stem title))
        else slug_stem title).
Proof.
  unfold _slugify, slug_stem.
  assert (E2 : remove (Cls unsafe_char) (lower title)
               = filter (fun c => negb (unsafe_char c)) (lower title)).
  { unfold remove. now rewrite sub_fun_cls, delete_class. }
  rewrite E2. set (s2 := filter _ (lower title)).
  assert (E3 : sub 0 (Plus true (Cls hyphen_or_space)) (txt "-") s2
               = Ok (sub_runs hyphen_or_space 1 (txt "-") s2 0)).
  { unfold sub. replace (negb (char_in bsl (txt "-"))) with true by reflexivity.
    f_equal. change (Plus true (Cls hyphen_or_space))
               with (at_least 1 (Cls hyphen_or_space)).
    apply sub_fun_runs; [apply one_char_cls | lia]. }
  rewrite E3. reflexivity.
Qed.

Lemma lower_char_word (c : ascii) : is_word (lower_char c) = is_word c.
Proof. destruct c as [[] [] [] [] [] [] [] []]; reflexivity. Qed.

Lemma word_kept (c : ascii) :
  is_word c = true -> unsafe_char c = false /\ hyphen_or_space c = false.
Proof.
  destruct c as [[] [] [] [] [] [] [] []]; intros H; try discriminate H;
    split; reflexivity.
Qed.

Lemma safe_no_word (c : ascii) :
  unsafe_char c = false -> is_word c = false -> hyphen_or_space c = true.
Proof.
  unfold unsafe_char, hyphen_or_space. intros Hu Hw.
  apply negb_false_iff in Hu. rewrite Hw in Hu. cbn [orb] in Hu.
  now rewrite orb_comm.
Qed.

Lemma lstrip_chars_keeps (chars s : str) (c : ascii) :
  In c s -> char_in c chars = false -> In c (lstrip_chars chars s).
Proof.
  induction s as [|x s IH]; [intros []|]. intros [<-|H] Hc; cbn [lstrip_chars].
  - rewrite Hc. now left.
  - destruct (char_in x chars); [now apply IH | now right].
Qed.

Lemma strip_chars_keeps (chars s : str) (c : ascii) :
  In c s -> char_in c chars = false -> In c (strip_chars chars s).
Proof.
  intros H Hc. unfold strip_chars. rewrite <- in_rev.
  apply lstrip_chars_keeps; trivial. rewrite <- in_rev.
  now apply lstrip_chars_keeps.
Qed.

Lemma lstrip_chars_all (chars s : str) :
  (forall c, In c s -> char_in c chars = true) -> lstrip_chars chars s = [].
Proof.
  induction s as [|x s IH]; [reflexivity|]. intros H. cbn [lstrip_chars].
  rewrite (H x) by now left. apply IH. intros c Hc. apply H. now right.
Qed.

(** A title with a word character has one in the stem of its slug; a
    title without has an empty stem. *)
Lemma slug_stem_word (title : str) :
  if existsb is_word title
  then exists w, In w (slug_stem title) /\ is_word w = true
  else slug_stem title = [].
Proof.
  unfold slug_stem. set (s2 := filter _ (lower title)).
  set (s3 := sub_runs hyphen_or_space 1 (txt "-") s2 0).
  assert (Hothers : filter (fun c => negb (hyphen_or_space c)) s3
                    = filter (fun c => negb (hyphen_or_space c)) s2).
  { unfold s3. apply (@sub_runs_others hyphen_or_space 1 (txt "-"))
      with (n := length s2); trivial; lia. }
  destruct (existsb is_word title) eqn:E.
  - apply existsb_exists in E as (c & Hc & Hw).
    exists (lower_char c). rewrite lower_char_word. split; [|exact Hw].
    assert (Hl : is_word (lower_char c) = true) by now rewrite lower_char_word.
    destruct (word_kept _ Hl) as [Hu Hh].
    apply strip_chars_keeps.
    + assert (H3 : In (lower_char c) (filter (fun c => negb (hyphen_or_space c)) s3)).
      { rewrite Hothers. apply filter_In. split; [|now rewrite Hh].
        unfold s2. apply filter_In. split; [|now rewrite Hu].
        unfold lower. now apply in_map. }
      now apply filter_In in H3.
    + unfold char_in. cbn [existsb txt list_ascii_of_string].
      rewrite orb_false_r. unfold hyphen_or_space in Hh.
      now apply orb_false_iff in Hh.
  - assert (Hno : forall c, In c s2 -> hyphen_or_space c = true).
    { intros c Hc. unfold s2 in Hc. apply filter_In in Hc as [Hc Hu].
      apply negb_true_iff in Hu. apply safe_no_word; [exact Hu|].
      unfold lower in Hc. apply in_map_iff in Hc as (x & <- & Hx).
      rewrite lower_char_word.
      destruct (is_word x) eqn:Ex; [|reflexivity].
      assert (existsb is_word title = true)
        by (apply existsb_exists; now exists x).
      congruence. }
    assert (H3 : forall c, In c s3 -> char_in c (txt "-") = true).
    { intros c Hc. destruct (hyphen_or_space c) eqn:Eh.
      - apply (@sub_runs_chars hyphen_or_space (txt "-") (length s2) s2 (le_n _))
          in Hc; trivial.
        destruct Hc as [<-|[]]. reflexivity.
      - assert (H : In c (filter (fun c => negb (hyphen_or_space c)) s3))
          by (apply filter_In; split; [exact Hc | now rewrite Eh]).
        rewrite Hothers in H. apply filter_In in H as [H _].
        apply Hno in H. congruence. }
    unfold strip_chars. rewrite (@lstrip_chars_all (txt "-") s3 H3). reflexivity.
Qed.

(** X12. Every title gives a safe name: small letters, digits,
    underscores and hyphens only, no hyphen next to another or at either
    end, no more than eighty characters. The name is empty for the titles
    without a word character, and for no other. *)
Theorem slugify_safe :
  forall title : str,
    exists slug,
      _slugify title = Ok slug
      /\ safe_name slug
      /\ (slug = [] <-> existsb is_word title = false).
Proof.
  intros title. rewrite slugify_stem.
  pose proof (slug_stem_word title) as Hword.
  destruct (slug_steps title) as [C3 R3].
  unfold slug_stem in *.
  set (s3 := sub_runs hyphen_or_space 1 (txt "-") _ 0) in *.
  destruct (strip_chars_spec (txt "-") s3) as ((a & b & Hm) & Hhead & Hlast).
  set (s4 := strip_chars (txt "-") s3) in *.
  assert (C4 : forallb slug_char s4 = true).
  { rewrite Hm in C3. apply forallb_app_r in C3. now apply forallb_app_l in C3. }
  assert (R4 : runs_below hyphen_or_space 2 s4).
  { rewrite Hm in R3. apply runs_below_suffix in R3.
    now apply runs_below_prefix in R3. }
  assert (H4 : starts_with (txt "-") s4 = false) by now apply head_not_hyphen.
  assert (L4 : endswith s4 (txt "-") = false).
  { unfold endswith. now apply head_not_hyphen. }
  eexists. split; [reflexivity|].
  destruct (Nat.ltb_spec 80 (length s4)) as [Hlong|Hshort].
  - set (u := firstn 80 s4).
    assert (Hu : s4 = u ++ skipn 80 s4) by (unfold u; now rewrite firstn_skipn).
    assert (Cu : forallb slug_char u = true).
    { rewrite Hu in C4. now apply forallb_app_l in C4. }
    assert (Ru : runs_below hyphen_or_space 2 u).
    { rewrite Hu in R4. now apply runs_below_prefix in R4. }
    assert (Lu : length u = 80) by (unfold u; rewrite length_firstn; lia).
    assert (Su : starts_with (txt "-") u = false).
    { destruct u as [|c u']; [reflexivity|].
      rewrite Hu in H4. exact H4. }
    assert (Hw : existsb is_word title = true).
    { destruct (existsb is_word title); [reflexivity|].
      rewrite Hword in Hlong. simpl in Hlong. lia. }
    destruct (rsplit1_head_spec "-" u) as [(t & Ht & Hc)|[Ht Hc]].
    + set (h := rsplit1_head "-" u) in *.
      assert (Ch : forallb slug_char h = true).
      { rewrite Ht in Cu. now apply forallb_app_l in Cu. }
      assert (Rh : runs_below hyphen_or_space 2 h).
      { rewrite Ht in Ru. now apply runs_below_prefix in Ru. }
      split; [repeat split; trivial|].
      * now apply hyphen_run.
      * destruct h as [|c h']; [reflexivity|]. rewrite Ht in Su. exact Su.
      * apply (@last_not_hyphen h t). now rewrite <- Ht.
      * rewrite Ht, length_app in Lu. lia.
      * rewrite Hw. split; [|discriminate]. intros Eh.
        rewrite Eh in Ht. rewrite Ht in Su. discriminate Su.
    + rewrite Ht. split; [repeat split; trivial|].
      * now apply hyphen_run.
      * unfold endswith. cbn [rev app txt list_ascii_of_string].
        destruct (rev u) as [|c r] eqn:E; [reflexivity|].
        cbn [starts_with]. rewrite andb_true_r.
        destruct (Ascii.eqb "-" c) eqn:Ec; [|reflexivity].
        apply Ascii.eqb_eq in Ec. subst c.
        rewrite <- char_in_rev, E in Hc. unfold char_in in Hc. simpl in Hc.
        discriminate.
      * lia.
      * rewrite Hw. split; [|discriminate]. intros Eu.
        rewrite Eu in Lu. discriminate Lu.
  - split; [repeat split; trivial; now apply hyphen_run|].
    destruct (existsb is_word title).
    + destruct Hword as (w & Hin & _). split; [|discriminate].
      intros E. rewrite E in Hin. destruct Hin.
    + now split.
Qed.

(** A title and its slug; a title of punctuation only gives the empty
    name. *)
Lemma slugify_examples :
  _slugify (txt "Attention Is All You Need!") = Ok (txt "attention-is-all-you-need")
  /\ _slugify (txt "  -- A/B: testing --  ") = Ok (txt "ab-testing")
  /\ _slugify (txt "?!") = Ok [].
Proof. repeat split; vm_compute; reflexivity. Qed.

End Slug.

(* ================================================================== *)
(** ** The texts a pattern passes *)
(* ================================================================== *)

Section Languages.

Import Re.

(** The texts that a pattern can pass, the conditions on what stands
    around them left out. *)
Fixpoint lang (r : regex) (w : str) : Prop :=
  match r with
  | Eps | NotAhead _ | Bol | Eol | WordB => w = []
  | Lit s => w = s
  | Cls p => exists c, w = [c] /\ p c = true
  | Seq a b => exists u v, w = u ++ v /\ lang a u /\ lang b v
  | Alt a b => lang a w \/ lang b w
  | Star _ a => exists ws, w = concat ws /\ Forall (lang a) ws
  | Grp _ a => lang a w
  end.

(** A step that passes a text of [P] and leaves the groups alone. *)
Definition passes (P : str -> Prop)
  (step : mstate -> (mstate -> option mstate) -> option mstate) : Prop :=
  forall st k out, step st k = Some out ->
  exists st' w, k st' = Some out /\ reaches st st' w
                /\ caps st' = caps st /\ P w.

Lemma star_loop_passes (P : str -> Prop) (greedy : bool) step :
  passes P step ->
  forall fuel,
    passes (fun w => exists ws, w = concat ws /\ Forall P ws)
           (fun st k => star_loop greedy step k fuel st).
Proof.
  intros Hs fuel.
  induction fuel as [|fuel IH]; intros st k out H; simpl in H.
  - exists st, []. split; [exact H|]. split; [apply reaches_refl|].
    split; [reflexivity|]. now exists [].
  - assert (Hagain : forall out,
      step st (fun st' => if length (rest st') <? length (rest st)
                          then star_loop greedy step k fuel st' else None) = Some out ->
      exists st' w, k st' = Some out /\ reaches st st' w /\ caps st' = caps st
                    /\ exists ws, w = concat ws /\ Forall P ws).
    { intros o Ho. apply Hs in Ho as (st1 & w1 & Hk1 & R1 & C1 & P1).
      destruct (length (rest st1) <? length (rest st)); [|discriminate].
      apply IH in Hk1 as (st2 & w2 & Hk2 & R2 & C2 & ws & -> & Hws).
      exists st2, (w1 ++ concat ws). split; [exact Hk2|].
      split; [eapply reaches_trans; eauto|]. split; [congruence|].
      exists (w1 :: ws). split; [reflexivity | now constructor]. }
    destruct greedy.
    + destruct (step st _) as [o|] eqn:E.
      * injection H as <-. now apply Hagain.
      * exists st, []. split; [exact H|]. split; [apply reaches_refl|].
        split; [reflexivity|]. now exists [].
    + destruct (k st) as [o|] eqn:E.
      * injection H as <-. exists st, [].
        split; [exact E|]. split; [apply reaches_refl|].
        split; [reflexivity|]. now exists [].
      * now apply Hagain.
Qed.

(** A pattern without a group passes a text of its language. *)
Lemma run_lang (r : regex) : group_free r = true -> passes (lang r) (run r).
Proof.
  induction r as [ | s | p | a IHa b IHb | a IHa b IHb | g a IHa | n a IHa
                 | a IHa | | | ]; intros G st k out H; simpl in H, G;
    try (apply andb_true_iff in G as [Ga Gb]); try discriminate.
  - exists st, []. split; [exact H|]. split; [apply reaches_refl|]. now split.
  - destruct (starts_with s (rest st)) eqn:E; [|discriminate].
    eexists _, s. split; [exact H|]. split; [|now split].
    split; simpl; [now apply starts_with_inv | reflexivity].
  - destruct (rest st) as [|c tl] eqn:E; [discriminate|].
    destruct (p c) eqn:Ep; [|discriminate].
    eexists _, [c]. split; [exact H|]. split; [|split; [reflexivity|]].
    + split; simpl; [exact E | reflexivity].
    + now exists c.
  - apply (IHa Ga) in H as (st1 & w1 & H & R1 & C1 & L1).
    apply (IHb Gb) in H as (st2 & w2 & H & R2 & C2 & L2).
    exists st2, (w1 ++ w2). split; [exact H|].
    split; [eapply reaches_trans; eauto|]. split; [congruence|].
    now exists w1, w2.
  - destruct (run a st k) as [o|] eqn:E.
    + injection H as <-. apply (IHa Ga) in E as (st1 & w1 & H & R1 & C1 & L1).
      exists st1, w1. repeat split; trivial; try apply R1. now left.
    + apply (IHb Gb) in H as (st1 & w1 & H & R1 & C1 & L1).
      exists st1, w1. repeat split; trivial; try apply R1. now right.
  - apply (@star_loop_passes (lang a) g (run a) (IHa G)) in H. exact H.
  - destruct (run a st _); [discriminate|].
    exists st, []. split; [exact H|]. split; [apply reaches_refl|]. now split.
  - destruct (at_bol st); [|discriminate].
    exists st, []. split; [exact H|]. split; [apply reaches_refl|]. now split.
  - destruct (at_eol st); [|discriminate].
    exists st, []. split; [exact H|]. split; [apply reaches_refl|]. now split.
  - destruct (at_wordb st); [|discriminate].
    exists st, []. split; [exact H|]. split; [apply reaches_refl|]. now split.
Qed.

(** A group records a text of the language of its pattern. *)
Lemma run_grp_lang (n : nat) (a : regex) : group_free a = true ->
  forall st k out, run (Grp n a) st k = Some out ->
  exists st' w, k (MState (seen st') (rest st') ((n, w) :: caps st)) = Some out
                /\ reaches st st' w /\ lang a w.
Proof.
  intros G st k out H. cbn [run] in H.
  apply (run_lang a G) in H as (st' & w & Hk & R & C & L).
  exists st', w. split; [|now split].
  unfold consumed in Hk. destruct R as [R Sn]. rewrite R in Hk.
  rewrite length_app, Nat.add_sub in Hk.
  now rewrite firstn_app, firstn_all, Nat.sub_diag, app_nil_r, C in Hk.
Qed.

End Languages.

(* ================================================================== *)
(** ** The identifiers the parser returns *)
(* ================================================================== *)

Section ArxivIds.

Import Re PyMore Downloader.

(** A version: nothing, or [v] and one digit or more. *)
Definition is_version (v : str) : bool :=
  match v with
  | [] => true
  | c :: n =>
      Ascii.eqb c "v" && match n with [] => false | _ => forallb is_digit n end
  end.

(** An identifier: four digits, a dot, four or five digits, a version. *)
Definition is_arxiv_id (id : str) : bool :=
  match id with
  | d1 :: d2 :: d3 :: d4 :: dot :: d5 :: d6 :: d7 :: d8 :: tl =>
      forallb is_digit [d1; d2; d3; d4; d5; d6; d7; d8]
      && Ascii.eqb dot "."
      && (is_version tl
          || match tl with
             | d9 :: tl' => is_digit d9 && is_version tl'
             | [] => false
             end)
  | _ => false
  end.

Lemma digits_concat (ws : list str) :
  Forall (lang Digit) ws -> forallb is_digit (concat ws) = true.
Proof.
  induction 1 as [|w ws (c & -> & Hc) _ IH]; [reflexivity|].
  simpl. now rewrite Hc, IH.
Qed.

Lemma version_lang (v : str) :
  lang (Opt (Seq (L "v") (Plus true Digit))) v -> is_version v = true.
Proof.
  intros [(u & w & -> & -> & (a & b & -> & (c & -> & Hc) & ws & -> & Hws))| ->];
    [|reflexivity].
  cbn. rewrite Hc. cbn. now apply digits_concat.
Qed.

(** The texts of the pattern are identifiers. *)
Lemma id_body_lang (w : str) : lang id_body w -> is_arxiv_id w = true.
Proof.
  unfold id_body. cbn [seqs]. intros H.
  destruct H as (u1 & w1 & -> & (d1 & -> & H1) & H).
  destruct H as (u2 & w2 & -> & (d2 & -> & H2) & H).
  destruct H as (u3 & w3 & -> & (d3 & -> & H3) & H).
  destruct H as (u4 & w4 & -> & (d4 & -> & H4) & H).
  destruct H as (u5 & w5 & -> & -> & H).
  destruct H as (u6 & w6 & -> & (d5 & -> & H5) & H).
  destruct H as (u7 & w7 & -> & (d6 & -> & H6) & H).
  destruct H as (u8 & w8 & -> & (d7 & -> & H7) & H).
  destruct H as (u9 & w9 & -> & (d8 & -> & H8) & H).
  destruct H as (o & v & -> & Ho & Hv).
  apply version_lang in Hv.
  cbn [app L txt list_ascii_of_string is_arxiv_id forallb].
  rewrite H1, H2, H3, H4, H5, H6, H7, H8. cbn [andb Ascii.eqb Bool.eqb].
  destruct Ho as [(d9 & -> & H9)| ->].
  - cbn [app]. rewrite H9, Hv. cbn. apply orb_true_r.
  - cbn [app]. now rewrite Hv.
Qed.

Lemma search_hit_of (r : regex) (s : str) (m : rmatch) :
  search r s = Some m -> hit_of r m.
Proof.
  unfold search, finditer. intros H.
  pose proof (scan_hit_of r s) as F.
  destruct (hits (scan r s)) as [|m' l]; [discriminate|].
  injection H as <-. now inversion F.
Qed.

Lemma rematch_hit_of (r : regex) (s : str) (m : rmatch) :
  rematch r s = Some m -> hit_of r m.
Proof.
  unfold rematch. intros H.
  destruct (match_here r false [] s) as [[m' n]|] eqn:E; [|discriminate].
  injection H as <-. red. eauto.
Qed.

Lemma url_hit (m : rmatch) :
  hit_of _ARXIV_URL_RE m ->
  exists id, group m 1 = Some id /\ is_arxiv_id id = true.
Proof.
  intros (adv & before & after & n & H). unfold match_here in H.
  destruct (run _ _ _) as [st|] eqn:E; [|discriminate].
  injection H as <- _.
  unfold _ARXIV_URL_RE in E. cbn [seqs] in E.
  do 5 (rewrite run_seq in E; apply run_sound in E as (? & ? & E & _);
        cbv beta in E).
  apply run_grp_lang in E as (st' & w & E & _ & Hl); [|reflexivity].
  destruct (_ && _); [discriminate|]. injection E as <-.
  exists w. split; [reflexivity | now apply id_body_lang].
Qed.

Lemma id_hit (m : rmatch) :
  hit_of _ARXIV_ID_RE m ->
  exists id, group m 1 = Some id /\ is_arxiv_id id = true.
Proof.
  intros (adv & before & after & n & H). unfold match_here in H.
  destruct (run _ _ _) as [st|] eqn:E; [|discriminate].
  injection H as <- _.
  unfold _ARXIV_ID_RE in E. cbn [seqs] in E.
  rewrite run_seq in E. apply run_keeps_caps in E as (st1 & ? & E & _ & C1);
    [|reflexivity].
  cbv beta in E. rewrite run_seq in E.
  apply run_grp_lang in E as (st' & w & E & _ & Hl); [|reflexivity].
  apply run_keeps_caps in E as (st2 & ? & E & _ & C2); [|reflexivity].
  destruct (_ && _); [discriminate|]. injection E as <-.
  exists w. split; [|now apply id_body_lang].
  cbn [group m_caps]. rewrite C2. reflexivity.
Qed.

(** X13. For an input of 8-bit characters, the texts of this
    development: whatever the parser returns is an identifier, made of
    the digits [0] to [9], a dot and a version, and of nothing else of the
    input, and so is the address that the download asks for. The patterns
    are compiled without [re.ASCII], so that [\d] stands for every decimal
    digit of Unicode; below code point 256 these are the digits [0] to
    [9], and an input with other digits lies outside this statement. *)
Theorem parse_arxiv_id_shape :
  forall input_str id : str,
    parse_arxiv_id input_str = Some id -> is_arxiv_id id = true.
Proof.
  intros input_str id. unfold parse_arxiv_id.
  destruct (search _ARXIV_URL_RE input_str) as [m|] eqn:Es.
  - apply search_hit_of, url_hit in Es as (id' & -> & Hid). now intros [= <-].
  - destruct (rematch _ARXIV_ID_RE (strip input_str)) as [m|] eqn:Em;
      [|discriminate].
    apply rematch_hit_of, id_hit in Em as (id' & -> & Hid). now intros [= <-].
Qed.

Lemma parse_arxiv_id_shape_witness : is_arxiv_id (txt "2602.03545") = true.
Proof.
  apply (@parse_arxiv_id_shape (txt "see arxiv.org/abs/2602.035456789 (v2)")).
  vm_compute. reflexivity.
Defined.

End ArxivIds.

Section ArxivRoundTrip.

Import Re PyMore Downloader.

(** What can follow an identifier without being read as more of it. *)
Definition ends_id (post : str) : bool :=
  match post with
  | [] => true
  | c :: _ => negb (is_digit c) && negb (Ascii.eqb c "v")
  end.

Lemma run_digit (c : ascii) (tl sn : str) (cp : list (nat * str)) k :
  is_digit c = true ->
  run Digit (MState sn (c :: tl) cp) k = k (MState (c :: sn) tl cp).
Proof. intros H. cbn [run Digit rest seen caps]. now rewrite H. Qed.

Lemma run_version (v post sn : str) (cp : list (nat * str)) k out :
  is_version v = true -> ends_id post = true ->
  k (MState (rev v ++ sn) post cp) = Some out ->
  run (Opt (Seq (L "v") (Plus true Digit))) (MState sn (v ++ post) cp) k = Some out.
Proof.
  intros Hv Hp Hk. unfold Opt, Plus, L. cbn [run].
  destruct v as [|c [|d n]]; try (simpl in Hv; rewrite ?andb_false_r in Hv; discriminate).
  - cbn [app rev] in *. destruct post as [|c post].
    + cbn. exact Hk.
    + simpl in Hp. apply andb_true_iff in Hp as [_ Hp].
      apply negb_true_iff in Hp. rewrite Ascii.eqb_sym in Hp.
      cbn [txt list_ascii_of_string starts_with rest]. rewrite Hp.
      cbn. exact Hk.
  - cbn [is_version] in Hv. apply andb_true_iff in Hv as [Hc Hd].
    apply Ascii.eqb_eq in Hc. subst c.
    cbn [forallb] in Hd. apply andb_true_iff in Hd as [Hd Hn].
    cbn [app txt list_ascii_of_string starts_with rest seen caps Ascii.eqb
         Bool.eqb andb skipn length rev run Digit].
    rewrite Hd. cbn [rest seen caps].
    assert (Hpost : match post with [] => true | c :: _ => negb (is_digit c) end
                    = true).
    { destruct post as [|c post]; [reflexivity|]. simpl in Hp.
      now apply andb_true_iff in Hp as [Hp _]. }
    rewrite (@star_greedy_run is_digit k post cp out Hpost n); trivial.
    + rewrite length_app. lia.
    + cbn [rev app] in Hk. rewrite <- !app_assoc in Hk. exact Hk.
Qed.

(** The pattern passes an identifier that the text ahead does not go on
    with. *)
Lemma run_id_body (id post sn : str) (cp : list (nat * str)) k out :
  is_arxiv_id id = true -> ends_id post = true ->
  k (MState (rev id ++ sn) post cp) = Some out ->
  run id_body (MState sn (id ++ post) cp) k = Some out.
Proof.
  intros Hid Hp Hk.
  destruct id as [|d1 [|d2 [|d3 [|d4 [|dot [|d5 [|d6 [|d7 [|d8 tl]]]]]]]]];
    try discriminate.
  cbn [is_arxiv_id forallb] in Hid.
  apply andb_true_iff in Hid as [Hid Htl].
  apply andb_true_iff in Hid as [Hd Hdot].
  apply Ascii.eqb_eq in Hdot. subst dot.
  apply andb_true_iff in Hd as [H1 Hd]. apply andb_true_iff in Hd as [H2 Hd].
  apply andb_true_iff in Hd as [H3 Hd]. apply andb_true_iff in Hd as [H4 Hd].
  apply andb_true_iff in Hd as [H5 Hd]. apply andb_true_iff in Hd as [H6 Hd].
  apply andb_true_iff in Hd as [H7 Hd]. apply andb_true_iff in Hd as [H8 _].
  unfold id_body. cbn [seqs app].
  rewrite run_seq, run_digit by assumption.
  rewrite run_seq, run_digit by assumption.
  rewrite run_seq, run_digit by assumption.
  rewrite run_seq, run_digit by assumption.
  rewrite run_seq.
  change ("."%char :: d5 :: d6 :: d7 :: d8 :: tl ++ post)
    with (txt "." ++ d5 :: d6 :: d7 :: d8 :: tl ++ post).
  unfold L. rewrite run_lit. cbn [rev txt list_ascii_of_string app].
  rewrite run_seq, run_digit by assumption.
  rewrite run_seq, run_digit by assumption.
  rewrite run_seq, run_digit by assumption.
  rewrite run_seq, run_digit by assumption.
  rewrite run_seq.
  cbn [rev app] in Hk. rewrite <- !app_assoc in Hk. cbn [app] in Hk.
  apply orb_true_iff in Htl as [Hv|Hv].
  - (* four digits after the dot *)
    unfold Opt at 1. cbn [run].
    match goal with |- context [run Digit ?st ?K] =>
      assert (Hd : run Digit st K = None) end.
    { destruct tl as [|c tl].
      - destruct post as [|c post]; [reflexivity|]. simpl in Hp.
        apply andb_true_iff in Hp as [Hp _]. apply negb_true_iff in Hp.
        cbn [app run Digit rest]. now rewrite Hp.
      - cbn [is_version] in Hv. apply andb_true_iff in Hv as [Hc _].
        apply Ascii.eqb_eq in Hc. subst c. reflexivity. }
    rewrite Hd.
    apply (@run_version tl post _ cp k out Hv Hp). exact Hk.
  - (* five digits *)
    destruct tl as [|d9 tl]; [discriminate|].
    apply andb_true_iff in Hv as [H9 Hv].
    unfold Opt at 1. cbn [run app]. rewrite run_digit by exact H9.
    change (Lit ["v"%char]) with (L "v").
    rewrite (@run_version tl post _ cp k out Hv Hp); [reflexivity|].
    cbn [rev app] in Hk. rewrite <- !app_assoc in Hk. exact Hk.
Qed.

Lemma run_id_group (id post sn : str) (cp : list (nat * str)) k out :
  is_arxiv_id id = true -> ends_id post = true ->
  k (MState (rev id ++ sn) post ((1, id) :: cp)) = Some out ->
  run (Grp 1 id_body) (MState sn (id ++ post) cp) k = Some out.
Proof.
  intros Hid Hp Hk. cbn [run]. apply run_id_body; trivial.
  cbn [rest seen caps]. unfold consumed. cbn [rest].
  rewrite length_app, Nat.add_sub, firstn_app, firstn_all, Nat.sub_diag.
  cbn [firstn]. rewrite app_nil_r. exact Hk.
Qed.

End ArxivRoundTrip.

Section ArxivAccepts.

Import Re PyMore Downloader.

(** The characters of an identifier. *)
Definition id_char (c : ascii) : bool :=
  is_digit c || Ascii.eqb c "." || Ascii.eqb c "v".

Lemma id_char_facts (c : ascii) :
  id_char c = true -> is_space c = false /\ Ascii.eqb "/" c = false.
Proof.
  destruct c as [[] [] [] [] [] [] [] []]; intros H; try discriminate H;
    split; reflexivity.
Qed.

Lemma digits_id_chars (n : str) :
  forallb is_digit n = true -> forallb id_char n = true.
Proof.
  induction n as [|c n IH]; [reflexivity|]. simpl. intros H.
  apply andb_true_iff in H as [Hc Hn]. unfold id_char at 1.
  now rewrite Hc, IH.
Qed.

Lemma version_id_chars (v : str) :
  is_version v = true -> forallb id_char v = true.
Proof.
  destruct v as [|c n]; [reflexivity|]. cbn [is_version forallb]. intros H.
  apply andb_true_iff in H as [Hc Hn]. apply Ascii.eqb_eq in Hc. subst c.
  destruct n as [|d n]; [discriminate|]. cbn [id_char is_digit].
  now rewrite (digits_id_chars _ Hn).
Qed.

Lemma arxiv_id_chars (id : str) :
  is_arxiv_id id = true -> forallb id_char id = true /\ id <> [].
Proof.
  intros Hid. split; [|now destruct id].
  destruct id as [|d1 [|d2 [|d3 [|d4 [|dot [|d5 [|d6 [|d7 [|d8 tl]]]]]]]]];
    try discriminate.
  cbn [is_arxiv_id forallb] in Hid.
  apply andb_true_iff in Hid as [Hid Htl].
  apply andb_true_iff in Hid as [Hd Hdot].
  apply Ascii.eqb_eq in Hdot. subst dot.
  apply andb_true_iff in Hd as [H1 Hd]. apply andb_true_iff in Hd as [H2 Hd].
  apply andb_true_iff in Hd as [H3 Hd]. apply andb_true_iff in Hd as [H4 Hd].
  apply andb_true_iff in Hd as [H5 Hd]. apply andb_true_iff in Hd as [H6 Hd].
  apply andb_true_iff in Hd as [H7 Hd]. apply andb_true_iff in Hd as [H8 _].
  cbn [forallb]. unfold id_char at 1 2 3 4 5 6 7 8 9.
  rewrite H1, H2, H3, H4, H5, H6, H7, H8. cbn [orb andb is_digit].
  replace (is_digit "." || Ascii.eqb "." "." || Ascii.eqb "." "v") with true
    by reflexivity.
  cbn [andb].
  apply orb_true_iff in Htl as [Hv|Hv].
  - now apply version_id_chars.
  - destruct tl as [|d9 tl]; [discriminate|].
    apply andb_true_iff in Hv as [H9 Hv]. cbn [forallb].
    unfold id_char at 1. rewrite H9. cbn [orb andb].
    now apply version_id_chars.
Qed.

Lemma forallb_char_in (p : ascii -> bool) (c : ascii) (s : str) :
  (forall x, p x = true -> Ascii.eqb c x = false) ->
  forallb p s = true -> char_in c s = false.
Proof.
  intros Hp. induction s as [|x s IH]; [reflexivity|]. simpl. intros H.
  apply andb_true_iff in H as [Hx Hs]. unfold char_in in *. simpl.
  now rewrite (Hp x Hx), IH.
Qed.

Lemma space_not_slash (x : ascii) : is_space x = true -> Ascii.eqb "/" x = false.
Proof.
  destruct x as [[] [] [] [] [] [] [] []]; intros H; try discriminate H;
    reflexivity.
Qed.

Lemma lstrip_spaces (pre s : str) :
  forallb is_space pre = true -> lstrip (pre ++ s) = lstrip s.
Proof.
  induction pre as [|c pre IH]; [reflexivity|]. simpl. intros H.
  apply andb_true_iff in H as [Hc Hp]. rewrite Hc. now apply IH.
Qed.

Lemma lstrip_no_space (s t : str) :
  s <> [] -> forallb (fun c => negb (is_space c)) s = true ->
  lstrip (s ++ t) = s ++ t.
Proof.
  destruct s as [|c s]; [congruence|]. intros _ H. simpl in *.
  apply andb_true_iff in H as [Hc _]. apply negb_true_iff in Hc.
  now rewrite Hc.
Qed.

Lemma forallb_rev {A : Type} (f : A -> bool) (l : list A) :
  forallb f (rev l) = forallb f l.
Proof.
  induction l as [|a l IH]; [reflexivity|]. simpl.
  rewrite forallb_app, IH. simpl. now rewrite andb_true_r, andb_comm.
Qed.

(** White space around a text that has none is stripped and nothing
    else. *)
Lemma strip_spaces (pre s post : str) :
  forallb is_space pre = true -> forallb is_space post = true ->
  s <> [] -> forallb (fun c => negb (is_space c)) s = true ->
  strip (pre ++ s ++ post) = s.
Proof.
  intros Hpre Hpost Hne Hs. unfold strip.
  rewrite lstrip_spaces by exact Hpre.
  rewrite lstrip_no_space by assumption.
  rewrite rev_app_distr, lstrip_spaces by now rewrite forallb_rev.
  rewrite <- (app_nil_r (rev s)), lstrip_no_space.
  - now rewrite app_nil_r, rev_involutive.
  - intros E. apply (f_equal (@rev ascii)) in E. rewrite rev_involutive in E.
    now apply Hne.
  - now rewrite forallb_rev.
Qed.

Lemma id_match (id : str) :
  is_arxiv_id id = true ->
  exists m, rematch _ARXIV_ID_RE id = Some m /\ group m 1 = Some id.
Proof.
  intros Hid. unfold rematch, match_here, _ARXIV_ID_RE. cbn [seqs].
  rewrite run_seq.
  change (run Bol (MState [] id []) ?k) with (k (MState [] id [])).
  cbv beta. rewrite run_seq.
  match goal with |- context [run (Grp 1 id_body) _ ?K] =>
    eassert (E : run (Grp 1 id_body) (MState [] (id ++ []) []) K = Some _)
      by (apply run_id_group; [exact Hid | reflexivity | cbn; reflexivity])
  end.
  rewrite app_nil_r in E. rewrite E. eexists. split; reflexivity.
Qed.

Lemma url_match (scheme www kind id post : str) :
  In scheme [[]; txt "http://"; txt "https://"] ->
  In www [[]; txt "www."] ->
  In kind [txt "abs"; txt "pdf"; txt "html"; txt "src"] ->
  is_arxiv_id id = true -> ends_id post = true ->
  exists m n,
    match_here _ARXIV_URL_RE false []
      (scheme ++ www ++ txt "arxiv.org/" ++ kind ++ txt "/" ++ id ++ post)
    = Some (m, n)
    /\ group m 1 = Some id.
Proof.
  intros Hs Hw Hk Hid Hp. unfold match_here, _ARXIV_URL_RE.
  pose proof (fun sn cp k out => @run_id_group id post sn cp k out Hid Hp) as HG.
  set (G := Grp 1 id_body) in *. clearbody G.
  cbn [In] in Hs, Hw, Hk.
  destruct Hs as [<-|[<-|[<-|[]]]]; destruct Hw as [<-|[<-|[]]];
    destruct Hk as [<-|[<-|[<-|[<-|[]]]]];
    cbn;
    match goal with |- context [run G ?st ?K] =>
      let H := fresh in
      eassert (H : run G st K = Some _) by (apply HG; cbn; reflexivity);
      rewrite H
    end;
    eexists _, _; split; reflexivity.
Qed.

(** X14. An identifier is found where the tool says it reads one: alone,
    with white space around it or without, and in an address of arXiv,
    whatever follows it there that is no digit and no [v]. So the address
    of the download gives back the identifier it was made of. *)
Theorem parse_arxiv_id_accepts :
  forall id : str,
    is_arxiv_id id = true ->
    (forall pre post : str,
        forallb is_space pre = true -> forallb is_space post = true ->
        parse_arxiv_id (pre ++ id ++ post) = Some id)
    /\ (forall scheme www kind post : str,
           In scheme [[]; txt "http://"; txt "https://"] ->
           In www [[]; txt "www."] ->
           In kind [txt "abs"; txt "pdf"; txt "html"; txt "src"] ->
           ends_id post = true ->
           parse_arxiv_id
             (scheme ++ www ++ txt "arxiv.org/" ++ kind ++ txt "/" ++ id ++ post)
           = Some id)
    /\ parse_arxiv_id (source_url id) = Some id.
Proof.
  intros id Hid.
  assert (Hurl : forall scheme www kind post : str,
             In scheme [[]; txt "http://"; txt "https://"] ->
             In www [[]; txt "www."] ->
             In kind [txt "abs"; txt "pdf"; txt "html"; txt "src"] ->
             ends_id post = true ->
             parse_arxiv_id
               (scheme ++ www ++ txt "arxiv.org/" ++ kind ++ txt "/" ++ id ++ post)
             = Some id).
  { intros scheme www kind post Hs Hw Hk Hp. unfold parse_arxiv_id.
    destruct (@url_match scheme www kind id post Hs Hw Hk Hid Hp)
      as (m & n & Hm & Hg).
    assert (Hsf : search _ARXIV_URL_RE
                    (scheme ++ www ++ txt "arxiv.org/" ++ kind ++ txt "/" ++ id ++ post)
                  = Some m).
    { apply (@search_first _ARXIV_URL_RE [] _ m n); [|exact Hm].
      intros i Hi. simpl in Hi. lia. }
    rewrite Hsf. exact Hg. }
  split; [|split].
  - intros pre post Hpre Hpost. unfold parse_arxiv_id.
    destruct (arxiv_id_chars id Hid) as [Hc Hne].
    assert (Hslash : char_in "/" (pre ++ id ++ post) = false).
    { rewrite !char_in_app.
      rewrite (@forallb_char_in is_space "/" pre space_not_slash Hpre).
      rewrite (@forallb_char_in is_space "/" post space_not_slash Hpost).
      rewrite (@forallb_char_in id_char "/" id); trivial.
      intros x Hx. now apply id_char_facts. }
    rewrite search_untouched
      by (apply (@scan_needs "/"%char); [reflexivity | exact Hslash]).
    rewrite strip_spaces; trivial.
    + destruct (id_match id Hid) as (m & -> & Hg). exact Hg.
    + rewrite forallb_forall in *. intros x Hx.
      apply negb_true_iff. now apply id_char_facts, Hc.
  - exact Hurl.
  - unfold source_url.
    pose proof (Hurl (txt "https://") [] (txt "src") []) as H.
    rewrite app_nil_r in H. apply H; simpl; auto.
Qed.

Lemma parse_arxiv_id_accepts_witness :
  parse_arxiv_id (txt "  2602.03545v1 ") = Some (txt "2602.03545v1")
  /\ parse_arxiv_id (txt "http://www.arxiv.org/pdf/2602.03545v1.pdf")
     = Some (txt "2602.03545v1")
  /\ parse_arxiv_id (source_url (txt "2602.03545v1")) = Some (txt "2602.03545v1").
Proof.
  destruct (@parse_arxiv_id_accepts (txt "2602.03545v1") eq_refl) as (H1 & H2 & H3).
  split; [|split].
  - exact (H1 (txt "  ") (txt " ") eq_refl eq_refl).
  - apply (H2 (txt "http://") (txt "www.") (txt "pdf") (txt ".pdf"));
      simpl; auto.
  - exact H3.
Defined.

End ArxivAccepts.

(* ================================================================== *)
(** ** The extension of an image *)
(* ================================================================== *)

Section ImagePaths.

Import Re Preprocessor PyMore Pipeline.

Variable path : Type.
Variable joinpath : path -> str -> path.
Variable exists_ : path -> option bool.
Variable suffix : str -> str.

Local Abbreviation includegraphics := (txt "\includegraphics").

(** The directive without options, at the head of the text. *)
Lemma match_includegraphics (arg post before : str) :
  char_in "}" arg = false -> arg <> [] ->
  exists m,
    match_here includegraphics_re false before
      (includegraphics ++ txt "{" ++ arg ++ txt "}" ++ post)
    = Some (m, length (includegraphics ++ txt "{" ++ arg ++ txt "}"))
    /\ group_or_empty m 1 = []
    /\ group_or_empty m 2 = arg.
Proof.
  intros Hc Hne.
  assert (Hp : forallb (fun c => negb (char_in c (txt "}"))) arg = true).
  { apply forallb_forall. intros x Hx. apply negb_true_iff.
    simpl. rewrite orb_false_r. apply Ascii.eqb_neq. intros ->.
    apply char_in_false in Hc. contradiction. }
  assert (R : forall sn K out,
             K (MState (rev arg ++ sn) ("}"%char :: post) []) = Some out ->
             run (Plus true (Not "}")) (MState sn (arg ++ "}"%char :: post) []) K
             = Some out).
  { intros sn K out HK.
    destruct arg as [|a arg]; [congruence|].
    cbn [forallb] in Hp. apply andb_true_iff in Hp as [Ha Hp].
    cbv beta in Ha.
    unfold Plus, Not. cbn [run app rest seen caps].
    rewrite Ha.
    apply star_greedy_run; trivial.
    - rewrite length_app. lia.
    - cbn [rev] in HK. now rewrite <- app_assoc in HK. }
  eexists. unfold match_here, includegraphics_re. cbn [seqs].
  rewrite run_seq. unfold L at 1. rewrite run_lit.
  rewrite run_seq. unfold Opt at 1.
  change (txt "{" ++ arg ++ txt "}" ++ post)
    with ("{"%char :: arg ++ "}"%char :: post).
  cbn [run seqs L txt list_ascii_of_string starts_with rest seen caps
       Ascii.eqb Bool.eqb andb skipn length].
  erewrite R.
  2:{ cbn [rest seen caps]. reflexivity. }
  cbn [rest seen caps].
  unfold consumed. cbn [rest].
  assert (Hlen : length (includegraphics ++ "{"%char :: arg ++ "}"%char :: post)
                 - length post
                 = length (includegraphics ++ txt "{" ++ arg ++ txt "}")).
  { rewrite !length_app. cbn [length app txt list_ascii_of_string].
    rewrite !length_app. cbn [length]. lia. }
  assert (Hg : length (arg ++ "}"%char :: post) - length ("}"%char :: post)
               = length arg).
  { rewrite length_app. simpl. lia. }
  cbn [txt list_ascii_of_string] in Hlen. rewrite Hlen, Hg.
  split; [reflexivity|]. split; [reflexivity|].
  unfold group_or_empty, group. cbn [m_caps assoc Nat.eqb].
  now rewrite firstn_app, firstn_all, Nat.sub_diag, app_nil_r.
Qed.

(** What the loop over the extensions gives: the path as it is, when
    the check says no for every extension; the path with the first
    extension for which the check says yes; an error, when the check
    raises before it has said yes. *)
Lemma add_ext_first (work_dir : path) (path_str : str) (exts : list str) :
  (add_ext joinpath exists_ work_dir path_str exts = Ok path_str
   /\ forall ext, In ext exts ->
        exists_ (joinpath work_dir (path_str ++ ext)) = Some false)
  \/ (exists earlier ext later,
        exts = earlier ++ ext :: later
        /\ add_ext joinpath exists_ work_dir path_str exts = Ok (path_str ++ ext)
        /\ exists_ (joinpath work_dir (path_str ++ ext)) = Some true
        /\ forall e, In e earlier ->
             exists_ (joinpath work_dir (path_str ++ e)) = Some false)
  \/ (exists earlier ext later,
        exts = earlier ++ ext :: later
        /\ add_ext joinpath exists_ work_dir path_str exts = Raise OSError
        /\ exists_ (joinpath work_dir (path_str ++ ext)) = None
        /\ forall e, In e earlier ->
             exists_ (joinpath work_dir (path_str ++ e)) = Some false).
Proof.
  induction exts as [|ext exts IH].
  - left. split; [reflexivity | intros ext []].
  - cbn [add_ext].
    destruct (exists_ (joinpath work_dir (path_str ++ ext))) as [[|]|] eqn:E.
    + right. left. exists [], ext, exts. repeat split; trivial. intros e [].
    + destruct IH as [[Hn Hall]|[(earlier & x & later & -> & Ha & Hx & He)
                                |(earlier & x & later & -> & Ha & Hx & He)]].
      * left. split; [exact Hn|]. intros e [<-|He]; [exact E | now apply Hall].
      * right. left. exists (ext :: earlier), x, later. repeat split; trivial.
        intros e [<-|Hin]; [exact E | now apply He].
      * right. right. exists (ext :: earlier), x, later. repeat split; trivial.
        intros e [<-|Hin]; [exact E | now apply He].
    + right. right. exists [], ext, exts. repeat split; trivial. intros e [].
Qed.

Lemma add_ext_cases (work_dir : path) (path_str : str) (exts : list str) :
  (exists new, add_ext joinpath exists_ work_dir path_str exts = Ok new)
  \/ add_ext joinpath exists_ work_dir path_str exts = Raise OSError.
Proof.
  destruct (add_ext_first work_dir path_str exts)
    as [[H _]|[(a & x & b & _ & H & _)|(a & x & b & _ & H & _)]];
    rewrite H; eauto.
Qed.

Lemma add_ext_checked (work_dir : path) (path_str : str) (exts : list str) :
  (forall p, exists_ p <> None) ->
  exists new, add_ext joinpath exists_ work_dir path_str exts = Ok new.
Proof.
  intros Hc.
  destruct (add_ext_first work_dir path_str exts)
    as [[H _]|[(a & x & b & _ & H & _)|(a & x & b & _ & _ & H & _)]];
    [eauto | eauto | now apply Hc in H].
Qed.

Lemma sub_pieces_res_returns (f : rmatch -> res str) (ps : list piece) :
  (forall m, exists new, f m = Ok new) ->
  exists out, sub_pieces_res f ps = Ok out.
Proof.
  intros Hf. induction ps as [|[c|m] ps [out IH]]; cbn [sub_pieces_res].
  - now eexists.
  - rewrite IH. now eexists.
  - destruct (Hf m) as [new ->]. rewrite IH. now eexists.
Qed.

Lemma sub_pieces_res_raises (e : exn) (f : rmatch -> res str) (ps : list piece) :
  (forall m, (exists new, f m = Ok new) \/ f m = Raise e) ->
  (exists out, sub_pieces_res f ps = Ok out) \/ sub_pieces_res f ps = Raise e.
Proof.
  intros Hf. induction ps as [|[c|m] ps [[out IH]|IH]]; cbn [sub_pieces_res].
  - left. now eexists.
  - rewrite IH. left. now eexists.
  - rewrite IH. now right.
  - destruct (Hf m) as [[new ->]| ->]; [|now right].
    rewrite IH. left. now eexists.
  - destruct (Hf m) as [[new ->]| ->]; [|now right].
    rewrite IH. now right.
Qed.

(** The rest of the callback, once the path is settled. *)
Lemma fix_path_rest (opts path_str : str) :
  exists new,
    (opts <- sub 0 width_re (txt "width=\\textwidth") opts ;;
     opts <- sub 0 scaled_width_re (txt "width=\\textwidth") opts ;;
     match opts with
     | _ :: _ =>
         Ok (txt "\includegraphics[" ++ opts ++ txt "]{" ++ path_str ++ txt "}")
     | [] => Ok (txt "\includegraphics{" ++ path_str ++ txt "}")
     end) = Ok new.
Proof.
  destruct (@sub_total 0 width_re (txt "width=\\textwidth") opts eq_refl)
    as [f1 ->]. cbn [bind].
  destruct (@sub_total 0 scaled_width_re (txt "width=\\textwidth")
              (sub_fun width_re f1 opts) eq_refl) as [f2 ->].
  cbn [bind]. destruct (sub_fun scaled_width_re f2 _); now eexists.
Qed.

Lemma fix_path_cases (work_dir : path) (m : rmatch) :
  (exists new, _fix_path joinpath exists_ suffix work_dir m = Ok new)
  \/ _fix_path joinpath exists_ suffix work_dir m = Raise OSError.
Proof.
  unfold _fix_path. cbv zeta.
  destruct (suffix (group_or_empty m 2)).
  - destruct (add_ext_cases work_dir (group_or_empty m 2) image_exts)
      as [[new ->]| ->]; cbn [bind]; [|now right].
    left. apply fix_path_rest.
  - cbn [bind]. left. apply fix_path_rest.
Qed.

Lemma fix_path_checked (work_dir : path) (m : rmatch) :
  (forall p, exists_ p <> None) ->
  exists new, _fix_path joinpath exists_ suffix work_dir m = Ok new.
Proof.
  intros Hc. unfold _fix_path. cbv zeta.
  destruct (suffix (group_or_empty m 2)).
  - destruct (add_ext_checked work_dir (group_or_empty m 2) image_exts Hc)
      as [new ->]. cbn [bind]. apply fix_path_rest.
  - cbn [bind]. apply fix_path_rest.
Qed.

Lemma fix_image_paths_cases (content : str) (work_dir : path) :
  (exists out, _fix_image_paths joinpath exists_ suffix content work_dir = Ok out)
  \/ _fix_image_paths joinpath exists_ suffix content work_dir = Raise OSError.
Proof.
  unfold _fix_image_paths, sub_res.
  apply sub_pieces_res_raises. intros m. apply fix_path_cases.
Qed.

Lemma fix_image_paths_checked (content : str) (work_dir : path) :
  (forall p, exists_ p <> None) ->
  exists out, _fix_image_paths joinpath exists_ suffix content work_dir = Ok out.
Proof.
  intros Hc. unfold _fix_image_paths, sub_res.
  apply sub_pieces_res_returns. intros m. now apply fix_path_checked.
Qed.

(** X15. Whatever the text and the directory, the stage returns a text
    or raises [OSError], and it returns when no existence check raises.
    For an [\includegraphics] without options in plain text, a path with a
    suffix is kept; a path without one gets the first of [.png], [.jpg],
    [.jpeg], [.pdf], [.svg] for which the check says that a file is there,
    and is kept when it says no for all five; when the check raises
    before it has said yes, as it does for a name that is too long, the
    stage raises. *)
Theorem fix_image_paths_extension :
  forall (work_dir : path),
    (forall content,
        (exists out,
            _fix_image_paths joinpath exists_ suffix content work_dir = Ok out)
        \/ _fix_image_paths joinpath exists_ suffix content work_dir
           = Raise OSError)
    /\ (forall content,
          (forall p, exists_ p <> None) ->
          exists out,
            _fix_image_paths joinpath exists_ suffix content work_dir = Ok out)
    /\ (forall pre path_str post : str,
          plain pre -> plain post ->
          path_str <> [] -> char_in "}" path_str = false ->
          _fix_image_paths joinpath exists_ suffix
            (pre ++ includegraphics ++ txt "{" ++ path_str ++ txt "}" ++ post)
            work_dir
          = (resolved <-
               match suffix path_str with
               | [] => add_ext joinpath exists_ work_dir path_str image_exts
               | _ => Ok path_str
               end ;;
             Ok (pre ++ includegraphics ++ txt "{" ++ resolved
                   ++ txt "}" ++ post)))
    /\ (forall path_str : str,
          (add_ext joinpath exists_ work_dir path_str image_exts = Ok path_str
           /\ forall ext, In ext image_exts ->
                exists_ (joinpath work_dir (path_str ++ ext)) = Some false)
          \/ (exists earlier ext later,
                image_exts = earlier ++ ext :: later
                /\ add_ext joinpath exists_ work_dir path_str image_exts
                   = Ok (path_str ++ ext)
                /\ exists_ (joinpath work_dir (path_str ++ ext)) = Some true
                /\ forall e, In e earlier ->
                     exists_ (joinpath work_dir (path_str ++ e)) = Some false)
          \/ (exists earlier ext later,
                image_exts = earlier ++ ext :: later
                /\ add_ext joinpath exists_ work_dir path_str image_exts
                   = Raise OSError
                /\ exists_ (joinpath work_dir (path_str ++ ext)) = None
                /\ forall e, In e earlier ->
                     exists_ (joinpath work_dir (path_str ++ e)) = Some false)).
Proof.
  intros work_dir. split; [|split; [|split]].
  - intros content. apply fix_image_paths_cases.
  - intros content Hc. now apply fix_image_paths_checked.
  - intros pre path_str post Hpre Hpost Hne Hc.
    unfold _fix_image_paths, sub_res.
    destruct (@match_includegraphics path_str post (rev pre) Hc Hne)
      as (m & Hm & Hg1 & Hg2).
    replace (pre ++ includegraphics ++ txt "{" ++ path_str ++ txt "}" ++ post)
      with (pre ++ (includegraphics ++ txt "{" ++ path_str ++ txt "}") ++ post)
      by (now rewrite <- !app_assoc).
    rewrite (@scan_one_hit includegraphics_re pre _ post m).
    + rewrite sub_pieces_res_Txt_app. cbn [sub_pieces_res].
      unfold _fix_path. rewrite Hg1, Hg2. cbv zeta.
      destruct (match suffix path_str with
                | [] => add_ext joinpath exists_ work_dir path_str image_exts
                | _ => Ok path_str
                end) as [resolved| |]; cbn [bind]; trivial.
      rewrite sub_pieces_res_map_Txt.
      match goal with |- bind (bind ?X _) _ = _ =>
        change X with (Ok (includegraphics ++ txt "{" ++ resolved ++ txt "}"))
      end.
      cbn [bind]. now rewrite <- !app_assoc.
    + intros i Hi. apply match_here_head_lit.
      unfold includegraphics_re, L. cbn [seqs head_lit app].
      now apply plain_no_start.
    + discriminate.
    + rewrite <- !app_assoc. exact Hm.
    + intros i before. apply (@match_here_needs bsl); [reflexivity|].
      now apply char_in_skipn_false.
  - intros path_str. apply add_ext_first.
Qed.

End ImagePaths.

Section ImageExample.

Import Re Preprocessor PyMore Pipeline.

(** A directory with the figure as [fig.pdf] and as [fig.svg], on a file
    system that refuses a name of more than 255 characters. *)
Definition figures_exist (p : str) : option bool :=
  if 255 <? length (paper_name p) then None
  else Some (str_eqb p (txt "paper/fig.pdf") || str_eqb p (txt "paper/fig.svg")).

(** A name of three hundred characters. *)
Definition long_name : str := repeat "a"%char 300.

Lemma fix_image_paths_extension_witness :
  _fix_image_paths paper_join figures_exist paper_suffix
    (txt "See \includegraphics{fig} here.") (txt "paper")
  = Ok (txt "See \includegraphics{fig.pdf} here.")
  /\ _fix_image_paths paper_join figures_exist paper_suffix
       (txt "See \includegraphics{" ++ long_name ++ txt "} here.") (txt "paper")
     = Raise OSError.
Proof.
  split.
  - refine (proj1 (proj2 (proj2 (@fix_image_paths_extension str paper_join
                                   figures_exist paper_suffix (txt "paper"))))
                  (txt "See ") (txt "fig") (txt " here.") eq_refl eq_refl _ eq_refl).
    discriminate.
  - refine (proj1 (proj2 (proj2 (@fix_image_paths_extension str paper_join
                                   figures_exist paper_suffix (txt "paper"))))
                  (txt "See ") long_name (txt " here.") eq_refl eq_refl _ eq_refl).
    discriminate.
Defined.

End ImageExample.

(* ================================================================== *)
(** ** Where the pipeline can fail *)
(* ================================================================== *)

Section Failures.

Import Re Preprocessor PyMore Pipeline.

Lemma bind_returns {A B : Type} (x : res A) (k : A -> res B) :
  (exists a, x = Ok a) -> (forall a, exists b, k a = Ok b) ->
  exists b, bind x k = Ok b.
Proof. intros [a ->] Hk. apply Hk. Qed.

Lemma sub_returns (groups : nat) (r : regex) (repl s : str) :
  template_ok groups repl = true -> exists out, sub groups r repl s = Ok out.
Proof. intros H. destruct (@sub_total groups r repl s H) as [f ->]. now eexists. Qed.

(** A chain of substitutions with templates that the compiler accepts. *)
Ltac returns :=
  lazymatch goal with
  | |- exists out, bind ?x ?k = Ok out =>
      apply bind_returns;
      [ apply sub_returns; vm_compute; reflexivity
      | intros ?; cbv beta; returns ]
  | |- exists out, Ok _ = Ok out => eexists; reflexivity
  | |- _ => idtac
  end.

Lemma convert_theorems_returns (envs : list str) :
  Forall (fun env => template_ok 1 (txt "\\textbf{" ++ capitalize env ++ txt ".} ")
                     = true) envs ->
  forall content, exists out, convert_theorems envs content = Ok out.
Proof.
  induction 1 as [|env envs He _ IH]; intros content; cbn [convert_theorems].
  - now eexists.
  - apply bind_returns; [now apply sub_returns|]. intros c1.
    apply bind_returns; [now apply sub_returns|]. intros c2. apply IH.
Qed.

Lemma convert_environments_returns (content : str) :
  exists out, _convert_environments content = Ok out.
Proof.
  unfold _convert_environments. cbv zeta. returns.
  apply convert_theorems_returns. repeat constructor.
Qed.

Lemma final_cleanup_returns (content : str) :
  exists out, _final_cleanup content = Ok out.
Proof. unfold _final_cleanup. returns. Qed.

Section FileSystem.

Variable path : Type.
Variable joinpath : path -> str -> path.
Variable parent : path -> path.
Variable name : path -> str.
Variable exists_ : path -> option bool.
Variable read_text : path -> option str.
Variable glob_bib : path -> list path.
Variable suffix : str -> str.

(** The bibliography preparer returns its input without the matches of
    the style pattern, or raises [OSError]: the lookup of the file decides
    between the two and nothing else. *)
Lemma prepare_bibliography_cases (content : str) (work_dir : path) :
  _prepare_bibliography joinpath name exists_ glob_bib content work_dir
  = Ok (remove bibliographystyle_re content)
  \/ _prepare_bibliography joinpath name exists_ glob_bib content work_dir
     = Raise OSError.
Proof.
  unfold _prepare_bibliography, bib_lookup.
  destruct (search bibliography_re content) as [m|]; [|now left].
  cbv zeta. destruct (exists_ _) as [[|]|]; [now left | | now right].
  destruct (glob_bib work_dir); now left.
Qed.

Lemma prepare_bibliography_checked (content : str) (work_dir : path) :
  (forall p, exists_ p <> None) ->
  _prepare_bibliography joinpath name exists_ glob_bib content work_dir
  = Ok (remove bibliographystyle_re content).
Proof.
  intros Hc. unfold _prepare_bibliography, bib_lookup.
  destruct (search bibliography_re content) as [m|]; [|reflexivity].
  cbv zeta. destruct (exists_ _) as [[|]|] eqn:E;
    [reflexivity | | now apply Hc in E].
  now destruct (glob_bib work_dir).
Qed.

(** X16. Once the main file and the files it includes are read, the
    pipeline can fail in two places and in no other. The metadata are
    extracted and the text reaches the macro expander, whatever it is.
    When the expander raises, the pipeline raises the same. When it
    returns, the pipeline returns a result with the metadata extracted,
    or raises [OSError]; and it returns when no existence check raises:
    the checks of the image paths and of the bibliography file are the
    only ones left. *)
Theorem preprocess_failures :
  forall (tex_path : path) (fuel : nat) (content included : str),
    read_text tex_path = Some content ->
    _resolve_includes joinpath parent exists_ read_text fuel content
                      (parent tex_path) 0 = Ok included ->
    exists (metadata : PaperMetadata) (converted : str),
      _extract_metadata included = Ok metadata
      /\ _convert_environments
           (_strip_conference_commands (_strip_preamble included) metadata)
         = Ok converted
      /\ match _expand_simple_macros converted with
         | Ok _ =>
             (exists out,
                 preprocess joinpath parent name exists_ read_text glob_bib
                            suffix fuel tex_path = Ok (out, metadata))
             \/ preprocess joinpath parent name exists_ read_text glob_bib
                           suffix fuel tex_path = Raise OSError
         | Raise e =>
             preprocess joinpath parent name exists_ read_text glob_bib suffix
                        fuel tex_path = Raise e
         | OutOfFuel =>
             preprocess joinpath parent name exists_ read_text glob_bib suffix
                        fuel tex_path = OutOfFuel
         end
      /\ (forall expanded,
             _expand_simple_macros converted = Ok expanded ->
             (forall p, exists_ p <> None) ->
             exists out,
               preprocess joinpath parent name exists_ read_text glob_bib
                          suffix fuel tex_path = Ok (out, metadata)).
Proof.
  intros tex_path fuel content included Hr Hi.
  destruct (extract_metadata_fields included) as (metadata & Hm & _).
  destruct (convert_environments_returns
              (_strip_conference_commands (_strip_preamble included) metadata))
    as [converted Hc].
  exists metadata, converted. split; [exact Hm|]. split; [exact Hc|].
  unfold preprocess. rewrite Hr, Hi. cbn [bind]. rewrite Hm. cbn [bind].
  cbv zeta. rewrite Hc. cbn [bind].
  split.
  - destruct (_expand_simple_macros converted) as [expanded|e|]; cbn [bind];
      trivial.
    destruct (@fix_image_paths_cases path joinpath exists_ suffix expanded
                (parent tex_path)) as [[fixed ->]| ->];
      cbn [bind]; [|now right].
    destruct (prepare_bibliography_cases fixed (parent tex_path)) as [-> | ->];
      cbn [bind]; [|now right].
    destruct (final_cleanup_returns (remove bibliographystyle_re fixed))
      as [cleaned ->].
    cbn [bind]. left. now eexists.
  - intros expanded -> Hchecks. cbn [bind].
    destruct (@fix_image_paths_checked path joinpath exists_ suffix expanded
                (parent tex_path) Hchecks) as [fixed ->].
    cbn [bind].
    rewrite (prepare_bibliography_checked fixed (parent tex_path) Hchecks).
    cbn [bind].
    destruct (final_cleanup_returns (remove bibliographystyle_re fixed))
      as [cleaned ->].
    cbn [bind]. now eexists.
Qed.

End FileSystem.

Lemma preprocess_failures_witness :
  exists (metadata : PaperMetadata) (converted : str),
    _extract_metadata
      (txt "\newcommand{\R}{\mathbb{R}}" ++ [nl] ++ txt "Let $x \in \R$.")
    = Ok metadata
    /\ _convert_environments
         (_strip_conference_commands
            (_strip_preamble
               (txt "\newcommand{\R}{\mathbb{R}}" ++ [nl] ++ txt "Let $x \in \R$."))
            metadata)
       = Ok converted
    /\ match _expand_simple_macros converted with
       | Ok _ =>
           (exists out,
               preprocess paper_join paper_parent paper_name paper_exists
                          paper_read paper_glob paper_suffix 1
                          (txt "paper/reals.tex") = Ok (out, metadata))
           \/ preprocess paper_join paper_parent paper_name paper_exists
                         paper_read paper_glob paper_suffix 1
                         (txt "paper/reals.tex") = Raise OSError
       | Raise e =>
           preprocess paper_join paper_parent paper_name paper_exists
                      paper_read paper_glob paper_suffix 1
                      (txt "paper/reals.tex") = Raise e
       | OutOfFuel =>
           preprocess paper_join paper_parent paper_name paper_exists
                      paper_read paper_glob paper_suffix 1
                      (txt "paper/reals.tex") = OutOfFuel
       end.
Proof.
  destruct (@preprocess_failures str paper_join paper_parent paper_name
              paper_exists paper_read paper_glob paper_suffix
              (txt "paper/reals.tex") 1 _ _ eq_refl eq_refl)
    as (metadata & converted & H1 & H2 & H3 & _).
  exists metadata, converted. repeat split; assumption.
Defined.

(** The macro of [reals.tex] makes the expander raise, and the pipeline
    with it. *)
Lemma preprocess_reals_raises :
  preprocess paper_join paper_parent paper_name paper_exists paper_read
             paper_glob paper_suffix 1 (txt "paper/reals.tex")
  = Raise TemplateError.
Proof. vm_compute. reflexivity. Qed.

End Failures.

(* ================================================================== *)
(** ** Stages that only delete *)
(* ================================================================== *)

Section OnlyDelete.

Import Re Preprocessor PyMore Pipeline.

Lemma subseq_refl {A : Type} (l : list A) : subseq l l.
Proof. induction l; now constructor. Qed.

Lemma subseq_empty {A : Type} (l : list A) : subseq [] l.
Proof. induction l; now constructor. Qed.

Lemma subseq_trans {A : Type} (a b c : list A) :
  subseq a b -> subseq b c -> subseq a c.
Proof.
  intros Hab Hbc. revert a Hab.
  induction Hbc as [|x b c Hbc IH|x b c Hbc IH]; intros a Hab.
  - exact Hab.
  - inversion Hab; subst.
    + constructor. now apply IH.
    + apply subseq_drop. now apply IH.
  - apply subseq_drop. now apply IH.
Qed.

Lemma subseq_app {A : Type} (a a' b b' : list A) :
  subseq a a' -> subseq b b' -> subseq (a ++ b) (a' ++ b').
Proof.
  intros Ha Hb. induction Ha; simpl; trivial; now constructor.
Qed.

Lemma subseq_app_drop {A : Type} (w b b' : list A) :
  subseq b b' -> subseq b (w ++ b').
Proof. intros H. apply (@subseq_app _ [] w b b'); trivial. apply subseq_empty. Qed.

(** What a deletion keeps is the text with the matches left out. *)
Lemma kept_subseq (ps : list piece) : subseq (kept ps) (whole ps).
Proof.
  unfold kept, whole. induction ps as [|[c|m] ps IH]; cbn [sub_pieces map concat].
  - constructor.
  - cbn [piece_text app]. now constructor.
  - cbn [piece_text app]. now apply subseq_app_drop.
Qed.

Lemma remove_subseq (r : regex) (s : str) : subseq (remove r s) s.
Proof.
  rewrite remove_kept. rewrite <- (scan_whole r s) at 2. apply kept_subseq.
Qed.

Lemma remove_all_subseq (pats : list regex) (s : str) :
  subseq (remove_all pats s) s.
Proof.
  unfold remove_all. revert s.
  induction pats as [|r pats IH]; intros s; cbn [fold_left].
  - apply subseq_refl.
  - eapply subseq_trans; [apply IH | apply remove_subseq].
Qed.

Lemma remove_each_subseq {A : Type} (f : A -> regex) (l : list A) (s : str) :
  subseq (fold_left (fun content x => remove (f x) content) l s) s.
Proof.
  revert s. induction l as [|x l IH]; intros s; cbn [fold_left].
  - apply subseq_refl.
  - eapply subseq_trans; [apply IH | apply remove_subseq].
Qed.

(** Lines left out are characters left out. *)
Lemma join_subseq (sep : str) (a b : list str) :
  subseq a b -> subseq (join sep a) (join sep b).
Proof.
  induction 1 as [|x a b H IH|x a b H IH].
  - constructor.
  - destruct a as [|y a].
    + destruct b as [|z b]; [apply subseq_refl|].
      cbn [join]. rewrite <- (app_nil_r x) at 1.
      apply subseq_app; [apply subseq_refl | apply subseq_empty].
    + destruct b as [|z b]; [inversion H|].
      change (join sep (x :: y :: a)) with (x ++ sep ++ join sep (y :: a)).
      change (join sep (x :: z :: b)) with (x ++ sep ++ join sep (z :: b)).
      apply subseq_app; [apply subseq_refl|].
      apply subseq_app; [apply subseq_refl | exact IH].
  - destruct b as [|z b].
    + inversion H. apply subseq_empty.
    + change (join sep (x :: z :: b)) with (x ++ sep ++ join sep (z :: b)).
      apply subseq_app_drop, subseq_app_drop. exact IH.
Qed.

Lemma dedupe_subseq (lines seen : list str) : subseq (dedupe lines seen) lines.
Proof. apply dedupe_invariants. Qed.

Lemma dedupe_lines_subseq (s : str) :
  subseq (join [nl] (dedupe (split_on nl s) [])) s.
Proof.
  rewrite <- (join_split_on nl s) at 2. apply join_subseq, dedupe_subseq.
Qed.

(** A chain of deletions, from the last back to the first. *)
Ltac deletes c :=
  lazymatch goal with
  | |- subseq c c => apply subseq_refl
  | |- subseq (remove ?r ?x) _ =>
      apply (@subseq_trans _ _ x c); [apply remove_subseq | deletes c]
  | |- subseq (remove_all ?rs ?x) _ =>
      apply (@subseq_trans _ _ x c); [apply remove_all_subseq | deletes c]
  | |- subseq (fold_left _ _ ?x) _ =>
      apply (@subseq_trans _ _ x c);
      [apply (@remove_each_subseq _ problematic_re) | deletes c]
  | |- subseq (join _ (dedupe (split_on _ ?x) _)) _ =>
      apply (@subseq_trans _ _ x c); [apply dedupe_lines_subseq | deletes c]
  end.

Section FileSystem.

Variable path : Type.
Variable joinpath : path -> str -> path.
Variable name : path -> str.
Variable exists_ : path -> option bool.
Variable glob_bib : path -> list path.

(** X17. The preamble stripper, the stripper of conference commands and
    the bibliography preparer only delete: what they return is their input
    with some of its characters left out, the others in their order. No
    text is added, changed or moved. The first two always return; the
    bibliography preparer returns such a text or raises [OSError], and it
    returns when no existence check raises. *)
Theorem strippers_only_delete :
  forall (content : str) (meta : PaperMetadata) (work_dir : path),
    subseq (_strip_preamble content) content
    /\ subseq (_strip_conference_commands content meta) content
    /\ match _prepare_bibliography joinpath name exists_ glob_bib content
                                   work_dir with
       | Ok out => subseq out content
       | Raise e => e = OSError
       | OutOfFuel => False
       end
    /\ ((forall p, exists_ p <> None) ->
        exists out,
          _prepare_bibliography joinpath name exists_ glob_bib content work_dir
          = Ok out
          /\ subseq out content).
Proof.
  intros content meta work_dir. split; [|split; [|split]].
  - unfold _strip_preamble. cbv zeta. deletes content.
  - unfold _strip_conference_commands, strip_twocolumn. cbv zeta. deletes content.
  - destruct (@prepare_bibliography_cases path joinpath name exists_ glob_bib
                content work_dir) as [-> | ->];
      [apply remove_subseq | reflexivity].
  - intros Hc.
    rewrite (@prepare_bibliography_checked path joinpath name exists_ glob_bib
               content work_dir Hc).
    eexists. split; [reflexivity | apply remove_subseq].
Qed.

End FileSystem.

End OnlyDelete.

(* ================================================================== *)
(** ** The bibliography preparer *)
(* ================================================================== *)

Section Bibliography.

Import Re Preprocessor.

(** A greedy repetition of a class takes the whole run of the class that
    the text begins with, when the continuation accepts after it. *)
Lemma star_greedy_all (p : ascii -> bool) k (s sn : str)
  (cp : list (nat * str)) out :
  k (MState (rev (firstn (run_len p s) s) ++ sn) (skipn (run_len p s) s) cp)
  = Some out ->
  star_loop true (run (Cls p)) k (length s) (MState sn s cp) = Some out.
Proof.
  intros Hk. destruct (run_len_split p s) as (Hs & Hp & Htl & Hl).
  assert (Hle : length (firstn (run_len p s) s) <= length s)
    by (rewrite length_firstn; lia).
  pose proof (@star_greedy_run p k _ cp out Htl _ sn (length s) Hle Hp Hk) as H.
  now rewrite <- Hs in H.
Qed.

(** A match of the style pattern: the directive with its argument, and
    all the white space that follows it. *)
Lemma bibliographystyle_hit (before post : str) adv m n :
  match_here bibliographystyle_re adv before post = Some (m, n) ->
  exists arg ws post',
    post = m_text m ++ post'
    /\ m_text m = txt "\bibliographystyle{" ++ arg ++ txt "}" ++ ws
    /\ forallb (fun c => negb (char_in c (txt "}"))) arg = true
    /\ forallb is_space ws = true
    /\ match post' with [] => True | c :: _ => is_space c = false end.
Proof.
  intros H. pose proof (@match_here_text _ _ _ _ _ _ H) as (HT & HL & _).
  unfold match_here in H.
  destruct (run _ _ _) as [st|] eqn:E; [|discriminate].
  injection H as <- <-.
  unfold bibliographystyle_re, braces, tail_ws, L in E. cbn [seqs] in E.
  cbn [run rest seen caps] in E.
  destruct (starts_with (txt "\bibliographystyle") post) eqn:E1; [|discriminate].
  apply starts_with_inv in E1.
  set (r1 := skipn (length (txt "\bibliographystyle")) post) in *.
  destruct (starts_with (txt "{") r1) eqn:E2; [|discriminate].
  apply starts_with_inv in E2. set (r2 := skipn _ r1) in *.
  apply star_class_sound in E as (st1 & arg & Hk & [R1 S1] & Harg).
  cbn [rest seen] in R1, S1.
  destruct (starts_with (txt "}") (rest st1)) eqn:E3; [|discriminate].
  apply starts_with_inv in E3. set (r3 := skipn _ (rest st1)) in *.
  destruct (run_len_split is_space r3) as (Hs & Hws & Htl & _).
  set (ws := firstn (run_len is_space r3) r3) in *.
  set (tl := skipn (run_len is_space r3) r3) in *.
  assert (Hpost : post = (txt "\bibliographystyle{" ++ arg ++ txt "}" ++ ws) ++ tl).
  { rewrite E1, E2, R1, E3, Hs. now rewrite <- !app_assoc. }
  assert (Hnl : starts_with [nl] tl = false).
  { destruct tl as [|c tl']; [reflexivity|]. cbn [starts_with].
    destruct (Ascii.eqb nl c) eqn:Ec; [|reflexivity].
    apply Ascii.eqb_eq in Ec. subst c. discriminate Htl. }
  assert (Hlen : (length tl =? length post) = false).
  { apply Nat.eqb_neq. rewrite Hpost, !length_app. simpl. lia. }
  match type of Hk with
  | star_loop true _ ?k _ (MState ?sn _ ?cp) = _ =>
      assert (Hf : k (MState (rev ws ++ sn) tl cp)
                   = Some (MState (rev ws ++ sn) tl cp))
  end.
  { unfold Opt. cbn [run rest seen caps]. rewrite Hnl.
    now rewrite Hlen, andb_false_r. }
  apply star_greedy_all in Hf. unfold Space in Hk. rewrite Hf in Hk.
  injection Hk as <-.
  assert (Htxt : forall sn cp,
             firstn (consumed post (MState sn tl cp)) post
             = txt "\bibliographystyle{" ++ arg ++ txt "}" ++ ws).
  { intros sn cp. unfold consumed. cbn [rest]. rewrite Hpost. rewrite length_app, Nat.add_sub.
    now rewrite firstn_app, firstn_all, Nat.sub_diag, app_nil_r. }
  exists arg, ws, tl. cbn [m_text]. rewrite Htxt.
  split; [exact Hpost|]. split; [reflexivity|]. split; [exact Harg|].
  split; [exact Hws|].
  destruct tl as [|c tl']; [exact I|]. now apply negb_true_iff.
Qed.
(** The file name that the lookup checks: the name declared, with the
    default extension when it has none. *)
Definition declared_bib (m : rmatch) : str :=
  let bib_name := group_or_empty m 1 in
  if negb (endswith bib_name (txt ".bib")) then bib_name ++ txt ".bib"
  else bib_name.

Section FileSystem.

Variable path : Type.
Variable joinpath : path -> str -> path.
Variable name : path -> str.
Variable exists_ : path -> option bool.
Variable glob_bib : path -> list path.

Lemma prepare_bibliography_lookup (content : str) (work_dir : path) (m : rmatch) :
  search bibliography_re content = Some m ->
  exists_ (joinpath work_dir (declared_bib m)) = None ->
  _prepare_bibliography joinpath name exists_ glob_bib content work_dir
  = Raise OSError.
Proof.
  intros Hm He. unfold _prepare_bibliography, bib_lookup. rewrite Hm.
  cbv zeta.
  destruct (exists_ _) as [[|]|]; [discriminate He.. | reflexivity].
Qed.

(** X18. What the bibliography preparer deletes, when it returns: every
    match of the style pattern, found from left to right, and nothing
    else. A match is the directive [\bibliographystyle], its argument in
    braces, and all the white space that follows the closing brace, line
    ends and blank lines included, up to the next character that is not
    white space. What is left is the text between the matches, unchanged.
    The preparer returns this text or raises [OSError], and it returns
    when no existence check raises. *)
Theorem prepare_bibliography_deletes :
  forall (content : str) (work_dir : path),
    let ps := scan bibliographystyle_re content in
    (_prepare_bibliography joinpath name exists_ glob_bib content work_dir
     = Ok (kept ps)
     \/ _prepare_bibliography joinpath name exists_ glob_bib content work_dir
        = Raise OSError)
    /\ ((forall p, exists_ p <> None) ->
        _prepare_bibliography joinpath name exists_ glob_bib content work_dir
        = Ok (kept ps))
    /\ whole ps = content
    /\ (forall m, In m (hits ps) ->
          exists pre arg ws post,
            content = pre ++ m_text m ++ post
            /\ m_text m = txt "\bibliographystyle{" ++ arg ++ txt "}" ++ ws
            /\ forallb (fun c => negb (char_in c (txt "}"))) arg = true
            /\ forallb is_space ws = true
            /\ match post with [] => True | c :: _ => is_space c = false end).
Proof.
  intros content work_dir ps. split; [|split; [|split]].
  - unfold ps. rewrite <- remove_kept.
    apply (@prepare_bibliography_cases path joinpath name exists_ glob_bib).
  - intros Hc. unfold ps. rewrite <- remove_kept.
    now apply (@prepare_bibliography_checked path joinpath name exists_ glob_bib).
  - apply scan_whole.
  - intros m Hm. apply scan_located in Hm as (pre & post & adv & n & Hs & Hm).
    apply bibliographystyle_hit in Hm as (arg & ws & post' & -> & Ht & Ha & Hw & Hp).
    exists pre, arg, ws, post'. now repeat split.
Qed.

End FileSystem.

(** The directive on a line of its own, with a blank line after it: the
    line and the blank line go with it. *)
Lemma prepare_bibliography_blank_line :
  _prepare_bibliography paper_join paper_name paper_exists paper_glob
    (txt "See \cite{k}." ++ [nl] ++ txt "\bibliographystyle{plain}" ++ [nl] ++ [nl]
     ++ txt "  \bibliography{refs}")
    (txt "paper")
  = Ok (txt "See \cite{k}." ++ [nl] ++ txt "\bibliography{refs}").
Proof. vm_compute. reflexivity. Qed.

(** C10, where the code departs from it. The stage looks the declared
    file up before it deletes the style directives, and the existence
    check can raise: when the file system refuses the name, the stage
    raises [OSError] and returns no text, on a document that holds no
    style directive at all. So the outcome does depend on the lookup. It
    depends on it in this way only: the stage raises [OSError], or it
    returns the text without the matches of the style pattern, whichever
    files exist. *)
Theorem prepare_bibliography_raises :
  (forall (path : Type) (joinpath : path -> str -> path) (name : path -> str)
          (exists_ : path -> option bool) (glob_bib : path -> list path)
          (content : str) (work_dir : path) (m : rmatch),
      search bibliography_re content = Some m ->
      exists_ (joinpath work_dir (declared_bib m)) = None ->
      _prepare_bibliography joinpath name exists_ glob_bib content work_dir
      = Raise OSError)
  /\ _prepare_bibliography paper_join paper_name paper_exists paper_glob
       (txt "\bibliography{" ++ long_name ++ txt "}") (txt "paper")
     = Raise OSError
  /\ remove bibliographystyle_re (txt "\bibliography{" ++ long_name ++ txt "}")
     = txt "\bibliography{" ++ long_name ++ txt "}"
  /\ (forall (path : Type) (joinpath : path -> str -> path) (name : path -> str)
             (exists_ : path -> option bool) (glob_bib : path -> list path)
             (content : str) (work_dir : path),
         _prepare_bibliography joinpath name exists_ glob_bib content work_dir
         = Ok (remove bibliographystyle_re content)
         \/ _prepare_bibliography joinpath name exists_ glob_bib content work_dir
            = Raise OSError).
Proof.
  split; [|split; [|split]].
  - intros. now apply prepare_bibliography_lookup with (m := m).
  - vm_compute. reflexivity.
  - vm_compute. reflexivity.
  - intros. apply prepare_bibliography_cases.
Qed.

End Bibliography.
